(** * Sentinel navigation core: grid indexing, A* / JPS planners, executor

    A shallow embedding of [nav_astar.py] and of the GotoLocation executor
    of [models/eval/eval_llm_astar.py].

    Number model.  The Python code works on floats.  Coordinates are carried
    here as exact decimal numbers with [PRECISION] = 2 fractional digits,
    stored as their integer number of hundredths ([Z]); on such values
    [round(x, 2)] is the identity and [STEP_SIZE] = 0.25 is [25].  Yaw and
    camera-tilt readings are exact rationals ([Q]).  The Euclidean heuristic
    of A* is kept exact (an integer plus a square root, compared by integer
    arithmetic), so every float operation is read as the real operation it
    approximates. *)

From Stdlib Require Import ZArith QArith Qround Lia List Bool String.
From Stdlib Require Import Reals Lra Psatz.
From stdpp Require Import base option list gmap.
Import ListNotations.
Local Open Scope Z_scope.

(** ** Actions *)

Inductive Action : Type :=
  | MoveAhead
  | RotateLeft
  | RotateRight
  | LookUp
  | LookDown.

#[global] Instance Action_eq_dec : EqDecision Action.
Proof. solve_decision. Defined.

Definition Action_eqb (a b : Action) : bool := bool_decide (a = b).

(** Number of occurrences of an action in a plan. *)
Definition count_action (a : Action) (plan : list Action) : nat :=
  length (filter (fun b => b = a) plan).

(** [a < b] on rationals. *)
Definition Qltb (a b : Q) : bool := negb (Qle_bool b a).

(** ** Grid indexer *)

Module Grid.

(** STEP_SIZE = 0.25 and PRECISION = 2, in hundredths. *)
Definition STEP_SIZE : Z := 25.

Definition PositionKey : Type := (Z * Z)%type.

(** A reachable-position record: the dict with keys "x", "y", "z". *)
Record Position : Type := mkPos { px : Z; py : Z; pz : Z }.

(** CARDINAL_DIRECTIONS, in the dict's insertion order 0, 90, 180, 270. *)
Definition CARDINAL_DIRECTIONS : list (Z * (Z * Z)) :=
  [ (0, (0, STEP_SIZE));
    (90, (STEP_SIZE, 0));
    (180, (0, - STEP_SIZE));
    (270, (- STEP_SIZE, 0)) ].

Definition cardinal_direction (yaw : Z) : option (Z * Z) :=
  snd <$> List.find (fun e => Z.eqb (fst e) yaw) CARDINAL_DIRECTIONS.

(** DIR_TO_YAW *)
Definition DIR_TO_YAW (d : Z * Z) : option Z :=
  match d with
  | (0, 1) => Some 0
  | (1, 0) => Some 90
  | (0, -1) => Some 180
  | (-1, 0) => Some 270
  | _ => None
  end.

(** [make_key]: [round] at the precision the coordinates are carried at. *)
Definition make_key (x z : Z) : PositionKey := (x, z).

(** [normalize_yaw]: int((floor((yaw + 45.0) / 90.0) * 90.0) % 360.0). *)
Definition normalize_yaw (yaw : Q) : Z :=
  (Qfloor ((yaw + 45) / 90) * 90) mod 360.

(** The formula as the specification words it. *)
Definition normalize_yaw_spec (yaw : Q) : Z :=
  Z.modulo (Z.mul (Qfloor (Qdiv (Qplus yaw (45 # 1)) (90 # 1))) 90) 360.

Definition cardinal (h : Z) : Prop := h = 0 \/ h = 90 \/ h = 180 \/ h = 270.

Definition cardinalb (h : Z) : bool :=
  Z.eqb h 0 || Z.eqb h 90 || Z.eqb h 180 || Z.eqb h 270.

End Grid.

(** ** Rotation decomposer *)

Module Rotation.

(** Python's [round] on a float: nearest integer, ties to even. *)
Definition py_round (q : Q) : Z :=
  let f := Qfloor q in
  match Qcompare (q - inject_Z f) (1 # 2) with
  | Lt => f
  | Gt => f + 1
  | Eq => if Z.even f then f else f + 1
  end.

(** [["a"] * n]: the empty list when [n <= 0]. *)
Definition py_repeat (a : Action) (n : Z) : list Action :=
  repeat a (Z.to_nat n).

(** [_rotation_actions(current_yaw, target_yaw)] of nav_astar.py. *)
Definition _rotation_actions (current_yaw target_yaw : Z) : list Action :=
  let diff := (target_yaw - current_yaw) mod 360 in
  if diff =? 0 then []
  else if diff =? 90 then [RotateRight]
  else if diff =? 180 then [RotateRight; RotateRight]
  else if diff =? 270 then [RotateLeft]
  else if diff <? 180 then
    py_repeat RotateRight (py_round (inject_Z diff / 90))
  else
    py_repeat RotateLeft (py_round ((360 - inject_Z diff) / 90)).

(** [EvalLLMAstar._turn_actions(current_yaw, desired_yaw)]; [None] is the
    Python [None] of [Optional[float]]. *)
Definition _turn_actions (current_yaw : Q) (desired_yaw : option Q)
  : list Action :=
  match desired_yaw with
  | None => []
  | Some d =>
    let current := Grid.normalize_yaw current_yaw in
    let desired := Grid.normalize_yaw d in
    let diff := (desired - current) mod 360 in
    if diff =? 0 then []
    else if diff =? 90 then [RotateRight]
    else if diff =? 180 then [RotateRight; RotateRight]
    else if diff =? 270 then [RotateLeft]
    else if diff <? 180 then
      py_repeat RotateRight (py_round (inject_Z diff / 90))
    else
      py_repeat RotateLeft (py_round ((360 - inject_Z diff) / 90))
  end.

End Rotation.

(** ** Exceptions and results *)

Inductive Exn : Type :=
  | RuntimeError (msg : string)
  | ValueError (msg : string)
  | KeyError
  | TypeError
  | AttributeError.

(** Outcome of a call: a value, a raised exception, or the bound on the
    number of loop iterations was used up before the call finished. *)
Inductive Result (A : Type) : Type :=
  | Ok (a : A)
  | Raise (e : Exn)
  | OutOfFuel.

Arguments Ok {A} a.
Arguments Raise {A} e.
Arguments OutOfFuel {A}.

Definition rbind {A B : Type} (r : Result A) (k : A -> Result B) : Result B :=
  match r with
  | Ok a => k a
  | Raise e => Raise e
  | OutOfFuel => OutOfFuel
  end.

#[global] Instance Result_ret : MRet Result := fun A a => Ok a.
#[global] Instance Result_bind : MBind Result := fun A B k r => rbind r k.

(** [d[k]] on a lookup result: a missing key raises KeyError. *)
Definition getitem {A : Type} (o : option A) : Result A :=
  match o with
  | Some a => Ok a
  | None => Raise KeyError
  end.

Definition msg_astar_no_path : string := "No path found to target".
Definition msg_jps_no_path : string := "No path found to target using JPS".
Definition msg_diagonal : string := "Diagonal movement is not supported".

(** ** Node tables: insertion-ordered dictionaries *)

Module Table.
Import Grid.

(** A Python dict keeps its keys in insertion order; iteration, [min] and
    [items()] follow that order. *)
Definition NodeTable : Type := list (PositionKey * Position).
Definition Adjacency : Type := list (PositionKey * list PositionKey).

Definition key_eqb (a b : PositionKey) : bool :=
  (fst a =? fst b) && (snd a =? snd b).

Fixpoint dict_get {V : Type} (d : list (PositionKey * V)) (k : PositionKey)
  : option V :=
  match d with
  | [] => None
  | (k', v) :: rest => if key_eqb k' k then Some v else dict_get rest k
  end.

(** [k in d] *)
Definition dict_mem {V : Type} (d : list (PositionKey * V)) (k : PositionKey)
  : bool :=
  match dict_get d k with Some _ => true | None => false end.

(** [d[k] = v]: an existing key keeps its place, a new key goes last. *)
Fixpoint dict_set {V : Type} (d : list (PositionKey * V)) (k : PositionKey)
  (v : V) : list (PositionKey * V) :=
  match d with
  | [] => [(k, v)]
  | (k', v') :: rest =>
    if key_eqb k' k then (k', v) :: rest else (k', v') :: dict_set rest k v
  end.

Definition dict_keys {V : Type} (d : list (PositionKey * V))
  : list PositionKey := map fst d.

(** [k in lst] for a list of keys. *)
Definition key_in (k : PositionKey) (l : list PositionKey) : bool :=
  existsb (key_eqb k) l.

(** [build_node_lookup(positions)] *)
Definition build_node_lookup (positions : list Position) : NodeTable :=
  fold_left (fun d pos => dict_set d (make_key (px pos) (pz pos)) pos)
            positions [].

(** Squared horizontal distance used as the [min] key in [nearest_key]. *)
Definition dist2 (a b : Position) : Z :=
  (px a - px b) ^ 2 + (pz a - pz b) ^ 2.

(** [min(iterable, key=f)]: the first element, in iteration order, whose
    key is smallest; [None] stands for the ValueError on an empty table. *)
Fixpoint py_min_by {A : Type} (f : A -> Z) (l : list A) : option A :=
  match l with
  | [] => None
  | a :: rest =>
    match py_min_by f rest with
    | None => Some a
    | Some b => if f b <? f a then Some b else Some a
    end
  end.

(** [nearest_key(nodes, position)] *)
Definition nearest_key (nodes : NodeTable) (position : Position)
  : Result PositionKey :=
  let key := make_key (px position) (pz position) in
  if dict_mem nodes key then Ok key
  else
    match py_min_by (fun kv => dist2 (snd kv) position) nodes with
    | Some kv => Ok (fst kv)
    | None => Raise (ValueError "min() arg is an empty sequence")
    end.

(** [build_adjacency(nodes)] *)
Definition neighbors_of (nodes : NodeTable) (position : Position)
  : list PositionKey :=
  omap (fun d : Z * (Z * Z) =>
          let '(_, (dx, dz)) := d in
          let neighbor_key := make_key (px position + dx) (pz position + dz) in
          if dict_mem nodes neighbor_key then Some neighbor_key else None)
       CARDINAL_DIRECTIONS.

Definition build_adjacency (nodes : NodeTable) : Adjacency :=
  map (fun kv : PositionKey * Position =>
         (fst kv, neighbors_of nodes (snd kv))) nodes.

End Table.

(** ** A* planner (heading-aware) *)

Module AStar.
Import Grid Table.

(** A search state: (position key, heading). *)
Definition State : Type := (PositionKey * Z)%type.

(** Value of [g + hypot(dx, dz) / step_size], kept exact: [fbase] is the
    integer part [g] and [frad] the radicand [dx^2 + dz^2] in squared
    hundredths; the record stands for [fbase + sqrt frad / STEP_SIZE]. *)
Record FVal : Type := mkF { fbase : Z; frad : Z }.

(** The real number an [FVal] stands for. *)
Definition fval_R (a : FVal) : R :=
  (IZR (fbase a) + sqrt (IZR (frad a)) / 25)%R.

(** [sqrt n < d + sqrt m], decided on integers ([n], [m] non-negative). *)
Definition sqrt_lt_plus (n d m : Z) : bool :=
  if 0 <=? d then
    let t := n - d * d - m in
    (t <? 0) || (t * t <? 4 * d * d * m)
  else
    let e := - d in
    let u := m - n - e * e in
    (0 <? u) && (4 * e * e * n <? u * u).

(** [a < b] on the floats the records stand for. *)
Definition fval_ltb (a b : FVal) : bool :=
  sqrt_lt_plus (frad a) (STEP_SIZE * (fbase b - fbase a)) (frad b).

(** [a == b] *)
Definition fval_eqb (a b : FVal) : bool :=
  negb (fval_ltb a b) && negb (fval_ltb b a).

(** An open-list item: the tuple (f, g, next(counter), state). *)
Record Entry : Type :=
  mkEntry { e_f : FVal; e_g : Z; e_seq : Z; e_state : State }.

(** [<] on (key, yaw) tuples: lexicographic on x, z, yaw. *)
Definition state_ltb (a b : State) : bool :=
  let '((x1, z1), y1) := a in
  let '((x2, z2), y2) := b in
  if negb (x1 =? x2) then x1 <? x2
  else if negb (z1 =? z2) then z1 <? z2
  else y1 <? y2.

(** Python's [<] on the heap tuples: the first component on which the two
    tuples differ decides. *)
Definition entry_ltb (a b : Entry) : bool :=
  if negb (fval_eqb (e_f a) (e_f b)) then fval_ltb (e_f a) (e_f b)
  else if negb (e_g a =? e_g b) then e_g a <? e_g b
  else if negb (e_seq a =? e_seq b) then e_seq a <? e_seq b
  else state_ltb (e_state a) (e_state b).

(** [heapq]: the open list is kept as the collection of its items;
    [heappop] removes and returns the smallest item under [<], which is
    what the binary heap of the library delivers. *)
Definition heappush {E : Type} (heap : list E) (item : E) : list E :=
  item :: heap.

Fixpoint heappop {E : Type} (ltb : E -> E -> bool) (heap : list E)
  : option (E * list E) :=
  match heap with
  | [] => None
  | e :: rest =>
    match heappop ltb rest with
    | None => Some (e, [])
    | Some (m, rest') =>
      if ltb m e then Some (m, e :: rest') else Some (e, rest)
    end
  end.

(** The mutable variables of the search loop. *)
Record Search : Type := mkSearch {
  open_heap : list Entry;
  came_from : gmap State (State * Action);
  g_score : gmap State Z;
  counter : Z
}.

Section Planner.

Variable nodes : NodeTable.
Variable adjacency : Adjacency.
Variable goal_key : PositionKey.

(** [heuristic(key)]: the radicand of [hypot(dx, dz)]; the division by
    [step_size] is carried by [FVal]. *)
Definition heuristic (key : PositionKey) : Result Z :=
  pos ← getitem (dict_get nodes key);
  goal ← getitem (dict_get nodes goal_key);
  Ok ((px pos - px goal) ^ 2 + (pz pos - pz goal) ^ 2).

(** [tentative_g < g_score.get(state, float("inf"))] *)
Definition improves (st : Search) (tentative_g : Z) (s : State) : bool :=
  match g_score st !! s with
  | Some g => tentative_g <? g
  | None => true
  end.

(** The body shared by the three operators: record the better cost and
    parent, then push (tentative_g + heuristic(hkey), tentative_g,
    next(counter), new_state). *)
Definition relax (st : Search) (current_state : State) (tentative_g : Z)
  (new_state : State) (a : Action) (hkey : PositionKey) : Result Search :=
  if improves st tentative_g new_state then
    h ← heuristic hkey;
    Ok {| open_heap :=
            heappush (open_heap st)
              (mkEntry (mkF tentative_g h) tentative_g (counter st) new_state);
          came_from := <[new_state := (current_state, a)]> (came_from st);
          g_score := <[new_state := tentative_g]> (g_score st);
          counter := counter st + 1 |}
  else Ok st.

(** The path reconstruction loop [while current_state in came_from]; every
    step back lowers the recorded cost by at least one, so the cost of the
    popped item bounds the number of steps. *)
Fixpoint reconstruct (fuel : nat) (cf : gmap State (State * Action))
  (current_state : State) (actions : list Action) : Result (list Action) :=
  match cf !! current_state with
  | None => Ok (rev actions)
  | Some (prev_state, a) =>
    match fuel with
    | O => OutOfFuel
    | S fuel' => reconstruct fuel' cf prev_state (actions ++ [a])
    end
  end.

(** One iteration of [while open_heap], after the pop, for a state that is
    not at the goal: the three operators in source order. *)
Definition expand (st : Search) (current_g : Z) (current_state : State)
  : Result Search :=
  let '(current_pos, current_yaw) := current_state in
  st1 ← relax st current_state (current_g + 1)
         (current_pos, (current_yaw - 90) mod 360) RotateLeft current_pos;
  st2 ← relax st1 current_state (current_g + 1)
         (current_pos, (current_yaw + 90) mod 360) RotateRight current_pos;
  d ← getitem (cardinal_direction current_yaw);
  pos ← getitem (dict_get nodes current_pos);
  let neighbor_key := make_key (px pos + fst d) (pz pos + snd d) in
  adj ← getitem (dict_get adjacency current_pos);
  if key_in neighbor_key adj then
    relax st2 current_state (current_g + 1)
      (neighbor_key, current_yaw) MoveAhead neighbor_key
  else Ok st2.

Fixpoint astar_loop (fuel : nat) (st : Search) : Result (list Action) :=
  match fuel with
  | O => OutOfFuel
  | S fuel' =>
    match heappop entry_ltb (open_heap st) with
    | None => Raise (RuntimeError msg_astar_no_path)
    | Some (e, rest) =>
      let st' := mkSearch rest (came_from st) (g_score st) (counter st) in
      if key_eqb (fst (e_state e)) goal_key then
        reconstruct (Z.to_nat (e_g e)) (came_from st') (e_state e) []
      else
        st'' ← expand st' (e_g e) (e_state e);
        astar_loop fuel' st''
    end
  end.

End Planner.

(** A bound on the number of iterations of the search loop for a table of
    [n] nodes: there are at most [4 n] states and every push lowers the
    recorded cost of one of them. *)
Definition astar_fuel (nodes : NodeTable) : nat :=
  let n := (4 * length nodes)%nat in (2 * n * (n + 2) + 2)%nat.

(** [astar_actions(nodes, adjacency, start_key, start_yaw, goal_key)],
    called without [stats]. *)
Definition astar_actions (nodes : NodeTable) (adjacency : Adjacency)
  (start_key : PositionKey) (start_yaw : Z) (goal_key : PositionKey)
  : Result (list Action) :=
  if key_eqb start_key goal_key then Ok []
  else
    h0 ← heuristic nodes goal_key start_key;
    let start_state := (start_key, start_yaw) in
    astar_loop nodes adjacency goal_key (astar_fuel nodes)
      {| open_heap := heappush [] (mkEntry (mkF 0 h0) 0 0 start_state);
         came_from := ∅;
         g_score := {[ start_state := 0 ]};
         counter := 1 |}.

End AStar.

(** ** JPS planner (orthogonal-only jump point search) *)

Module JPS.
Import Grid Table Rotation.

(** [abs(d) > 1e-6] for a coordinate difference [d] in hundredths. *)
Definition abs_gt_eps (d : Z) : bool :=
  negb (Qle_bool (Z.abs d # 100) (1 # 1000000)).

(** [int(round(d / STEP_SIZE))] *)
Definition round_steps (d : Z) : Z :=
  py_round (inject_Z d / inject_Z STEP_SIZE).

(** [movement_cost(nodes, a, b)] *)
Definition movement_cost (nodes : NodeTable) (a b : PositionKey) : Result Q :=
  na ← getitem (dict_get nodes a);
  nb ← getitem (dict_get nodes b);
  let dx := Z.abs (px na - px nb) in
  let dz := Z.abs (pz na - pz nb) in
  Ok (inject_Z (dx + dz) / inject_Z STEP_SIZE)%Q.

(** [_is_walkable(nodes, x, z)] *)
Definition _is_walkable (nodes : NodeTable) (x z : Z) : bool :=
  dict_mem nodes (make_key x z).

(** [_forced_neighbor_exists(nodes, key, direction)] *)
Definition _forced_neighbor_exists (nodes : NodeTable) (key : PositionKey)
  (direction : Z * Z) : Result bool :=
  let '(dx, dz) := direction in
  node ← getitem (dict_get nodes key);
  let x := px node in
  let z := pz node in
  if negb (dx =? 0) then
    let up_blocked := negb (_is_walkable nodes x (z + STEP_SIZE)) in
    let down_blocked := negb (_is_walkable nodes x (z - STEP_SIZE)) in
    if up_blocked && _is_walkable nodes (x + dx * STEP_SIZE) (z + STEP_SIZE)
    then Ok true
    else if down_blocked
            && _is_walkable nodes (x + dx * STEP_SIZE) (z - STEP_SIZE)
    then Ok true
    else Ok false
  else
    let left_blocked := negb (_is_walkable nodes (x + STEP_SIZE) z) in
    let right_blocked := negb (_is_walkable nodes (x - STEP_SIZE) z) in
    if left_blocked && _is_walkable nodes (x + STEP_SIZE) (z + dz * STEP_SIZE)
    then Ok true
    else if right_blocked
            && _is_walkable nodes (x - STEP_SIZE) (z + dz * STEP_SIZE)
    then Ok true
    else Ok false.

(** [_jump(nodes, current, direction, goal)]; [fuel] bounds the depth of
    the recursion. *)
Fixpoint _jump (fuel : nat) (nodes : NodeTable) (current : PositionKey)
  (direction : Z * Z) (goal : PositionKey) : Result (option PositionKey) :=
  match fuel with
  | O => OutOfFuel
  | S fuel' =>
    node ← getitem (dict_get nodes current);
    let next_x := px node + fst direction * STEP_SIZE in
    let next_z := pz node + snd direction * STEP_SIZE in
    let next_key := make_key next_x next_z in
    if negb (dict_mem nodes next_key) then Ok None
    else if key_eqb next_key goal then Ok (Some next_key)
    else
      forced ← _forced_neighbor_exists nodes next_key direction;
      if forced : bool then Ok (Some next_key)
      else _jump fuel' nodes next_key direction goal
  end.

(** [_pruned_directions(nodes, current, parent)] *)
Definition _pruned_directions (nodes : NodeTable) (current : PositionKey)
  (parent : option PositionKey) : Result (list (Z * Z)) :=
  node ← getitem (dict_get nodes current);
  let x := px node in
  let z := pz node in
  match parent with
  | None =>
    Ok (omap (fun d : Z * (Z * Z) =>
                let '(_, (dx, dz)) := d in
                if dict_mem nodes (make_key (x + dx) (z + dz))
                then Some (round_steps dx, round_steps dz) else None)
             CARDINAL_DIRECTIONS)
  | Some p =>
    parent_node ← getitem (dict_get nodes p);
    let diff_x := x - px parent_node in
    let diff_z := z - pz parent_node in
    let dir_x := if abs_gt_eps diff_x then round_steps diff_x else 0 in
    let dir_z := if abs_gt_eps diff_z then round_steps diff_z else 0 in
    if negb (dir_x =? 0) then
      Ok ((if _is_walkable nodes (x + dir_x * STEP_SIZE) z
           then [(dir_x, 0)] else [])
          ++ (if negb (_is_walkable nodes x (z + STEP_SIZE))
                 && _is_walkable nodes (x + dir_x * STEP_SIZE) (z + STEP_SIZE)
              then [(0, 1)] else [])
          ++ (if negb (_is_walkable nodes x (z - STEP_SIZE))
                 && _is_walkable nodes (x + dir_x * STEP_SIZE) (z - STEP_SIZE)
              then [(0, -1)] else []))
    else if negb (dir_z =? 0) then
      Ok ((if _is_walkable nodes x (z + dir_z * STEP_SIZE)
           then [(0, dir_z)] else [])
          ++ (if negb (_is_walkable nodes (x + STEP_SIZE) z)
                 && _is_walkable nodes (x + STEP_SIZE) (z + dir_z * STEP_SIZE)
              then [(1, 0)] else [])
          ++ (if negb (_is_walkable nodes (x - STEP_SIZE) z)
                 && _is_walkable nodes (x - STEP_SIZE) (z + dir_z * STEP_SIZE)
              then [(-1, 0)] else []))
    else Ok []
  end.

(** [_reconstruct_path(parents, start, goal)]: the waypoints from the goal
    back to the start, then reversed. *)
Fixpoint reconstruct_loop (fuel : nat) (parents : gmap PositionKey PositionKey)
  (start current : PositionKey) (path : list PositionKey)
  : Result (list PositionKey) :=
  if key_eqb current start then Ok (rev path)
  else
    match fuel with
    | O => OutOfFuel
    | S fuel' =>
      prev ← getitem (parents !! current);
      reconstruct_loop fuel' parents start prev (path ++ [prev])
    end.

Definition _reconstruct_path (parents : gmap PositionKey PositionKey)
  (start goal : PositionKey) : Result (list PositionKey) :=
  reconstruct_loop (S (size parents)) parents start goal [goal].

(** [_path_to_actions(nodes, path, start_yaw)]: the loop over
    [zip(path, path[1:])], with [yaw] and [actions] as loop variables. *)
Fixpoint path_to_actions_loop (nodes : NodeTable) (path : list PositionKey)
  (yaw : Z) (actions : list Action) : Result (list Action) :=
  match path with
  | [] => Ok actions
  | prev_key :: tl =>
    match tl with
    | [] => Ok actions
    | next_key :: _ =>
      prev_node ← getitem (dict_get nodes prev_key);
      next_node ← getitem (dict_get nodes next_key);
      let dx := px next_node - px prev_node in
      let dz := pz next_node - pz prev_node in
      if abs_gt_eps dx && abs_gt_eps dz then Raise (ValueError msg_diagonal)
      else
        let '(unit_dir, steps) :=
          if abs_gt_eps dx
          then ((if 0 <? dx then 1 else -1, 0), round_steps (Z.abs dx))
          else ((0, if 0 <? dz then 1 else -1), round_steps (Z.abs dz)) in
        target_yaw ← getitem (DIR_TO_YAW unit_dir);
        path_to_actions_loop nodes tl target_yaw
          (actions ++ _rotation_actions yaw target_yaw
                   ++ py_repeat MoveAhead steps)
    end
  end.

Definition _path_to_actions (nodes : NodeTable) (path : list PositionKey)
  (start_yaw : Z) : Result (list Action) :=
  path_to_actions_loop nodes path start_yaw [].

(** An open-list item: the tuple (f, g, next(counter), key). *)
Record Entry : Type :=
  mkEntry { e_f : Q; e_g : Q; e_seq : Z; e_key : PositionKey }.

Definition key_ltb (a b : PositionKey) : bool :=
  if negb (fst a =? fst b) then fst a <? fst b else snd a <? snd b.

Definition entry_ltb (a b : Entry) : bool :=
  if negb (Qeq_bool (e_f a) (e_f b)) then Qltb (e_f a) (e_f b)
  else if negb (Qeq_bool (e_g a) (e_g b)) then Qltb (e_g a) (e_g b)
  else if negb (e_seq a =? e_seq b) then e_seq a <? e_seq b
  else key_ltb (e_key a) (e_key b).

Record Search : Type := mkSearch {
  open_heap : list Entry;
  parents : gmap PositionKey PositionKey;
  g_score : gmap PositionKey Q;
  closed : gset PositionKey;
  counter : Z
}.

Section Planner.

Variable nodes : NodeTable.
Variable start_key : PositionKey.
Variable start_yaw : Z.
Variable goal_key : PositionKey.

(** [heuristic(key)]: Manhattan distance in grid steps. *)
Definition heuristic (key : PositionKey) : Result Q :=
  pos ← getitem (dict_get nodes key);
  goal ← getitem (dict_get nodes goal_key);
  Ok (inject_Z (Z.abs (px pos - px goal) + Z.abs (pz pos - pz goal))
      / inject_Z STEP_SIZE)%Q.

(** [tentative_g + 1e-9 >= g_score.get(jump_key, float("inf"))] *)
Definition not_better (st : Search) (tentative_g : Q) (k : PositionKey)
  : bool :=
  match g_score st !! k with
  | Some g => Qle_bool g (tentative_g + (1 # 1000000000))
  | None => false
  end.

(** The body of [for dir_x, dir_z in directions]. *)
Definition try_direction (current : PositionKey) (current_g : Q)
  (st : Search) (direction : Z * Z) : Result Search :=
  jump_key ← _jump (S (length nodes)) nodes current direction goal_key;
  match jump_key with
  | None => Ok st
  | Some jk =>
    cost ← movement_cost nodes current jk;
    let tentative_g := (current_g + cost)%Q in
    if not_better st tentative_g jk then Ok st
    else
      h ← heuristic jk;
      Ok {| open_heap :=
              AStar.heappush (open_heap st)
                (mkEntry (tentative_g + h)%Q tentative_g (counter st) jk);
            parents := <[jk := current]> (parents st);
            g_score := <[jk := tentative_g]> (g_score st);
            closed := closed st;
            counter := counter st + 1 |}
  end.

Fixpoint for_directions (current : PositionKey) (current_g : Q)
  (st : Search) (directions : list (Z * Z)) : Result Search :=
  match directions with
  | [] => Ok st
  | d :: rest =>
    st' ← try_direction current current_g st d;
    for_directions current current_g st' rest
  end.

Fixpoint jps_loop (fuel : nat) (st : Search) : Result (list Action) :=
  match fuel with
  | O => OutOfFuel
  | S fuel' =>
    match AStar.heappop entry_ltb (open_heap st) with
    | None => Raise (RuntimeError msg_jps_no_path)
    | Some (e, rest) =>
      let current := e_key e in
      if decide (current ∈ closed st) then
        jps_loop fuel'
          (mkSearch rest (parents st) (g_score st) (closed st) (counter st))
      else
        let st' := mkSearch rest (parents st) (g_score st)
                            ({[ current ]} ∪ closed st) (counter st) in
        if key_eqb current goal_key then
          path ← _reconstruct_path (parents st') start_key goal_key;
          _path_to_actions nodes path start_yaw
        else
          directions ←
            _pruned_directions nodes current (parents st' !! current);
          st'' ← for_directions current (e_g e) st' directions;
          jps_loop fuel' st''
    end
  end.

End Planner.

(** A bound on the number of iterations of the search loop. *)
Definition jps_fuel (nodes : NodeTable) : nat :=
  let n := length nodes in (2 * n * (n + 2) + 2)%nat.

(** [jps_actions(nodes, start_key, start_yaw, goal_key)], called with the
    default precision and without [stats]. *)
Definition jps_actions (nodes : NodeTable) (start_key : PositionKey)
  (start_yaw : Z) (goal_key : PositionKey) : Result (list Action) :=
  if key_eqb start_key goal_key then Ok []
  else
    h0 ← heuristic nodes goal_key start_key;
    jps_loop nodes start_key start_yaw goal_key (jps_fuel nodes)
      {| open_heap := AStar.heappush [] (mkEntry h0 0 0 start_key);
         parents := ∅;
         g_score := {[ start_key := 0%Q ]};
         closed := ∅;
         counter := 1 |}.

End JPS.

(** ** Executor and visibility recovery (EvalLLMAstar) *)

Module Executor.
Import Grid Table Rotation.

(** The parts of an observation the executor reads. *)
Record AgentMeta : Type := mkAgent {
  agent_position : Position;
  agent_rotation_y : Q;
  agent_cameraHorizon : option Q
}.

Record ObjMeta : Type := mkObj { objectId : string; visible : bool }.

(** A candidate pose: a position and its ["rotation"] entry, which can be
    missing (outer [None]) or hold Python's [None] (inner [None]). *)
Record Pose : Type := mkPose {
  pose_position : Position;
  pose_rotation : option (option Q)
}.

Inductive ActionReturn : Type :=
  | RetNone
  | RetPositions (l : list Position)
  | RetPoses (l : list (option Pose)).

Record Metadata : Type := mkMeta {
  agent : option AgentMeta;
  objects : list ObjMeta;
  actionReturn : ActionReturn;
  errorMessage : option string
}.

(** An event; [metadata = None] stands for an empty or [None] metadata. *)
Record Event : Type := mkEvent { metadata : option Metadata }.

(** What the executor asks of the environment, in call order. *)
Inductive Call : Type :=
  | CallGetReachablePositions
  | CallGetInteractablePoses (target : option string)
      (positions : ActionReturn)
  | CallExecute (a : Action).

Definition is_motion (c : Call) : bool :=
  match c with
  | CallExecute _ => true
  | _ => false
  end.

Definition msg_no_reachable : string := "No reachable positions found".
Definition msg_no_poses : string :=
  "No interactable poses returned for target object".
Definition msg_missing_target : string := "GotoLocation missing valid target".
Definition msg_lookup_failed : string :=
  "LookUp action failed during horizon adjustment".
Definition msg_lookdown_failed : string :=
  "LookDown action failed during horizon adjustment".
Definition msg_horizon_exceeded : string :=
  "Horizon adjustment exceeded limits without finding target object. This happened because an object being held is likely blocking the agent's view".

(** [_is_object_visible(metadata, target_object_id)] *)
Fixpoint first_visible (objs : list ObjMeta) (target : string) : bool :=
  match objs with
  | [] => false
  | o :: rest =>
    if String.eqb (objectId o) target then visible o
    else first_visible rest target
  end.

Definition _is_object_visible (m : option Metadata) (target : string) : bool :=
  match m with
  | None => false
  | Some md => first_visible (objects md) target
  end.

(** [metadata.get('agent', {}).get('cameraHorizon', default)] *)
Definition horizon_of (m : option Metadata) (default : Q) : Q :=
  match m with
  | Some md =>
    match agent md with
    | Some a =>
      match agent_cameraHorizon a with
      | Some h => h
      | None => default
      end
    | None => default
    end
  | None => default
  end.

Definition min_horizon : Q := -(30).
Definition max_horizon : Q := 90.
Definition horizon_eps : Q := 1 # 1000.

Section Env.

(** The stepped environment and the inherited [EvalLLM.execute_action] are
    external: a state type [E] with the two queries, the [last_event]
    attribute and the action executor. *)
Variable E : Type.
Variable env_get_reachable : E -> Event * E.
Variable env_get_poses : option string -> ActionReturn -> E -> Event * E.
Variable last_event : E -> option Event.
Variable execute_action :
  Action -> bool -> E -> (bool * option Event * string) * E.

(** The environment together with the log of the calls made on it. *)
Definition World : Type := (E * list Call)%type.

Definition Exec (A : Type) : Type := World -> Result A * World.

Definition ret {A : Type} (a : A) : Exec A := fun w => (Ok a, w).
Definition raise {A : Type} (e : Exn) : Exec A := fun w => (Raise e, w).
Definition bind {A B : Type} (m : Exec A) (k : A -> Exec B) : Exec B :=
  fun w =>
    match m w with
    | (Ok a, w') => k a w'
    | (Raise e, w') => (Raise e, w')
    | (OutOfFuel, w') => (OutOfFuel, w')
    end.

Notation "x ⇐ m ;; k" := (bind m (fun x => k))
  (at level 100, m at next level, right associativity).

Definition lift {A : Type} (r : Result A) : Exec A := fun w => (r, w).

Definition get_last_event : Exec (option Event) :=
  fun w => (Ok (last_event (fst w)), w).

Definition step_reachable : Exec Event :=
  fun w =>
    let '(ev, e') := env_get_reachable (fst w) in
    (Ok ev, (e', snd w ++ [CallGetReachablePositions])).

Definition step_poses (target : option string) (positions : ActionReturn)
  : Exec Event :=
  fun w =>
    let '(ev, e') := env_get_poses target positions (fst w) in
    (Ok ev, (e', snd w ++ [CallGetInteractablePoses target positions])).

(** [super().execute_action(env, {'action': a}, smooth_nav=smooth_nav)] *)
Definition super_execute (a : Action) (smooth_nav : bool)
  : Exec (bool * option Event * string) :=
  fun w =>
    let '(r, e') := execute_action a smooth_nav (fst w) in
    (Ok r, (e', snd w ++ [CallExecute a])).

(** [self._dispatch_nav_action(env, {'action': a}, smooth_nav)]: the action
    name is never empty, so the call goes to [execute_action]. *)
Definition _dispatch_nav_action (a : Action) (smooth_nav : bool)
  : Exec (bool * option Event * string) :=
  super_execute a smooth_nav.

(** [latest_event.metadata] after a look step: [None] has no attribute. *)
Definition metadata_of (ev : option Event) : Exec (option Metadata) :=
  match ev with
  | Some e => ret (metadata e)
  | None => raise AttributeError
  end.

Definition event_visible (ev : option Event) (target : string) : bool :=
  match ev with
  | Some e => _is_object_visible (metadata e) target
  | None => false
  end.

(** The first loop of the scan: [inl true] is [return True]; [inr h] is the
    loop ending with [current_horizon = h]. *)
Fixpoint look_up_loop (fuel : nat) (target : string) (smooth_nav : bool)
  (current_horizon : Q) : Exec (bool + Q) :=
  if Qltb (min_horizon + horizon_eps) current_horizon then
    match fuel with
    | O => lift OutOfFuel
    | S fuel' =>
      r ⇐ super_execute LookUp smooth_nav ;;
      let '(lookup_success, latest_event, _) := r in
      if negb lookup_success then raise (RuntimeError msg_lookup_failed)
      else if event_visible latest_event target then ret (inl true)
      else
        md ⇐ metadata_of latest_event ;;
        look_up_loop fuel' target smooth_nav (horizon_of md current_horizon)
    end
  else ret (inr current_horizon).

(** The second loop and the final raise. *)
Fixpoint look_down_loop (fuel : nat) (target : string) (smooth_nav : bool)
  (current_horizon : Q) : Exec bool :=
  if Qltb current_horizon (max_horizon - horizon_eps) then
    match fuel with
    | O => lift OutOfFuel
    | S fuel' =>
      r ⇐ super_execute LookDown smooth_nav ;;
      let '(lookdown_success, latest_event, _) := r in
      if negb lookdown_success then raise (RuntimeError msg_lookdown_failed)
      else if event_visible latest_event target then ret true
      else
        md ⇐ metadata_of latest_event ;;
        look_down_loop fuel' target smooth_nav (horizon_of md current_horizon)
    end
  else raise (RuntimeError msg_horizon_exceeded).

(** [_adjust_horizon_for_visibility(env, target_object_id, smooth_nav)];
    [fuel] bounds the iterations of each of the two loops. *)
Definition _adjust_horizon_for_visibility (fuel : nat) (target : string)
  (smooth_nav : bool) : Exec bool :=
  event ⇐ get_last_event ;;
  match event with
  | None => ret false
  | Some ev =>
    match metadata ev with
    | None => ret false
    | Some md =>
      let current_horizon := horizon_of (Some md) 0 in
      if _is_object_visible (Some md) target then ret true
      else
        r ⇐ look_up_loop fuel target smooth_nav current_horizon ;;
        match r with
        | inl b => ret b
        | inr h => look_down_loop fuel target smooth_nav h
        end
    end
  end.

(** [for action_name in action_names]: stop at the first failure. *)
Fixpoint run_plan (smooth_nav : bool) (action_names : list Action)
  (acc : bool * option Event * string)
  : Exec (bool * option Event * string) :=
  match action_names with
  | [] => ret acc
  | a :: rest =>
    r ⇐ _dispatch_nav_action a smooth_nav ;;
    if negb (fst (fst r)) then ret r else run_plan smooth_nav rest r
  end.

(** [for turn_name in self._turn_actions(...)]: [inl r] is the early
    [return success, event, error]; [inr r] the loop running to its end. *)
Fixpoint run_turns (smooth_nav : bool) (turns : list Action)
  (acc : bool * option Event * string)
  : Exec ((bool * option Event * string) + (bool * option Event * string)) :=
  match turns with
  | [] => ret (inr acc)
  | a :: rest =>
    r ⇐ super_execute a smooth_nav ;;
    if negb (fst (fst r)) then ret (inl r) else run_turns smooth_nav rest r
  end.

(** The planning step: JPS first, A* on the same arguments when JPS raises
    a RuntimeError. *)
Definition plan_route (nodes : NodeTable) (start_key : PositionKey)
  (start_yaw : Z) (target_key : PositionKey) : Result (list Action) :=
  match JPS.jps_actions nodes start_key start_yaw target_key with
  | Raise (RuntimeError _) =>
    let adjacency := build_adjacency nodes in
    AStar.astar_actions nodes adjacency start_key start_yaw target_key
  | r => r
  end.

(** [poses[0]] of a truthy [actionReturn]. *)
Definition first_pose (poses : ActionReturn) : option (option Pose) :=
  match poses with
  | RetPoses (p :: _) => Some p
  | RetPositions (p :: _) => Some (Some (mkPose p None))
  | _ => None
  end.

Definition positions_of (r : ActionReturn) : Result (list Position) :=
  match r with
  | RetPositions l => Ok l
  | RetPoses [] => Ok []
  | _ => Raise TypeError
  end.

Definition truthy (s : option string) : option string :=
  match s with
  | Some EmptyString => None
  | other => other
  end.

(** [_execute_goto(env, action, smooth_nav)] with
    [target_object_id = action.get('object_id')]. *)
Definition _execute_goto (fuel : nat) (target_object_id : option string)
  (smooth_nav : bool) : Exec (bool * option Event * string) :=
  reachable ⇐ step_reachable ;;
  match metadata reachable with
  | None =>
    ev ⇐ get_last_event ;;
    ret (false, ev, msg_no_reachable)
  | Some reach_meta =>
    agent_meta ⇐ lift (getitem (agent reach_meta)) ;;
    let reachable_positions := actionReturn reach_meta in
    event ⇐ step_poses target_object_id reachable_positions ;;
    pmeta ⇐ lift (match metadata event with
                   | Some m => Ok m
                   | None => Raise TypeError
                   end) ;;
    match first_pose (actionReturn pmeta) with
    | None => raise (RuntimeError msg_no_poses)
    | Some None =>
      ev ⇐ get_last_event ;;
      ret (false, ev, msg_missing_target)
    | Some (Some target_position) =>
      positions ⇐ lift (positions_of reachable_positions) ;;
      let nodes := build_node_lookup positions in
      let agent_position := agent_position agent_meta in
      start_key ⇐ lift (nearest_key nodes agent_position) ;;
      target_key ⇐ lift (nearest_key nodes (pose_position target_position)) ;;
      let start_yaw := normalize_yaw (agent_rotation_y agent_meta) in
      action_names ⇐ lift (plan_route nodes start_key start_yaw target_key) ;;
      ev0 ⇐ get_last_event ;;
      r ⇐ run_plan smooth_nav action_names (true, ev0, EmptyString) ;;
      if negb (fst (fst r)) then ret r
      else
        ev1 ⇐ get_last_event ;;
        md1 ⇐ metadata_of ev1 ;;
        md1' ⇐ lift (match md1 with Some m => Ok m | None => Raise TypeError end) ;;
        agent_meta1 ⇐ lift (getitem (agent md1')) ;;
        let current_yaw := agent_rotation_y agent_meta1 in
        desired_yaw ⇐ lift (getitem (pose_rotation target_position)) ;;
        t ⇐ run_turns smooth_nav (_turn_actions current_yaw desired_yaw) r ;;
        match t with
        | inl early => ret early
        | inr r2 =>
          let success := fst (fst r2) in
          ev2 ⇐ get_last_event ;;
          match ev2, truthy target_object_id with
          | Some e2, Some target =>
            if negb success then
              em ⇐ lift (match metadata e2 with
                         | Some m => Ok (default EmptyString (errorMessage m))
                         | None => Raise AttributeError
                         end) ;;
              ret (false, ev2, em)
            else if _is_object_visible (metadata e2) target then
              ret (true, ev2, EmptyString)
            else
              vis ⇐ _adjust_horizon_for_visibility fuel target smooth_nav ;;
              ev3 ⇐ get_last_event ;;
              if vis : bool then ret (true, ev3, EmptyString)
              else
                match ev3 with
                | None => ret (false, ev3, EmptyString)
                | Some e3 =>
                  em ⇐ lift (match metadata e3 with
                             | Some m =>
                               Ok (default EmptyString (errorMessage m))
                             | None => Raise AttributeError
                             end) ;;
                  ret (false, ev3, em)
                end
          | _, _ =>
            if success then ret (true, ev2, EmptyString)
            else
              match ev2 with
              | None => ret (false, ev2, EmptyString)
              | Some e2 =>
                em ⇐ lift (match metadata e2 with
                           | Some m =>
                             Ok (default EmptyString (errorMessage m))
                           | None => Raise AttributeError
                           end) ;;
                ret (false, ev2, em)
              end
          end
        end
    end
  end.

End Env.

End Executor.

(** ** Executing a plan on the grid *)

Module Plan.
Import Grid Table.

(** The three motion primitives of a plan. *)
Definition nav_action (a : Action) : Prop :=
  a = MoveAhead \/ a = RotateLeft \/ a = RotateRight.

(** One primitive executed from (position, heading) under the adjacency
    relation: a rotation changes the heading by 90 degrees; MoveAhead steps
    to the cell ahead when that cell is a neighbour, and is not executable
    otherwise. *)
Definition exec_action (nodes : NodeTable) (adjacency : Adjacency)
  (s : AStar.State) (a : Action) : option AStar.State :=
  let '(p, h) := s in
  match a with
  | RotateLeft => Some (p, (h - 90) mod 360)
  | RotateRight => Some (p, (h + 90) mod 360)
  | MoveAhead =>
    d ← cardinal_direction h;
    pos ← dict_get nodes p;
    adj ← dict_get adjacency p;
    let ahead := make_key (px pos + fst d) (pz pos + snd d) in
    if key_in ahead adj then Some (ahead, h) else None
  | LookUp | LookDown => None
  end.

Fixpoint run (nodes : NodeTable) (adjacency : Adjacency) (s : AStar.State)
  (plan : list Action) : option AStar.State :=
  match plan with
  | [] => Some s
  | a :: rest =>
    s' ← exec_action nodes adjacency s a;
    run nodes adjacency s' rest
  end.

(** [plan] leads from pose [s] to the position [goal], at any heading. *)
Definition reaches (nodes : NodeTable) (adjacency : Adjacency)
  (s : AStar.State) (plan : list Action) (goal : PositionKey) : Prop :=
  exists h, run nodes adjacency s plan = Some (goal, h).

(** Reachability in the adjacency graph. *)
Inductive connected (adjacency : Adjacency) (a : PositionKey)
  : PositionKey -> Prop :=
  | connected_refl : connected adjacency a a
  | connected_step (b c : PositionKey) (l : list PositionKey) :
      connected adjacency a b ->
      dict_get adjacency b = Some l ->
      key_in c l = true ->
      connected adjacency a c.

End Plan.

(** ** The pops of an A* run *)

Module Trace.
Import Grid Table AStar.

(** The search loop of [astar_loop], recording at every iteration the
    popped item and the items left on the open list. *)
Fixpoint pops (nodes : NodeTable) (adjacency : Adjacency)
  (goal_key : PositionKey) (fuel : nat) (st : Search)
  : list (Entry * list Entry) :=
  match fuel with
  | O => []
  | S fuel' =>
    match heappop entry_ltb (open_heap st) with
    | None => []
    | Some (e, rest) =>
      let st' := mkSearch rest (came_from st) (g_score st) (counter st) in
      (e, rest) ::
      (if key_eqb (fst (e_state e)) goal_key then []
       else
         match expand nodes adjacency goal_key st' (e_g e) (e_state e) with
         | Ok st'' => pops nodes adjacency goal_key fuel' st''
         | _ => []
         end)
    end
  end.

Definition astar_pops (nodes : NodeTable) (adjacency : Adjacency)
  (start_key : PositionKey) (start_yaw : Z) (goal_key : PositionKey)
  : list (Entry * list Entry) :=
  if key_eqb start_key goal_key then []
  else
    match heuristic nodes goal_key start_key with
    | Ok h0 =>
      let start_state := (start_key, start_yaw) in
      pops nodes adjacency goal_key (astar_fuel nodes)
        {| open_heap := heappush [] (mkEntry (mkF 0 h0) 0 0 start_state);
           came_from := ∅;
           g_score := {[ start_state := 0 ]};
           counter := 1 |}
    | _ => []
    end.

(** The order the source's tuples give: f, then g, then the sequence
    number; the state is not part of it. *)
Definition key3_lt (a b : Entry) : Prop :=
  fval_ltb (e_f a) (e_f b) = true
  \/ (fval_eqb (e_f a) (e_f b) = true /\ e_g a < e_g b)
  \/ (fval_eqb (e_f a) (e_f b) = true /\ e_g a = e_g b /\ e_seq a < e_seq b).

End Trace.

(** ** Vocabulary of the planner proofs *)

Module Inv.
Import Grid Table AStar.

(** A table as [build_node_lookup] makes it: every key is the quantized
    position of its node. *)
Definition wf_table (nodes : NodeTable) : Prop :=
  forall k pos, dict_get nodes k = Some pos -> k = make_key (px pos) (pz pos).

(** A pose on the table with a cardinal heading. *)
Definition valid_state (nodes : NodeTable) (s : State) : Prop :=
  dict_mem nodes (fst s) = true /\ cardinal (snd s).

(** Every pose of a table: each key at each of the four headings. *)
Definition all_states (nodes : NodeTable) : list State :=
  flat_map (fun kv : PositionKey * Position =>
              map (fun h => (fst kv, h)) [0; 90; 180; 270]) nodes.

(** The radicand of the heuristic at a key of a well-formed table. *)
Definition h2 (goal_key p : PositionKey) : Z :=
  (fst p - fst goal_key) ^ 2 + (snd p - snd goal_key) ^ 2.

(** The poses a plan goes through, the first one included. *)
Fixpoint visited (nodes : NodeTable) (adjacency : Adjacency) (s : State)
  (plan : list Action) : list State :=
  match plan with
  | [] => [s]
  | a :: rest =>
    match Plan.exec_action nodes adjacency s a with
    | Some s' => s :: visited nodes adjacency s' rest
    | None => [s]
    end
  end.

(** The recorded cost of a pose, [cap] when there is none. *)
Definition cost_or (cap : Z) (gs : gmap State Z) (s : State) : Z :=
  default cap (gs !! s).

(** The potential that bounds the remaining iterations of the A* loop. *)
Definition potential (cap : Z) (states : list State) (gs : gmap State Z)
  : Z :=
  fold_right (fun s acc => cost_or cap gs s + acc) 0 states.

End Inv.

(** ** Invariant of the A* search loop *)

Module AStarInv.
Import Grid Table AStar Inv.

Section Defs.

Variable nodes : NodeTable.
Variable adjacency : Adjacency.
Variable goal_key : PositionKey.
Variable start_state : State.

(** An open-list item carries f = g + h of its own pose, and its g is not
    below the recorded cost of that pose. *)
Definition heap_inv (gs : gmap State Z) (e : Entry) : Prop :=
  valid_state nodes (e_state e)
  /\ e_f e = mkF (e_g e) (h2 goal_key (fst (e_state e)))
  /\ exists g', gs !! e_state e = Some g' /\ g' <= e_g e.

(** A pose with recorded cost [g] either still has an item of that cost on
    the open list, or it has been expanded: it is not at the goal and each
    successor has a recorded cost of at most [g + 1]. *)
Definition settled (heap : list Entry) (gs : gmap State Z) (s : State)
  (g : Z) : Prop :=
  (exists e, In e heap /\ e_state e = s /\ e_g e = g)
  \/ (fst s <> goal_key
      /\ forall a s', Plan.exec_action nodes adjacency s a = Some s' ->
                      exists g', gs !! s' = Some g' /\ g' <= g + 1).

(** The loop invariant; [skip] is the pose being expanded, if any. *)
Record search_inv (skip : option State) (st : Search) : Prop := {
  inv_heap : Forall (heap_inv (g_score st)) (open_heap st);
  inv_cost : forall s g, g_score st !! s = Some g ->
                         valid_state nodes s /\ 0 <= g;
  inv_start : g_score st !! start_state = Some 0
              /\ came_from st !! start_state = None;
  inv_parent : forall s p a, came_from st !! s = Some (p, a) ->
      Plan.exec_action nodes adjacency p a = Some s
      /\ exists g gp, g_score st !! s = Some g
                      /\ g_score st !! p = Some gp /\ gp + 1 <= g;
  inv_has_parent : forall s g, g_score st !! s = Some g ->
      s <> start_state -> is_Some (came_from st !! s);
  inv_settled : forall s g, Some s <> skip -> g_score st !! s = Some g ->
      settled (open_heap st) (g_score st) s g
}.

(** Costs only go down. *)
Definition costs_le (gs gs' : gmap State Z) : Prop :=
  forall s g, gs !! s = Some g -> exists g', gs' !! s = Some g' /\ g' <= g.

(** The cap on recorded costs and the measure that bounds the loop. *)
Definition cost_cap : Z := Z.of_nat (4 * length nodes) + 1.

Definition measure (st : Search) : Z :=
  2 * potential cost_cap (all_states nodes) (g_score st)
  + Z.of_nat (length (open_heap st)).

End Defs.

End AStarInv.

(** ** Invariant of the JPS search loop *)

Module JPSInv.
Import Grid Table.

(** The four unit directions of the grid. *)
Definition unit_dir (u : Z * Z) : Prop :=
  u = (0, 1) \/ u = (1, 0) \/ u = (0, -1) \/ u = (-1, 0).

(** The key [a] grid steps from [start] in direction [u]. *)
Definition ray (start : PositionKey) (u : Z * Z) (a : Z) : PositionKey :=
  (fst start + STEP_SIZE * a * fst u, snd start + STEP_SIZE * a * snd u).

(** A waypoint and its parent lie on one ray from the start, the parent
    nearer to the start. *)
Definition parent_ok (start k p : PositionKey) : Prop :=
  exists u a b, unit_dir u /\ 0 <= b < a
                /\ k = ray start u a /\ p = ray start u b.

Record jps_inv (start : PositionKey) (st : JPS.Search) : Prop := {
  jinv_parents : forall k p, JPS.parents st !! k = Some p ->
                             parent_ok start k p;
  jinv_heap : forall e, In e (JPS.open_heap st) ->
                        JPS.e_key e = start
                        \/ is_Some (JPS.parents st !! JPS.e_key e)
}.

(** The heading that faces a unit direction. *)
Definition facing (u : Z * Z) : Z := default 0 (DIR_TO_YAW u).

(** Grid distance between two keys, in hundredths. *)
Definition manhattan (a b : PositionKey) : Z :=
  Z.abs (fst a - fst b) + Z.abs (snd a - snd b).

(** A list of waypoints in which each one is the parent of the next. *)
Fixpoint chain (parents : gmap PositionKey PositionKey)
  (path : list PositionKey) : Prop :=
  match path with
  | [] => True
  | p :: rest =>
    match rest with
    | [] => True
    | k :: _ => parents !! k = Some p /\ chain parents rest
    end
  end.

(** A grid distance in hundredths as a number of steps. *)
Definition qsteps (m : Z) : Q := (inject_Z m / inject_Z STEP_SIZE)%Q.

(** Recorded costs and the costs on the open list are exact distances
    from the start. *)
Record jps_costs (start : PositionKey) (st : JPS.Search) : Prop := {
  jc_score : forall k g, JPS.g_score st !! k = Some g ->
                         (g == qsteps (manhattan start k))%Q;
  jc_heap : forall e, In e (JPS.open_heap st) ->
                      (JPS.e_g e == qsteps (manhattan start (JPS.e_key e)))%Q
}.

(** The nodes of the table strictly ahead of [c] in direction [d]. *)
Definition ahead (nodes : NodeTable) (c : PositionKey) (d : Z * Z)
  : list (PositionKey * Position) :=
  List.filter
    (fun kv => 0 <? (fst (fst kv) - fst c) * fst d
                    + (snd (fst kv) - snd c) * snd d)
    nodes.

(** The nodes of the table without a recorded cost. *)
Definition unseen (nodes : NodeTable) (gs : gmap PositionKey Q)
  : list (PositionKey * Position) :=
  List.filter
    (fun kv => match gs !! fst kv with None => true | Some _ => false end)
    nodes.

(** The measure that bounds the JPS loop. *)
Definition jps_measure (nodes : NodeTable) (st : JPS.Search) : Z :=
  2 * Z.of_nat (length (unseen nodes (JPS.g_score st)))
  + Z.of_nat (length (JPS.open_heap st)).

End JPSInv.

(** ** Orders given by a boolean test *)

Module Order.
Import AStar.

(** A strict weak order on the items that satisfy [P]: asymmetric, and
    "not below" is transitive. *)
Definition strict_weak {A : Type} (P : A -> Prop) (ltb : A -> A -> bool)
  : Prop :=
  (forall a b, P a -> P b -> ltb a b = true -> ltb b a = false)
  /\ (forall a b c, P a -> P b -> P c ->
        ltb a b = false -> ltb b c = false -> ltb a c = false).

(** Lexicographic combination: the shape of Python's tuple comparison. *)
Definition lexb {A : Type} (eqb1 ltb1 ltb2 : A -> A -> bool) (a b : A)
  : bool :=
  if negb (eqb1 a b) then ltb1 a b else ltb2 a b.

(** An open-list item whose f has a non-negative radicand. *)
Definition entry_ok (e : Entry) : Prop := 0 <= frad (e_f e).

(** The open list holds well-formed items with pairwise distinct sequence
    numbers, all below the counter. *)
Definition heap_ok (heap : list Entry) (c : Z) : Prop :=
  Forall entry_ok heap
  /\ NoDup (map e_seq heap)
  /\ Forall (fun e => e_seq e < c) heap.

(** The number of MoveAhead actions of a plan, as an integer. *)
Definition moves (plan : list Action) : Z :=
  Z.of_nat (count_action MoveAhead plan).

End Order.

(** ** Sample inputs *)

Module Samples.
Import Grid Table.

(** The node at grid cell (i, j): x = 0.25 i, z = 0.25 j, y = 0.9. *)
Definition cell (i j : Z) : Position := mkPos (25 * i) 90 (25 * j).
Definition cell_key (i j : Z) : PositionKey := (25 * i, 25 * j).

Definition table_of (cells : list (Z * Z)) : NodeTable :=
  build_node_lookup (map (fun c => cell (fst c) (snd c)) cells).

(** Two nodes half a metre apart and the point midway between them. *)
Definition pair_ab : NodeTable :=
  build_node_lookup [cell 0 0; cell 2 0].
Definition pair_ba : NodeTable :=
  build_node_lookup [cell 2 0; cell 0 0].
Definition midpoint : Position := mkPos 25 90 0.

(** A five-node table on which two open-list items of equal f and
    different g meet. *)
Definition bend : NodeTable :=
  table_of [(0, 0); (0, 1); (1, 1); (2, 0); (2, 1)].

(** An open 3 x 3 grid. *)
Definition open3 : NodeTable :=
  table_of [(0, 0); (0, 1); (0, 2); (1, 0); (1, 1); (1, 2);
            (2, 0); (2, 1); (2, 2)].

(** A row with a missing cell at (3, 0) and a way round it. *)
Definition gap_row : NodeTable :=
  table_of [(0, 0); (1, 0); (2, 0); (4, 0); (3, 1); (4, 1); (-1, 0);
            (-1, 1); (-1, 2); (0, 2); (1, 2); (2, 2); (3, 2)].

(** Two nodes that are not connected. *)
Definition apart : NodeTable := table_of [(0, 0); (2, 0)].

(** A scripted environment: the two queries answer with fixed events and
    [execute_action] replays a list of prepared results. *)
Record Sim : Type := mkSim {
  sim_last : option Executor.Event;
  sim_reach : Executor.Event;
  sim_poses : Executor.Event;
  sim_script : list (bool * option Executor.Event * string)
}.

Definition sim_get_reachable (s : Sim) : Executor.Event * Sim :=
  (sim_reach s,
   mkSim (Some (sim_reach s)) (sim_reach s) (sim_poses s) (sim_script s)).

Definition sim_get_poses (target : option string)
  (positions : Executor.ActionReturn) (s : Sim) : Executor.Event * Sim :=
  (sim_poses s,
   mkSim (Some (sim_poses s)) (sim_reach s) (sim_poses s) (sim_script s)).

Definition sim_execute (a : Action) (smooth_nav : bool) (s : Sim)
  : (bool * option Executor.Event * string) * Sim :=
  match sim_script s with
  | [] => ((false, sim_last s, "script exhausted"%string), s)
  | r :: rest =>
    (r, mkSim (snd (fst r)) (sim_reach s) (sim_poses s) rest)
  end.

Definition sim_goto (fuel : nat) (target : option string) (s : Sim) :=
  Executor._execute_goto Sim sim_get_reachable sim_get_poses sim_last
    sim_execute fuel target false (s, []).

Definition sim_scan (fuel : nat) (target : string) (s : Sim) :=
  Executor._adjust_horizon_for_visibility Sim sim_last sim_execute
    fuel target false (s, []).

Definition mug : string := "Mug|1".

(** An observation with the agent at cell (0, 0), heading 0, the given
    camera tilt, and the mug visible or not. *)
Definition agent_at (tilt : Q) : Executor.AgentMeta :=
  Executor.mkAgent (cell 0 0) 0 (Some tilt).

Definition meta_with (tilt : Q) (mug_visible : bool)
  (ret : Executor.ActionReturn) : Executor.Metadata :=
  Executor.mkMeta (Some (agent_at tilt)) [Executor.mkObj mug mug_visible]
    ret None.

Definition observe (tilt : Q) (mug_visible : bool) (ret : Executor.ActionReturn)
  : Executor.Event :=
  Executor.mkEvent (Some (meta_with tilt mug_visible ret)).

Definition no_metadata : Executor.Event := Executor.mkEvent None.

Definition reach_apart : Executor.Event :=
  observe 0 false (Executor.RetPositions [cell 0 0; cell 2 0]).

Definition pose_at (i j : Z) (yaw : Q) : Executor.Pose :=
  Executor.mkPose (cell i j) (Some (Some yaw)).

(** A camera whose tilt moves by [step] degrees per LookUp / LookDown and
    that shows the mug exactly at the tilts [vis] accepts. *)
Definition cam_event (vis : Q -> bool) (tilt : Q) : Executor.Event :=
  observe tilt (vis tilt) Executor.RetNone.

Definition cam_execute (step : Q) (vis : Q -> bool) (a : Action)
  (smooth_nav : bool) (tilt : Q)
  : (bool * option Executor.Event * string) * Q :=
  let tilt' :=
    match a with
    | LookUp => (tilt - step)%Q
    | LookDown => (tilt + step)%Q
    | _ => tilt
    end in
  ((true, Some (cam_event vis tilt'), EmptyString), tilt').

Definition cam_scan (step : Q) (vis : Q -> bool) (fuel : nat) (tilt : Q) :=
  Executor._adjust_horizon_for_visibility Q
    (fun t => Some (cam_event vis t)) (cam_execute step vis)
    fuel mug false (tilt, []).

End Samples.

(** ** Vocabulary of the jump and path properties *)

Module Stride.
Import Grid Table JPSInv.

(** The key [i] strides away from [c], a stride being [d] grid steps. *)
Definition hop (c : PositionKey) (d : Z * Z) (i : Z) : PositionKey :=
  (fst c + i * (fst d * STEP_SIZE), snd c + i * (snd d * STEP_SIZE)).

(** A path made of straight legs along the grid axes, every cell of every
    leg a node of the table. *)
Inductive walkable_legs (nodes : NodeTable) : list PositionKey -> Prop :=
  | legs_end (k : PositionKey) :
      dict_mem nodes k = true -> walkable_legs nodes [k]
  | legs_leg (k : PositionKey) (u : Z * Z) (n : Z)
      (rest : list PositionKey) :
      unit_dir u -> 1 <= n ->
      (forall t, 0 <= t <= n -> dict_mem nodes (ray k u t) = true) ->
      walkable_legs nodes (ray k u n :: rest) ->
      walkable_legs nodes (k :: ray k u n :: rest).

(** Every key the search holds is a node of the table, and every recorded
    parent is the start or has a recorded parent itself. *)
Record jps_keys (nodes : NodeTable) (start : PositionKey)
  (st : JPS.Search) : Prop := {
  jk_heap : forall e, In e (JPS.open_heap st) ->
                      dict_mem nodes (JPS.e_key e) = true;
  jk_parents : forall k p, JPS.parents st !! k = Some p ->
      dict_mem nodes k = true /\ dict_mem nodes p = true
      /\ (p = start \/ is_Some (JPS.parents st !! p))
}.

(** Every action recorded in [came_from] is one of the three operators. *)
Definition parents_nav (st : AStar.Search) : Prop :=
  forall s p a, AStar.came_from st !! s = Some (p, a) -> Plan.nav_action a.

End Stride.

(** ** Vocabulary of the executor's call protocol *)

Module Protocol.
Import Executor.

(** Every run of [m] appends to the call log a list of calls that
    satisfies [P], whatever the outcome of the run. *)
Definition emits {E A : Type} (P : list Call -> Prop) (m : Exec E A) : Prop :=
  forall w r w', m w = (r, w') -> exists l, snd w' = snd w ++ l /\ P l.

(** What the part of a GotoLocation after the two queries may send: a
    prefix of a plan of motion primitives, at most two alignment turns,
    LookUp steps and then LookDown steps, the last two only for a request
    that names a target. *)
Definition goto_tail (target : option string) (l : list Call) : Prop :=
  exists nav turns n m,
    l = map CallExecute nav ++ map CallExecute turns
        ++ repeat (CallExecute LookUp) n ++ repeat (CallExecute LookDown) m
    /\ Forall Plan.nav_action nav
    /\ (length turns <= 2)%nat
    /\ Forall (fun a => a = RotateLeft \/ a = RotateRight) turns
    /\ (truthy target = None -> n = 0%nat /\ m = 0%nat).

(** The calls after the alignment turns. *)
Definition looks (target : option string) (l : list Call) : Prop :=
  exists n m,
    l = repeat (CallExecute LookUp) n ++ repeat (CallExecute LookDown) m
    /\ (truthy target = None -> n = 0%nat /\ m = 0%nat).

(** The calls after the navigation plan. *)
Definition turns_then_looks (target : option string) (l : list Call)
  : Prop :=
  exists turns n m,
    l = map CallExecute turns
        ++ repeat (CallExecute LookUp) n ++ repeat (CallExecute LookDown) m
    /\ (length turns <= 2)%nat
    /\ Forall (fun a => a = RotateLeft \/ a = RotateRight) turns
    /\ (truthy target = None -> n = 0%nat /\ m = 0%nat).

(** The environment keeps the event of the last executed action as its
    [last_event]. *)
Definition keeps_last_event {E : Type} (last_event : E -> option Event)
  (execute_action : Action -> bool -> E -> (bool * option Event * string) * E)
  : Prop :=
  forall a smooth_nav env,
    last_event (snd (execute_action a smooth_nav env))
    = snd (fst (fst (execute_action a smooth_nav env))).

End Protocol.

(** ** Multi-agent evaluator (EvalMultiLLMAstar) *)

Module Multi.
Import Executor.

(** The values an action dictionary holds. *)
Inductive PyVal : Type :=
  | PNone
  | PInt (n : Z)
  | PStr (s : string)
  | PBool (b : bool).

(** An action dictionary, its keys in insertion order. *)
Definition ActionDict : Type := list (string * PyVal).

(** [d.get(k)] *)
Fixpoint adict_get (d : ActionDict) (k : string) : option PyVal :=
  match d with
  | [] => None
  | (k', v) :: rest => if String.eqb k' k then Some v else adict_get rest k
  end.

(** [d[k] = v]: an existing key keeps its place, a new key goes last. *)
Fixpoint adict_set (d : ActionDict) (k : string) (v : PyVal) : ActionDict :=
  match d with
  | [] => [(k, v)]
  | (k', v') :: rest =>
    if String.eqb k' k then (k', v) :: rest else (k', v') :: adict_set rest k v
  end.

(** Truth value of a dictionary entry in a condition ([not d.get(k)]). *)
Definition py_truthy (v : option PyVal) : bool :=
  match v with
  | None | Some PNone => false
  | Some (PInt n) => negb (n =? 0)
  | Some (PStr s) => negb (String.eqb s EmptyString)
  | Some (PBool b) => b
  end.

(** An event object: the event itself and its [events] attribute when it
    has one that is a list. *)
#[warnings="-register-all"] Inductive PyEvent : Type :=
  | mkPyEvent (own : Event) (events : option (list PyEvent)).

(** The outcome of indexing a list: the element, or IndexError. *)
Inductive Indexed (A : Type) : Type :=
  | At (a : A)
  | IndexError.

Arguments At {A} a.
Arguments IndexError {A}.

(** [l[i]]: a negative index counts from the end. *)
Definition py_getitem {A : Type} (l : list A) (i : Z) : Indexed A :=
  let n := Z.of_nat (length l) in
  let j := if i <? 0 then i + n else i in
  if (0 <=? j) && (j <? n) then
    match nth_error l (Z.to_nat j) with
    | Some a => At a
    | None => IndexError
    end
  else IndexError.

Definition msg_invalid_primitive : string := "Invalid navigation primitive".

Section Evaluator.

(** [self.primary_agent_index], [self.args.smooth_nav], the environment,
    and the inherited [execute_action] of EvalLLMAstar. *)
Variable primary_agent_index : Z.
Variable args_smooth_nav : bool.
Variable E : Type.
Variable last_event : E -> option PyEvent.
Variable super_execute_action :
  ActionDict -> bool -> E -> (bool * option PyEvent * string) * E.

(** [_primary_event(event)] *)
Definition _primary_event (event : option PyEvent)
  : Indexed (option PyEvent) :=
  match event with
  | None => At None
  | Some (mkPyEvent own events) =>
    match events with
    | Some (first :: others) =>
      if primary_agent_index <? Z.of_nat (length (first :: others)) then
        match py_getitem (first :: others) primary_agent_index with
        | At e => At (Some e)
        | IndexError => IndexError
        end
      else At (Some first)
    | _ => At (Some (mkPyEvent own events))
    end
  end.

(** [_with_agent(action_dict)] *)
Definition _with_agent (action_dict : option ActionDict) : ActionDict :=
  let result := match action_dict with
                | None => []
                | Some d => d
                end in
  match adict_get result "agentId" with
  | None | Some PNone => adict_set result "agentId" (PInt primary_agent_index)
  | Some _ => result
  end.

(** [execute_action(env, action_dict, smooth_nav)] *)
Definition execute_action (action_dict : option ActionDict)
  (smooth_nav : bool) (env : E)
  : Indexed (bool * option PyEvent * string) * E :=
  let action_with_agent := _with_agent action_dict in
  let '((success, event, error), env') :=
    super_execute_action action_with_agent smooth_nav env in
  match _primary_event event with
  | At event' => (At (success, event', error), env')
  | IndexError => (IndexError, env')
  end.

(** [_dispatch_nav_action(env, primitive, smooth_nav)]; [smooth_nav] can
    be [None]. *)
Definition _dispatch_nav_action (primitive : ActionDict)
  (smooth_nav : option bool) (env : E)
  : Indexed (bool * option PyEvent * string) * E :=
  let action_name := adict_get primitive "action" in
  if negb (py_truthy action_name) then
    match _primary_event (last_event env) with
    | At event => (At (false, event, msg_invalid_primitive), env)
    | IndexError => (IndexError, env)
    end
  else
    let action_dict :=
      [("action"%string, default PNone action_name);
       ("agentId"%string, PInt primary_agent_index)] in
    let action_dict :=
      match adict_get primitive "objectId" with
      | Some oid => adict_set action_dict "object_id" oid
      | None => action_dict
      end in
    let use_smooth := default args_smooth_nav smooth_nav in
    execute_action (Some action_dict) use_smooth env.

End Evaluator.

End Multi.

(** ** Cameras for the visibility scan *)

Module Camera.
Import Executor.

Section Defs.

Variable E : Type.
Variable execute_action :
  Action -> bool -> E -> (bool * option Event * string) * E.

(** A camera that tilts by [delta] degrees per step: a LookUp or LookDown
    that succeeds returns an observation whose cameraHorizon is the tilt
    of the new environment, which is the old tilt minus [delta] after
    LookUp and plus [delta] after LookDown. *)
Definition tilts_by (tilt : E -> Q) (delta : Q) (smooth_nav : bool) : Prop :=
  forall (a : Action) (env : E) ev msg env',
    a = LookUp \/ a = LookDown ->
    execute_action a smooth_nav env = ((true, ev, msg), env') ->
    exists e,
      ev = Some e
      /\ (forall d, horizon_of (metadata e) d == tilt env')%Q
      /\ (tilt env'
          == tilt env + match a with LookUp => - delta | _ => delta end)%Q.

(** A camera whose observations carry no cameraHorizon and never show the
    target, and whose LookUp always succeeds. *)
Definition silent (target : string) (smooth_nav : bool) : Prop :=
  forall env : E,
    exists e msg env',
      execute_action LookUp smooth_nav env = ((true, Some e, msg), env')
      /\ _is_object_visible (metadata e) target = false
      /\ forall d, horizon_of (metadata e) d = d.

End Defs.

(** An environment that counts its steps and answers every action with
    an observation without agent and objects. *)
Definition bare_event : Event := mkEvent (Some (mkMeta None [] RetNone None)).

Definition bare_execute (a : Action) (smooth_nav : bool) (steps : nat)
  : (bool * option Event * string) * nat :=
  ((true, Some bare_event, EmptyString), S steps).

End Camera.

(** ** Replaying a call log *)

Module Replay.
Import Executor.

Section Defs.

Variable E : Type.
Variable env_get_reachable : E -> Event * E.
Variable env_get_poses : option string -> ActionReturn -> E -> Event * E.
Variable execute_action :
  Action -> bool -> E -> (bool * option Event * string) * E.

(** One logged call made again on [env]: the environment it leaves and
    whether it succeeded; a query always does. *)
Definition replay_call (smooth_nav : bool) (env : E) (c : Call) : E * bool :=
  match c with
  | CallGetReachablePositions => (snd (env_get_reachable env), true)
  | CallGetInteractablePoses target positions =>
    (snd (env_get_poses target positions env), true)
  | CallExecute a =>
    let r := execute_action a smooth_nav env in (snd r, fst (fst (fst r)))
  end.

(** The calls of a log made again in order: the environment they leave
    and the success flag of each. *)
Fixpoint replay (smooth_nav : bool) (env : E) (calls : list Call)
  : E * list bool :=
  match calls with
  | [] => (env, [])
  | c :: rest =>
    let '(env1, ok) := replay_call smooth_nav env c in
    let '(env2, flags) := replay smooth_nav env1 rest in
    (env2, ok :: flags)
  end.

Definition all_ok (flags : list bool) : Prop := Forall (eq true) flags.

(** The last call failed and every call before it succeeded. *)
Definition ends_failed (flags : list bool) : Prop :=
  exists front, all_ok front /\ flags = front ++ [false].

(** Every run of [m] logs the calls it makes on the environment, the
    environment it leaves is the one those calls lead to, and the outcome
    and the success flags of the calls satisfy [Q]. *)
Definition acts {A : Type} (smooth_nav : bool)
  (Q : Result A -> list bool -> Prop) (m : Exec E A) : Prop :=
  forall w r w',
    m w = (r, w') ->
    exists l flags,
      snd w' = snd w ++ l
      /\ replay smooth_nav (fst w) l = (fst w', flags)
      /\ Q r flags.

(** The flags of a computation that stops at the first failed call. *)
Definition halts_on_failure {A : Type} (r : Result A) (flags : list bool)
  : Prop :=
  all_ok flags \/ (ends_failed flags /\ exists e, r = Raise e).

(** The outcome of a request and the flags of its calls: every call
    succeeded, or the last one failed and the request did not return
    success. *)
Definition stops_at_failure (r : Result (bool * option Event * string))
  (flags : list bool) : Prop :=
  all_ok flags
  \/ (ends_failed flags /\ forall ev err, r <> Ok (true, ev, err)).

End Defs.

End Replay.

Import Grid Table Rotation Order.
(** * Theorems *)

Lemma mod360_cardinal (k : Z) : cardinal ((k * 90) mod 360).
Proof.
  unfold cardinal.
  replace 360 with (4 * 90) by reflexivity.
  rewrite Z.mul_mod_distr_r by lia.
  pose proof (Z.mod_pos_bound k 4 ltac:(lia)). lia.
Qed.


Lemma cardinal_diff (c t : Z) :
  cardinal c -> cardinal t -> cardinal ((t - c) mod 360).
Proof.
  unfold cardinal. intros Hc Ht.
  destruct Hc as [-> | [-> | [-> | ->]]], Ht as [-> | [-> | [-> | ->]]];
    vm_compute; tauto.
Qed.

Lemma turn_actions_unfold (cy dy : Q) :
  _turn_actions cy (Some dy)
  = _rotation_actions (normalize_yaw cy) (normalize_yaw dy).
Proof. reflexivity. Qed.

(** C6. For cardinal headings the decomposition is fixed by
    diff = (target - current) mod 360: nothing for 0, one RotateRight for
    90, two RotateRight for 180, one RotateLeft for 270; and the executor's
    [_turn_actions] is [_rotation_actions] on the snapped headings. *)
Theorem rotation_decomposition (current target : Z) :
  cardinal current -> cardinal target ->
  let diff := (target - current) mod 360 in
  (diff = 0 -> _rotation_actions current target = [])
  /\ (diff = 90 -> _rotation_actions current target = [RotateRight])
  /\ (diff = 180 ->
      _rotation_actions current target = [RotateRight; RotateRight])
  /\ (diff = 270 -> _rotation_actions current target = [RotateLeft])
  /\ (diff = 0 \/ diff = 90 \/ diff = 180 \/ diff = 270)
  /\ (forall current_yaw desired_yaw : Q,
         normalize_yaw current_yaw = current ->
         normalize_yaw desired_yaw = target ->
         _turn_actions current_yaw (Some desired_yaw)
         = _rotation_actions current target).
Proof.
  intros Hc Ht diff.
  pose proof (cardinal_diff current target Hc Ht) as Hd.
  fold diff in Hd. unfold _rotation_actions. fold diff.
  repeat split.
  - intros ->. reflexivity.
  - intros ->. reflexivity.
  - intros ->. reflexivity.
  - intros ->. reflexivity.
  - exact Hd.
  - intros cy dy <- <-. apply turn_actions_unfold.
Qed.

Lemma rotation_decomposition_witness :
  _rotation_actions 90 270 = [RotateRight; RotateRight]
  /\ _turn_actions (271 # 3) (Some (805 # 3)) = _rotation_actions 90 270.
Proof.
  pose proof (rotation_decomposition 90 270
                ltac:(unfold cardinal; lia) ltac:(unfold cardinal; lia))
    as (_ & _ & H180 & _ & _ & Hturn).
  split.
  - apply H180. reflexivity.
  - apply Hturn; reflexivity.
Defined.

(** ** Nearest key *)

Lemma py_min_by_first {A : Type} (f : A -> Z) (l : list A) :
  l <> [] ->
  exists (i : nat) (a : A),
    py_min_by f l = Some a
    /\ l !! i = Some a
    /\ (forall (j : nat) (b : A), l !! j = Some b -> f a <= f b)
    /\ (forall (j : nat) (b : A), (j < i)%nat -> l !! j = Some b -> f a < f b).
Proof.
  induction l as [| x l IH]; [congruence | intros _].
  destruct l as [| y l'].
  - exists 0%nat, x. cbn. repeat split.
    + intros [| j] b Hb; cbn in Hb; [injection Hb as <-; lia | discriminate].
    + intros j b Hj. lia.
  - destruct IH as (i & a & Hmin & Hi & Hle & Hlt); [congruence |].
    cbn [py_min_by]. cbn [py_min_by] in Hmin. rewrite Hmin.
    destruct (f a <? f x) eqn:Hax.
    + apply Z.ltb_lt in Hax. exists (S i), a. repeat split.
      * exact Hi.
      * intros [| j] b Hb; cbn in Hb.
        -- injection Hb as <-. lia.
        -- eapply Hle; eauto.
      * intros [| j] b Hj Hb; cbn in Hb.
        -- injection Hb as <-. lia.
        -- eapply Hlt; eauto. lia.
    + apply Z.ltb_ge in Hax. exists 0%nat, x. repeat split.
      * intros [| j] b Hb; cbn in Hb.
        -- injection Hb as <-. lia.
        -- specialize (Hle j b Hb). lia.
      * intros j b Hj. lia.
Qed.




(** ** Executor: planning failures and malformed candidate data *)

Section ExecutorFacts.
Import Executor.

Variable E : Type.
Variable env_get_reachable : E -> Event * E.
Variable env_get_poses : option string -> ActionReturn -> E -> Event * E.
Variable last_event : E -> option Event.
Variable execute_action :
  Action -> bool -> E -> (bool * option Event * string) * E.

Abbreviation goto :=
  (_execute_goto E env_get_reachable env_get_poses last_event execute_action).
Abbreviation scan :=
  (_adjust_horizon_for_visibility E last_event execute_action).
Abbreviation up_loop := (look_up_loop E execute_action).
Abbreviation down_loop := (look_down_loop E execute_action).

(** C10. When the GetReachablePositions event has no metadata, the call
    returns (False, env.last_event, 'No reachable positions found'); it
    does not raise, and the query itself is the only call made on the
    environment, so no motion primitive is sent. *)
Theorem goto_without_reachable_metadata (fuel : nat)
  (target : option string) (smooth_nav : bool) (w : World E) :
  metadata (fst (env_get_reachable (fst w))) = None ->
  let env' := snd (env_get_reachable (fst w)) in
  goto fuel target smooth_nav w
  = (Ok (false, last_event env', msg_no_reachable),
     (env', snd w ++ [CallGetReachablePositions]))
  /\ forallb (fun c => negb (is_motion c)) [CallGetReachablePositions] = true.
Proof.
  intros Hmeta env'. split; [| reflexivity].
  unfold _execute_goto, bind, step_reachable, get_last_event, ret.
  subst env'. destruct (env_get_reachable (fst w)) as [ev e1]. cbn in *.
  rewrite Hmeta. reflexivity.
Qed.

(** C5. With the reachable-position metadata and the agent entry present:
    an empty interactable-pose list makes the call raise; a list whose
    first candidate is [None] makes it return the ordinary failure
    (False, env.last_event, 'GotoLocation missing valid target'). *)
Theorem goto_pose_list_empty_or_first_missing (fuel : nat)
  (target : option string) (smooth_nav : bool) (w : World E)
  (reach_meta : Metadata) (agent_meta : AgentMeta) (pose_meta : Metadata) :
  metadata (fst (env_get_reachable (fst w))) = Some reach_meta ->
  agent reach_meta = Some agent_meta ->
  let env1 := snd (env_get_reachable (fst w)) in
  let env2 := snd (env_get_poses target (actionReturn reach_meta) env1) in
  metadata (fst (env_get_poses target (actionReturn reach_meta) env1))
  = Some pose_meta ->
  (actionReturn pose_meta = RetPoses [] ->
   fst (goto fuel target smooth_nav w) = Raise (RuntimeError msg_no_poses))
  /\ (forall rest,
         actionReturn pose_meta = RetPoses (None :: rest) ->
         fst (goto fuel target smooth_nav w)
         = Ok (false, last_event env2, msg_missing_target)).
Proof.
  intros Hmeta Hagent env1 env2 Hposes.
  unfold _execute_goto, bind, step_reachable, step_poses, get_last_event,
    ret, raise, lift.
  subst env2 env1.
  destruct (env_get_reachable (fst w)) as [ev e1]. cbn in *.
  rewrite Hmeta, Hagent. cbn.
  destruct (env_get_poses target (actionReturn reach_meta) e1) as [pv e2].
  cbn in *. rewrite Hposes.
  split.
  - intros ->. reflexivity.
  - intros rest ->. reflexivity.
Qed.

(** C3. When [jps_actions] raises its no-path error, the route is the one
    [astar_actions] computes on the same node table, its adjacency, and the
    same start key, heading and goal key; when A* raises as well, the
    whole call raises that error after the two queries, without returning
    a (False, observation, message) triple. *)
Theorem goto_falls_back_to_astar (fuel : nat)
  (target : option string) (smooth_nav : bool) (w : World E)
  (reach_meta : Metadata) (agent_meta : AgentMeta) (pose_meta : Metadata)
  (target_position : Pose) (positions : list Position)
  (start_key target_key : PositionKey) :
  metadata (fst (env_get_reachable (fst w))) = Some reach_meta ->
  agent reach_meta = Some agent_meta ->
  let env1 := snd (env_get_reachable (fst w)) in
  let env2 := snd (env_get_poses target (actionReturn reach_meta) env1) in
  metadata (fst (env_get_poses target (actionReturn reach_meta) env1))
  = Some pose_meta ->
  first_pose (actionReturn pose_meta) = Some (Some target_position) ->
  positions_of (actionReturn reach_meta) = Ok positions ->
  let nodes := build_node_lookup positions in
  let start_yaw := normalize_yaw (agent_rotation_y agent_meta) in
  nearest_key nodes (agent_position agent_meta) = Ok start_key ->
  nearest_key nodes (pose_position target_position) = Ok target_key ->
  JPS.jps_actions nodes start_key start_yaw target_key
  = Raise (RuntimeError msg_jps_no_path) ->
  plan_route nodes start_key start_yaw target_key
  = AStar.astar_actions nodes (build_adjacency nodes)
      start_key start_yaw target_key
  /\ (forall e,
         AStar.astar_actions nodes (build_adjacency nodes)
           start_key start_yaw target_key = Raise e ->
         goto fuel target smooth_nav w
         = (Raise e,
            (env2,
             snd w ++ [CallGetReachablePositions]
                   ++ [CallGetInteractablePoses target
                         (actionReturn reach_meta)]))).
Proof.
  intros Hmeta Hagent env1 env2 Hposes Hfirst Hpos nodes start_yaw
    Hstart Htarget Hjps.
  assert (Hroute :
    plan_route nodes start_key start_yaw target_key
    = AStar.astar_actions nodes (build_adjacency nodes)
        start_key start_yaw target_key).
  { unfold plan_route. rewrite Hjps. reflexivity. }
  split; [exact Hroute |].
  intros e He.
  unfold _execute_goto, bind, step_reachable, step_poses, get_last_event,
    ret, raise, lift.
  subst env2 env1.
  destruct (env_get_reachable (fst w)) as [ev e1]. cbn in *.
  rewrite Hmeta, Hagent. cbn.
  destruct (env_get_poses target (actionReturn reach_meta) e1) as [pv e2].
  cbn in *. rewrite Hposes, Hfirst, Hpos.
  fold nodes. rewrite Hstart, Htarget. fold start_yaw.
  rewrite Hroute, He. rewrite <- app_assoc. reflexivity.
Qed.


(** ** Visibility recovery scan *)

Lemma Qltb_false_le (a b : Q) : Qltb a b = false -> Qle b a.
Proof.
  unfold Qltb. intros H. apply negb_false_iff in H.
  apply Qle_bool_iff. exact H.
Qed.

Lemma repeat_snoc_app {A : Type} (l : list A) (x : A) (n : nat) :
  (l ++ [x]) ++ repeat x n = l ++ repeat x (S n).
Proof. rewrite <- app_assoc. reflexivity. Qed.

Lemma up_loop_calls (target : string) (smooth_nav : bool) (fuel : nat) :
  forall (h : Q) (w : World E) r w',
    up_loop fuel target smooth_nav h w = (r, w') ->
    exists n : nat,
      snd w' = snd w ++ repeat (CallExecute LookUp) n
      /\ (forall h', r = Ok (inr h') -> Qle h' (min_horizon + horizon_eps)).
Proof.
  induction fuel as [| fuel IH]; intros h w r w' Hrun; cbn in Hrun;
    destruct (Qltb (min_horizon + horizon_eps) h) eqn:Hcond.
  - injection Hrun as <- <-. exists 0%nat. cbn. rewrite app_nil_r.
    split; [reflexivity | discriminate].
  - injection Hrun as <- <-. exists 0%nat. cbn. rewrite app_nil_r.
    split; [reflexivity |].
    intros h' [= <-]. apply Qltb_false_le. exact Hcond.
  - unfold bind, super_execute in Hrun.
    destruct (execute_action LookUp smooth_nav (fst w))
      as [[[ok ev] msg] env'].
    destruct ok; cbn in Hrun.
    + destruct (event_visible ev target).
      * injection Hrun as <- <-. exists 1%nat. split; [reflexivity |].
        discriminate.
      * destruct ev as [ev |]; cbn in Hrun.
        -- apply IH in Hrun as (n & Hlog & Hh). cbn in Hlog.
           exists (S n). rewrite Hlog, repeat_snoc_app. auto.
        -- injection Hrun as <- <-. exists 1%nat. split; [reflexivity |].
           discriminate.
    + injection Hrun as <- <-. exists 1%nat. split; [reflexivity |].
      discriminate.
  - injection Hrun as <- <-. exists 0%nat. cbn. rewrite app_nil_r.
    split; [reflexivity |].
    intros h' [= <-]. apply Qltb_false_le. exact Hcond.
Qed.

Lemma down_loop_calls (target : string) (smooth_nav : bool) (fuel : nat) :
  forall (h : Q) (w : World E) r w',
    down_loop fuel target smooth_nav h w = (r, w') ->
    r <> Ok false
    /\ exists m : nat, snd w' = snd w ++ repeat (CallExecute LookDown) m.
Proof.
  induction fuel as [| fuel IH]; intros h w r w' Hrun; cbn in Hrun;
    destruct (Qltb h (max_horizon - horizon_eps)) eqn:Hcond.
  - injection Hrun as <- <-. split; [discriminate |].
    exists 0%nat. cbn. rewrite app_nil_r. reflexivity.
  - injection Hrun as <- <-. split; [discriminate |].
    exists 0%nat. cbn. rewrite app_nil_r. reflexivity.
  - unfold bind, super_execute in Hrun.
    destruct (execute_action LookDown smooth_nav (fst w))
      as [[[ok ev] msg] env'].
    destruct ok; cbn in Hrun.
    + destruct (event_visible ev target).
      * injection Hrun as <- <-. split; [discriminate |].
        exists 1%nat. reflexivity.
      * destruct ev as [ev |]; cbn in Hrun.
        -- apply IH in Hrun as (Hr & m & Hlog). cbn in Hlog.
           split; [exact Hr |].
           exists (S m). rewrite Hlog, repeat_snoc_app. reflexivity.
        -- injection Hrun as <- <-. split; [discriminate |].
           exists 1%nat. reflexivity.
    + injection Hrun as <- <-. split; [discriminate |].
      exists 1%nat. reflexivity.
  - injection Hrun as <- <-. split; [discriminate |].
    exists 0%nat. cbn. rewrite app_nil_r. reflexivity.
Qed.

Lemma up_loop_never_false (target : string) (smooth_nav : bool)
  (fuel : nat) :
  forall (h : Q) (w : World E),
    fst (up_loop fuel target smooth_nav h w) <> Ok (inl false).
Proof.
  induction fuel as [| fuel IH]; intros h w; cbn;
    destruct (Qltb (min_horizon + horizon_eps) h); cbn; try discriminate.
  unfold bind, super_execute.
  destruct (execute_action LookUp smooth_nav (fst w))
    as [[[ok ev] msg] env'].
  destruct ok; cbn; [| discriminate].
  destruct (event_visible ev target); cbn; [discriminate |].
  destruct ev as [ev |]; cbn; [apply IH | discriminate].
Qed.


End ExecutorFacts.

Lemma goto_without_reachable_metadata_witness :
  Samples.sim_goto 3 (Some Samples.mug)
    (Samples.mkSim None Samples.no_metadata Samples.no_metadata [])
  = (Ok (false, Some Samples.no_metadata, Executor.msg_no_reachable),
     (Samples.mkSim (Some Samples.no_metadata) Samples.no_metadata
        Samples.no_metadata [],
      [Executor.CallGetReachablePositions])).
Proof.
  apply (goto_without_reachable_metadata Samples.Sim
           Samples.sim_get_reachable Samples.sim_get_poses Samples.sim_last
           Samples.sim_execute 3 (Some Samples.mug) false
           (Samples.mkSim None Samples.no_metadata Samples.no_metadata [],
            [])).
  reflexivity.
Defined.

Lemma goto_pose_list_witness :
  fst (Samples.sim_goto 3 (Some Samples.mug)
         (Samples.mkSim None Samples.reach_apart
            (Samples.observe 0 false (Executor.RetPoses [])) []))
  = Raise (RuntimeError Executor.msg_no_poses).
Proof.
  exact (proj1 (goto_pose_list_empty_or_first_missing Samples.Sim
           Samples.sim_get_reachable Samples.sim_get_poses Samples.sim_last
           Samples.sim_execute 3 (Some Samples.mug) false
           (Samples.mkSim None Samples.reach_apart
              (Samples.observe 0 false (Executor.RetPoses [])) [], [])
           (Samples.meta_with 0 false
              (Executor.RetPositions [Samples.cell 0 0; Samples.cell 2 0]))
           (Samples.agent_at 0)
           (Samples.meta_with 0 false (Executor.RetPoses []))
           eq_refl eq_refl eq_refl) eq_refl).
Defined.

Lemma goto_falls_back_witness :
  fst (Samples.sim_goto 3 (Some Samples.mug)
         (Samples.mkSim None Samples.reach_apart
            (Samples.observe 0 false
               (Executor.RetPoses [Some (Samples.pose_at 2 0 90)])) []))
  = Raise (RuntimeError msg_astar_no_path).
Proof.
  pose proof (goto_falls_back_to_astar Samples.Sim
           Samples.sim_get_reachable Samples.sim_get_poses Samples.sim_last
           Samples.sim_execute 3 (Some Samples.mug) false
           (Samples.mkSim None Samples.reach_apart
              (Samples.observe 0 false
                 (Executor.RetPoses [Some (Samples.pose_at 2 0 90)])) [], [])
           (Samples.meta_with 0 false
              (Executor.RetPositions [Samples.cell 0 0; Samples.cell 2 0]))
           (Samples.agent_at 0)
           (Samples.meta_with 0 false
              (Executor.RetPoses [Some (Samples.pose_at 2 0 90)]))
           (Samples.pose_at 2 0 90)
           [Samples.cell 0 0; Samples.cell 2 0] (0, 0) (50, 0)
           eq_refl eq_refl eq_refl eq_refl eq_refl eq_refl eq_refl eq_refl)
    as [_ Hraise].
  unfold Samples.sim_goto.
  rewrite (Hraise (RuntimeError msg_astar_no_path) eq_refl). reflexivity.
Defined.



(** ** The order of the open list *)

Section FValOrder.
Import AStar.
Local Open Scope R_scope.


Lemma real_lt_plus_nonneg (a b d : R) :
  0 <= a -> 0 <= b -> 0 <= d ->
  (a * a - d * d - b * b < 0
   \/ (a * a - d * d - b * b) * (a * a - d * d - b * b)
      < 4 * d * d * (b * b))
  <-> a < d + b.
Proof.
  intros Ha Hb Hd. set (T := a * a - d * d - b * b).
  assert (Hdb : 0 <= d * b) by nra.
  split.
  - intros [H | H].
    + subst T. nra.
    + destruct (Rlt_dec T (2 * (d * b))) as [Hlt | Hge].
      * subst T. nra.
      * exfalso. apply Rnot_lt_le in Hge.
        assert (2 * (d * b) * (2 * (d * b)) <= T * T) by nra. nra.
  - intros H. assert (HT : T < 2 * (d * b)) by (subst T; nra).
    destruct (Rlt_dec T 0) as [Hneg | Hpos]; [left; exact Hneg | right].
    apply Rnot_lt_le in Hpos.
    assert (T * T < 2 * (d * b) * (2 * (d * b))) by nra. nra.
Qed.

Lemma real_lt_plus_neg (a b e : R) :
  0 <= a -> 0 <= b -> 0 < e ->
  (0 < b * b - a * a - e * e
   /\ 4 * e * e * (a * a)
      < (b * b - a * a - e * e) * (b * b - a * a - e * e))
  <-> a < - e + b.
Proof.
  intros Ha Hb He. set (U := b * b - a * a - e * e).
  assert (Hea : 0 <= e * a) by nra.
  split.
  - intros [H1 H2].
    assert (HU : 2 * (e * a) < U).
    { destruct (Rlt_dec (2 * (e * a)) U) as [Hlt | Hge]; [exact Hlt |].
      exfalso. apply Rnot_lt_le in Hge.
      assert (U * U <= 2 * (e * a) * (2 * (e * a))) by nra. nra. }
    subst U. nra.
  - intros H. assert (Hab : a + e < b) by lra.
    assert (HU : 2 * (e * a) < U) by (subst U; nra).
    split; [nra |].
    assert (2 * (e * a) * (2 * (e * a)) < U * U) by nra. nra.
Qed.

Lemma sqrt_lt_plus_spec (n d m : Z) :
  (0 <= n)%Z -> (0 <= m)%Z ->
  sqrt_lt_plus n d m = true <-> sqrt (IZR n) < IZR d + sqrt (IZR m).
Proof.
  intros Hn Hm.
  pose proof (sqrt_pos (IZR n)) as Ha.
  pose proof (sqrt_pos (IZR m)) as Hb.
  pose proof (sqrt_sqrt (IZR n) (IZR_le 0 n Hn)) as Ha2.
  pose proof (sqrt_sqrt (IZR m) (IZR_le 0 m Hm)) as Hb2.
  unfold sqrt_lt_plus.
  destruct (0 <=? d)%Z eqn:Hd.
  - apply Z.leb_le in Hd. apply IZR_le in Hd.
    rewrite <- (real_lt_plus_nonneg _ _ _ Ha Hb Hd).
    rewrite Ha2, Hb2, orb_true_iff, !Z.ltb_lt.
    split; (intros [H | H]; [left | right]).
    + apply IZR_lt in H. rewrite !minus_IZR, mult_IZR in H. exact H.
    + apply IZR_lt in H.
      rewrite !mult_IZR, !minus_IZR, !mult_IZR in H. exact H.
    + apply lt_IZR. rewrite !minus_IZR, mult_IZR. exact H.
    + apply lt_IZR. rewrite !mult_IZR, !minus_IZR, !mult_IZR. exact H.
  - apply Z.leb_gt in Hd.
    assert (He : 0 < IZR (- d)) by (apply IZR_lt; lia).
    replace (IZR d) with (- IZR (- d)) by (rewrite opp_IZR; ring).
    rewrite <- (real_lt_plus_neg _ _ _ Ha Hb He).
    rewrite Ha2, Hb2, andb_true_iff, !Z.ltb_lt.
    split; intros [H1 H2]; split.
    + apply IZR_lt in H1. rewrite !minus_IZR, mult_IZR in H1. exact H1.
    + apply IZR_lt in H2.
      rewrite !mult_IZR, !minus_IZR, !mult_IZR in H2. exact H2.
    + apply lt_IZR. rewrite !minus_IZR, mult_IZR. exact H1.
    + apply lt_IZR. rewrite !mult_IZR, !minus_IZR, !mult_IZR. exact H2.
Qed.

(** The integer test [fval_ltb] decides the order of the real numbers
    the records stand for. *)
Lemma fval_ltb_spec (a b : FVal) :
  (0 <= frad a)%Z -> (0 <= frad b)%Z ->
  fval_ltb a b = true <-> fval_R a < fval_R b.
Proof.
  intros Ha Hb. unfold fval_ltb, fval_R.
  rewrite (sqrt_lt_plus_spec _ _ _ Ha Hb).
  unfold Grid.STEP_SIZE. rewrite mult_IZR, minus_IZR.
  split; intros H; lra.
Qed.

Lemma fval_eqb_spec (a b : FVal) :
  (0 <= frad a)%Z -> (0 <= frad b)%Z ->
  fval_eqb a b = true <-> fval_R a = fval_R b.
Proof.
  intros Ha Hb. unfold fval_eqb.
  rewrite andb_true_iff, !negb_true_iff.
  pose proof (fval_ltb_spec a b Ha Hb) as Hab.
  pose proof (fval_ltb_spec b a Hb Ha) as Hba.
  split.
  - intros [H1 H2].
    destruct (Rtotal_order (fval_R a) (fval_R b)) as [Hlt | [Heq | Hgt]].
    + apply Hab in Hlt. congruence.
    + exact Heq.
    + apply Hba in Hgt. congruence.
  - intros Heq. split; apply not_true_is_false; intros H.
    + apply Hab in H. lra.
    + apply Hba in H. lra.
Qed.
End FValOrder.

(** Lexicographic combinations of strict weak orders are strict weak
    orders, and [heappop] returns a least item. *)
Section StrictWeak.
Import Order.

Context {A : Type} (P : A -> Prop).

Lemma strict_weak_lexb (eqb1 ltb1 ltb2 : A -> A -> bool) :
  (forall a b, P a -> P b ->
     eqb1 a b = negb (ltb1 a b) && negb (ltb1 b a)) ->
  strict_weak P ltb1 -> strict_weak P ltb2 ->
  strict_weak P (lexb eqb1 ltb1 ltb2).
Proof.
  intros Heq [Hasym1 Hnt1] [Hasym2 Hnt2]. split.
  - intros a b Pa Pb. unfold lexb.
    rewrite (Heq a b Pa Pb), (Heq b a Pb Pa).
    pose proof (Hasym1 a b Pa Pb). pose proof (Hasym2 a b Pa Pb).
    destruct (ltb1 a b), (ltb1 b a); cbn; auto; discriminate.
  - intros a b c Pa Pb Pc. unfold lexb.
    rewrite (Heq a b Pa Pb), (Heq b c Pb Pc), (Heq a c Pa Pc).
    pose proof (Hnt1 a b c Pa Pb Pc) as Habc.
    pose proof (Hnt1 c b a Pc Pb Pa) as Hcba.
    pose proof (Hnt1 b c a Pb Pc Pa) as Hbca.
    pose proof (Hnt1 c a b Pc Pa Pb) as Hcab.
    pose proof (Hasym1 a c Pa Pc) as Hac.
    pose proof (Hnt2 a b c Pa Pb Pc) as H2.
    destruct (ltb1 a b), (ltb1 b a), (ltb1 b c), (ltb1 c b),
      (ltb1 a c), (ltb1 c a); cbn; intros; auto; try discriminate;
      try (specialize (Habc eq_refl eq_refl); discriminate);
      try (specialize (Hcba eq_refl eq_refl); discriminate);
      try (specialize (Hbca eq_refl eq_refl); discriminate);
      try (specialize (Hcab eq_refl eq_refl); discriminate);
      try (specialize (Hac eq_refl); discriminate).
Qed.

(** [heappop] returns a least item and leaves the others. *)
Lemma heappop_least (ltb : A -> A -> bool) :
  strict_weak P ltb ->
  forall heap e rest,
    Forall P heap ->
    AStar.heappop ltb heap = Some (e, rest) ->
    Permutation heap (e :: rest)
    /\ forall x, In x rest -> ltb x e = false.
Proof.
  intros [Hasym Hnt]. induction heap as [| e0 heap IH]; intros e rest HP Hpop.
  - discriminate.
  - cbn in Hpop. apply Forall_cons_iff in HP as [P0 HP].
    destruct (AStar.heappop ltb heap) as [[m rest'] |] eqn:Hrec.
    + destruct (IH m rest' HP eq_refl) as [Hperm Hmin].
      assert (Pm : P m).
      { apply (proj1 (List.Forall_forall P heap) HP).
        eapply Permutation_in; [symmetry; exact Hperm | left; reflexivity]. }
      assert (Prest : forall x, In x rest' -> P x).
      { intros x Hx. apply (proj1 (List.Forall_forall P heap) HP).
        eapply Permutation_in; [symmetry; exact Hperm | right; exact Hx]. }
      destruct (ltb m e0) eqn:Hlt; injection Hpop as <- <-.
      * split.
        -- rewrite Hperm. apply perm_swap.
        -- intros x [<- | Hx]; [apply Hasym; auto | apply Hmin; exact Hx].
      * split; [reflexivity |].
        intros x Hx.
        apply (Permutation_in _ Hperm) in Hx as [<- | Hx]; [exact Hlt |].
        apply (Hnt x m e0); auto.
    + injection Hpop as <- <-. split; [| intros x []].
      destruct heap; [reflexivity | cbn in Hrec].
      destruct (AStar.heappop ltb heap) as [[m rest'] |];
        [destruct (ltb m a) |]; discriminate.
Qed.

End StrictWeak.

Section EntryOrder.
Import AStar.

Lemma Zltb_strict_weak {B : Type} (Q : B -> Prop) (f : B -> Z) :
  strict_weak Q (fun a b => f a <? f b).
Proof.
  split; intros; rewrite ?Z.ltb_lt, ?Z.ltb_ge in *; lia.
Qed.

Lemma Zeqb_as_ltb (x y : Z) : (x =? y) = negb (x <? y) && negb (y <? x).
Proof.
  destruct (Z.eqb_spec x y), (Z.ltb_spec x y), (Z.ltb_spec y x);
    cbn; try reflexivity; lia.
Qed.

Lemma fval_ltb_strict_weak :
  strict_weak entry_ok (fun a b => fval_ltb (e_f a) (e_f b)).
Proof.
  split.
  - intros a b Ha Hb H. apply not_true_is_false. intros H'.
    apply fval_ltb_spec in H, H'; auto. lra.
  - intros a b c Ha Hb Hc H1 H2. apply not_true_is_false. intros H3.
    apply fval_ltb_spec in H3; auto.
    assert (~ (fval_R (e_f a) < fval_R (e_f b))%R)
      by (intros X; apply fval_ltb_spec in X; auto; congruence).
    assert (~ (fval_R (e_f b) < fval_R (e_f c))%R)
      by (intros X; apply fval_ltb_spec in X; auto; congruence).
    lra.
Qed.

Lemma state_ltb_as_lexb (a b : Entry) :
  state_ltb (e_state a) (e_state b)
  = lexb (fun a b => fst (fst (e_state a)) =? fst (fst (e_state b)))
         (fun a b => fst (fst (e_state a)) <? fst (fst (e_state b)))
      (lexb (fun a b => snd (fst (e_state a)) =? snd (fst (e_state b)))
            (fun a b => snd (fst (e_state a)) <? snd (fst (e_state b)))
            (fun a b => snd (e_state a) <? snd (e_state b))) a b.
Proof.
  destruct a as [? ? ? [[x1 z1] y1]], b as [? ? ? [[x2 z2] y2]]. reflexivity.
Qed.

Lemma entry_ltb_as_lexb (a b : Entry) :
  entry_ltb a b
  = lexb (fun a b => fval_eqb (e_f a) (e_f b))
         (fun a b => fval_ltb (e_f a) (e_f b))
      (lexb (fun a b => e_g a =? e_g b) (fun a b => e_g a <? e_g b)
         (lexb (fun a b => e_seq a =? e_seq b)
               (fun a b => e_seq a <? e_seq b)
               (fun a b => state_ltb (e_state a) (e_state b)))) a b.
Proof. reflexivity. Qed.

Lemma strict_weak_ext {B : Type} (Q : B -> Prop) (l1 l2 : B -> B -> bool) :
  (forall a b, l1 a b = l2 a b) -> strict_weak Q l2 -> strict_weak Q l1.
Proof.
  intros Hext [H1 H2]. split; intros; rewrite ?Hext in *; eauto.
Qed.

Lemma entry_ltb_strict_weak : strict_weak entry_ok entry_ltb.
Proof.
  eapply strict_weak_ext; [exact entry_ltb_as_lexb |].
  apply strict_weak_lexb.
  - reflexivity.
  - exact fval_ltb_strict_weak.
  - apply strict_weak_lexb.
    + intros. apply Zeqb_as_ltb.
    + apply Zltb_strict_weak.
    + apply strict_weak_lexb.
      * intros. apply Zeqb_as_ltb.
      * apply Zltb_strict_weak.
      * eapply strict_weak_ext; [exact state_ltb_as_lexb |].
        apply strict_weak_lexb.
        -- intros. apply Zeqb_as_ltb.
        -- apply (Zltb_strict_weak _ (fun a => fst (fst (e_state a)))).
        -- apply strict_weak_lexb.
           ++ intros. apply Zeqb_as_ltb.
           ++ apply (Zltb_strict_weak _ (fun a => snd (fst (e_state a)))).
           ++ apply (Zltb_strict_weak _ (fun a => snd (e_state a))).
Qed.

End EntryOrder.

(** ** Inversion of the result monad *)

Lemma rbind_ok {A B : Type} (r : Result A) (k : A -> Result B) (b : B) :
  (r ≫= k) = Ok b -> exists a, r = Ok a /\ k a = Ok b.
Proof. destruct r; cbn; intros H; try discriminate. eauto. Qed.

Lemma getitem_ok {A : Type} (o : option A) (a : A) :
  getitem o = Ok a -> o = Some a.
Proof. destruct o; cbn; congruence. Qed.

(** ** The priority order of the A* open list *)

Section OpenListOrder.
Import AStar Trace.

Variable nodes : NodeTable.
Variable adjacency : Adjacency.
Variable goal_key : PositionKey.

Lemma heuristic_nonneg (key : PositionKey) (h : Z) :
  heuristic nodes goal_key key = Ok h -> 0 <= h.
Proof.
  unfold heuristic. destruct (dict_get nodes key); [| discriminate].
  destruct (dict_get nodes goal_key); [| discriminate]. cbn.
  intros [= <-]. nia.
Qed.

Lemma relax_heap_ok (st st' : Search) (cur : State) (g : Z) (s : State)
  (a : Action) (hkey : PositionKey) :
  heap_ok (open_heap st) (counter st) ->
  relax nodes goal_key st cur g s a hkey = Ok st' ->
  heap_ok (open_heap st') (counter st').
Proof.
  intros (Hok & Hnd & Hlt). unfold relax.
  destruct (improves st g s); [| intros [= <-]; repeat split; assumption].
  intros H. apply rbind_ok in H as (h & Hh & H). injection H as <-.
  cbn. unfold heappush. repeat split.
  - constructor; [| exact Hok]. unfold entry_ok. cbn.
    eapply heuristic_nonneg; eauto.
  - cbn. apply NoDup_cons. split; [| exact Hnd].
    intros Hin. apply list_elem_of_In, in_map_iff in Hin as (e & Heq & Hin).
    apply (proj1 (List.Forall_forall _ _) Hlt) in Hin. lia.
  - constructor; [cbn; lia |].
    eapply Forall_impl; [exact Hlt |]. cbn. intros; lia.
Qed.

Lemma expand_heap_ok (st st' : Search) (g : Z) (s : State) :
  heap_ok (open_heap st) (counter st) ->
  expand nodes adjacency goal_key st g s = Ok st' ->
  heap_ok (open_heap st') (counter st').
Proof.
  intros Hok H. unfold expand in H. destruct s as [pos yaw].
  apply rbind_ok in H as (st1 & H1 & H).
  apply rbind_ok in H as (st2 & H2 & H).
  apply rbind_ok in H as (d & _ & H).
  apply rbind_ok in H as (p & _ & H).
  apply rbind_ok in H as (adj & _ & H).
  apply relax_heap_ok in H1; [| exact Hok].
  apply relax_heap_ok in H2; [| exact H1].
  destruct (key_in _ adj).
  - eapply relax_heap_ok; eauto.
  - injection H as <-. exact H2.
Qed.

Lemma heap_ok_pop (heap rest : list Entry) (e : Entry) (c : Z) :
  heap_ok heap c ->
  Permutation heap (e :: rest) ->
  heap_ok rest c /\ entry_ok e /\ forall x, In x rest -> e_seq x <> e_seq e.
Proof.
  intros (Hok & Hnd & Hlt) Hperm.
  rewrite Hperm in Hok, Hlt.
  apply (Permutation_map e_seq) in Hperm.
  rewrite Hperm in Hnd. cbn in Hnd.
  apply NoDup_cons in Hnd as [Hnotin Hnd].
  apply Forall_cons_iff in Hok as [Hoke Hok].
  apply Forall_cons_iff in Hlt as [_ Hlt].
  repeat split; auto.
  intros x Hx Heq. apply Hnotin. rewrite <- Heq.
  apply list_elem_of_In, in_map. exact Hx.
Qed.

Lemma least_is_key3_least (e x : Entry) :
  entry_ltb x e = false -> e_seq x <> e_seq e -> key3_lt e x.
Proof.
  unfold entry_ltb, key3_lt, fval_eqb. intros Hlt Hseq.
  destruct (fval_ltb (e_f x) (e_f e)) eqn:Hxe,
           (fval_ltb (e_f e) (e_f x)) eqn:Hex; cbn in *;
    try discriminate; auto.
  right.
  destruct (Z.eqb_spec (e_g x) (e_g e)) as [Hg | Hg]; cbn in Hlt.
  - right. split; [reflexivity |]. split; [congruence |].
    destruct (Z.eqb_spec (e_seq x) (e_seq e)); [contradiction |].
    cbn in Hlt. apply Z.ltb_ge in Hlt. lia.
  - left. split; [reflexivity |]. apply Z.ltb_ge in Hlt. lia.
Qed.

Lemma pops_ordered (fuel : nat) :
  forall st : Search,
    heap_ok (open_heap st) (counter st) ->
    forall e rest,
      In (e, rest) (pops nodes adjacency goal_key fuel st) ->
      forall x, In x rest -> key3_lt e x.
Proof.
  induction fuel as [| fuel IH]; intros st Hok e rest Hin; [destruct Hin |].
  cbn in Hin.
  destruct (heappop entry_ltb (open_heap st)) as [[e0 rest0] |] eqn:Hpop;
    [| destruct Hin].
  destruct (heappop_least entry_ok entry_ltb entry_ltb_strict_weak
              _ _ _ (proj1 Hok) Hpop) as [Hperm Hmin].
  destruct (heap_ok_pop _ _ _ _ Hok Hperm) as (Hok' & _ & Hseq).
  destruct Hin as [[= <- <-] | Hin].
  - intros x Hx. apply least_is_key3_least; auto.
  - destruct (key_eqb (fst (e_state e0)) goal_key); [destruct Hin |].
    destruct (expand nodes adjacency goal_key _ (e_g e0) (e_state e0))
      as [st'' | |] eqn:Hexp; try destruct Hin.
    apply expand_heap_ok in Hexp; [| exact Hok'].
    eapply IH; eauto.
Qed.

End OpenListOrder.




(** ** Node tables and adjacency *)

Section TableFacts.
Import Inv.

Lemma key_eqb_eq (a b : PositionKey) : key_eqb a b = true <-> a = b.
Proof.
  destruct a as [x z], b as [x' z']. unfold key_eqb. cbn.
  rewrite andb_true_iff, !Z.eqb_eq. split.
  - intros [-> ->]. reflexivity.
  - intros [= -> ->]. auto.
Qed.

Lemma key_eqb_refl (a : PositionKey) : key_eqb a a = true.
Proof. apply key_eqb_eq. reflexivity. Qed.

Lemma key_eqb_neq (a b : PositionKey) : key_eqb a b = false <-> a <> b.
Proof.
  rewrite <- key_eqb_eq. destruct (key_eqb a b); split; congruence.
Qed.

Lemma dict_mem_get {V : Type} (d : list (PositionKey * V)) (k : PositionKey) :
  dict_mem d k = true <-> exists v, dict_get d k = Some v.
Proof.
  unfold dict_mem. destruct (dict_get d k); split; eauto.
  - discriminate.
  - intros [v Hv]. discriminate.
Qed.

Lemma dict_get_In {V : Type} (d : list (PositionKey * V)) (k : PositionKey)
  (v : V) : dict_get d k = Some v -> In (k, v) d.
Proof.
  induction d as [| [k' v'] d IH]; cbn [dict_get]; [discriminate |].
  destruct (key_eqb k' k) eqn:Hk.
  - apply key_eqb_eq in Hk as ->. intros [= ->]. left. reflexivity.
  - intros H. right. auto.
Qed.

Lemma dict_get_set {V : Type} (d : list (PositionKey * V))
  (k k' : PositionKey) (v : V) :
  dict_get (dict_set d k v) k'
  = if key_eqb k k' then Some v else dict_get d k'.
Proof.
  induction d as [| [k0 v0] d IH]; cbn [dict_set dict_get].
  - reflexivity.
  - destruct (key_eqb k0 k) eqn:H0; cbn [dict_get].
    + apply key_eqb_eq in H0 as ->.
      destruct (key_eqb k k'); reflexivity.
    + rewrite IH. destruct (key_eqb k0 k') eqn:H1; [| reflexivity].
      apply key_eqb_eq in H1 as ->. apply key_eqb_neq in H0.
      destruct (key_eqb k k') eqn:H2; [| reflexivity].
      apply key_eqb_eq in H2. congruence.
Qed.

Lemma build_node_lookup_wf (positions : list Position) :
  wf_table (build_node_lookup positions).
Proof.
  unfold build_node_lookup.
  assert (Hgen : forall d, wf_table d ->
            wf_table (fold_left
              (fun d pos => dict_set d (make_key (px pos) (pz pos)) pos)
              positions d)).
  { induction positions as [| p ps IH]; intros d Hd; cbn; [exact Hd |].
    apply IH. intros k pos. rewrite dict_get_set.
    destruct (key_eqb _ k) eqn:Hk.
    - apply key_eqb_eq in Hk as <-. intros [= <-]. reflexivity.
    - apply Hd. }
  apply Hgen. intros k pos. discriminate.
Qed.

Variable nodes : NodeTable.
Hypothesis Hwf : wf_table nodes.

Lemma wf_position (k : PositionKey) (pos : Position) :
  dict_get nodes k = Some pos -> px pos = fst k /\ pz pos = snd k.
Proof. intros H. apply Hwf in H as ->. auto. Qed.

Lemma adjacency_get (k : PositionKey) :
  dict_get (build_adjacency nodes) k
  = neighbors_of nodes <$> dict_get nodes k.
Proof.
  unfold build_adjacency. generalize (neighbors_of nodes). clear Hwf.
  intros f. induction nodes as [| [k0 p0] d IH]; cbn [map dict_get fst snd].
  - reflexivity.
  - destruct (key_eqb k0 k); [reflexivity | exact IH].
Qed.

Lemma key_in_In (k : PositionKey) (l : list PositionKey) :
  key_in k l = true <-> In k l.
Proof.
  unfold key_in. rewrite existsb_exists. split.
  - intros (x & Hx & Heq). apply key_eqb_eq in Heq as ->. exact Hx.
  - intros H. exists k. split; [exact H | apply key_eqb_refl].
Qed.

Lemma cardinal_direction_In (yaw : Z) (d : Z * Z) :
  In (yaw, d) CARDINAL_DIRECTIONS
  <-> cardinal yaw /\ cardinal_direction yaw = Some d.
Proof.
  unfold CARDINAL_DIRECTIONS, cardinal. cbn. split.
  - intros [H | [H | [H | [H | []]]]]; injection H as <- <-; cbn; tauto.
  - intros [[-> | [-> | [-> | ->]]] H]; cbn in H; injection H as <-; tauto.
Qed.

Lemma neighbors_of_spec (pos : Position) (c : PositionKey) :
  key_in c (neighbors_of nodes pos) = true
  <-> dict_mem nodes c = true
      /\ exists yaw d, cardinal yaw
                       /\ cardinal_direction yaw = Some d
                       /\ c = make_key (px pos + fst d) (pz pos + snd d).
Proof.
  rewrite key_in_In, <- list_elem_of_In. unfold neighbors_of.
  rewrite list_elem_of_omap. split.
  - intros ([yaw [dx dz]] & Hin & Hf).
    apply list_elem_of_In, cardinal_direction_In in Hin as [Hc Hd].
    destruct (dict_mem nodes _) eqn:Hmem; [| discriminate].
    injection Hf as <-. split; [exact Hmem |].
    exists yaw, (dx, dz). auto.
  - intros (Hmem & yaw & [dx dz] & Hc & Hd & ->).
    exists (yaw, (dx, dz)). split.
    + apply list_elem_of_In, cardinal_direction_In. auto.
    + cbn in *. rewrite Hmem. reflexivity.
Qed.

End TableFacts.

(** ** Plans on a well-formed table *)

Section PlanFacts.
Import Inv AStar Plan.

Variable nodes : NodeTable.
Hypothesis Hwf : wf_table nodes.

Abbreviation adjacency := (build_adjacency nodes).

Lemma cardinal_rotate (h : Z) :
  cardinal h -> cardinal ((h - 90) mod 360) /\ cardinal ((h + 90) mod 360).
Proof.
  unfold cardinal. intros [-> | [-> | [-> | ->]]]; vm_compute; tauto.
Qed.

Lemma cardinal_direction_listed (h : Z) (d : Z * Z) :
  cardinal_direction h = Some d -> In (h, d) CARDINAL_DIRECTIONS.
Proof.
  unfold cardinal_direction. intros H.
  destruct (List.find _ _) as [[y dd] |] eqn:Hf; [| discriminate].
  injection H as <-. apply find_some in Hf as [Hin Hy]. cbn in Hy.
  apply Z.eqb_eq in Hy as ->. exact Hin.
Qed.

Lemma cardinal_direction_length (h : Z) (d : Z * Z) :
  cardinal_direction h = Some d -> Z.abs (fst d) + Z.abs (snd d) = 25.
Proof.
  intros H. apply cardinal_direction_listed in H. cbn in H.
  destruct H as [H | [H | [H | [H | []]]]]; injection H as <- <-; reflexivity.
Qed.

Lemma cardinal_direction_some (h : Z) :
  cardinal h -> exists d, cardinal_direction h = Some d.
Proof.
  unfold cardinal. intros [-> | [-> | [-> | ->]]]; eexists; reflexivity.
Qed.

(** MoveAhead, read on the keys of a well-formed table. *)
Lemma exec_move_unfold (p : PositionKey) (h : Z) :
  exec_action nodes adjacency (p, h) MoveAhead
  = match cardinal_direction h, dict_get nodes p with
    | Some d, Some pos =>
      let ahead := make_key (px pos + fst d) (pz pos + snd d) in
      if key_in ahead (neighbors_of nodes pos) then Some (ahead, h) else None
    | _, _ => None
    end.
Proof.
  cbn [exec_action]. rewrite adjacency_get.
  destruct (cardinal_direction h); [| reflexivity].
  destruct (dict_get nodes p); reflexivity.
Qed.

Lemma exec_move_spec (p : PositionKey) (h : Z) (s' : State) :
  exec_action nodes adjacency (p, h) MoveAhead = Some s'
  <-> exists d,
      cardinal_direction h = Some d
      /\ dict_mem nodes p = true
      /\ dict_mem nodes (fst p + fst d, snd p + snd d) = true
      /\ s' = ((fst p + fst d, snd p + snd d), h).
Proof.
  rewrite exec_move_unfold. split.
  - destruct (cardinal_direction h) as [d |] eqn:Hd; [| discriminate].
    destruct (dict_get nodes p) as [pos |] eqn:Hp; [| discriminate].
    destruct (wf_position nodes Hwf _ _ Hp) as [Hx Hz].
    cbv zeta. unfold make_key. rewrite Hx, Hz.
    destruct (key_in _ (neighbors_of nodes pos)) eqn:Hin; [| discriminate].
    intros [= <-]. apply neighbors_of_spec in Hin as [Hmem _].
    exists d. repeat split; auto.
    apply dict_mem_get. eauto.
  - intros (d & Hd & Hp & Hq & ->). rewrite Hd.
    apply dict_mem_get in Hp as [pos Hp]. rewrite Hp.
    destruct (wf_position nodes Hwf _ _ Hp) as [Hx Hz].
    cbv zeta. unfold make_key. rewrite Hx, Hz.
    replace (key_in _ (neighbors_of nodes pos)) with true; [reflexivity |].
    symmetry. apply neighbors_of_spec. split; [exact Hq |].
    assert (Hc : cardinal h).
    { apply cardinal_direction_listed, cardinal_direction_In in Hd. tauto. }
    exists h, d. unfold make_key. rewrite Hx, Hz. auto.
Qed.

Lemma exec_nav (s s' : State) (a : Action) :
  exec_action nodes adjacency s a = Some s' -> nav_action a.
Proof.
  destruct s as [p h]. unfold nav_action.
  destruct a; cbn; try discriminate; auto.
Qed.

Lemma exec_valid (s s' : State) (a : Action) :
  valid_state nodes s ->
  exec_action nodes adjacency s a = Some s' ->
  valid_state nodes s'.
Proof.
  destruct s as [p h]. intros [Hp Hh] Hex. cbn in Hp, Hh.
  destruct (cardinal_rotate h Hh) as [Hl Hr].
  destruct a; try discriminate.
  - apply exec_move_spec in Hex as (d & _ & _ & Hq & ->). split; assumption.
  - injection Hex as <-. split; assumption.
  - injection Hex as <-. split; assumption.
Qed.

Lemma exec_distance (s s' : State) (a : Action) :
  exec_action nodes adjacency s a = Some s' ->
  Z.abs (fst (fst s') - fst (fst s)) + Z.abs (snd (fst s') - snd (fst s))
  <= 25.
Proof.
  destruct s as [[x z] h]. intros Hex. destruct a; try discriminate.
  - apply exec_move_spec in Hex as (d & Hd & _ & _ & ->).
    apply cardinal_direction_length in Hd. cbn. lia.
  - injection Hex as <-. cbn. lia.
  - injection Hex as <-. cbn. lia.
Qed.

Lemma run_distance (plan : list Action) :
  forall s t : State,
    run nodes adjacency s plan = Some t ->
    Z.abs (fst (fst t) - fst (fst s)) + Z.abs (snd (fst t) - snd (fst s))
    <= 25 * Z.of_nat (length plan).
Proof.
  induction plan as [| a plan IH]; intros s t Hrun.
  - injection Hrun as <-. cbn. lia.
  - cbn [run] in Hrun.
    destruct (exec_action nodes adjacency s a) as [s' |] eqn:Hex;
      [| discriminate].
    cbn in Hrun. apply IH in Hrun. apply exec_distance in Hex.
    cbn [length]. lia.
Qed.

(** The heuristic never exceeds the length of a plan to the goal. *)
Lemma run_h2_bound (goal_key : PositionKey) (plan : list Action)
  (s t : State) :
  run nodes adjacency s plan = Some t ->
  fst t = goal_key ->
  0 <= h2 goal_key (fst s)
       <= (25 * Z.of_nat (length plan)) ^ 2.
Proof.
  intros Hrun <-. apply run_distance in Hrun. unfold h2. nia.
Qed.

Lemma run_valid (plan : list Action) :
  forall s t : State,
    valid_state nodes s ->
    run nodes adjacency s plan = Some t ->
    valid_state nodes t.
Proof.
  induction plan as [| a plan IH]; intros s t Hs Hrun.
  - injection Hrun as <-. exact Hs.
  - cbn [run] in Hrun.
    destruct (exec_action nodes adjacency s a) as [s' |] eqn:Hex;
      [| discriminate].
    eapply IH; [| exact Hrun]. eapply exec_valid; eauto.
Qed.

Lemma run_app (p1 p2 : list Action) :
  forall s : State,
    run nodes adjacency s (p1 ++ p2)
    = run nodes adjacency s p1 ≫= fun s' => run nodes adjacency s' p2.
Proof.
  induction p1 as [| a p1 IH]; intros s; [reflexivity |].
  cbn [run app].
  destruct (exec_action nodes adjacency s a); [apply IH | reflexivity].
Qed.

Lemma run_nav (plan : list Action) :
  forall s t : State,
    run nodes adjacency s plan = Some t -> Forall nav_action plan.
Proof.
  induction plan as [| a plan IH]; intros s t Hrun; [constructor |].
  cbn [run] in Hrun.
  destruct (exec_action nodes adjacency s a) as [s' |] eqn:Hex;
    [| discriminate].
  constructor; [eapply exec_nav; eauto | eapply IH; eauto].
Qed.

(** *** Poses of the table *)

Lemma valid_state_listed (s : State) :
  valid_state nodes s -> In s (all_states nodes).
Proof.
  destruct s as [p h]. intros [Hp Hh]. cbn in Hp, Hh.
  apply dict_mem_get in Hp as [pos Hp]. apply dict_get_In in Hp.
  unfold all_states. apply in_flat_map. exists (p, pos). split; [exact Hp |].
  cbn. unfold cardinal in Hh. destruct Hh as [-> | [-> | [-> | ->]]]; tauto.
Qed.

Lemma all_states_length (d : NodeTable) :
  length (all_states d) = (4 * length d)%nat.
Proof.
  induction d as [| kv d IH]; [reflexivity |].
  change (all_states (kv :: d))
    with (map (fun h => (fst kv, h)) [0; 90; 180; 270] ++ all_states d).
  rewrite length_app. cbn [map length]. unfold State in *. rewrite IH. lia.
Qed.

(** *** Plans without a repeated pose *)

Lemma visited_length (plan : list Action) :
  forall s t : State,
    run nodes adjacency s plan = Some t ->
    length (visited nodes adjacency s plan) = S (length plan).
Proof.
  induction plan as [| a plan IH]; intros s t Hrun; [reflexivity |].
  cbn [run visited] in *.
  destruct (exec_action nodes adjacency s a) as [s' |]; [| discriminate].
  cbn [length]. f_equal. eapply IH; eauto.
Qed.

Lemma visited_valid (plan : list Action) :
  forall s : State,
    valid_state nodes s ->
    Forall (valid_state nodes) (visited nodes adjacency s plan).
Proof.
  induction plan as [| a plan IH]; intros s Hs; cbn [visited].
  - constructor; [exact Hs | constructor].
  - destruct (exec_action nodes adjacency s a) as [s' |] eqn:Hex.
    + constructor; [exact Hs |]. apply IH. eapply exec_valid; eauto.
    + constructor; [exact Hs | constructor].
Qed.

(** A pose met along a plan is the start of a shorter plan to the same
    end, which goes through a part of the same poses. *)
Lemma visited_suffix (plan : list Action) :
  forall s t u : State,
    run nodes adjacency s plan = Some t ->
    In u (visited nodes adjacency s plan) ->
    exists plan',
      run nodes adjacency u plan' = Some t
      /\ (length plan' <= length plan)%nat
      /\ (NoDup (visited nodes adjacency s plan) ->
          NoDup (visited nodes adjacency u plan')).
Proof.
  induction plan as [| a plan IH]; intros s t u Hrun Hin.
  - cbn in Hin. destruct Hin as [<- | []]. exists []. auto.
  - cbn [run visited] in *.
    destruct (exec_action nodes adjacency s a) as [s' |] eqn:Hex;
      [| discriminate].
    cbn in Hrun. destruct Hin as [<- | Hin].
    + exists (a :: plan). cbn [run visited]. rewrite Hex. auto.
    + destruct (IH s' t u Hrun Hin) as (plan' & Hrun' & Hlen & Hnd).
      exists plan'. split; [exact Hrun' |]. split; [cbn; lia |].
      intros H. apply NoDup_cons in H as [_ H]. auto.
Qed.

Lemma state_eq_dec (a b : State) : {a = b} + {a <> b}.
Proof. repeat decide equality. Qed.

Lemma plan_without_repeats (plan : list Action) :
  forall s t : State,
    run nodes adjacency s plan = Some t ->
    exists plan',
      run nodes adjacency s plan' = Some t
      /\ NoDup (visited nodes adjacency s plan').
Proof.
  induction plan as [| a plan IH]; intros s t Hrun.
  - exists []. split; [exact Hrun |]. cbn. apply NoDup_singleton.
  - cbn [run] in Hrun.
    destruct (exec_action nodes adjacency s a) as [s' |] eqn:Hex;
      [| discriminate].
    cbn in Hrun. destruct (IH s' t Hrun) as (plan1 & Hrun1 & Hnd1).
    destruct (in_dec state_eq_dec s (visited nodes adjacency s' plan1))
      as [Hin | Hnin].
    + destruct (visited_suffix plan1 s' t s Hrun1 Hin)
        as (plan' & Hrun' & _ & Hnd').
      exists plan'. auto.
    + exists (a :: plan1). cbn [run visited]. rewrite Hex.
      split; [exact Hrun1 |]. apply NoDup_cons. split; [| exact Hnd1].
      rewrite list_elem_of_In. exact Hnin.
Qed.

(** A reachable goal is reachable by a plan shorter than the number of
    poses of the table. *)
Lemma short_plan (s t : State) (plan : list Action) :
  valid_state nodes s ->
  run nodes adjacency s plan = Some t ->
  exists plan',
    run nodes adjacency s plan' = Some t
    /\ (S (length plan') <= 4 * length nodes)%nat.
Proof.
  intros Hs Hrun.
  destruct (plan_without_repeats plan s t Hrun) as (plan' & Hrun' & Hnd).
  exists plan'. split; [exact Hrun' |].
  rewrite <- (visited_length plan' s t Hrun'), <- (all_states_length nodes).
  apply submseteq_length, NoDup_submseteq; [exact Hnd |].
  intros u Hu. apply list_elem_of_In. apply valid_state_listed.
  apply list_elem_of_In in Hu.
  eapply (proj1 (List.Forall_forall _ _) (visited_valid plan' s Hs)); eauto.
Qed.

(** *** Connected keys are joined by a plan *)

Lemma turn_to (p : PositionKey) (h y : Z) :
  cardinal h -> cardinal y ->
  run nodes adjacency (p, h) (Rotation._rotation_actions h y) = Some (p, y).
Proof.
  unfold cardinal.
  intros [-> | [-> | [-> | ->]]] [-> | [-> | [-> | ->]]]; reflexivity.
Qed.

Lemma connected_plan (a b : PositionKey) (h : Z) :
  dict_mem nodes a = true -> cardinal h ->
  connected adjacency a b ->
  exists plan h', run nodes adjacency (a, h) plan = Some (b, h')
                  /\ cardinal h' /\ dict_mem nodes b = true.
Proof.
  intros Ha Hh Hconn. induction Hconn as [| b c l Hab IH Hl Hc].
  - exists [], h. auto.
  - destruct IH as (plan & h' & Hrun & Hh' & Hb).
    rewrite adjacency_get in Hl.
    destruct (dict_get nodes b) as [pos |] eqn:Hpos; [| discriminate].
    injection Hl as <-.
    apply neighbors_of_spec in Hc as (Hcm & y & d & Hy & Hd & ->).
    destruct (wf_position nodes Hwf _ _ Hpos) as [Hx Hz].
    unfold make_key in *. rewrite Hx, Hz in *.
    exists (plan ++ Rotation._rotation_actions h' y ++ [MoveAhead]), y.
    split; [| auto].
    rewrite run_app, Hrun. cbn [mbind option_bind].
    rewrite run_app, turn_to by assumption. cbn [mbind option_bind run].
    replace (exec_action nodes adjacency (b, y) MoveAhead)
      with (Some ((fst b + fst d, snd b + snd d), y)); [reflexivity |].
    symmetry. apply exec_move_spec. exists d. auto.
Qed.

End PlanFacts.

(** ** Correctness of the A* search *)

Section AStarCorrect.
Import Inv AStar AStarInv Plan.

Variable nodes : NodeTable.
Hypothesis Hwf : wf_table nodes.
Variable goal_key : PositionKey.
Hypothesis Hgoal : dict_mem nodes goal_key = true.
Variable start_state : State.
Hypothesis Hstart : valid_state nodes start_state.

Abbreviation adj := (build_adjacency nodes).
Abbreviation sinv := (search_inv nodes adj goal_key start_state).
Abbreviation cap := (cost_cap nodes).
Abbreviation mu := (measure nodes).

Lemma rbind_Ok {A B : Type} (a : A) (k : A -> Result B) :
  (Ok a ≫= k) = k a.
Proof. reflexivity. Qed.

Lemma getitem_Some {A : Type} (a : A) : getitem (Some a) = Ok a.
Proof. reflexivity. Qed.

Lemma heuristic_h2 (p : PositionKey) :
  dict_mem nodes p = true ->
  heuristic nodes goal_key p = Ok (h2 goal_key p).
Proof.
  intros Hp. unfold heuristic.
  apply dict_mem_get in Hp as [pos Hpos].
  pose proof Hgoal as Hg. apply dict_mem_get in Hg as [gpos Hgpos].
  rewrite Hpos, Hgpos. cbn.
  destruct (wf_position nodes Hwf _ _ Hpos) as [-> ->].
  destruct (wf_position nodes Hwf _ _ Hgpos) as [-> ->].
  reflexivity.
Qed.

Lemma h2_nonneg (p : PositionKey) : 0 <= h2 goal_key p.
Proof. unfold h2. nia. Qed.

(** *** The potential *)

Lemma cost_or_insert_le (c : Z) (gs : gmap State Z) (s u : State) (t : Z) :
  t <= cost_or c gs s ->
  cost_or c (<[s := t]> gs) u <= cost_or c gs u.
Proof.
  intros Ht. unfold cost_or in *.
  destruct (decide (s = u)) as [-> | Hne].
  - rewrite lookup_insert_eq. cbn. exact Ht.
  - rewrite lookup_insert_ne by exact Hne. apply Z.le_refl.
Qed.

Lemma potential_cons (c : Z) (u : State) (states : list State)
  (gs : gmap State Z) :
  potential c (u :: states) gs = cost_or c gs u + potential c states gs.
Proof. reflexivity. Qed.

Lemma potential_insert_le (c : Z) (states : list State)
  (gs : gmap State Z) (s : State) (t : Z) :
  t <= cost_or c gs s ->
  potential c states (<[s := t]> gs) <= potential c states gs.
Proof.
  intros Ht. induction states as [| u states IH]; [cbn; lia |].
  rewrite !potential_cons.
  pose proof (cost_or_insert_le c gs s u t Ht). lia.
Qed.

Lemma potential_insert_lt (c : Z) (states : list State)
  (gs : gmap State Z) (s : State) (t : Z) :
  In s states ->
  t < cost_or c gs s ->
  potential c states (<[s := t]> gs) <= potential c states gs - 1.
Proof.
  intros Hin Ht. induction states as [| u states IH]; [destruct Hin |].
  rewrite !potential_cons. destruct Hin as [-> | Hin].
  - pose proof (potential_insert_le c states gs s t ltac:(lia)).
    unfold cost_or at 1. rewrite lookup_insert_eq. cbn. lia.
  - specialize (IH Hin).
    pose proof (cost_or_insert_le c gs s u t ltac:(lia)). lia.
Qed.

Lemma potential_nonneg (c : Z) (states : list State) (gs : gmap State Z) :
  0 <= c ->
  (forall s g, gs !! s = Some g -> 0 <= g) ->
  0 <= potential c states gs.
Proof.
  intros Hc Hgs. induction states as [| u states IH]; [cbn; lia |].
  rewrite potential_cons.
  assert (0 <= cost_or c gs u).
  { unfold cost_or. destruct (gs !! u) eqn:E; cbn; [eauto | lia]. }
  lia.
Qed.

(** *** One relaxation *)

Lemma relax_step (skip : option State) (st : Search) (cur new : State)
  (gc gcur : Z) (a : Action) :
  sinv skip st ->
  g_score st !! cur = Some gc -> gc <= gcur ->
  gcur + 2 <= cap ->
  exec_action nodes adj cur a = Some new ->
  exists st',
    relax nodes goal_key st cur (gcur + 1) new a (fst new) = Ok st'
    /\ sinv skip st'
    /\ costs_le (g_score st) (g_score st')
    /\ (exists g', g_score st' !! new = Some g' /\ g' <= gcur + 1)
    /\ mu st' <= mu st
    /\ (forall e, In e (open_heap st) -> In e (open_heap st'))
    /\ g_score st' !! cur = Some gc.
Proof.
  intros Hinv Hcur Hle Hcap Hex.
  destruct (inv_cost _ _ _ _ _ _ Hinv cur gc Hcur) as [Hvcur Hgc0].
  pose proof (exec_valid nodes Hwf cur new a Hvcur Hex) as Hvnew.
  unfold relax, improves.
  destruct (g_score st !! new) as [gn |] eqn:Hnew.
  - destruct (Z.ltb_spec (gcur + 1) gn) as [Hlt | Hge].
    + (* a recorded cost is improved *)
      rewrite (heuristic_h2 _ (proj1 Hvnew)). cbn.
      eexists. split; [reflexivity |].
      assert (Hne : new <> cur) by (intros ->; rewrite Hcur in Hnew;
                                    injection Hnew as <-; lia).
      assert (Hns : new <> start_state).
      { intros ->. destruct (inv_start _ _ _ _ _ _ Hinv) as [H0 _].
        rewrite H0 in Hnew. injection Hnew as <-. lia. }
      split; [| split; [| split; [| split; [| split]]]].
      * constructor; cbn.
        -- constructor.
           ++ split; [exact Hvnew |]. split; [reflexivity |].
              exists (gcur + 1). rewrite lookup_insert_eq.
              split; [reflexivity | cbn; lia].
           ++ eapply Forall_impl; [exact (inv_heap _ _ _ _ _ _ Hinv) |].
              intros e (Hv & Hf & g' & Hg' & Hle').
              split; [exact Hv |]. split; [exact Hf |].
              destruct (decide (new = e_state e)) as [Heq | Hneq].
              ** exists (gcur + 1). rewrite <- Heq, lookup_insert_eq.
                 split; [reflexivity |].
                 rewrite <- Heq, Hnew in Hg'. injection Hg' as <-. lia.
              ** exists g'. rewrite lookup_insert_ne by exact Hneq. auto.
        -- intros s g. destruct (decide (new = s)) as [<- | Hneq].
           ++ rewrite lookup_insert_eq. intros [= <-]. split; [auto | lia].
           ++ rewrite lookup_insert_ne by exact Hneq.
              apply (inv_cost _ _ _ _ _ _ Hinv).
        -- destruct (inv_start _ _ _ _ _ _ Hinv) as [H0 H1].
           rewrite !lookup_insert_ne by exact Hns. auto.
        -- intros s p a'. destruct (decide (new = s)) as [<- | Hneq].
           ++ rewrite lookup_insert_eq. intros [= <- <-].
              split; [exact Hex |].
              exists (gcur + 1), gc. rewrite lookup_insert_eq.
              rewrite lookup_insert_ne by exact Hne.
              repeat split; auto. lia.
           ++ rewrite lookup_insert_ne by exact Hneq. intros Hcf.
              destruct (inv_parent _ _ _ _ _ _ Hinv s p a' Hcf)
                as (Hx & g & gp & Hg & Hgp & Hgg).
              split; [exact Hx |].
              rewrite lookup_insert_ne by exact Hneq.
              destruct (decide (new = p)) as [<- | Hnp].
              ** exists g, (gcur + 1). rewrite lookup_insert_eq.
                 rewrite Hnew in Hgp. injection Hgp as <-.
                 repeat split; auto. lia.
              ** exists g, gp. rewrite lookup_insert_ne by exact Hnp. auto.
        -- intros s g. destruct (decide (new = s)) as [<- | Hneq].
           ++ intros _ _. rewrite lookup_insert_eq. eauto.
           ++ rewrite !lookup_insert_ne by exact Hneq.
              apply (inv_has_parent _ _ _ _ _ _ Hinv).
        -- intros s g Hskip. destruct (decide (new = s)) as [<- | Hneq].
           ++ rewrite lookup_insert_eq. intros [= <-]. left.
              eexists. split; [left; reflexivity |]. cbn. auto.
           ++ rewrite lookup_insert_ne by exact Hneq. intros Hg.
              destruct (inv_settled _ _ _ _ _ _ Hinv s g Hskip Hg)
                as [(e & Hin & He) | (Hng & Hsucc)].
              ** left. exists e. split; [right; exact Hin | exact He].
              ** right. split; [exact Hng |]. intros a' s' Hx'.
                 destruct (Hsucc a' s' Hx') as (g' & Hg' & Hgg).
                 destruct (decide (new = s')) as [<- | Hnn].
                 --- exists (gcur + 1). rewrite lookup_insert_eq.
                     rewrite Hnew in Hg'. injection Hg' as <-.
                     split; [reflexivity | lia].
                 --- exists g'. rewrite lookup_insert_ne by exact Hnn. auto.
      * intros s g Hg. cbn [g_score].
        destruct (decide (new = s)) as [<- | Hneq].
        -- exists (gcur + 1). rewrite lookup_insert_eq.
           rewrite Hnew in Hg. injection Hg as <-. split; [reflexivity | lia].
        -- exists g. rewrite lookup_insert_ne by exact Hneq. split; [auto | lia].
      * exists (gcur + 1). cbn. rewrite lookup_insert_eq. split; [auto | lia].
      * unfold measure. cbn [g_score open_heap heappush length].
        pose proof (potential_insert_lt cap (all_states nodes) (g_score st)
                      new (gcur + 1)
                      (valid_state_listed nodes new Hvnew)) as Hpot.
        unfold cost_or in Hpot at 1. rewrite Hnew in Hpot. cbn in Hpot.
        specialize (Hpot Hlt). lia.
      * intros e He. cbn. right. exact He.
      * cbn. rewrite lookup_insert_ne by exact Hne. exact Hcur.
    + (* no improvement *)
      exists st. split; [reflexivity |].
      split; [exact Hinv |]. split; [intros s g Hg; exists g; split; [auto | lia] |].
      split; [exists gn; split; [exact Hnew | lia] |].
      split; [lia |]. split; [auto | exact Hcur].
  - (* first visit *)
    rewrite (heuristic_h2 _ (proj1 Hvnew)). cbn.
    eexists. split; [reflexivity |].
    assert (Hne : new <> cur) by (intros ->; congruence).
    assert (Hns : new <> start_state).
    { intros ->. destruct (inv_start _ _ _ _ _ _ Hinv) as [H0 _]. congruence. }
    split; [| split; [| split; [| split; [| split]]]].
    * constructor; cbn.
      -- constructor.
         ++ split; [exact Hvnew |]. split; [reflexivity |].
            exists (gcur + 1). rewrite lookup_insert_eq.
              split; [reflexivity | cbn; lia].
         ++ eapply Forall_impl; [exact (inv_heap _ _ _ _ _ _ Hinv) |].
            intros e (Hv & Hf & g' & Hg' & Hle').
            split; [exact Hv |]. split; [exact Hf |].
            destruct (decide (new = e_state e)) as [Heq | Hneq].
            ** rewrite <- Heq in Hg'. congruence.
            ** exists g'. rewrite lookup_insert_ne by exact Hneq. auto.
      -- intros s g. destruct (decide (new = s)) as [<- | Hneq].
         ++ rewrite lookup_insert_eq. intros [= <-]. split; [auto | lia].
         ++ rewrite lookup_insert_ne by exact Hneq.
            apply (inv_cost _ _ _ _ _ _ Hinv).
      -- destruct (inv_start _ _ _ _ _ _ Hinv) as [H0 H1].
         rewrite !lookup_insert_ne by exact Hns. auto.
      -- intros s p a'. destruct (decide (new = s)) as [<- | Hneq].
         ++ rewrite lookup_insert_eq. intros [= <- <-].
            split; [exact Hex |].
            exists (gcur + 1), gc. rewrite lookup_insert_eq.
            rewrite lookup_insert_ne by exact Hne.
            repeat split; auto. lia.
         ++ rewrite lookup_insert_ne by exact Hneq. intros Hcf.
            destruct (inv_parent _ _ _ _ _ _ Hinv s p a' Hcf)
              as (Hx & g & gp & Hg & Hgp & Hgg).
            split; [exact Hx |].
            rewrite lookup_insert_ne by exact Hneq.
            destruct (decide (new = p)) as [<- | Hnp]; [congruence |].
            exists g, gp. rewrite lookup_insert_ne by exact Hnp. auto.
      -- intros s g. destruct (decide (new = s)) as [<- | Hneq].
         ++ intros _ _. rewrite lookup_insert_eq. eauto.
         ++ rewrite !lookup_insert_ne by exact Hneq.
            apply (inv_has_parent _ _ _ _ _ _ Hinv).
      -- intros s g Hskip. destruct (decide (new = s)) as [<- | Hneq].
         ++ rewrite lookup_insert_eq. intros [= <-]. left.
            eexists. split; [left; reflexivity |]. cbn. auto.
         ++ rewrite lookup_insert_ne by exact Hneq. intros Hg.
            destruct (inv_settled _ _ _ _ _ _ Hinv s g Hskip Hg)
              as [(e & Hin & He) | (Hng & Hsucc)].
            ** left. exists e. split; [right; exact Hin | exact He].
            ** right. split; [exact Hng |]. intros a' s' Hx'.
               destruct (Hsucc a' s' Hx') as (g' & Hg' & Hgg).
               destruct (decide (new = s')) as [<- | Hnn]; [congruence |].
               exists g'. rewrite lookup_insert_ne by exact Hnn. auto.
    * intros s g Hg. cbn [g_score].
      destruct (decide (new = s)) as [<- | Hneq]; [congruence |].
      exists g. rewrite lookup_insert_ne by exact Hneq. split; [auto | lia].
    * exists (gcur + 1). cbn. rewrite lookup_insert_eq. split; [auto | lia].
    * unfold measure. cbn [g_score open_heap heappush length].
      pose proof (potential_insert_lt cap (all_states nodes) (g_score st)
                    new (gcur + 1)
                    (valid_state_listed nodes new Hvnew)) as Hpot.
      unfold cost_or in Hpot at 1. rewrite Hnew in Hpot. cbn in Hpot.
      specialize (Hpot ltac:(lia)). lia.
    * intros e He. cbn. right. exact He.
    * cbn. rewrite lookup_insert_ne by exact Hne. exact Hcur.
Qed.


(** *** One expansion *)

Lemma expand_step (skip : option State) (st : Search) (cur : State)
  (gc gcur : Z) :
  sinv skip st ->
  g_score st !! cur = Some gc -> gc <= gcur ->
  gcur + 2 <= cap ->
  exists st',
    expand nodes adj goal_key st gcur cur = Ok st'
    /\ sinv skip st'
    /\ costs_le (g_score st) (g_score st')
    /\ (forall a s', exec_action nodes adj cur a = Some s' ->
          exists g', g_score st' !! s' = Some g' /\ g' <= gcur + 1)
    /\ mu st' <= mu st
    /\ (forall e, In e (open_heap st) -> In e (open_heap st'))
    /\ g_score st' !! cur = Some gc.
Proof.
  intros Hinv Hcur Hle Hcap.
  destruct (inv_cost _ _ _ _ _ _ Hinv cur gc Hcur) as [Hvcur Hgc0].
  destruct cur as [p h]. destruct Hvcur as [Hp Hh]. cbn in Hp, Hh.
  destruct (relax_step skip st (p, h) (p, (h - 90) mod 360) gc gcur
              RotateLeft Hinv Hcur Hle Hcap eq_refl)
    as (st1 & Hr1 & Hinv1 & Hmono1 & Hl & Hmu1 & Hsub1 & Hcur1).
  destruct (relax_step skip st1 (p, h) (p, (h + 90) mod 360) gc gcur
              RotateRight Hinv1 Hcur1 Hle Hcap eq_refl)
    as (st2 & Hr2 & Hinv2 & Hmono2 & Hr & Hmu2 & Hsub2 & Hcur2).
  unfold expand. cbn [fst] in Hr1, Hr2. rewrite Hr1, rbind_Ok, Hr2, rbind_Ok.
  destruct (cardinal_direction_some h Hh) as [d Hd].
  rewrite Hd, getitem_Some, rbind_Ok.
  pose proof Hp as Hp'. apply dict_mem_get in Hp' as [pos Hpos].
  rewrite Hpos, getitem_Some, rbind_Ok, adjacency_get, Hpos.
  cbn [fmap option_fmap option_map]. rewrite getitem_Some, rbind_Ok.
  pose proof (exec_move_unfold nodes (p, h).1 h) as Hmove.
  cbn [fst] in Hmove. rewrite Hd, Hpos in Hmove. cbv zeta in Hmove.
  destruct (key_in (make_key (px pos + d.1) (pz pos + d.2))
              (neighbors_of nodes pos)) eqn:Hin.
  - destruct (relax_step skip st2 (p, h)
                (make_key (px pos + d.1) (pz pos + d.2), h) gc gcur
                MoveAhead Hinv2 Hcur2 Hle Hcap Hmove)
      as (st3 & Hr3 & Hinv3 & Hmono3 & Hm & Hmu3 & Hsub3 & Hcur3).
    cbn [fst] in Hr3. exists st3. split; [exact Hr3 |].
    split; [exact Hinv3 |]. split.
    { intros s g Hg. destruct (Hmono1 s g Hg) as (g1 & Hg1 & Hle1).
      destruct (Hmono2 s g1 Hg1) as (g2 & Hg2 & Hle2).
      destruct (Hmono3 s g2 Hg2) as (g3 & Hg3 & Hle3).
      exists g3. split; [exact Hg3 | lia]. }
    split.
    { intros a s' Hex. destruct a; try discriminate.
      - rewrite Hmove in Hex. injection Hex as <-. exact Hm.
      - injection Hex as <-. destruct Hl as (g1 & Hg1 & Hle1).
        destruct (Hmono2 _ g1 Hg1) as (g2 & Hg2 & Hle2).
        destruct (Hmono3 _ g2 Hg2) as (g3 & Hg3 & Hle3).
        exists g3. split; [exact Hg3 | lia].
      - injection Hex as <-. destruct Hr as (g2 & Hg2 & Hle2).
        destruct (Hmono3 _ g2 Hg2) as (g3 & Hg3 & Hle3).
        exists g3. split; [exact Hg3 | lia]. }
    split; [lia |]. split; [auto | exact Hcur3].
  - exists st2. split; [reflexivity |].
    split; [exact Hinv2 |]. split.
    { intros s g Hg. destruct (Hmono1 s g Hg) as (g1 & Hg1 & Hle1).
      destruct (Hmono2 s g1 Hg1) as (g2 & Hg2 & Hle2).
      exists g2. split; [exact Hg2 | lia]. }
    split.
    { intros a s' Hex. destruct a; try discriminate.
      - rewrite Hmove in Hex. discriminate.
      - injection Hex as <-. destruct Hl as (g1 & Hg1 & Hle1).
        destruct (Hmono2 _ g1 Hg1) as (g2 & Hg2 & Hle2).
        exists g2. split; [exact Hg2 | lia].
      - injection Hex as <-. exact Hr. }
    split; [lia |]. split; [auto | exact Hcur2].
Qed.

(** *** The open list always holds a pose of every plan to the goal *)

Lemma frontier (st : Search) :
  sinv None st ->
  forall (plan : list Action) (s t : State) (g : Z),
    g_score st !! s = Some g ->
    run nodes adj s plan = Some t ->
    fst t = goal_key ->
    exists (e : Entry) (plan' : list Action),
      In e (open_heap st)
      /\ run nodes adj (e_state e) plan' = Some t
      /\ e_g e + Z.of_nat (length plan') <= g + Z.of_nat (length plan).
Proof.
  intros Hinv. induction plan as [| a plan IH]; intros s t g Hg Hrun Ht.
  - injection Hrun as <-.
    destruct (inv_settled _ _ _ _ _ _ Hinv s g ltac:(discriminate) Hg)
      as [(e & Hin & <- & <-) | (Hng & _)]; [| contradiction].
    exists e, []. cbn. auto with zarith.
  - destruct (inv_settled _ _ _ _ _ _ Hinv s g ltac:(discriminate) Hg)
      as [(e & Hin & <- & <-) | (Hng & Hsucc)].
    + exists e, (a :: plan). split; [exact Hin |]. split; [exact Hrun | lia].
    + cbn [run] in Hrun.
      destruct (exec_action nodes adj s a) as [s' |] eqn:Hex;
        [| discriminate].
      cbn in Hrun. destruct (Hsucc a s' Hex) as (g' & Hg' & Hle).
      destruct (IH s' t g' Hg' Hrun Ht) as (e & plan' & Hin & Hrun' & Hlen).
      exists e, plan'. split; [exact Hin |]. split; [exact Hrun' |].
      cbn [length]. lia.
Qed.

(** An item that is not above an item of a plan of length [L] has cost
    at most [L]: integer arithmetic on the exact comparison. *)
Lemma least_cost_bound (e m : Entry) (k L r r' : Z) :
  e_f e = mkF (e_g e) r -> 0 <= r <= (25 * k) ^ 2 -> 0 <= k ->
  e_g e + k <= L ->
  e_f m = mkF (e_g m) r' -> 0 <= r' ->
  entry_ltb e m = false ->
  e_g m <= L.
Proof.
  intros He Hr Hk HL Hm Hr' Hlt.
  assert (Hf : fval_ltb (e_f e) (e_f m) = false).
  { unfold entry_ltb, fval_eqb in Hlt.
    destruct (fval_ltb (e_f e) (e_f m)); [| reflexivity].
    cbn in Hlt. discriminate. }
  rewrite He, Hm in Hf. unfold fval_ltb, sqrt_lt_plus, STEP_SIZE in Hf.
  cbn [fbase frad] in Hf.
  destruct (Z.le_gt_cases (e_g m) L) as [Hok | Hbad]; [exact Hok | exfalso].
  destruct (Z.leb_spec 0 (25 * (e_g m - e_g e))) as [Hd | Hd]; [| lia].
  apply orb_false_iff in Hf as [Hf _]. apply Z.ltb_ge in Hf. nia.
Qed.

(** *** Walking the parents back to the start *)

Lemma reconstruct_ok (skip : option State) (st : Search) :
  sinv skip st ->
  forall (fuel : nat) (s : State) (g : Z) (acc : list Action),
    g_score st !! s = Some g ->
    g <= Z.of_nat fuel ->
    exists plan,
      reconstruct fuel (came_from st) s acc = Ok (plan ++ rev acc)
      /\ run nodes adj start_state plan = Some s
      /\ Z.of_nat (length plan) <= g.
Proof.
  intros Hinv. induction fuel as [| fuel IH]; intros s g acc Hg Hfuel.
  - destruct (inv_cost _ _ _ _ _ _ Hinv s g Hg) as [_ Hg0].
    cbn [reconstruct].
    destruct (came_from st !! s) as [[p a] |] eqn:Hcf.
    + destruct (inv_parent _ _ _ _ _ _ Hinv s p a Hcf)
        as (_ & g1 & gp & Hg1 & Hgp & Hlt).
      destruct (inv_cost _ _ _ _ _ _ Hinv p gp Hgp) as [_ Hgp0].
      rewrite Hg in Hg1. injection Hg1 as <-. lia.
    + exists []. destruct (decide (s = start_state)) as [-> | Hne].
      * cbn. auto with zarith.
      * destruct (inv_has_parent _ _ _ _ _ _ Hinv s g Hg Hne) as [x Hx].
        congruence.
  - destruct (inv_cost _ _ _ _ _ _ Hinv s g Hg) as [_ Hg0].
    cbn [reconstruct].
    destruct (came_from st !! s) as [[p a] |] eqn:Hcf.
    + destruct (inv_parent _ _ _ _ _ _ Hinv s p a Hcf)
        as (Hex & g1 & gp & Hg1 & Hgp & Hlt).
      rewrite Hg in Hg1. injection Hg1 as <-.
      destruct (IH p gp (acc ++ [a]) Hgp ltac:(lia))
        as (plan & Hrec & Hrun & Hlen).
      exists (plan ++ [a]). split.
      * rewrite Hrec, rev_app_distr, <- app_assoc. reflexivity.
      * split.
        -- rewrite run_app, Hrun. cbn. rewrite Hex. reflexivity.
        -- rewrite length_app. cbn. lia.
    + exists []. destruct (decide (s = start_state)) as [-> | Hne].
      * cbn. auto with zarith.
      * destruct (inv_has_parent _ _ _ _ _ _ Hinv s g Hg Hne) as [x Hx].
        congruence.
Qed.


(** *** The search loop *)

Lemma heappop_some {E : Type} (ltb : E -> E -> bool) (heap : list E) :
  heap <> [] -> exists e rest, heappop ltb heap = Some (e, rest).
Proof.
  destruct heap as [| e heap]; [congruence | intros _].
  cbn. destruct (heappop ltb heap) as [[m rest'] |]; [| eauto].
  destruct (ltb m e); eauto.
Qed.

Lemma heap_inv_entry_ok (gs : gmap State Z) (e : Entry) :
  heap_inv nodes goal_key gs e -> entry_ok e.
Proof.
  intros (_ & Hf & _). unfold entry_ok. rewrite Hf. cbn. apply h2_nonneg.
Qed.

Lemma pop_inv (skip : option State) (st : Search) (m : Entry)
  (rest : list Entry) :
  sinv None st ->
  Permutation (open_heap st) (m :: rest) ->
  (forall s g, Some s <> skip -> g_score st !! s = Some g ->
               s <> e_state m \/ g <> e_g m) ->
  sinv skip (mkSearch rest (came_from st) (g_score st) (counter st)).
Proof.
  intros Hinv Hperm Hskip. constructor; cbn.
  - pose proof (inv_heap _ _ _ _ _ _ Hinv) as Hh.
    rewrite Hperm in Hh. apply Forall_cons_iff in Hh. tauto.
  - apply (inv_cost _ _ _ _ _ _ Hinv).
  - apply (inv_start _ _ _ _ _ _ Hinv).
  - apply (inv_parent _ _ _ _ _ _ Hinv).
  - apply (inv_has_parent _ _ _ _ _ _ Hinv).
  - intros s g Hs Hg.
    destruct (inv_settled _ _ _ _ _ _ Hinv s g ltac:(discriminate) Hg)
      as [(e & Hin & He1 & He2) | Hclosed]; [| right; exact Hclosed].
    left. exists e. split; [| auto].
    apply (Permutation_in _ Hperm) in Hin as [<- | Hin]; [| exact Hin].
    destruct (Hskip s g Hs Hg); congruence.
Qed.

Lemma settle_expanded (st : Search) (cur : State) (gc : Z) :
  sinv (Some cur) st ->
  g_score st !! cur = Some gc ->
  settled nodes adj goal_key (open_heap st) (g_score st) cur gc ->
  sinv None st.
Proof.
  intros Hinv Hcur Hset. constructor.
  - apply (inv_heap _ _ _ _ _ _ Hinv).
  - apply (inv_cost _ _ _ _ _ _ Hinv).
  - apply (inv_start _ _ _ _ _ _ Hinv).
  - apply (inv_parent _ _ _ _ _ _ Hinv).
  - apply (inv_has_parent _ _ _ _ _ _ Hinv).
  - intros s g _ Hg. destruct (decide (s = cur)) as [-> | Hne].
    + rewrite Hcur in Hg. injection Hg as <-. exact Hset.
    + apply (inv_settled _ _ _ _ _ _ Hinv); [congruence | exact Hg].
Qed.

Lemma measure_nonneg (skip : option State) (st : Search) :
  sinv skip st -> 0 <= mu st.
Proof.
  intros Hinv. unfold measure.
  assert (0 <= potential cap (all_states nodes) (g_score st)).
  { apply potential_nonneg; [unfold cost_cap; lia |].
    intros s g Hg. apply (inv_cost _ _ _ _ _ _ Hinv s g Hg). }
  lia.
Qed.

Hypothesis Hreach :
  exists plan0 t0, run nodes adj start_state plan0 = Some t0
                   /\ fst t0 = goal_key.

Lemma astar_loop_ok (fuel : nat) :
  forall st : Search,
    sinv None st ->
    mu st < Z.of_nat fuel ->
    exists plan t,
      astar_loop nodes adj goal_key fuel st = Ok plan
      /\ run nodes adj start_state plan = Some t
      /\ fst t = goal_key
      /\ forall plan' t',
           run nodes adj start_state plan' = Some t' ->
           fst t' = goal_key ->
           (length plan <= length plan')%nat.
Proof.
  induction fuel as [| fuel IH]; intros st Hinv Hmu.
  - pose proof (measure_nonneg None st Hinv). lia.
  - (* every plan to the goal has a pose on the open list *)
    assert (Hfront : forall plan' t',
               run nodes adj start_state plan' = Some t' ->
               fst t' = goal_key ->
               exists e k, In e (open_heap st)
                           /\ 0 <= k
                           /\ h2 goal_key (fst (e_state e)) <= (25 * k) ^ 2
                           /\ e_g e + k <= Z.of_nat (length plan')).
    { intros plan' t' Hrun Ht.
      destruct (frontier st Hinv plan' start_state t' 0
                  (proj1 (inv_start _ _ _ _ _ _ Hinv)) Hrun Ht)
        as (e & plan'' & Hin & Hrun'' & Hlen).
      exists e, (Z.of_nat (length plan'')). split; [exact Hin |].
      split; [lia |]. split; [| lia].
      apply (run_h2_bound nodes Hwf goal_key plan'' (e_state e) t' Hrun'' Ht). }
    destruct Hreach as (plan0 & t0 & Hrun0 & Ht0).
    destruct (short_plan nodes Hwf start_state t0 plan0 Hstart Hrun0)
      as (plan1 & Hrun1 & Hshort).
    destruct (Hfront plan1 t0 Hrun1 Ht0) as (e1 & k1 & Hin1 & _).
    destruct (heappop_some entry_ltb (open_heap st)) as (m & rest & Hpop).
    { intros Hnil. rewrite Hnil in Hin1. destruct Hin1. }
    assert (Hok : Forall entry_ok (open_heap st)).
    { eapply Forall_impl; [exact (inv_heap _ _ _ _ _ _ Hinv) |].
      apply heap_inv_entry_ok. }
    destruct (heappop_least entry_ok entry_ltb entry_ltb_strict_weak
                _ _ _ Hok Hpop) as [Hperm Hmin].
    assert (Hm : heap_inv nodes goal_key (g_score st) m).
    { apply (proj1 (List.Forall_forall _ _) (inv_heap _ _ _ _ _ _ Hinv)).
      eapply Permutation_in; [symmetry; exact Hperm | left; reflexivity]. }
    destruct Hm as (Hvm & Hfm & gm & Hgm & Hgmle).
    (* the popped cost is below the length of every plan to the goal *)
    assert (Hbound : forall plan' t',
               run nodes adj start_state plan' = Some t' ->
               fst t' = goal_key ->
               e_g m <= Z.of_nat (length plan')).
    { intros plan' t' Hrun Ht.
      destruct (Hfront plan' t' Hrun Ht) as (e & k & Hin & Hk & Hh & Hlen).
      assert (He : heap_inv nodes goal_key (g_score st) e)
        by (apply (proj1 (List.Forall_forall _ _)
                     (inv_heap _ _ _ _ _ _ Hinv)); exact Hin).
      destruct He as (_ & Hfe & _).
      apply (Permutation_in _ Hperm) in Hin as [<- | Hin]; [lia |].
      eapply (least_cost_bound e m k _ _ _ Hfe); eauto.
      - split; [apply h2_nonneg | exact Hh].
      - apply h2_nonneg. }
    cbn [astar_loop]. rewrite Hpop.
    destruct (key_eqb (fst (e_state m)) goal_key) eqn:Hgoalm.
    + (* the goal is popped *)
      apply key_eqb_eq in Hgoalm.
      destruct (inv_cost _ _ _ _ _ _ Hinv _ _ Hgm) as [_ Hgm0].
      destruct (reconstruct_ok None st Hinv (Z.to_nat (e_g m)) (e_state m)
                  gm [] Hgm ltac:(lia)) as (plan & Hrec & Hrun & Hlen).
      exists plan, (e_state m). cbn [came_from].
      rewrite app_nil_r in Hrec. split; [exact Hrec |].
      split; [exact Hrun |]. split; [exact Hgoalm |].
      intros plan' t' Hrun' Ht'. specialize (Hbound plan' t' Hrun' Ht'). lia.
    + apply key_eqb_neq in Hgoalm.
      specialize (Hbound plan1 t0 Hrun1 Ht0).
      assert (Hcap : e_g m + 2 <= cap) by (unfold cost_cap; lia).
      assert (Hlen : length (open_heap st) = S (length rest))
        by (rewrite (Permutation_length Hperm); reflexivity).
      set (stp := mkSearch rest (came_from st) (g_score st) (counter st)).
      assert (Hmup : mu stp = mu st - 1).
      { unfold measure, stp. cbn [g_score open_heap]. lia. }
      destruct (Z.eq_dec gm (e_g m)) as [Hfresh | Hstale].
      * (* the popped item carries the recorded cost *)
        assert (Hinvp : sinv (Some (e_state m)) stp).
        { apply (pop_inv _ st m rest); [exact Hinv | exact Hperm |].
          intros s g Hs _. left. congruence. }
        destruct (expand_step (Some (e_state m)) stp (e_state m) gm (e_g m)
                    Hinvp Hgm Hgmle Hcap)
          as (st' & Hexp & Hinv' & _ & Hsucc & Hmu' & _ & Hcur').
        rewrite Hexp, rbind_Ok. apply IH; [| lia].
        apply (settle_expanded st' (e_state m) gm Hinv' Hcur').
        right. split; [exact Hgoalm |]. intros a s' Hex.
        destruct (Hsucc a s' Hex) as (g' & Hg' & Hle').
        exists g'. split; [exact Hg' | lia].
      * (* a stale item *)
        assert (Hinvp : sinv None stp).
        { apply (pop_inv _ st m rest); [exact Hinv | exact Hperm |].
          intros s g _ Hg.
          destruct (decide (s = e_state m)) as [-> | Hne]; [| auto].
          right. rewrite Hgm in Hg. injection Hg as <-. exact Hstale. }
        destruct (expand_step None stp (e_state m) gm (e_g m)
                    Hinvp Hgm Hgmle Hcap)
          as (st' & Hexp & Hinv' & _ & _ & Hmu' & _ & _).
        rewrite Hexp, rbind_Ok. apply IH; [exact Hinv' | lia].
Qed.

End AStarCorrect.

Lemma potential_le_cap (c : Z) (states : list AStar.State)
  (gs : gmap AStar.State Z) :
  (forall s g, gs !! s = Some g -> g <= c) ->
  Inv.potential c states gs <= c * Z.of_nat (length states).
Proof.
  intros Hgs. induction states as [| u states IH]; [cbn; lia |].
  rewrite potential_cons. cbn [length].
  assert (Inv.cost_or c gs u <= c).
  { unfold Inv.cost_or. destruct (gs !! u) eqn:E; cbn; [eauto | lia]. }
  lia.
Qed.

Lemma astar_initial_inv (nodes : NodeTable) (goal_key : PositionKey)
  (start_state : AStar.State) :
  Inv.valid_state nodes start_state ->
  AStarInv.search_inv nodes (build_adjacency nodes) goal_key start_state None
    {| AStar.open_heap :=
         AStar.heappush []
           (AStar.mkEntry (AStar.mkF 0 (Inv.h2 goal_key (fst start_state)))
              0 0 start_state);
       AStar.came_from := ∅;
       AStar.g_score := {[ start_state := 0 ]};
       AStar.counter := 1 |}.
Proof.
  intros Hv. constructor; cbn.
  - constructor; [| constructor]. split; [exact Hv |]. split; [reflexivity |].
    exists 0. cbn. rewrite lookup_singleton_eq. split; [reflexivity | lia].
  - intros s g Hs. apply lookup_singleton_Some in Hs as [<- <-].
    split; [exact Hv | lia].
  - rewrite lookup_singleton_eq, lookup_empty. auto.
  - intros s p a H. rewrite lookup_empty in H. discriminate.
  - intros s g Hs Hne. apply lookup_singleton_Some in Hs as [<- _].
    contradiction.
  - intros s g _ Hs. apply lookup_singleton_Some in Hs as [<- <-].
    left. eexists. split; [left; reflexivity |]. cbn. auto.
Qed.

(** The plan of [astar_actions] exists, is executable, ends at the goal
    and is a shortest one. *)
Lemma astar_actions_correct (positions : list Position)
  (start_key : PositionKey) (start_yaw : Z) (goal_key : PositionKey) :
  let nodes := build_node_lookup positions in
  let adjacency := build_adjacency nodes in
  cardinal start_yaw ->
  dict_mem nodes start_key = true ->
  dict_mem nodes goal_key = true ->
  Plan.connected adjacency start_key goal_key ->
  exists plan,
    AStar.astar_actions nodes adjacency start_key start_yaw goal_key = Ok plan
    /\ Forall Plan.nav_action plan
    /\ Plan.reaches nodes adjacency (start_key, start_yaw) plan goal_key
    /\ (forall plan',
          Plan.reaches nodes adjacency (start_key, start_yaw) plan' goal_key ->
          (length plan <= length plan')%nat)
    /\ (start_key = goal_key -> plan = []).
Proof.
  intros nodes adjacency Hyaw Hstart Hgoal Hconn.
  pose proof (build_node_lookup_wf positions) as Hwf. fold nodes in Hwf.
  unfold AStar.astar_actions.
  destruct (key_eqb start_key goal_key) eqn:Heq.
  - apply key_eqb_eq in Heq as <-. exists []. split; [reflexivity |].
    split; [constructor |]. split; [exists start_yaw; reflexivity |].
    split; [intros; cbn; lia | reflexivity].
  - apply key_eqb_neq in Heq.
    assert (Hv : Inv.valid_state nodes (start_key, start_yaw))
      by (split; assumption).
    rewrite (heuristic_h2 nodes Hwf goal_key Hgoal start_key Hstart), rbind_Ok.
    destruct (connected_plan nodes Hwf start_key goal_key start_yaw
                Hstart Hyaw Hconn) as (plan0 & h0 & Hrun0 & _ & _).
    destruct (astar_loop_ok nodes Hwf goal_key Hgoal (start_key, start_yaw)
                Hv (ex_intro _ plan0 (ex_intro _ (goal_key, h0)
                                        (conj Hrun0 eq_refl)))
                (AStar.astar_fuel nodes) _
                (astar_initial_inv nodes goal_key (start_key, start_yaw) Hv))
      as (plan & t & Hloop & Hrun & Ht & Hmin).
    + unfold AStarInv.measure, AStar.astar_fuel.
      cbn [AStar.g_score AStar.open_heap AStar.heappush length].
      pose proof (potential_le_cap (AStarInv.cost_cap nodes)
                    (Inv.all_states nodes) {[ (start_key, start_yaw) := 0 ]})
        as Hpot.
      rewrite (all_states_length nodes) in Hpot.
      assert (Hcap : AStarInv.cost_cap nodes
                     = Z.of_nat (4 * length nodes) + 1) by reflexivity.
      rewrite Hcap in *.
      specialize (Hpot ltac:(intros s g Hs;
                             apply lookup_singleton_Some in Hs as [_ <-];
                             lia)).
      set (n := (4 * length nodes)%nat) in *. clearbody n.
      set (P := Inv.potential _ _ _) in *. clearbody P.
      rewrite Nat2Z.inj_add, !Nat2Z.inj_mul, Nat2Z.inj_add. cbn [Z.of_nat].
      nia.
    + exists plan. cbn [fst] in Hloop. split; [exact Hloop |].
      split; [eapply run_nav; exact Hrun |].
      split; [destruct t as [tk th]; cbn in Ht; subst tk; exists th;
              exact Hrun |].
      split; [| congruence].
      intros plan' [h' Hrun']. eapply Hmin; [exact Hrun' | reflexivity].
Qed.

(** C1. On a node table built from reachable positions, with its
    4-connected adjacency, a cardinal start heading and start and goal keys
    in the table, the goal connected to the start: [astar_actions] returns
    a sequence of MoveAhead / RotateLeft / RotateRight that, executed from
    the start pose, ends at the goal key (at some heading); no sequence
    that does so is shorter; and it is empty when start and goal are the
    same key. *)
Theorem astar_actions_shortest (positions : list Position)
  (start_key : PositionKey) (start_yaw : Z) (goal_key : PositionKey) :
  let nodes := build_node_lookup positions in
  let adjacency := build_adjacency nodes in
  cardinal start_yaw ->
  dict_mem nodes start_key = true ->
  dict_mem nodes goal_key = true ->
  Plan.connected adjacency start_key goal_key ->
  exists plan,
    AStar.astar_actions nodes adjacency start_key start_yaw goal_key = Ok plan
    /\ Forall Plan.nav_action plan
    /\ Plan.reaches nodes adjacency (start_key, start_yaw) plan goal_key
    /\ (forall plan',
          Plan.reaches nodes adjacency (start_key, start_yaw) plan' goal_key ->
          (length plan <= length plan')%nat)
    /\ (start_key = goal_key -> plan = []).
Proof. exact (astar_actions_correct positions start_key start_yaw goal_key). Qed.

Lemma astar_actions_shortest_witness :
  exists plan,
    AStar.astar_actions Samples.open3 (build_adjacency Samples.open3)
      (0, 0) 0 (50, 50) = Ok plan
    /\ Forall Plan.nav_action plan
    /\ Plan.reaches Samples.open3 (build_adjacency Samples.open3)
         ((0, 0), 0) plan (50, 50)
    /\ (forall plan',
          Plan.reaches Samples.open3 (build_adjacency Samples.open3)
            ((0, 0), 0) plan' (50, 50) ->
          (length plan <= length plan')%nat)
    /\ ((0, 0) = (50, 50) -> plan = []).
Proof.
  apply (astar_actions_shortest
           (map (fun c => Samples.cell (fst c) (snd c))
              [(0, 0); (0, 1); (0, 2); (1, 0); (1, 1); (1, 2);
               (2, 0); (2, 1); (2, 2)])
           (0, 0) 0 (50, 50)).
  - unfold cardinal. lia.
  - reflexivity.
  - reflexivity.
  - eapply (Plan.connected_step _ _ (25, 50) (50, 50));
      [| vm_compute; reflexivity | reflexivity].
    eapply (Plan.connected_step _ _ (0, 50) (25, 50));
      [| vm_compute; reflexivity | reflexivity].
    eapply (Plan.connected_step _ _ (0, 25) (0, 50));
      [| vm_compute; reflexivity | reflexivity].
    eapply (Plan.connected_step _ _ (0, 0) (0, 25));
      [| vm_compute; reflexivity | reflexivity].
    apply Plan.connected_refl.
Defined.

(** ** What a JPS plan looks like *)

Section JPSFacts.
Import JPS JPSInv Inv.

Lemma abs_gt_eps_spec (d : Z) : abs_gt_eps d = negb (d =? 0).
Proof.
  unfold abs_gt_eps, Qle_bool. cbn.
  destruct (Z.eqb_spec d 0) as [-> | Hne]; [reflexivity |].
  cbn. apply negb_true_iff, Z.leb_gt. lia.
Qed.

Lemma round_steps_mul (s : Z) : round_steps (STEP_SIZE * s) = s.
Proof.
  unfold round_steps, Rotation.py_round, STEP_SIZE.
  assert (Hq : (inject_Z (25 * s) / inject_Z 25 == inject_Z s)%Q).
  { unfold Qeq, Qdiv, Qmult, Qinv, inject_Z. cbn. lia. }
  rewrite (Qfloor_comp _ _ Hq), Qfloor_Z.
  assert (Hc : ((inject_Z (25 * s) / inject_Z 25 - inject_Z s) ?= 1 # 2)%Q
               = Lt).
  { rewrite Hq. unfold Qcompare, Qminus, Qplus, Qopp, inject_Z. cbn.
    apply Z.compare_lt_iff. lia. }
  rewrite Hc. reflexivity.
Qed.

Variable nodes : NodeTable.
Hypothesis Hwf : wf_table nodes.
Variable start_key goal_key : PositionKey.

(** A jump lands a whole number of strides away, on a node. *)
Lemma jump_lands (fuel : nat) :
  forall (c : PositionKey) (d : Z * Z) (jk : PositionKey),
    _jump fuel nodes c d goal_key = Ok (Some jk) ->
    exists t, 1 <= t
              /\ jk = (fst c + t * (fst d * STEP_SIZE),
                       snd c + t * (snd d * STEP_SIZE)).
Proof.
  induction fuel as [| fuel IH]; intros c d jk H; [discriminate |].
  cbn [_jump] in H. apply rbind_ok in H as (node & Hnode & H).
  apply getitem_ok in Hnode.
  destruct (wf_position nodes Hwf _ _ Hnode) as [Hx Hz].
  rewrite Hx, Hz in H. unfold make_key in H.
  destruct (dict_mem nodes _); cbn [negb] in H; [| discriminate].
  destruct (key_eqb _ goal_key).
  - injection H as <-. exists 1. split; [lia |]. f_equal; lia.
  - apply rbind_ok in H as (forced & _ & H). destruct forced.
    + injection H as <-. exists 1. split; [lia |]. f_equal; lia.
    + apply IH in H as (t & Ht & ->). cbn [fst snd].
      exists (t + 1). split; [lia |]. f_equal; lia.
Qed.

(** A jump whose first cell is not a node finds nothing. *)
Lemma jump_blocked (fuel : nat) (c : PositionKey) (d : Z * Z)
  (jk : PositionKey) :
  dict_mem nodes (fst c + fst d * STEP_SIZE, snd c + snd d * STEP_SIZE)
  = false ->
  _jump fuel nodes c d goal_key <> Ok (Some jk).
Proof.
  intros Hblocked H. destruct fuel as [| fuel]; [discriminate |].
  cbn [_jump] in H. apply rbind_ok in H as (node & Hnode & H).
  apply getitem_ok in Hnode.
  destruct (wf_position nodes Hwf _ _ Hnode) as [Hx Hz].
  rewrite Hx, Hz in H. unfold make_key in H. rewrite Hblocked in H.
  discriminate.
Qed.

Lemma ray_step (u : Z * Z) (a s t : Z) :
  (fst (ray start_key u a) + t * (s * fst u * STEP_SIZE),
   snd (ray start_key u a) + t * (s * snd u * STEP_SIZE))
  = ray start_key u (a + t * s).
Proof. unfold ray, STEP_SIZE. cbn [fst snd]. f_equal; lia. Qed.

(** From the start every jump goes along a unit direction. *)
Lemma start_directions (dirs : list (Z * Z)) (d : Z * Z)
  (fuel : nat) (jk : PositionKey) :
  _pruned_directions nodes start_key None = Ok dirs ->
  In d dirs ->
  _jump fuel nodes start_key d goal_key = Ok (Some jk) ->
  parent_ok start_key jk start_key.
Proof.
  intros Hdirs Hin Hjump. unfold _pruned_directions in Hdirs.
  apply rbind_ok in Hdirs as (node & _ & Hdirs). injection Hdirs as <-.
  assert (Hu : unit_dir d).
  { unfold CARDINAL_DIRECTIONS in Hin. cbn [omap list_omap] in Hin.
    repeat match type of Hin with
           | context [dict_mem nodes ?k] => destruct (dict_mem nodes k)
           end;
      cbn [In] in Hin;
      repeat (destruct Hin as [<- | Hin]; [vm_compute; auto 10 |]);
      destruct Hin. }
  apply jump_lands in Hjump as (t & Ht & ->).
  exists d, t, 0.
  split; [exact Hu |]. split; [lia |]. unfold ray, STEP_SIZE.
  destruct start_key as [sx sz]. cbn [fst snd].
  split; f_equal; lia.
Qed.

(** From a waypoint with a parent, a jump that finds something continues
    the ray of the parent. *)
Lemma parent_directions (c p : PositionKey) (dirs : list (Z * Z))
  (d : Z * Z) (fuel : nat) (jk : PositionKey) :
  parent_ok start_key c p ->
  _pruned_directions nodes c (Some p) = Ok dirs ->
  In d dirs ->
  _jump fuel nodes c d goal_key = Ok (Some jk) ->
  parent_ok start_key jk c.
Proof.
  intros (u & a & b & Hu & Hab & Hc & Hp) Hdirs Hin Hjump.
  unfold _pruned_directions in Hdirs.
  apply rbind_ok in Hdirs as (node & Hnode & Hdirs).
  apply rbind_ok in Hdirs as (pnode & Hpnode & Hdirs).
  apply getitem_ok in Hnode, Hpnode.
  destruct (wf_position nodes Hwf _ _ Hnode) as [Hx Hz].
  destruct (wf_position nodes Hwf _ _ Hpnode) as [Hpx Hpz].
  rewrite Hx, Hz, Hpx, Hpz in Hdirs. rewrite !abs_gt_eps_spec in Hdirs.
  assert (Hdx : fst c - fst p = STEP_SIZE * ((a - b) * fst u))
    by (subst c p; unfold ray, STEP_SIZE; cbn [fst snd]; lia).
  assert (Hdz : snd c - snd p = STEP_SIZE * ((a - b) * snd u))
    by (subst c p; unfold ray, STEP_SIZE; cbn [fst snd]; lia).
  rewrite Hdx, Hdz, !round_steps_mul in Hdirs.
  unfold _is_walkable, make_key in Hdirs.
  assert (Hgo : d = ((a - b) * fst u, (a - b) * snd u) ->
                parent_ok start_key jk c).
  { intros ->. apply jump_lands in Hjump as (t & Ht & ->).
    cbn [fst snd]. rewrite Hc, ray_step.
    exists u, (a + t * (a - b)), a. split; [exact Hu |].
    split; [nia | auto]. }
  assert (Hno : forall e, d = e ->
                  dict_mem nodes (fst c + fst e * STEP_SIZE,
                                  snd c + snd e * STEP_SIZE) = false ->
                  parent_ok start_key jk c).
  { intros e -> Hb. exfalso. exact (jump_blocked fuel c e jk Hb Hjump). }
  unfold STEP_SIZE in *.
  destruct Hu as [-> | [-> | [-> | ->]]]; cbn [fst snd] in *.
  all: repeat match type of Hdirs with
              | context [?x =? 0] =>
                first [ replace (x =? 0) with false in Hdirs
                          by (symmetry; apply Z.eqb_neq; lia)
                      | replace (x =? 0) with true in Hdirs
                          by (symmetry; apply Z.eqb_eq; lia) ];
                cbn [negb] in Hdirs
              end.
  all: injection Hdirs as <-.
  all: repeat (apply in_app_or in Hin as [Hin | Hin]);
       repeat match type of Hin with
              | In _ (if ?b then _ else _) =>
                let E := fresh "E" in destruct b eqn:E
              end;
       try destruct Hin as [<- | []]; try destruct Hin.
  all: try (apply Hgo; f_equal; lia).
  all: apply andb_true_iff in E as [E _]; apply negb_true_iff in E.
  all: eapply Hno; [reflexivity |]; cbn [fst snd];
       rewrite <- E; f_equal; f_equal; lia.
Qed.


(** *** The search keeps every waypoint on a ray from the start *)

Abbreviation jinv := (jps_inv start_key).

Lemma try_direction_inv (st st' : Search) (current : PositionKey)
  (current_g : Q) (d : Z * Z) :
  jinv st ->
  (forall fuel jk, _jump fuel nodes current d goal_key = Ok (Some jk) ->
                   parent_ok start_key jk current) ->
  try_direction nodes goal_key current current_g st d = Ok st' ->
  jinv st'.
Proof.
  intros Hinv Hgood H. unfold try_direction in H.
  apply rbind_ok in H as (jump_key & Hjump & H).
  destruct jump_key as [jk |]; [| injection H as <-; exact Hinv].
  apply rbind_ok in H as (cost & _ & H).
  destruct (not_better st _ jk); [injection H as <-; exact Hinv |].
  apply rbind_ok in H as (h & _ & H). injection H as <-.
  constructor; cbn.
  - intros k p. destruct (decide (jk = k)) as [<- | Hne].
    + rewrite lookup_insert_eq. intros [= <-]. eapply Hgood; eauto.
    + rewrite lookup_insert_ne by exact Hne.
      apply (jinv_parents _ _ Hinv).
  - intros e [<- | He]; cbn.
    + right. rewrite lookup_insert_eq. eauto.
    + destruct (jinv_heap _ _ Hinv e He) as [Hs | Hp]; [left; exact Hs |].
      right. apply lookup_insert_is_Some.
      destruct (decide (jk = e_key e)); auto.
Qed.

Lemma for_directions_inv (current : PositionKey) (current_g : Q)
  (dirs : list (Z * Z)) :
  forall st st' : Search,
    jinv st ->
    (forall d, In d dirs ->
       forall fuel jk, _jump fuel nodes current d goal_key = Ok (Some jk) ->
                       parent_ok start_key jk current) ->
    for_directions nodes goal_key current current_g st dirs = Ok st' ->
    jinv st'.
Proof.
  induction dirs as [| d dirs IH]; intros st st' Hinv Hgood H.
  - injection H as <-. exact Hinv.
  - cbn [for_directions] in H. apply rbind_ok in H as (st1 & H1 & H).
    eapply IH; [| | exact H].
    + eapply try_direction_inv; [exact Hinv | | exact H1].
      apply Hgood. left. reflexivity.
    + intros d' Hd'. apply Hgood. right. exact Hd'.
Qed.

Lemma heappop_In {E : Type} (ltb : E -> E -> bool) (heap : list E) :
  forall e rest,
    AStar.heappop ltb heap = Some (e, rest) ->
    In e heap /\ forall x, In x rest -> In x heap.
Proof.
  induction heap as [| e0 heap IH]; intros e rest H; [discriminate |].
  cbn in H. destruct (AStar.heappop ltb heap) as [[m rest'] |].
  - destruct (IH m rest' eq_refl) as [Hm Hrest].
    destruct (ltb m e0); injection H as <- <-.
    + split; [right; exact Hm |].
      intros x [<- | Hx]; [left; reflexivity | right; auto].
    + split; [left; reflexivity | intros x Hx; right; exact Hx].
  - injection H as <- <-. split; [left; reflexivity | intros x []].
Qed.

Lemma last_cons {A : Type} (l : list A) :
  forall x d : A, List.last (x :: l) d = List.last l x.
Proof.
  induction l as [| y l IH]; intros x d; [reflexivity |].
  change (List.last (x :: y :: l) d) with (List.last (y :: l) d).
  rewrite (IH y d), (IH y x). reflexivity.
Qed.

(** *** Counting the MoveAhead actions of the plan *)

Lemma moves_app (p1 p2 : list Action) :
  moves (p1 ++ p2) = moves p1 + moves p2.
Proof.
  unfold moves, count_action. rewrite filter_app, length_app. lia.
Qed.

Lemma moves_repeat_move (n : Z) :
  0 <= n -> moves (Rotation.py_repeat MoveAhead n) = n.
Proof.
  intros Hn. unfold moves, count_action, Rotation.py_repeat.
  rewrite <- (Z2Nat.id n Hn) at 2. f_equal.
  induction (Z.to_nat n) as [| k IH]; [reflexivity |].
  cbn [repeat]. rewrite filter_cons_True by reflexivity. cbn. lia.
Qed.

Lemma moves_repeat_other (a : Action) (n : Z) :
  a <> MoveAhead -> moves (Rotation.py_repeat a n) = 0.
Proof.
  intros Ha. unfold moves, count_action, Rotation.py_repeat.
  induction (Z.to_nat n) as [| k IH]; [reflexivity |].
  cbn [repeat]. rewrite filter_cons_False by exact Ha. exact IH.
Qed.

Lemma moves_rotation (y t : Z) : moves (Rotation._rotation_actions y t) = 0.
Proof.
  unfold Rotation._rotation_actions.
  repeat match goal with
         | |- context [if ?b then _ else _] => destruct b
         end; try reflexivity; apply moves_repeat_other; discriminate.
Qed.

Lemma manhattan_ray (u : Z * Z) (a : Z) :
  unit_dir u -> 0 <= a ->
  manhattan start_key (ray start_key u a) = STEP_SIZE * a.
Proof.
  unfold manhattan, ray, STEP_SIZE.
  intros [-> | [-> | [-> | ->]]] Ha; cbn [fst snd]; lia.
Qed.

(** One segment of the path conversion: some rotations, then as many
    MoveAhead as the two waypoints are grid steps apart. *)
Lemma path_to_actions_count (parents : gmap PositionKey PositionKey) :
  (forall k p, parents !! k = Some p -> parent_ok start_key k p) ->
  forall (path : list PositionKey) (yaw : Z) (acc plan : list Action)
         (first : PositionKey),
    chain parents (first :: path) ->
    path_to_actions_loop nodes (first :: path) yaw acc = Ok plan ->
    STEP_SIZE * moves plan
    = STEP_SIZE * moves acc
      + manhattan start_key (List.last path first)
      - manhattan start_key first.
Proof.
  intros Hpar. induction path as [| k path IH];
    intros yaw acc plan first Hchain H.
  - injection H as <-. cbn. lia.
  - cbn [path_to_actions_loop] in H. destruct Hchain as [Hk Hchain].
    apply rbind_ok in H as (pnode & Hpnode & H).
    apply rbind_ok in H as (knode & Hknode & H).
    apply getitem_ok in Hpnode, Hknode.
    destruct (wf_position nodes Hwf _ _ Hpnode) as [Hpx Hpz].
    destruct (wf_position nodes Hwf _ _ Hknode) as [Hkx Hkz].
    destruct (Hpar k first Hk) as (u & a & b & Hu & Hab & Hka & Hpb).
    rewrite Hkx, Hkz, Hpx, Hpz in H. rewrite !abs_gt_eps_spec in H.
    assert (Hmk : manhattan start_key k = STEP_SIZE * a)
      by (rewrite Hka; apply manhattan_ray; [exact Hu | lia]).
    assert (Hmp : manhattan start_key first = STEP_SIZE * b)
      by (rewrite Hpb; apply manhattan_ray; [exact Hu | lia]).
    assert (Hseg : exists yaw',
               path_to_actions_loop nodes (k :: path) yaw'
                 (acc ++ Rotation._rotation_actions yaw yaw'
                      ++ Rotation.py_repeat MoveAhead (a - b)) = Ok plan).
    { assert (Hdx : fst k - fst first = STEP_SIZE * ((a - b) * fst u))
        by (subst k first; unfold ray, STEP_SIZE; cbn [fst snd]; lia).
      assert (Hdz : snd k - snd first = STEP_SIZE * ((a - b) * snd u))
        by (subst k first; unfold ray, STEP_SIZE; cbn [fst snd]; lia).
      rewrite Hdx, Hdz in H. clear Hdx Hdz.
      unfold STEP_SIZE in H.
      destruct Hu as [-> | [-> | [-> | ->]]]; cbn [fst snd] in H.
      all: repeat match type of H with
                  | context [?x =? 0] =>
                    first [ replace (x =? 0) with false in H
                              by (symmetry; apply Z.eqb_neq; lia)
                          | replace (x =? 0) with true in H
                              by (symmetry; apply Z.eqb_eq; lia) ];
                    cbn [negb andb] in H
                  end.
      all: repeat match type of H with
                  | context [0 <? ?x] =>
                    first [ replace (0 <? x) with false in H
                              by (symmetry; apply Z.ltb_ge; lia)
                          | replace (0 <? x) with true in H
                              by (symmetry; apply Z.ltb_lt; lia) ]
                  end.
      all: match type of H with
           | context [round_steps (Z.abs ?x)] =>
             replace (Z.abs x) with (STEP_SIZE * (a - b)) in H
               by (unfold STEP_SIZE; lia)
           end.
      all: rewrite round_steps_mul in H.
      all: cbn [DIR_TO_YAW] in H; rewrite getitem_Some, rbind_Ok in H.
      all: eexists; exact H. }
    destruct Hseg as (yaw' & Hseg).
    apply IH in Hseg; [| exact Hchain].
    rewrite !moves_app, moves_rotation, moves_repeat_move in Hseg by lia.
    rewrite last_cons. unfold STEP_SIZE in *. lia.
Qed.

(** The walk back along the parents yields a chain from the start. *)
Lemma reconstruct_chain (parents : gmap PositionKey PositionKey)
  (fuel : nat) :
  forall (cur : PositionKey) (acc path tail : list PositionKey),
    rev acc = cur :: tail ->
    chain parents (cur :: tail) ->
    reconstruct_loop fuel parents start_key cur acc = Ok path ->
    exists tail', path = start_key :: tail'
                  /\ chain parents path
                  /\ List.last tail' start_key = List.last tail cur.
Proof.
  induction fuel as [| fuel IH]; intros cur acc path tail Hrev Hchain H;
    cbn [reconstruct_loop] in H;
    destruct (key_eqb cur start_key) eqn:Hcur.
  all: try discriminate.
  - apply key_eqb_eq in Hcur as ->. injection H as <-.
    exists tail. rewrite Hrev. auto.
  - apply key_eqb_eq in Hcur as ->. injection H as <-.
    exists tail. rewrite Hrev. auto.
  - apply rbind_ok in H as (prev & Hprev & H). apply getitem_ok in Hprev.
    apply (IH prev (acc ++ [prev]) path (cur :: tail)) in H.
    + destruct H as (tail' & -> & Hc & Hl). exists tail'.
      split; [reflexivity |]. split; [exact Hc |]. rewrite Hl.
      apply last_cons.
    + rewrite rev_app_distr, Hrev. reflexivity.
    + split; [exact Hprev | exact Hchain].
Qed.

Lemma jps_loop_moves (start_yaw : Z) (fuel : nat) :
  forall (st : Search) (plan : list Action),
    jinv st ->
    jps_loop nodes start_key start_yaw goal_key fuel st = Ok plan ->
    STEP_SIZE * moves plan = manhattan start_key goal_key.
Proof.
  induction fuel as [| fuel IH]; intros st plan Hinv H; [discriminate |].
  cbn [jps_loop] in H.
  destruct (AStar.heappop entry_ltb (open_heap st)) as [[e rest] |] eqn:Hpop;
    [| discriminate].
  apply heappop_In in Hpop as [He Hrest].
  destruct (decide (e_key e ∈ closed st)) as [Hclosed | Hopen].
  - apply IH in H; [exact H |].
    constructor; cbn.
    + apply (jinv_parents _ _ Hinv).
    + intros x Hx. apply (jinv_heap _ _ Hinv). auto.
  - destruct (key_eqb (e_key e) goal_key) eqn:Hgoal.
    + apply rbind_ok in H as (path & Hpath & H). cbn [parents] in Hpath.
      unfold _reconstruct_path in Hpath.
      apply (reconstruct_chain _ _ goal_key [goal_key] path []) in Hpath;
        [| reflexivity | exact I].
      destruct Hpath as (tail' & -> & Hchain & Hlast).
      unfold _path_to_actions in H.
      apply (path_to_actions_count _ (jinv_parents _ _ Hinv)) in H;
        [| exact Hchain].
      rewrite Hlast in H. cbn [List.last] in H.
      change (moves []) with 0 in H. unfold manhattan in H at 2.
      rewrite !Z.sub_diag in H. cbn in H. lia.
    + apply rbind_ok in H as (dirs & Hdirs & H).
      apply rbind_ok in H as (st'' & Hfor & H).
      apply IH in H; [exact H |].
      eapply for_directions_inv; [| | exact Hfor].
      * constructor; cbn.
        -- apply (jinv_parents _ _ Hinv).
        -- intros x Hx. apply (jinv_heap _ _ Hinv). auto.
      * cbn [parents] in Hdirs. intros d Hd fuel' jk Hjump.
        destruct (parents st !! e_key e) as [p |] eqn:Hp.
        -- eapply parent_directions; eauto.
           apply (jinv_parents _ _ Hinv). exact Hp.
        -- destruct (jinv_heap _ _ Hinv e He) as [Hs | [x Hx]];
             [| congruence].
           rewrite Hs in *. eapply start_directions; eauto.
Qed.

End JPSFacts.

(** ** The JPS model never runs out of fuel *)

Section JPSTerminates.
Import JPS JPSInv Inv.

Variable nodes : NodeTable.
Hypothesis Hwf : wf_table nodes.
Variable start_key goal_key : PositionKey.

Lemma filter_length_lt {A : Type} (f g : A -> bool) (l : list A) (x : A) :
  (forall a, f a = true -> g a = true) ->
  In x l -> g x = true -> f x = false ->
  (length (List.filter f l) < length (List.filter g l))%nat.
Proof.
  intros Hfg Hin Hgx Hfx.
  assert (Hle : forall l', (length (List.filter f l')
                            <= length (List.filter g l'))%nat).
  { induction l' as [| a l' IH]; [cbn; lia |]. cbn.
    destruct (f a) eqn:Hfa.
    - rewrite (Hfg a Hfa). cbn. lia.
    - destruct (g a); cbn; lia. }
  induction l as [| a l IH]; [destruct Hin |]. cbn.
  destruct Hin as [-> | Hin].
  - rewrite Hgx, Hfx. cbn. specialize (Hle l). lia.
  - specialize (IH Hin). destruct (f a) eqn:Hfa.
    + rewrite (Hfg a Hfa). cbn. lia.
    + destruct (g a); cbn; lia.
Qed.

Lemma filter_length_le {A : Type} (f : A -> bool) (l : list A) :
  (length (List.filter f l) <= length l)%nat.
Proof.
  induction l as [| a l IH]; [cbn; lia |]. cbn. destruct (f a); cbn; lia.
Qed.

(** A jump in a non-zero direction ends within as many steps as there are
    nodes ahead. *)
Lemma jump_answers (fuel : nat) :
  forall (c : PositionKey) (d : Z * Z),
    d <> (0, 0) ->
    (length (ahead nodes c d) < fuel)%nat ->
    _jump fuel nodes c d goal_key <> OutOfFuel.
Proof.
  induction fuel as [| fuel IH]; intros c d Hd Hlen; [lia |].
  cbn [_jump].
  destruct (dict_get nodes c) as [node |] eqn:Hnode; [| discriminate].
  rewrite getitem_Some, rbind_Ok.
  destruct (wf_position nodes Hwf _ _ Hnode) as [Hx Hz].
  rewrite Hx, Hz. unfold make_key.
  set (next := (fst c + fst d * STEP_SIZE, snd c + snd d * STEP_SIZE)).
  destruct (dict_mem nodes next) eqn:Hmem; cbn [negb]; [| discriminate].
  destruct (key_eqb next goal_key); [discriminate |].
  destruct (_forced_neighbor_exists nodes next d) as [forced | e |] eqn:Hf.
  - rewrite rbind_Ok. destruct forced; [discriminate |].
    apply IH; [exact Hd |].
    apply dict_mem_get in Hmem as [pos Hpos]. apply dict_get_In in Hpos.
    assert (Hnz : 0 < fst d * fst d + snd d * snd d).
    { destruct d as [dx dz]. cbn [fst snd].
      destruct (Z.eq_dec dx 0) as [-> | ?]; destruct (Z.eq_dec dz 0) as [-> | ?];
        [congruence | nia | nia | nia]. }
    assert (Hlt : (length (ahead nodes next d) < length (ahead nodes c d))%nat).
    { unfold ahead. apply (filter_length_lt _ _ nodes (next, pos)).
      - intros a Ha. apply Z.ltb_lt in Ha. apply Z.ltb_lt.
        unfold next, STEP_SIZE in Ha. cbn [fst snd] in Ha. nia.
      - exact Hpos.
      - apply Z.ltb_lt. unfold next, STEP_SIZE. cbn [fst snd]. nia.
      - apply Z.ltb_ge. cbn [fst snd]. lia. }
    lia.
  - discriminate.
  - exfalso. unfold _forced_neighbor_exists in Hf. destruct d as [dx dz].
    destruct (dict_get nodes next); cbn in Hf; [| discriminate].
    repeat match type of Hf with
           | context [if ?b then _ else _] => destruct b
           end; discriminate.
Qed.

Lemma jump_in_table (fuel : nat) :
  forall (c : PositionKey) (d : Z * Z) (jk : PositionKey),
    _jump fuel nodes c d goal_key = Ok (Some jk) ->
    dict_mem nodes jk = true.
Proof.
  induction fuel as [| fuel IH]; intros c d jk H; [discriminate |].
  cbn [_jump] in H. apply rbind_ok in H as (node & Hnode & H).
  destruct (dict_mem nodes _) eqn:Hmem; cbn [negb] in H; [| discriminate].
  destruct (key_eqb _ goal_key).
  - injection H as <-. exact Hmem.
  - apply rbind_ok in H as (forced & _ & H). destruct forced.
    + injection H as <-. exact Hmem.
    + eapply IH; eauto.
Qed.

(** *** Costs are exact, so no key is pushed twice *)

Lemma qsteps_add (a b : Z) : (qsteps a + qsteps b == qsteps (a + b))%Q.
Proof.
  unfold qsteps, STEP_SIZE, Qeq, Qplus, Qdiv, Qmult, Qinv, inject_Z. cbn.
  lia.
Qed.

Lemma movement_cost_qsteps (a b : PositionKey) (cost : Q) :
  movement_cost nodes a b = Ok cost ->
  cost = qsteps (manhattan a b).
Proof.
  unfold movement_cost. intros H.
  apply rbind_ok in H as (na & Hna & H). apply rbind_ok in H as (nb & Hnb & H).
  apply getitem_ok in Hna, Hnb.
  destruct (wf_position nodes Hwf _ _ Hna) as [Hxa Hza].
  destruct (wf_position nodes Hwf _ _ Hnb) as [Hxb Hzb].
  injection H as <-. rewrite Hxa, Hza, Hxb, Hzb. reflexivity.
Qed.

Lemma parent_ok_distance (k p : PositionKey) :
  parent_ok start_key k p ->
  manhattan start_key k = manhattan start_key p + manhattan p k
  /\ manhattan start_key p < manhattan start_key k.
Proof.
  intros (u & a & b & Hu & Hab & -> & ->).
  rewrite !manhattan_ray by (auto; lia).
  unfold manhattan, ray, STEP_SIZE.
  destruct Hu as [-> | [-> | [-> | ->]]]; cbn [fst snd]; lia.
Qed.

Lemma unseen_insert (gs : gmap PositionKey Q) (k : PositionKey) (g : Q) :
  dict_mem nodes k = true ->
  gs !! k = None ->
  (length (unseen nodes (<[k := g]> gs)) < length (unseen nodes gs))%nat.
Proof.
  intros Hmem Hnone. apply dict_mem_get in Hmem as [pos Hpos].
  apply dict_get_In in Hpos. unfold unseen.
  apply (filter_length_lt _ _ nodes (k, pos)); [| exact Hpos | |].
  - intros [k' pos']. cbn [fst]. destruct (decide (k = k')) as [<- | Hne].
    + rewrite lookup_insert_eq. discriminate.
    + rewrite lookup_insert_ne by exact Hne. auto.
  - cbn [fst]. rewrite Hnone. reflexivity.
  - cbn [fst]. rewrite lookup_insert_eq. reflexivity.
Qed.

Abbreviation jinv := (jps_inv start_key).
Abbreviation jcost := (jps_costs start_key).
Abbreviation jmu := (jps_measure nodes).

Lemma try_direction_answers (st : Search) (current : PositionKey)
  (current_g : Q) (d : Z * Z) :
  jcost st ->
  (current_g == qsteps (manhattan start_key current))%Q ->
  d <> (0, 0) ->
  (forall fuel jk, _jump fuel nodes current d goal_key = Ok (Some jk) ->
                   parent_ok start_key jk current) ->
  try_direction nodes goal_key current current_g st d <> OutOfFuel
  /\ forall st',
       try_direction nodes goal_key current current_g st d = Ok st' ->
       jcost st' /\ jmu st' <= jmu st.
Proof.
  intros Hcost Hg Hd Hgood. unfold try_direction.
  pose proof (jump_answers (S (length nodes)) current d Hd) as Hans.
  destruct (_jump (S (length nodes)) nodes current d goal_key)
    as [[jk |] | e |] eqn:Hjump.
  - rewrite rbind_Ok.
    pose proof (jump_in_table _ _ _ _ Hjump) as Hjk.
    destruct (parent_ok_distance jk current (Hgood _ _ Hjump)) as [Hdist _].
    destruct (movement_cost nodes current jk) as [cost | e |] eqn:Hcostv;
      [| split; [discriminate | intros st' H; discriminate]
       | exfalso; unfold movement_cost in Hcostv;
         destruct (dict_get nodes current); cbn in Hcostv; [| discriminate];
         destruct (dict_get nodes jk); cbn in Hcostv; discriminate].
    rewrite rbind_Ok. apply movement_cost_qsteps in Hcostv. subst cost.
    assert (Htent : (current_g + qsteps (manhattan current jk)
                     == qsteps (manhattan start_key jk))%Q)
      by (rewrite Hg, qsteps_add, Hdist; reflexivity).
    unfold not_better.
    destruct (g_score st !! jk) as [g |] eqn:Hgs.
    + (* the key has its exact cost already *)
      assert (Hnb : Qle_bool g (current_g + qsteps (manhattan current jk)
                                + (1 # 1000000000)) = true).
      { apply Qle_bool_iff. rewrite Htent.
        rewrite (jc_score _ _ Hcost jk g Hgs).
        rewrite <- (Qplus_0_r (qsteps (manhattan start_key jk))) at 1.
        apply Qplus_le_r. discriminate. }
      rewrite Hnb. split; [discriminate |].
      intros st' [= <-]. split; [exact Hcost | lia].
    + destruct (heuristic nodes goal_key jk) as [h | e |] eqn:Hh;
        [| split; [discriminate | intros st' H; discriminate]
         | exfalso; unfold heuristic in Hh;
           destruct (dict_get nodes jk); cbn in Hh; [| discriminate];
           destruct (dict_get nodes goal_key); cbn in Hh; discriminate].
      rewrite rbind_Ok. split; [discriminate |].
      intros st' [= <-]. split.
      * constructor; cbn.
        -- intros k g. destruct (decide (jk = k)) as [<- | Hne].
           ++ rewrite lookup_insert_eq. intros [= <-]. exact Htent.
           ++ rewrite lookup_insert_ne by exact Hne.
              apply (jc_score _ _ Hcost).
        -- intros e [<- | He]; cbn; [exact Htent |].
           apply (jc_heap _ _ Hcost). exact He.
      * unfold jps_measure. cbn [g_score open_heap AStar.heappush length].
        pose proof (unseen_insert (g_score st) jk
                      (current_g + qsteps (manhattan current jk))%Q Hjk Hgs).
        lia.
  - rewrite rbind_Ok. split; [discriminate |].
    intros st' [= <-]. split; [exact Hcost | lia].
  - split; [discriminate | intros st' H; discriminate].
  - exfalso. apply Hans; [| reflexivity].
    unfold ahead. apply Nat.lt_succ_r, filter_length_le.
Qed.

Lemma for_directions_answers (current : PositionKey) (current_g : Q)
  (dirs : list (Z * Z)) :
  forall st : Search,
    jinv st -> jcost st ->
    (current_g == qsteps (manhattan start_key current))%Q ->
    (forall d, In d dirs ->
       d <> (0, 0)
       /\ forall fuel jk, _jump fuel nodes current d goal_key = Ok (Some jk) ->
                          parent_ok start_key jk current) ->
    for_directions nodes goal_key current current_g st dirs <> OutOfFuel
    /\ forall st',
         for_directions nodes goal_key current current_g st dirs = Ok st' ->
         jinv st' /\ jcost st' /\ jmu st' <= jmu st.
Proof.
  induction dirs as [| d dirs IH]; intros st Hinv Hcost Hg Hgood.
  - cbn. split; [discriminate |]. intros st' [= <-]. split; [auto |].
    split; [auto | lia].
  - cbn [for_directions].
    destruct (Hgood d ltac:(left; reflexivity)) as [Hd Hj].
    destruct (try_direction_answers st current current_g d Hcost Hg Hd Hj)
      as [Hne Hok].
    destruct (try_direction nodes goal_key current current_g st d)
      as [st1 | e |] eqn:Htry; [| split; [discriminate | discriminate]
                                | congruence].
    rewrite rbind_Ok. destruct (Hok st1 eq_refl) as [Hcost1 Hmu1].
    assert (Hinv1 : jinv st1) by (eapply try_direction_inv; eassumption).
    destruct (IH st1 Hinv1 Hcost1 Hg
                ltac:(intros d' Hd'; apply Hgood; right; exact Hd'))
      as [Hne' Hok'].
    split; [exact Hne' |].
    intros st' Hst'. destruct (Hok' st' Hst') as (? & ? & ?).
    split; [auto |]. split; [auto | lia].
Qed.

(** *** The remaining parts of the planner *)

Lemma rbind_answers {A B : Type} (r : Result A) (k : A -> Result B) :
  r <> OutOfFuel ->
  (forall a, r = Ok a -> k a <> OutOfFuel) ->
  (r ≫= k) <> OutOfFuel.
Proof. destruct r; cbn; intros Hr Hk; [auto | discriminate | congruence]. Qed.

Lemma getitem_answers {A : Type} (o : option A) : getitem o <> OutOfFuel.
Proof. destruct o; discriminate. Qed.

Lemma heappop_length {E : Type} (ltb : E -> E -> bool) (heap : list E) :
  forall e rest,
    AStar.heappop ltb heap = Some (e, rest) ->
    length heap = S (length rest).
Proof.
  induction heap as [| e0 heap IH]; intros e rest H; [discriminate |].
  cbn [AStar.heappop] in H.
  destruct (AStar.heappop ltb heap) as [[m rest'] |] eqn:Hpop.
  - specialize (IH m rest' eq_refl).
    destruct (ltb m e0); injection H as <- <-; cbn [length]; lia.
  - injection H as <- <-. destruct heap as [| e1 heap]; [reflexivity |].
    cbn [AStar.heappop] in Hpop.
    destruct (AStar.heappop ltb heap) as [[m' r'] |];
      [destruct (ltb m' e1) |]; discriminate.
Qed.

Lemma pruned_directions_answers (c : PositionKey) (p : option PositionKey) :
  _pruned_directions nodes c p <> OutOfFuel.
Proof.
  unfold _pruned_directions. apply rbind_answers; [apply getitem_answers |].
  intros node _. destruct p as [p |]; [| discriminate].
  apply rbind_answers; [apply getitem_answers |]. intros pnode _.
  repeat match goal with
         | |- context [if ?b then Ok _ else _] => destruct b
         end; discriminate.
Qed.

Lemma path_to_actions_answers (path : list PositionKey) :
  forall (yaw : Z) (actions : list Action),
    path_to_actions_loop nodes path yaw actions <> OutOfFuel.
Proof.
  induction path as [| prev_key tl IH]; intros yaw actions; [discriminate |].
  cbn [path_to_actions_loop]. destruct tl as [| next_key tl]; [discriminate |].
  apply rbind_answers; [apply getitem_answers |]. intros prev_node _.
  apply rbind_answers; [apply getitem_answers |]. intros next_node _.
  destruct (abs_gt_eps _ && abs_gt_eps _); [discriminate |].
  destruct (abs_gt_eps _);
    (apply rbind_answers; [apply getitem_answers |]); intros t _; apply IH.
Qed.

(** Walking back through the parents visits pairwise different keys of the
    parent map, so its size bounds the walk. *)
Lemma reconstruct_answers (parents : gmap PositionKey PositionKey)
  (fuel : nat) :
  (forall k p, parents !! k = Some p -> parent_ok start_key k p) ->
  forall (cur : PositionKey) (acc visited : list PositionKey),
    NoDup visited ->
    (forall v, In v visited ->
               is_Some (parents !! v)
               /\ manhattan start_key cur < manhattan start_key v) ->
    (S (size parents) <= length visited + fuel)%nat ->
    reconstruct_loop fuel parents start_key cur acc <> OutOfFuel.
Proof.
  intros Hparents.
  induction fuel as [| fuel IH]; intros cur acc visited Hnd Hvis Hlen;
    cbn [reconstruct_loop]; destruct (key_eqb cur start_key); try discriminate.
  - exfalso.
    assert (Hsub : (list_to_set visited : gset PositionKey) ⊆ dom parents).
    { intros v Hv. apply elem_of_list_to_set, list_elem_of_In in Hv.
      apply elem_of_dom. apply (Hvis v Hv). }
    apply subseteq_size in Hsub.
    rewrite size_list_to_set, size_dom in Hsub by exact Hnd. lia.
  - destruct (parents !! cur) as [prev |] eqn:Hprev; [| discriminate].
    rewrite getitem_Some, rbind_Ok.
    destruct (parent_ok_distance cur prev (Hparents _ _ Hprev)) as [_ Hlt].
    apply (IH prev _ (cur :: visited)).
    + apply NoDup_cons. split; [| exact Hnd].
      intros Hin. apply list_elem_of_In in Hin.
      destruct (Hvis cur Hin) as [_ Hbad]. lia.
    + intros v [<- | Hv].
      * split; [eauto | exact Hlt].
      * destruct (Hvis v Hv) as [Hs Hd]. split; [exact Hs | lia].
    + cbn [length]. lia.
Qed.

Lemma unit_dir_nonzero (u : Z * Z) : unit_dir u -> u <> (0, 0).
Proof. intros [-> | [-> | [-> | ->]]]; discriminate. Qed.

Lemma start_directions_nonzero (c : PositionKey) (dirs : list (Z * Z))
  (d : Z * Z) :
  _pruned_directions nodes c None = Ok dirs -> In d dirs -> d <> (0, 0).
Proof.
  intros Hdirs Hin. unfold _pruned_directions in Hdirs.
  apply rbind_ok in Hdirs as (node & _ & Hdirs). injection Hdirs as <-.
  apply unit_dir_nonzero.
  unfold CARDINAL_DIRECTIONS in Hin. cbn [omap list_omap] in Hin.
  repeat match type of Hin with
         | context [dict_mem nodes ?k] => destruct (dict_mem nodes k)
         end;
    cbn [In] in Hin;
    repeat (destruct Hin as [<- | Hin]; [vm_compute; auto 10 |]);
    destruct Hin.
Qed.

Lemma parent_directions_nonzero (c p : PositionKey) (dirs : list (Z * Z))
  (d : Z * Z) :
  parent_ok start_key c p ->
  _pruned_directions nodes c (Some p) = Ok dirs ->
  In d dirs -> d <> (0, 0).
Proof.
  intros (u & a & b & Hu & Hab & Hc & Hp) Hdirs Hin.
  unfold _pruned_directions in Hdirs.
  apply rbind_ok in Hdirs as (node & Hnode & Hdirs).
  apply rbind_ok in Hdirs as (pnode & Hpnode & Hdirs).
  apply getitem_ok in Hnode, Hpnode.
  destruct (wf_position nodes Hwf _ _ Hnode) as [Hx Hz].
  destruct (wf_position nodes Hwf _ _ Hpnode) as [Hpx Hpz].
  rewrite Hx, Hz, Hpx, Hpz in Hdirs. rewrite !abs_gt_eps_spec in Hdirs.
  assert (Hdx : fst c - fst p = STEP_SIZE * ((a - b) * fst u))
    by (subst c p; unfold ray, STEP_SIZE; cbn [fst snd]; lia).
  assert (Hdz : snd c - snd p = STEP_SIZE * ((a - b) * snd u))
    by (subst c p; unfold ray, STEP_SIZE; cbn [fst snd]; lia).
  rewrite Hdx, Hdz, !round_steps_mul in Hdirs.
  unfold STEP_SIZE in *.
  destruct Hu as [-> | [-> | [-> | ->]]]; cbn [fst snd] in *.
  all: repeat match type of Hdirs with
              | context [?x =? 0] =>
                first [ replace (x =? 0) with false in Hdirs
                          by (symmetry; apply Z.eqb_neq; lia)
                      | replace (x =? 0) with true in Hdirs
                          by (symmetry; apply Z.eqb_eq; lia) ];
                cbn [negb] in Hdirs
              end.
  all: injection Hdirs as <-.
  all: repeat (apply in_app_or in Hin as [Hin | Hin]);
       repeat match type of Hin with
              | In _ (if ?b then _ else _) => destruct b
              end;
       try destruct Hin as [<- | []]; try destruct Hin.
  all: intros Heq;
       apply (f_equal (fun q : Z * Z => Z.abs (fst q) + Z.abs (snd q))) in Heq;
       cbn [fst snd] in Heq; lia.
Qed.

Lemma jps_measure_nonneg (st : Search) : 0 <= jmu st.
Proof. unfold jps_measure. lia. Qed.

Lemma jps_loop_answers (start_yaw : Z) (fuel : nat) :
  forall st : Search,
    jinv st -> jcost st -> jmu st < Z.of_nat fuel ->
    jps_loop nodes start_key start_yaw goal_key fuel st <> OutOfFuel.
Proof.
  induction fuel as [| fuel IH]; intros st Hinv Hcost Hmu.
  { pose proof (jps_measure_nonneg st). lia. }
  cbn [jps_loop].
  destruct (AStar.heappop entry_ltb (open_heap st)) as [[e rest] |] eqn:Hpop;
    [| discriminate].
  pose proof (heappop_length _ _ _ _ Hpop) as Hlen.
  apply heappop_In in Hpop as [He Hrest].
  assert (Hinv' : forall cl, jinv (mkSearch rest (parents st) (g_score st)
                                            cl (counter st))).
  { intros cl. constructor; cbn.
    - apply (jinv_parents _ _ Hinv).
    - intros x Hx. apply (jinv_heap _ _ Hinv). auto. }
  assert (Hcost' : forall cl, jcost (mkSearch rest (parents st) (g_score st)
                                              cl (counter st))).
  { intros cl. constructor; cbn.
    - apply (jc_score _ _ Hcost).
    - intros x Hx. apply (jc_heap _ _ Hcost). auto. }
  assert (Hmu' : forall cl, jmu (mkSearch rest (parents st) (g_score st)
                                          cl (counter st)) < Z.of_nat fuel).
  { intros cl. unfold jps_measure in *. cbn [g_score open_heap]. lia. }
  destruct (decide (e_key e ∈ closed st)) as [Hclosed | Hopen].
  - apply IH; auto.
  - destruct (key_eqb (e_key e) goal_key) eqn:Hgoal.
    + apply rbind_answers.
      * cbn [parents]. unfold _reconstruct_path.
        apply (reconstruct_answers _ _ (jinv_parents _ _ Hinv) _ _ []).
        -- apply NoDup_nil_2.
        -- intros v [].
        -- cbn [length]. lia.
      * intros path _. apply path_to_actions_answers.
    + apply rbind_answers; [apply pruned_directions_answers |].
      intros dirs Hdirs. cbn [parents] in Hdirs.
      set (st' := mkSearch rest (parents st) (g_score st)
                           ({[e_key e]} ∪ closed st) (counter st)).
      destruct (for_directions_answers (e_key e) (e_g e) dirs st'
                  (Hinv' _) (Hcost' _) (jc_heap _ _ Hcost e He)) as [Hne Hok].
      { intros d Hd.
        destruct (parents st !! e_key e) as [p |] eqn:Hp.
        - split.
          + eapply parent_directions_nonzero; eauto.
            apply (jinv_parents _ _ Hinv). exact Hp.
          + intros fuel' jk Hjump. eapply parent_directions; eauto.
            apply (jinv_parents _ _ Hinv). exact Hp.
        - split.
          + eapply start_directions_nonzero; eauto.
          + intros fuel' jk Hjump.
            destruct (jinv_heap _ _ Hinv e He) as [Hs | [x Hx]];
              [| congruence].
            rewrite Hs in *. eapply start_directions; eauto. }
      apply rbind_answers; [exact Hne |].
      intros st'' Hst''. destruct (Hok st'' Hst'') as (Hi & Hc & Hm).
      apply IH; auto. specialize (Hmu' ({[e_key e]} ∪ closed st)).
      fold st' in Hmu'. lia.
Qed.

End JPSTerminates.

(** The model of [jps_actions] carries enough fuel: on every position list,
    for every start and goal, the planner returns a plan or raises. *)
Lemma jps_actions_answers (positions : list Position)
  (start_key : PositionKey) (start_yaw : Z) (goal_key : PositionKey) :
  JPS.jps_actions (build_node_lookup positions) start_key start_yaw goal_key
  <> OutOfFuel.
Proof.
  set (nodes := build_node_lookup positions).
  pose proof (build_node_lookup_wf positions) as Hwf. fold nodes in Hwf.
  unfold JPS.jps_actions. destruct (key_eqb start_key goal_key); [discriminate |].
  apply rbind_answers.
  - unfold JPS.heuristic.
    apply rbind_answers; [apply getitem_answers |]. intros a _.
    apply rbind_answers; [apply getitem_answers |]. intros b _. discriminate.
  - intros h0 _. apply (jps_loop_answers nodes Hwf).
    + constructor; cbn.
      * intros k p Hk. rewrite lookup_empty in Hk. discriminate.
      * intros e [<- | []]. left. reflexivity.
    + constructor; cbn.
      * intros k g Hk. apply lookup_singleton_Some in Hk as [<- <-].
        unfold JPSInv.manhattan. rewrite !Z.sub_diag. reflexivity.
      * intros e [<- | []]. cbn.
        unfold JPSInv.manhattan. rewrite !Z.sub_diag. reflexivity.
    + unfold JPSInv.jps_measure, JPS.jps_fuel. cbn [JPS.g_score JPS.open_heap].
      cbn [AStar.heappush length].
      pose proof (filter_length_le
        (fun kv : PositionKey * Position =>
           match ({[start_key := 0%Q]} : gmap PositionKey Q) !! fst kv with
           | None => true | Some _ => false end) nodes) as Hle.
      unfold JPSInv.unseen. nia.
Qed.

(** ** JPS and A* plans compared *)

Lemma moves_cons (a : Action) (plan : list Action) :
  moves (a :: plan) = (if decide (a = MoveAhead) then 1 else 0) + moves plan.
Proof.
  unfold moves, count_action. destruct (decide (a = MoveAhead)) as [H | H].
  - rewrite filter_cons_True by exact H. cbn [length]. lia.
  - rewrite filter_cons_False by exact H. lia.
Qed.

Lemma moves_le_length (plan : list Action) :
  0 <= moves plan <= Z.of_nat (length plan).
Proof.
  induction plan as [| a plan IH]; [change (moves []) with 0; cbn; lia |].
  rewrite moves_cons. cbn [length]. destruct (decide (a = MoveAhead)); lia.
Qed.

Lemma moves_full (plan : list Action) :
  moves plan = Z.of_nat (length plan) ->
  plan = repeat MoveAhead (length plan).
Proof.
  induction plan as [| a plan IH]; [reflexivity |].
  rewrite moves_cons. cbn [length repeat]. intros H.
  pose proof (moves_le_length plan).
  destruct (decide (a = MoveAhead)) as [-> | _]; [| lia].
  f_equal. apply IH. lia.
Qed.

Section StraightRuns.
Import Inv Plan JPSInv.

Variable nodes : NodeTable.
Hypothesis Hwf : wf_table nodes.

Abbreviation adjacency := (build_adjacency nodes).

(** Every grid step of an executed plan is paid by one MoveAhead. *)
Lemma run_moves (plan : list Action) :
  forall s t : AStar.State,
    run nodes adjacency s plan = Some t ->
    manhattan (fst s) (fst t) <= STEP_SIZE * moves plan.
Proof.
  unfold manhattan, STEP_SIZE.
  induction plan as [| a plan IH]; intros s t Hrun.
  - injection Hrun as <-. change (moves []) with 0. lia.
  - cbn [run] in Hrun.
    destruct (exec_action nodes adjacency s a) as [s' |] eqn:Hex;
      [| discriminate].
    cbn in Hrun. apply IH in Hrun. rewrite moves_cons.
    destruct s as [[x z] h]. destruct a; try discriminate.
    + apply (exec_move_spec nodes Hwf) in Hex as (d & Hd & _ & _ & ->).
      apply cardinal_direction_length in Hd. cbn [fst snd] in *.
      destruct (decide (MoveAhead = MoveAhead)); [lia | congruence].
    + injection Hex as <-. cbn [fst snd] in *.
      destruct (decide (RotateLeft = MoveAhead)); [discriminate | lia].
    + injection Hex as <-. cbn [fst snd] in *.
      destruct (decide (RotateRight = MoveAhead)); [discriminate | lia].
Qed.

(** The number of MoveAhead actions has the parity of the displacement. *)
Lemma run_parity (plan : list Action) :
  forall s t : AStar.State,
    run nodes adjacency s plan = Some t ->
    exists q,
      (fst (fst t) - fst (fst s)) + (snd (fst t) - snd (fst s))
      = STEP_SIZE * moves plan - 2 * STEP_SIZE * q.
Proof.
  unfold STEP_SIZE.
  induction plan as [| a plan IH]; intros s t Hrun.
  - injection Hrun as <-. exists 0. change (moves []) with 0. lia.
  - cbn [run] in Hrun.
    destruct (exec_action nodes adjacency s a) as [s' |] eqn:Hex;
      [| discriminate].
    cbn in Hrun. apply IH in Hrun as [q Hq]. rewrite moves_cons.
    destruct s as [[x z] h]. destruct a; try discriminate.
    + apply (exec_move_spec nodes Hwf) in Hex as (d & Hd & _ & _ & ->).
      apply cardinal_direction_listed in Hd. cbn [fst snd] in *.
      destruct (decide (MoveAhead = MoveAhead)); [| congruence].
      cbn in Hd. unfold STEP_SIZE in Hd.
      destruct Hd as [H | [H | [H | [H | []]]]]; injection H as <- <-;
        cbn [fst snd] in *.
      * exists q. lia.
      * exists q. lia.
      * exists (q + 1). lia.
      * exists (q + 1). lia.
    + injection Hex as <-. cbn [fst snd] in *.
      destruct (decide (RotateLeft = MoveAhead)); [discriminate |].
      exists q. lia.
    + injection Hex as <-. cbn [fst snd] in *.
      destruct (decide (RotateRight = MoveAhead)); [discriminate |].
      exists q. lia.
Qed.

Lemma facing_direction (u : Z * Z) :
  unit_dir u ->
  cardinal (facing u)
  /\ cardinal_direction (facing u)
     = Some (STEP_SIZE * fst u, STEP_SIZE * snd u).
Proof.
  unfold unit_dir, cardinal.
  intros [-> | [-> | [-> | ->]]]; vm_compute; tauto.
Qed.

(** MoveAhead along a run of cells that are all in the table. *)
Lemma run_straight (start : PositionKey) (u : Z * Z) (n : nat) :
  unit_dir u ->
  forall a : Z,
    (forall t, a <= t <= a + Z.of_nat n ->
               dict_mem nodes (ray start u t) = true) ->
    run nodes adjacency (ray start u a, facing u) (repeat MoveAhead n)
    = Some (ray start u (a + Z.of_nat n), facing u).
Proof.
  intros Hu. destruct (facing_direction u Hu) as [_ Hd].
  induction n as [| n IH]; intros a Hcells.
  - cbn. rewrite Z.add_0_r. reflexivity.
  - cbn [repeat run].
    replace (exec_action nodes adjacency (ray start u a, facing u) MoveAhead)
      with (Some (ray start u (a + 1), facing u)).
    + cbn. rewrite IH.
      * do 3 f_equal. lia.
      * intros t Ht. apply Hcells. lia.
    + symmetry. apply (exec_move_spec nodes Hwf).
      eexists. split; [exact Hd |]. cbn [fst snd].
      assert (Hnext : (fst (ray start u a) + STEP_SIZE * fst u,
                       snd (ray start u a) + STEP_SIZE * snd u)
                      = ray start u (a + 1))
        by (unfold ray, STEP_SIZE; cbn [fst snd]; f_equal; lia).
      rewrite Hnext. split; [apply Hcells; lia |].
      split; [apply Hcells; lia | reflexivity].
Qed.

(** A plan of MoveAhead only stays on the ray of the start heading. *)
Lemma run_only_moves (n : nat) :
  forall (p : PositionKey) (h : Z) (t : AStar.State) (d : Z * Z),
    cardinal_direction h = Some d ->
    run nodes adjacency (p, h) (repeat MoveAhead n) = Some t ->
    fst t = (fst p + Z.of_nat n * fst d, snd p + Z.of_nat n * snd d).
Proof.
  induction n as [| n IH]; intros p h t d Hd Hrun.
  - injection Hrun as <-. destruct p. cbn. f_equal; lia.
  - cbn [repeat run] in Hrun.
    destruct (exec_action nodes adjacency (p, h) MoveAhead) as [s' |] eqn:Hex;
      [| discriminate].
    cbn in Hrun.
    apply (exec_move_spec nodes Hwf) in Hex as (d' & Hd' & _ & _ & ->).
    rewrite Hd in Hd'. injection Hd' as <-.
    apply (IH _ _ _ d Hd) in Hrun. rewrite Hrun. cbn [fst snd].
    f_equal; lia.
Qed.

Lemma rotation_length (h y : Z) :
  cardinal h -> cardinal y ->
  (length (Rotation._rotation_actions h y) <= 2)%nat
  /\ (length (Rotation._rotation_actions h y) = 2%nat ->
      y = (h + 180) mod 360).
Proof.
  unfold cardinal.
  intros [-> | [-> | [-> | ->]]] [-> | [-> | [-> | ->]]];
    vm_compute; split; (lia || intros; congruence || reflexivity || auto).
Qed.

(** When the straight run from the start to the goal is free, a plan that
    no plan to the goal beats in length has exactly as many MoveAhead as
    the run has steps. *)
Lemma shortest_plan_moves (start : PositionKey) (yaw : Z) (u : Z * Z)
  (d : Z) (plan : list Action) (t : AStar.State) :
  cardinal yaw -> unit_dir u -> 0 <= d ->
  (forall i, 0 <= i <= d -> dict_mem nodes (ray start u i) = true) ->
  run nodes adjacency (start, yaw) plan = Some t ->
  fst t = ray start u d ->
  (forall plan' t',
      run nodes adjacency (start, yaw) plan' = Some t' ->
      fst t' = ray start u d ->
      (length plan <= length plan')%nat) ->
  moves plan = d.
Proof.
  intros Hyaw Hu Hd Hcells Hrun Ht Hmin.
  destruct (facing_direction u Hu) as [Hfc Hfd].
  (* the straight plan: turn to face the goal, then move *)
  set (rot := Rotation._rotation_actions yaw (facing u)).
  assert (Hstraight :
    run nodes adjacency (start, yaw) (rot ++ repeat MoveAhead (Z.to_nat d))
    = Some (ray start u d, facing u)).
  { unfold rot.
    rewrite (run_app nodes), (turn_to nodes start yaw (facing u) Hyaw Hfc).
    cbn [mbind option_bind].
    assert (Hs0 : start = ray start u 0)
      by (destruct start; unfold ray; cbn [fst snd]; f_equal; lia).
    rewrite Hs0 at 1. rewrite (run_straight start u _ Hu 0).
    - rewrite Z2Nat.id by lia. reflexivity.
    - intros i Hi. apply Hcells. lia. }
  specialize (Hmin _ _ Hstraight eq_refl).
  rewrite length_app, repeat_length in Hmin.
  destruct (rotation_length yaw (facing u) Hyaw Hfc) as [Hrot2 Hrot180].
  fold rot in Hrot2, Hrot180.
  pose proof (run_moves plan _ _ Hrun) as Hge.
  destruct (run_parity plan _ _ Hrun) as [q Hq].
  pose proof (moves_le_length plan) as Hml.
  rewrite Ht in Hge, Hq. cbn [fst] in Hge, Hq.
  rewrite (manhattan_ray start u d Hu Hd) in Hge.
  assert (Hdisp : exists q', fst (ray start u d) - fst start
                             + (snd (ray start u d) - snd start)
                             = STEP_SIZE * d - 2 * STEP_SIZE * q').
  { unfold ray, STEP_SIZE. cbn [fst snd].
    destruct Hu as [-> | [-> | [-> | ->]]]; cbn [fst snd].
    - exists 0. lia.
    - exists 0. lia.
    - exists d. lia.
    - exists d. lia. }
  destruct Hdisp as [q' Hq']. unfold STEP_SIZE in *.
  destruct (Z.eq_dec (moves plan) d) as [Heq | Hne]; [exact Heq | exfalso].
  assert (Hm2 : d + 2 <= moves plan) by lia.
  assert (Hall : moves plan = Z.of_nat (length plan)) by lia.
  assert (Hr2 : length rot = 2%nat) by lia.
  specialize (Hrot180 Hr2).
  pose proof (moves_full plan Hall) as Hplan.
  rewrite Hplan in Hrun.
  destruct (cardinal_direction_some yaw Hyaw) as [dd Hdd].
  pose proof (run_only_moves _ _ _ _ _ Hdd Hrun) as Hpos.
  rewrite Ht in Hpos. unfold ray, STEP_SIZE in Hpos. cbn [fst snd] in Hpos.
  injection Hpos as Hx Hz.
  assert (Hopp : dd = (- (25 * fst u), - (25 * snd u))).
  { clear - Hyaw Hu Hrot180 Hdd. unfold cardinal in Hyaw.
    destruct Hu as [-> | [-> | [-> | ->]]];
      destruct Hyaw as [-> | [-> | [-> | ->]]];
      vm_compute in Hrot180; try discriminate;
      vm_compute in Hdd; injection Hdd as <-; reflexivity. }
  subst dd. cbn [fst snd] in Hx, Hz.
  destruct Hu as [-> | [-> | [-> | ->]]]; cbn [fst snd] in *; lia.
Qed.

End StraightRuns.




(** ** Further properties of the grid indexer *)

Lemma Qfloor_unique (x : Q) (n : Z) :
  (inject_Z n <= x)%Q -> (x < inject_Z (n + 1))%Q -> Qfloor x = n.
Proof.
  intros Hle Hlt.
  pose proof (Qfloor_le x) as H1. pose proof (Qlt_floor x) as H2.
  assert (Ha : (inject_Z n < inject_Z (Qfloor x + 1))%Q)
    by (eapply Qle_lt_trans; eassumption).
  assert (Hb : (inject_Z (Qfloor x) < inject_Z (n + 1))%Q)
    by (eapply Qle_lt_trans; eassumption).
  rewrite <- Zlt_Qlt in Ha, Hb. lia.
Qed.

Lemma quarter_bounds (yaw : Q) :
  let n := Qfloor ((yaw + 45) / 90) in
  (inject_Z (90 * n) - 45 <= yaw)%Q /\ (yaw < inject_Z (90 * n) + 45)%Q.
Proof.
  intros n.
  pose proof (Qfloor_le ((yaw + 45) / 90)) as H1.
  pose proof (Qlt_floor ((yaw + 45) / 90)) as H2. fold n in H1, H2.
  assert (Hy : (yaw == 90 * ((yaw + 45) / 90) - 45)%Q) by field.
  rewrite inject_Z_plus in H2. rewrite inject_Z_mult.
  set (x := ((yaw + 45) / 90)%Q) in *. clearbody x.
  change (inject_Z 90) with 90%Q. change (inject_Z 1) with 1%Q in H2.
  split; lra.
Qed.


(** ** Further properties of node tables *)

Section LookupFacts.
Import Inv.

(** The key a position is filed under. *)
Abbreviation key_of pos := (make_key (px pos) (pz pos)).

Lemma find_snoc {A : Type} (f : A -> bool) (l : list A) (a : A) :
  List.find f (l ++ [a])
  = match List.find f l with
    | Some b => Some b
    | None => if f a then Some a else None
    end.
Proof.
  induction l as [| b l IH]; cbn; [reflexivity |].
  destruct (f b); [reflexivity | exact IH].
Qed.

Lemma fold_set_get (positions : list Position) :
  forall (d : NodeTable) (k : PositionKey),
    dict_get (fold_left (fun d pos => dict_set d (key_of pos) pos)
                        positions d) k
    = match List.find (fun pos => key_eqb (key_of pos) k) (rev positions) with
      | Some pos => Some pos
      | None => dict_get d k
      end.
Proof.
  induction positions as [| p ps IH]; intros d k; [reflexivity |].
  cbn [fold_left rev]. rewrite IH, find_snoc, dict_get_set.
  destruct (List.find _ (rev ps)); [reflexivity |].
  destruct (key_eqb (key_of p) k); reflexivity.
Qed.

Lemma dict_set_keys {V : Type} (d : list (PositionKey * V))
  (k : PositionKey) (v : V) :
  dict_keys (dict_set d k v)
  = if dict_mem d k then dict_keys d else dict_keys d ++ [k].
Proof.
  unfold dict_mem, dict_keys.
  induction d as [| [k0 v0] d IH]; cbn [dict_set dict_get map fst];
    [reflexivity |].
  destruct (key_eqb k0 k) eqn:Hk; cbn [map fst]; [reflexivity |].
  rewrite IH. destruct (dict_get d k); reflexivity.
Qed.

Lemma dict_keys_mem {V : Type} (d : list (PositionKey * V))
  (k : PositionKey) :
  In k (dict_keys d) <-> dict_mem d k = true.
Proof.
  unfold dict_mem, dict_keys.
  induction d as [| [k0 v0] d IH]; cbn [dict_get map fst In].
  - split; [intros [] | discriminate].
  - destruct (key_eqb k0 k) eqn:Hk.
    + apply key_eqb_eq in Hk. tauto.
    + apply key_eqb_neq in Hk. rewrite IH. split; [| tauto].
      intros [H | H]; [congruence | exact H].
Qed.

Lemma dict_set_nodup {V : Type} (d : list (PositionKey * V))
  (k : PositionKey) (v : V) :
  NoDup (dict_keys d) -> NoDup (dict_keys (dict_set d k v)).
Proof.
  intros Hnd. rewrite dict_set_keys.
  destruct (dict_mem d k) eqn:Hmem; [exact Hnd |].
  apply NoDup_app. split; [exact Hnd |]. split; [| apply NoDup_singleton].
  intros x Hx Hk. apply list_elem_of_In in Hx.
  apply list_elem_of_In in Hk as [<- | []].
  apply dict_keys_mem in Hx. congruence.
Qed.

Lemma build_node_lookup_nodup (positions : list Position) :
  NoDup (dict_keys (build_node_lookup positions)).
Proof.
  unfold build_node_lookup.
  assert (Hgen : forall d : NodeTable, NoDup (dict_keys d) ->
            NoDup (dict_keys (fold_left
              (fun d pos => dict_set d (make_key (px pos) (pz pos)) pos)
              positions d))).
  { induction positions as [| p ps IH]; intros d Hd; cbn; [exact Hd |].
    apply IH, dict_set_nodup, Hd. }
  apply Hgen. apply NoDup_nil_2.
Qed.

End LookupFacts.

(** X2. [build_node_lookup] files every position under its quantized key:
    looking a key up gives the last position of the input that has this
    key (a later duplicate overwrites an earlier one), a key is in the
    table exactly when some input position has it, and no key is listed
    twice. *)
Theorem build_node_lookup_last_wins (positions : list Position) :
  let nodes := build_node_lookup positions in
  (forall k : PositionKey,
      dict_get nodes k
      = List.find (fun pos => key_eqb (make_key (px pos) (pz pos)) k)
                  (rev positions))
  /\ (forall k : PositionKey,
         dict_mem nodes k = true
         <-> exists pos, In pos positions
                         /\ make_key (px pos) (pz pos) = k)
  /\ NoDup (dict_keys nodes)
  /\ (length nodes <= length positions)%nat.
Proof.
  intros nodes.
  assert (Hget : forall k : PositionKey,
            dict_get nodes k
            = List.find (fun pos => key_eqb (make_key (px pos) (pz pos)) k)
                        (rev positions)).
  { intros k. unfold nodes, build_node_lookup.
    rewrite (fold_set_get positions [] k).
    destruct (List.find _ (rev positions)); reflexivity. }
  split; [exact Hget |]. split; [| split].
  - intros k. unfold dict_mem. rewrite Hget. split.
    + destruct (List.find _ (rev positions)) as [pos |] eqn:Hf;
        [| discriminate].
      intros _. apply find_some in Hf as [Hin Hk].
      exists pos. split; [apply in_rev; exact Hin | apply key_eqb_eq, Hk].
    + intros (pos & Hin & Hk).
      destruct (List.find _ (rev positions)) as [pos' |] eqn:Hf;
        [reflexivity |].
      exfalso. apply in_rev in Hin.
      pose proof (find_none _ _ Hf pos Hin) as Hno. cbn in Hno.
      rewrite Hk, key_eqb_refl in Hno. discriminate.
  - apply build_node_lookup_nodup.
  - unfold nodes, build_node_lookup. clear nodes Hget.
    assert (Hgen : forall d : NodeTable,
              (length (fold_left
                 (fun d pos => dict_set d (make_key (px pos) (pz pos)) pos)
                 positions d) <= length d + length positions)%nat).
    { induction positions as [| p ps IH]; intros d; cbn [fold_left length];
        [lia |].
      specialize (IH (dict_set d (make_key (px p) (pz p)) p)).
      assert (Hs : (length (dict_set d (make_key (px p) (pz p)) p)
                    <= S (length d))%nat).
      { clear IH. induction d as [| [k0 v0] d IHd]; cbn [dict_set length];
          [lia |].
        destruct (key_eqb k0 _); cbn [length]; lia. }
      lia. }
    apply (Hgen []).
Qed.

(** X3. [nearest_key] raises ValueError on an empty table; on a non-empty
    table it always returns a key of the table, and that key is the
    quantized key of the query point whenever the table has it. *)
Theorem nearest_key_in_table (nodes : NodeTable) (position : Position) :
  (nodes = [] ->
   nearest_key nodes position
   = Raise (ValueError "min() arg is an empty sequence"))
  /\ (nodes <> [] ->
      exists k, nearest_key nodes position = Ok k
                /\ dict_mem nodes k = true
                /\ (dict_mem nodes (make_key (px position) (pz position))
                    = true ->
                    k = make_key (px position) (pz position))).
Proof.
  split.
  - intros ->. reflexivity.
  - intros Hne. unfold nearest_key.
    destruct (dict_mem nodes (make_key _ _)) eqn:Hmem.
    + eexists. split; [reflexivity |]. auto.
    + destruct (py_min_by_first (fun kv => dist2 (snd kv) position) nodes Hne)
        as (i & [k pos] & Hmin & Hi & _).
      rewrite Hmin. exists k. split; [reflexivity |].
      split; [| discriminate].
      apply list_elem_of_lookup_2, list_elem_of_In in Hi.
      change k with (fst (k, pos)).
      apply dict_keys_mem. unfold dict_keys. apply in_map. exact Hi.
Qed.

(** ** Further properties of the adjacency *)

Section AdjacencyFacts.
Import Inv JPSInv.

Variable nodes : NodeTable.
Hypothesis Hwf : wf_table nodes.

(** Membership in an adjacency list, in coordinates. *)
Lemma adjacency_spec (a b : PositionKey) (la : list PositionKey) :
  dict_get (build_adjacency nodes) a = Some la ->
  key_in b la = true
  <-> dict_mem nodes b = true
      /\ exists d, In d [(0, 25); (25, 0); (0, -25); (-25, 0)]
                   /\ b = (fst a + fst d, snd a + snd d).
Proof.
  rewrite adjacency_get. intros Hla.
  destruct (dict_get nodes a) as [pos |] eqn:Hpos; [| discriminate].
  injection Hla as <-. rewrite neighbors_of_spec.
  destruct (wf_position nodes Hwf _ _ Hpos) as [-> ->]. unfold make_key.
  split; intros (Hmem & H); (split; [exact Hmem |]).
  - destruct H as (yaw & d & Hc & Hd & ->). exists d. split; [| reflexivity].
    apply cardinal_direction_listed in Hd. unfold CARDINAL_DIRECTIONS in Hd.
    cbn in Hd. cbn.
    destruct Hd as [H | [H | [H | [H | []]]]]; injection H as _ <-; tauto.
  - destruct H as (d & Hd & ->). cbn in Hd.
    destruct Hd as [<- | [<- | [<- | [<- | []]]]];
      [exists 0 | exists 90 | exists 180 | exists 270];
      eexists; (split; [unfold cardinal; tauto |]);
      (split; [reflexivity | reflexivity]).
Qed.

Lemma adjacency_symmetric (a b : PositionKey) (la : list PositionKey) :
  dict_get (build_adjacency nodes) a = Some la ->
  key_in b la = true ->
  exists lb, dict_get (build_adjacency nodes) b = Some lb
             /\ key_in a lb = true.
Proof.
  intros Hla Hb. pose proof Hla as Ha.
  rewrite adjacency_get in Ha.
  destruct (dict_get nodes a) as [pa |] eqn:Hpa; [| discriminate].
  apply (adjacency_spec a b la Hla) in Hb as (Hmem & d & Hd & ->).
  apply dict_mem_get in Hmem as [pb Hpb].
  exists (neighbors_of nodes pb). split.
  - rewrite adjacency_get, Hpb. reflexivity.
  - apply (adjacency_spec (fst a + fst d, snd a + snd d) a).
    + rewrite adjacency_get, Hpb. reflexivity.
    + split; [apply dict_mem_get; eauto |].
      exists (- fst d, - snd d). cbn [fst snd]. split.
      * cbn in Hd. destruct Hd as [<- | [<- | [<- | [<- | []]]]]; cbn; tauto.
      * destruct a as [x z]. cbn [fst snd]. f_equal; lia.
Qed.

Lemma neighbors_of_length (pos : Position) :
  (length (neighbors_of nodes pos) <= 4)%nat
  /\ NoDup (neighbors_of nodes pos).
Proof.
  unfold neighbors_of, CARDINAL_DIRECTIONS, make_key, STEP_SIZE.
  cbn [omap list_omap].
  repeat match goal with
         | |- context [dict_mem nodes ?k] => destruct (dict_mem nodes k)
         end;
    cbn [length]; (split; [lia |]);
    repeat (apply NoDup_cons; split;
            [rewrite list_elem_of_In; cbn [In]; intros H;
             repeat (destruct H as [H | H]; [injection H; lia |]);
             exact H |]);
    apply NoDup_nil_2.
Qed.

End AdjacencyFacts.

(** X4. The adjacency built from a node table is symmetric: when [b] is
    listed as a neighbour of [a], then [b] has an adjacency list of its own
    and [a] is listed in it. *)
Theorem build_adjacency_symmetric (positions : list Position)
  (a b : PositionKey) (la : list PositionKey) :
  let nodes := build_node_lookup positions in
  dict_get (build_adjacency nodes) a = Some la ->
  key_in b la = true ->
  exists lb, dict_get (build_adjacency nodes) b = Some lb
             /\ key_in a lb = true.
Proof.
  intros nodes.
  exact (adjacency_symmetric nodes (build_node_lookup_wf positions) a b la).
Qed.

Lemma build_adjacency_symmetric_witness :
  exists lb,
    dict_get (build_adjacency Samples.open3) (25, 0) = Some lb
    /\ key_in (0, 0) lb = true.
Proof.
  apply (build_adjacency_symmetric
           (map (fun c => Samples.cell (fst c) (snd c))
                [(0, 0); (0, 1); (0, 2); (1, 0); (1, 1); (1, 2);
                 (2, 0); (2, 1); (2, 2)])
           (0, 0) (25, 0) [(0, 25); (25, 0)]);
    reflexivity.
Defined.

(** X5. The adjacency has an entry for exactly the keys of the table; the
    list of a key holds exactly the keys of the table one grid step away
    along one axis, each once, at most four of them, and never the key
    itself. *)
Theorem build_adjacency_neighbours (positions : list Position)
  (a : PositionKey) :
  let nodes := build_node_lookup positions in
  let adjacency := build_adjacency nodes in
  dict_mem adjacency a = dict_mem nodes a
  /\ forall la, dict_get adjacency a = Some la ->
       (forall b, key_in b la = true
                  <-> dict_mem nodes b = true
                      /\ JPSInv.manhattan a b = STEP_SIZE
                      /\ (fst a = fst b \/ snd a = snd b))
       /\ (length la <= 4)%nat
       /\ NoDup la
       /\ key_in a la = false.
Proof.
  intros nodes adjacency.
  pose proof (build_node_lookup_wf positions) as Hwf. fold nodes in Hwf.
  split.
  - unfold dict_mem, adjacency. rewrite adjacency_get.
    destruct (dict_get nodes a); reflexivity.
  - intros la Hla.
    assert (Hspec : forall b, key_in b la = true
              <-> dict_mem nodes b = true
                  /\ JPSInv.manhattan a b = STEP_SIZE
                  /\ (fst a = fst b \/ snd a = snd b)).
    { intros b. rewrite (adjacency_spec nodes Hwf a b la Hla).
      unfold JPSInv.manhattan, STEP_SIZE.
      split; intros (Hmem & H); (split; [exact Hmem |]).
      - destruct H as (d & Hd & ->). cbn in Hd. cbn [fst snd].
        destruct Hd as [<- | [<- | [<- | [<- | []]]]]; cbn [fst snd]; lia.
      - destruct a as [x z], b as [x' z']. cbn [fst snd] in *.
        destruct H as [Hm [<- | <-]].
        + destruct (Z.abs_spec (z - z')) as [[? Ha] | [? Ha]].
          * exists (0, -25). cbn. split; [tauto | f_equal; lia].
          * exists (0, 25). cbn. split; [tauto | f_equal; lia].
        + destruct (Z.abs_spec (x - x')) as [[? Ha] | [? Ha]].
          * exists (-25, 0). cbn. split; [tauto | f_equal; lia].
          * exists (25, 0). cbn. split; [tauto | f_equal; lia]. }
    split; [exact Hspec |].
    unfold adjacency in Hla. rewrite adjacency_get in Hla.
    destruct (dict_get nodes a) as [pos |]; [| discriminate].
    injection Hla as <-.
    destruct (neighbors_of_length nodes pos) as [Hlen Hnd].
    split; [exact Hlen |]. split; [exact Hnd |].
    destruct (key_in a (neighbors_of nodes pos)) eqn:Hin; [| reflexivity].
    apply Hspec in Hin as (_ & Hm & _).
    unfold JPSInv.manhattan, STEP_SIZE in Hm. lia.
Qed.


(** ** Further properties of the rotation decomposer *)

Lemma py_round_bounds (q : Q) : Qfloor q <= py_round q <= Qfloor q + 1.
Proof.
  unfold py_round. destruct (Qcompare _ _); [destruct (Z.even _) | |]; lia.
Qed.

Lemma py_round_comp (a b : Q) : (a == b)%Q -> py_round a = py_round b.
Proof.
  intros Hx. unfold py_round. cbv zeta.
  assert (Hf : Qfloor a = Qfloor b) by apply Qfloor_comp, Hx.
  assert (Hc : (a - inject_Z (Qfloor a) ?= 1 # 2)%Q
               = (b - inject_Z (Qfloor b) ?= 1 # 2)%Q).
  { rewrite Hf. apply Qcompare_comp; [| reflexivity].
    rewrite Hx. reflexivity. }
  rewrite Hc, Hf. reflexivity.
Qed.

Lemma quarter_turns_bound (n : Z) :
  0 <= n < 180 -> py_round (inject_Z n / 90) <= 2.
Proof.
  intros Hn. pose proof (py_round_bounds (inject_Z n / 90)) as [_ Hr].
  assert (Hf : Qfloor (inject_Z n / 90) = n / 90).
  { unfold Qfloor, Qdiv, Qmult, Qinv, inject_Z. cbn.
    rewrite Z.mul_1_r. reflexivity. }
  rewrite Hf in Hr.
  assert (n / 90 < 2) by (apply Z.div_lt_upper_bound; lia). lia.
Qed.

Lemma py_repeat_length (a : Action) (n : Z) :
  n <= 2 -> (length (py_repeat a n) <= 2)%nat.
Proof. intros Hn. unfold py_repeat. rewrite repeat_length. lia. Qed.

Lemma rotation_actions_bound (current_yaw target_yaw : Z) :
  let turns := _rotation_actions current_yaw target_yaw in
  (length turns <= 2)%nat
  /\ (turns = repeat RotateRight (length turns)
      \/ turns = repeat RotateLeft (length turns)).
Proof.
  intros turns. unfold turns, _rotation_actions.
  set (diff := (target_yaw - current_yaw) mod 360).
  assert (Hd : 0 <= diff < 360) by (apply Z.mod_pos_bound; lia).
  clearbody diff.
  destruct (diff =? 0); [cbn; auto |].
  destruct (diff =? 90); [cbn; auto |].
  destruct (Z.eqb_spec diff 180) as [| H180]; [cbn; auto |].
  destruct (diff =? 270); [cbn; auto |].
  destruct (Z.ltb_spec diff 180) as [Hlt | Hge].
  - split.
    + apply py_repeat_length, quarter_turns_bound. lia.
    + left. unfold py_repeat. rewrite repeat_length. reflexivity.
  - split.
    + apply py_repeat_length.
      assert (He : (360 - inject_Z diff == inject_Z (360 - diff))%Q).
      { unfold Qeq, Qminus, Qplus, Qopp, inject_Z. cbn. lia. }
      assert (Hq : py_round ((360 - inject_Z diff) / 90)
                   = py_round (inject_Z (360 - diff) / 90)).
      { apply py_round_comp. rewrite He. reflexivity. }
      rewrite Hq. apply quarter_turns_bound. lia.
    + right. unfold py_repeat. rewrite repeat_length. reflexivity.
Qed.

(** X7. For any two integer headings, cardinal or not,
    [_rotation_actions] returns at most two actions, all of them
    RotateRight or all of them RotateLeft. *)
Theorem rotation_actions_at_most_two (current_yaw target_yaw : Z) :
  let turns := _rotation_actions current_yaw target_yaw in
  (length turns <= 2)%nat
  /\ (turns = repeat RotateRight (length turns)
      \/ turns = repeat RotateLeft (length turns)).
Proof. exact (rotation_actions_bound current_yaw target_yaw). Qed.

(** X8. Between cardinal headings the actions of [_rotation_actions],
    executed in order (RotateRight adds 90 to the heading, RotateLeft takes
    90 off, modulo 360), turn the current heading into the target heading
    and leave the position where it is; two actions are used only for the
    opposite heading. *)
Theorem rotation_actions_reach_target (nodes : NodeTable)
  (adjacency : Adjacency) (p : PositionKey) (current_yaw target_yaw : Z) :
  cardinal current_yaw -> cardinal target_yaw ->
  Plan.run nodes adjacency (p, current_yaw)
    (_rotation_actions current_yaw target_yaw)
  = Some (p, target_yaw)
  /\ (length (_rotation_actions current_yaw target_yaw) = 2%nat ->
      target_yaw = (current_yaw + 180) mod 360).
Proof.
  intros Hc Ht. split.
  - destruct Hc as [-> | [-> | [-> | ->]]], Ht as [-> | [-> | [-> | ->]]];
      reflexivity.
  - destruct Hc as [-> | [-> | [-> | ->]]], Ht as [-> | [-> | [-> | ->]]];
      cbn; intros H; try reflexivity; discriminate.
Qed.

Lemma rotation_actions_reach_target_witness :
  Plan.run Samples.open3 (build_adjacency Samples.open3) ((0, 0), 270)
    (_rotation_actions 270 0)
  = Some ((0, 0), 0)
  /\ (length (_rotation_actions 270 0) = 2%nat -> 0 = (270 + 180) mod 360).
Proof.
  apply (rotation_actions_reach_target Samples.open3
           (build_adjacency Samples.open3) (0, 0) 270 0);
    unfold cardinal; auto.
Defined.

(** ** Further properties of the jump point search *)

Section JumpFacts.
Import JPS JPSInv Inv Stride.

Variable nodes : NodeTable.
Hypothesis Hwf : wf_table nodes.
Variable goal_key : PositionKey.

Lemma hop_succ (c : PositionKey) (d : Z * Z) (i : Z) :
  hop (hop c d 1) d i = hop c d (i + 1).
Proof. unfold hop. cbn [fst snd]. f_equal; lia. Qed.

Lemma jump_unfold (fuel : nat) (c : PositionKey) (d : Z * Z)
  (node : Position) :
  dict_get nodes c = Some node ->
  _jump (S fuel) nodes c d goal_key
  = if negb (dict_mem nodes (hop c d 1)) then Ok None
    else if key_eqb (hop c d 1) goal_key then Ok (Some (hop c d 1))
    else
      forced ← _forced_neighbor_exists nodes (hop c d 1) d;
      if forced : bool then Ok (Some (hop c d 1))
      else _jump fuel nodes (hop c d 1) d goal_key.
Proof.
  intros Hnode. cbn [_jump]. rewrite Hnode, getitem_Some, rbind_Ok.
  destruct (wf_position nodes Hwf _ _ Hnode) as [-> ->].
  unfold make_key, hop. rewrite !Z.mul_1_l. reflexivity.
Qed.

Lemma jump_found (fuel : nat) :
  forall (c : PositionKey) (d : Z * Z) (jk : PositionKey),
    _jump fuel nodes c d goal_key = Ok (Some jk) ->
    exists t, 1 <= t
      /\ jk = hop c d t
      /\ (forall i, 1 <= i <= t -> dict_mem nodes (hop c d i) = true)
      /\ (forall i, 1 <= i < t ->
            hop c d i <> goal_key
            /\ _forced_neighbor_exists nodes (hop c d i) d = Ok false)
      /\ (jk = goal_key \/ _forced_neighbor_exists nodes jk d = Ok true).
Proof.
  induction fuel as [| fuel IH]; intros c d jk H; [discriminate |].
  destruct (dict_get nodes c) as [node |] eqn:Hnode;
    [| cbn [_jump] in H; rewrite Hnode in H; discriminate].
  rewrite (jump_unfold fuel c d node Hnode) in H.
  destruct (dict_mem nodes (hop c d 1)) eqn:Hmem; cbn [negb] in H;
    [| discriminate].
  assert (Hone : forall i, 1 <= i <= 1 -> dict_mem nodes (hop c d i) = true)
    by (intros i Hi; replace i with 1 by lia; exact Hmem).
  destruct (key_eqb (hop c d 1) goal_key) eqn:Hgoal.
  - injection H as <-. apply key_eqb_eq in Hgoal.
    exists 1. split; [lia |]. split; [reflexivity |].
    split; [exact Hone |]. split; [intros i Hi; lia | left; exact Hgoal].
  - apply key_eqb_neq in Hgoal.
    destruct (_forced_neighbor_exists nodes (hop c d 1) d)
      as [forced | e |] eqn:Hforced; [| discriminate | discriminate].
    rewrite rbind_Ok in H. destruct forced.
    + injection H as <-. exists 1. split; [lia |]. split; [reflexivity |].
      split; [exact Hone |]. split; [intros i Hi; lia | right; exact Hforced].
    + apply IH in H as (t & Ht & -> & Hin & Hmid & Hend).
      exists (t + 1). split; [lia |]. split; [apply hop_succ |].
      split; [| split].
      * intros i Hi. destruct (Z.eq_dec i 1) as [-> | Hne]; [exact Hmem |].
        pose proof (Hin (i - 1) ltac:(lia)) as Hi'. rewrite hop_succ in Hi'.
        replace (i - 1 + 1) with i in Hi' by lia. exact Hi'.
      * intros i Hi. destruct (Z.eq_dec i 1) as [-> | Hne]; [auto |].
        pose proof (Hmid (i - 1) ltac:(lia)) as Hi'. rewrite hop_succ in Hi'.
        replace (i - 1 + 1) with i in Hi' by lia. exact Hi'.
      * exact Hend.
Qed.

Lemma jump_nothing (fuel : nat) :
  forall (c : PositionKey) (d : Z * Z),
    _jump fuel nodes c d goal_key = Ok None ->
    exists t, 1 <= t
      /\ dict_mem nodes (hop c d t) = false
      /\ (forall i, 1 <= i < t ->
            dict_mem nodes (hop c d i) = true
            /\ hop c d i <> goal_key
            /\ _forced_neighbor_exists nodes (hop c d i) d = Ok false).
Proof.
  induction fuel as [| fuel IH]; intros c d H; [discriminate |].
  destruct (dict_get nodes c) as [node |] eqn:Hnode;
    [| cbn [_jump] in H; rewrite Hnode in H; discriminate].
  rewrite (jump_unfold fuel c d node Hnode) in H.
  destruct (dict_mem nodes (hop c d 1)) eqn:Hmem; cbn [negb] in H.
  - destruct (key_eqb (hop c d 1) goal_key) eqn:Hgoal; [discriminate |].
    apply key_eqb_neq in Hgoal.
    destruct (_forced_neighbor_exists nodes (hop c d 1) d)
      as [forced | e |] eqn:Hforced; [| discriminate | discriminate].
    rewrite rbind_Ok in H. destruct forced; [discriminate |].
    apply IH in H as (t & Ht & Hout & Hmid).
    exists (t + 1). split; [lia |]. split; [rewrite <- hop_succ; exact Hout |].
    intros i Hi. destruct (Z.eq_dec i 1) as [-> | Hne]; [auto |].
    pose proof (Hmid (i - 1) ltac:(lia)) as Hi'. rewrite hop_succ in Hi'.
    replace (i - 1 + 1) with i in Hi' by lia. exact Hi'.
  - exists 1. split; [lia |]. split; [exact Hmem |]. intros i Hi. lia.
Qed.

Lemma forced_neighbor_answers (k : PositionKey) (d : Z * Z) :
  dict_mem nodes k = true ->
  exists b, _forced_neighbor_exists nodes k d = Ok b.
Proof.
  intros Hmem. apply dict_mem_get in Hmem as [node Hnode].
  unfold _forced_neighbor_exists. destruct d as [dx dz].
  rewrite Hnode, getitem_Some, rbind_Ok.
  repeat match goal with
         | |- context [if ?b then Ok _ else _] => destruct b
         end; eauto.
Qed.

Lemma jump_never_raises (fuel : nat) :
  forall (c : PositionKey) (d : Z * Z) (e : Exn),
    dict_mem nodes c = true ->
    _jump fuel nodes c d goal_key <> Raise e.
Proof.
  induction fuel as [| fuel IH]; intros c d e Hc; [discriminate |].
  apply dict_mem_get in Hc as [node Hnode].
  rewrite (jump_unfold fuel c d node Hnode).
  destruct (dict_mem nodes (hop c d 1)) eqn:Hmem; cbn [negb];
    [| discriminate].
  destruct (key_eqb (hop c d 1) goal_key); [discriminate |].
  destruct (forced_neighbor_answers (hop c d 1) d Hmem) as [b ->].
  rewrite rbind_Ok. destruct b; [discriminate |]. apply IH. exact Hmem.
Qed.

End JumpFacts.

(** X9. What [_jump] returns.  A key it returns lies a whole number t >= 1
    of strides from the current key; every stride point up to it is a node
    of the table; none before it is the goal or has a forced neighbour;
    and it is the goal or has a forced neighbour itself.  When [_jump]
    returns None, some stride point is not in the table and every stride
    point before it is a node that is neither the goal nor has a forced
    neighbour.  From a key of the table, in a direction other than (0, 0),
    it returns one or the other. *)
Theorem jump_stops_at_first_jump_point (positions : list Position)
  (current : PositionKey) (direction : Z * Z) (goal : PositionKey) :
  let nodes := build_node_lookup positions in
  (forall fuel jk,
      JPS._jump fuel nodes current direction goal = Ok (Some jk) ->
      exists t, 1 <= t
        /\ jk = Stride.hop current direction t
        /\ (forall i, 1 <= i <= t ->
              dict_mem nodes (Stride.hop current direction i) = true)
        /\ (forall i, 1 <= i < t ->
              Stride.hop current direction i <> goal
              /\ JPS._forced_neighbor_exists nodes
                   (Stride.hop current direction i) direction = Ok false)
        /\ (jk = goal
            \/ JPS._forced_neighbor_exists nodes jk direction = Ok true))
  /\ (forall fuel,
         JPS._jump fuel nodes current direction goal = Ok None ->
         exists t, 1 <= t
           /\ dict_mem nodes (Stride.hop current direction t) = false
           /\ (forall i, 1 <= i < t ->
                 dict_mem nodes (Stride.hop current direction i) = true
                 /\ Stride.hop current direction i <> goal
                 /\ JPS._forced_neighbor_exists nodes
                      (Stride.hop current direction i) direction = Ok false))
  /\ (dict_mem nodes current = true -> direction <> (0, 0) ->
      exists r,
        JPS._jump (S (length nodes)) nodes current direction goal = Ok r).
Proof.
  intros nodes.
  pose proof (build_node_lookup_wf positions) as Hwf. fold nodes in Hwf.
  split; [| split].
  - intros fuel jk. apply (jump_found nodes Hwf).
  - intros fuel. apply (jump_nothing nodes Hwf).
  - intros Hc Hd.
    destruct (JPS._jump (S (length nodes)) nodes current direction goal)
      as [r | e |] eqn:Hj; [eauto | |].
    + exfalso. exact (jump_never_raises nodes Hwf goal _ _ _ e Hc Hj).
    + exfalso. revert Hj. apply (jump_answers nodes Hwf); [exact Hd |].
      unfold JPSInv.ahead. apply Nat.lt_succ_r, filter_length_le.
Qed.

Section PruningFacts.
Import JPS JPSInv Inv Stride.

Variable nodes : NodeTable.
Hypothesis Hwf : wf_table nodes.

Lemma pruned_start_directions (c : PositionKey) (dirs : list (Z * Z)) :
  _pruned_directions nodes c None = Ok dirs ->
  forall d, In d dirs <-> unit_dir d /\ dict_mem nodes (hop c d 1) = true.
Proof.
  intros Hdirs d. unfold _pruned_directions in Hdirs.
  apply rbind_ok in Hdirs as (node & Hnode & Hdirs). apply getitem_ok in Hnode.
  destruct (wf_position nodes Hwf _ _ Hnode) as [Hx Hz].
  rewrite Hx, Hz in Hdirs. injection Hdirs as <-.
  unfold CARDINAL_DIRECTIONS, make_key, STEP_SIZE. cbn [omap list_omap].
  change (round_steps 25) with 1. change (round_steps 0) with 0.
  change (round_steps (-25)) with (-1).
  unfold unit_dir, hop, STEP_SIZE.
  split.
  - intros Hin.
    repeat match type of Hin with
           | context [dict_mem nodes ?k] =>
             let E := fresh "E" in destruct (dict_mem nodes k) eqn:E
           end;
      cbn [In] in Hin;
      repeat (destruct Hin as [<- | Hin];
              [split; [tauto |]; cbn [fst snd];
               repeat match goal with
                      | E : dict_mem nodes _ = true |- _ =>
                        first [ solve [rewrite <- E; f_equal; f_equal; lia]
                              | clear E ]
                      end |]);
      destruct Hin.
  - intros [[-> | [-> | [-> | ->]]] Hmem]; cbn [fst snd] in Hmem;
      repeat match goal with
             | |- context [dict_mem nodes ?k] =>
               let E := fresh "E" in destruct (dict_mem nodes k) eqn:E
             end;
      try (cbn [In]; tauto);
      exfalso;
      repeat match goal with
             | E : dict_mem nodes ?k = false |- _ =>
               first [ solve [assert (dict_mem nodes k = true)
                                by (rewrite <- Hmem; f_equal; f_equal; lia);
                              congruence]
                     | clear E ]
             end.
Qed.

Lemma pruned_side_blocked (c p : PositionKey) (dirs : list (Z * Z))
  (d : Z * Z) (fuel : nat) (goal_key jk : PositionKey) :
  _pruned_directions nodes c (Some p) = Ok dirs ->
  In d dirs ->
  _jump fuel nodes c d goal_key = Ok (Some jk) ->
  d = (round_steps (fst c - fst p), 0)
  \/ d = (0, round_steps (snd c - snd p)).
Proof.
  intros Hdirs Hin Hjump. unfold _pruned_directions in Hdirs.
  apply rbind_ok in Hdirs as (node & Hnode & Hdirs).
  apply rbind_ok in Hdirs as (pnode & Hpnode & Hdirs).
  apply getitem_ok in Hnode, Hpnode.
  destruct (wf_position nodes Hwf _ _ Hnode) as [Hx Hz].
  destruct (wf_position nodes Hwf _ _ Hpnode) as [Hpx Hpz].
  rewrite Hx, Hz, Hpx, Hpz in Hdirs. rewrite !abs_gt_eps_spec in Hdirs.
  assert (Hr : forall v, (if negb (v =? 0) then round_steps v else 0)
                         = round_steps v).
  { intros v. destruct (Z.eqb_spec v 0) as [-> | _]; reflexivity. }
  rewrite !Hr in Hdirs.
  unfold _is_walkable, make_key in Hdirs.
  assert (Hno : forall e, d = e ->
                  dict_mem nodes (fst c + fst e * STEP_SIZE,
                                  snd c + snd e * STEP_SIZE) = false ->
                  False).
  { intros e -> Hb. exact (jump_blocked nodes Hwf goal_key fuel c e jk Hb Hjump). }
  destruct (negb (round_steps (fst c - fst p) =? 0));
    [| destruct (negb (round_steps (snd c - snd p) =? 0))];
    injection Hdirs as <-.
  3: destruct Hin.
  all: repeat (apply in_app_or in Hin as [Hin | Hin]);
       repeat match type of Hin with
              | In _ (if ?b then _ else _) =>
                let E := fresh "E" in destruct b eqn:E
              end;
       try destruct Hin as [<- | []]; try destruct Hin; auto.
  all: exfalso; apply andb_true_iff in E as [E _]; apply negb_true_iff in E.
  all: eapply Hno; [reflexivity |]; cbn [fst snd];
       rewrite <- E; f_equal; f_equal; unfold STEP_SIZE; lia.
Qed.

End PruningFacts.

(** X10. The directions [_pruned_directions] lists.  Without a parent they
    are the unit directions whose neighbouring cell is a node.  With a
    parent, a jump from the current key can find a key only in the first
    listed direction, the offset from the parent rounded to grid steps
    along x (or along z when that is zero): each perpendicular direction
    is listed only when the cell next to the current key in that direction
    is not a node, so the jump in it returns None. *)
Theorem pruned_directions_only_straight_jumps (positions : list Position)
  (current : PositionKey) :
  let nodes := build_node_lookup positions in
  (forall dirs,
      JPS._pruned_directions nodes current None = Ok dirs ->
      forall d, In d dirs
                <-> JPSInv.unit_dir d
                    /\ dict_mem nodes (Stride.hop current d 1) = true)
  /\ (forall parent dirs d fuel goal jk,
         JPS._pruned_directions nodes current (Some parent) = Ok dirs ->
         In d dirs ->
         JPS._jump fuel nodes current d goal = Ok (Some jk) ->
         d = (JPS.round_steps (fst current - fst parent), 0)
         \/ d = (0, JPS.round_steps (snd current - snd parent))).
Proof.
  intros nodes.
  pose proof (build_node_lookup_wf positions) as Hwf. fold nodes in Hwf.
  split.
  - intros dirs. apply (pruned_start_directions nodes Hwf).
  - intros parent dirs d fuel goal jk.
    apply (pruned_side_blocked nodes Hwf).
Qed.


Section LegFacts.
Import JPS JPSInv Inv Stride Plan.

Variable nodes : NodeTable.
Hypothesis Hwf : wf_table nodes.

Lemma ray_zero (k : PositionKey) (u : Z * Z) : ray k u 0 = k.
Proof. destruct k as [x z]. unfold ray. cbn [fst snd]. f_equal; lia. Qed.

(** One leg of a path: the turn towards it and its MoveAhead steps. *)
Lemma leg_actions (k : PositionKey) (u : Z * Z) (n : Z)
  (rest : list PositionKey) (yaw : Z) (acc : list Action) :
  unit_dir u -> 1 <= n ->
  dict_mem nodes k = true -> dict_mem nodes (ray k u n) = true ->
  path_to_actions_loop nodes (k :: ray k u n :: rest) yaw acc
  = path_to_actions_loop nodes (ray k u n :: rest) (facing u)
      (acc ++ _rotation_actions yaw (facing u) ++ py_repeat MoveAhead n).
Proof.
  intros Hu Hn Hk Hnext. cbn [path_to_actions_loop].
  apply dict_mem_get in Hk as [pk Hpk]. apply dict_mem_get in Hnext as [pn Hpn].
  rewrite Hpk, Hpn, !getitem_Some, !rbind_Ok.
  destruct (wf_position nodes Hwf _ _ Hpk) as [-> ->].
  destruct (wf_position nodes Hwf _ _ Hpn) as [-> ->].
  rewrite !abs_gt_eps_spec.
  assert (Hdx : fst (ray k u n) - fst k = STEP_SIZE * (n * fst u))
    by (unfold ray; cbn [fst snd]; lia).
  assert (Hdz : snd (ray k u n) - snd k = STEP_SIZE * (n * snd u))
    by (unfold ray; cbn [fst snd]; lia).
  rewrite Hdx, Hdz.
  destruct Hu as [-> | [-> | [-> | ->]]]; cbn [fst snd];
    rewrite ?Z.mul_0_r, ?Z.mul_1_r; cbn [Z.eqb negb andb].
  - replace (0 <? STEP_SIZE * n) with true
      by (symmetry; apply Z.ltb_lt; unfold STEP_SIZE; lia).
    rewrite Z.abs_eq by (unfold STEP_SIZE; lia).
    rewrite round_steps_mul. reflexivity.
  - replace (STEP_SIZE * n =? 0) with false
      by (symmetry; apply Z.eqb_neq; unfold STEP_SIZE; lia).
    cbn [negb andb].
    replace (0 <? STEP_SIZE * n) with true
      by (symmetry; apply Z.ltb_lt; unfold STEP_SIZE; lia).
    rewrite Z.abs_eq by (unfold STEP_SIZE; lia).
    rewrite round_steps_mul. reflexivity.
  - replace (0 <? STEP_SIZE * (n * -1)) with false
      by (symmetry; apply Z.ltb_ge; unfold STEP_SIZE; lia).
    replace (Z.abs (STEP_SIZE * (n * -1))) with (STEP_SIZE * n)
      by (unfold STEP_SIZE; lia).
    rewrite round_steps_mul. reflexivity.
  - replace (STEP_SIZE * (n * -1) =? 0) with false
      by (symmetry; apply Z.eqb_neq; unfold STEP_SIZE; lia).
    cbn [negb andb].
    replace (0 <? STEP_SIZE * (n * -1)) with false
      by (symmetry; apply Z.ltb_ge; unfold STEP_SIZE; lia).
    replace (Z.abs (STEP_SIZE * (n * -1))) with (STEP_SIZE * n)
      by (unfold STEP_SIZE; lia).
    rewrite round_steps_mul. reflexivity.
Qed.

Lemma legs_first_in_table (path : list PositionKey) :
  walkable_legs nodes path ->
  exists k tl, path = k :: tl /\ dict_mem nodes k = true.
Proof.
  intros [k Hk | k u n rest Hu Hn Hcells _]; [eauto |].
  exists k, (ray k u n :: rest). split; [reflexivity |].
  rewrite <- (ray_zero k u). apply Hcells. lia.
Qed.

Lemma legs_actions (path : list PositionKey) :
  walkable_legs nodes path ->
  forall (yaw : Z) (acc : list Action),
    cardinal yaw ->
    exists plan yaw',
      path_to_actions_loop nodes path yaw acc = Ok (acc ++ plan)
      /\ (forall first rest, path = first :: rest ->
            run nodes (build_adjacency nodes) (first, yaw) plan
            = Some (List.last rest first, yaw'))
      /\ cardinal yaw'
      /\ STEP_SIZE * moves plan
         = fold_right Z.add 0
             (map (fun pq => manhattan (fst pq) (snd pq))
                  (zip path (tl path))).
Proof.
  induction 1 as [k Hk | k u n rest Hu Hn Hcells Hrest IH];
    intros yaw acc Hyaw.
  - exists [], yaw. cbn. rewrite app_nil_r.
    split; [reflexivity |]. split; [| auto].
    intros first rest [= <- <-]. reflexivity.
  - destruct (facing_direction u Hu) as [Hfc _].
    assert (Hk : dict_mem nodes k = true)
      by (rewrite <- (ray_zero k u); apply Hcells; lia).
    assert (Hnext : dict_mem nodes (ray k u n) = true)
      by (apply Hcells; lia).
    rewrite (leg_actions k u n rest yaw acc Hu Hn Hk Hnext).
    destruct (IH (facing u)
                (acc ++ _rotation_actions yaw (facing u)
                     ++ py_repeat MoveAhead n) Hfc)
      as (plan & yaw' & Hloop & Hrun & Hyaw' & Hmoves).
    exists (_rotation_actions yaw (facing u) ++ py_repeat MoveAhead n ++ plan),
           yaw'.
    split; [rewrite Hloop, <- !app_assoc; reflexivity |].
    split; [| split; [exact Hyaw' |]].
    + intros first rest' [= <- <-]. rewrite last_cons.
      specialize (Hrun _ _ eq_refl).
      pose proof (turn_to nodes k yaw (facing u) Hyaw Hfc) as Hturn.
      pose proof (run_straight nodes Hwf k u (Z.to_nat n) Hu 0) as Hs.
      rewrite ray_zero in Hs.
      replace (0 + Z.of_nat (Z.to_nat n)) with n in Hs by lia.
      specialize (Hs ltac:(intros t Ht; apply Hcells; lia)).
      rewrite run_app, Hturn. cbn [mbind option_bind].
      rewrite run_app. unfold py_repeat. rewrite Hs.
      cbn [mbind option_bind]. exact Hrun.
    + rewrite !moves_app, moves_rotation, moves_repeat_move by lia.
      cbn [tl zip zip_with map fold_right fst snd] in *.
      assert (Hm : manhattan k (ray k u n) = STEP_SIZE * n).
      { unfold manhattan, ray, STEP_SIZE.
        destruct Hu as [-> | [-> | [-> | ->]]]; cbn [fst snd]; lia. }
      rewrite Hm, <- Hmoves. unfold STEP_SIZE. lia.
Qed.

End LegFacts.



Section JPSErrors.
Import JPS JPSInv Inv Stride.

Variable nodes : NodeTable.
Hypothesis Hwf : wf_table nodes.
Variable start_key goal_key : PositionKey.
Hypothesis Hgoal_in : dict_mem nodes goal_key = true.

Abbreviation jinv := (jps_inv start_key).
Abbreviation jkeys := (jps_keys nodes start_key).

Lemma heuristic_answers (k : PositionKey) :
  dict_mem nodes k = true ->
  exists h, heuristic nodes goal_key k = Ok h.
Proof.
  intros Hk. apply dict_mem_get in Hk as [pk Hpk].
  apply dict_mem_get in Hgoal_in as [pg Hpg].
  unfold heuristic. rewrite Hpk, Hpg. cbn. eauto.
Qed.

Lemma movement_cost_answers (a b : PositionKey) :
  dict_mem nodes a = true -> dict_mem nodes b = true ->
  exists c, movement_cost nodes a b = Ok c.
Proof.
  intros Ha Hb. apply dict_mem_get in Ha as [pa Hpa].
  apply dict_mem_get in Hb as [pb Hpb].
  unfold movement_cost. rewrite Hpa, Hpb. cbn. eauto.
Qed.

Lemma try_direction_keys (st : Search) (current : PositionKey)
  (current_g : Q) (d : Z * Z) :
  jkeys st ->
  dict_mem nodes current = true ->
  (current = start_key \/ is_Some (parents st !! current)) ->
  (forall e, try_direction nodes goal_key current current_g st d <> Raise e)
  /\ forall st',
       try_direction nodes goal_key current current_g st d = Ok st' ->
       jkeys st'
       /\ forall k, is_Some (parents st !! k) -> is_Some (parents st' !! k).
Proof.
  intros Hkeys Hcur Hpar. unfold try_direction.
  destruct (_jump (S (length nodes)) nodes current d goal_key)
    as [[jk |] | e |] eqn:Hjump.
  - rewrite rbind_Ok.
    assert (Hjk : dict_mem nodes jk = true)
      by (eapply jump_in_table; exact Hjump).
    destruct (movement_cost_answers current jk Hcur Hjk) as [cost ->].
    rewrite rbind_Ok. destruct (not_better st _ jk).
    + split; [discriminate |]. intros st' [= <-]. auto.
    + destruct (heuristic_answers jk Hjk) as [h ->]. rewrite rbind_Ok.
      split; [discriminate |]. intros st' [= <-].
      assert (Hmono : forall k, is_Some (parents st !! k) ->
                is_Some (<[jk := current]> (parents st) !! k)).
      { intros k Hk. destruct (decide (jk = k)) as [<- | Hne].
        - rewrite lookup_insert_eq. eauto.
        - rewrite lookup_insert_ne by exact Hne. exact Hk. }
      split; [| exact Hmono].
      constructor; cbn.
      * intros e [<- | He]; [exact Hjk | apply (jk_heap _ _ _ Hkeys e He)].
      * intros k p. destruct (decide (jk = k)) as [<- | Hne].
        -- rewrite lookup_insert_eq. intros [= <-].
           split; [exact Hjk |]. split; [exact Hcur |].
           destruct Hpar as [-> | Hp]; [left; reflexivity | right; auto].
        -- rewrite lookup_insert_ne by exact Hne. intros Hk.
           destruct (jk_parents _ _ _ Hkeys k p Hk) as (H1 & H2 & H3).
           split; [exact H1 |]. split; [exact H2 |].
           destruct H3 as [-> | H3]; [left; reflexivity | right; auto].
  - rewrite rbind_Ok. split; [discriminate |]. intros st' [= <-]. auto.
  - exfalso. exact (jump_never_raises nodes Hwf goal_key _ _ _ e Hcur Hjump).
  - split; [discriminate | intros st' H; discriminate].
Qed.

Lemma for_directions_keys (current : PositionKey) (current_g : Q)
  (dirs : list (Z * Z)) :
  forall st : Search,
    jkeys st ->
    dict_mem nodes current = true ->
    (current = start_key \/ is_Some (parents st !! current)) ->
    (forall e,
        for_directions nodes goal_key current current_g st dirs <> Raise e)
    /\ forall st',
         for_directions nodes goal_key current current_g st dirs = Ok st' ->
         jkeys st'.
Proof.
  induction dirs as [| d dirs IH]; intros st Hkeys Hcur Hpar.
  - cbn. split; [discriminate |]. intros st' [= <-]. exact Hkeys.
  - cbn [for_directions].
    destruct (try_direction_keys st current current_g d Hkeys Hcur Hpar)
      as [Hne Hok].
    destruct (try_direction nodes goal_key current current_g st d)
      as [st1 | e |] eqn:Htry.
    + rewrite rbind_Ok. destruct (Hok st1 eq_refl) as [Hkeys1 Hmono].
      apply IH; [exact Hkeys1 | exact Hcur |].
      destruct Hpar as [-> | Hp]; [left; reflexivity | right; auto].
    + exfalso. exact (Hne e eq_refl).
    + split; [discriminate | intros st' H; discriminate].
Qed.

Lemma reconstruct_never_raises (parents : gmap PositionKey PositionKey)
  (fuel : nat) :
  (forall k p, parents !! k = Some p ->
               p = start_key \/ is_Some (parents !! p)) ->
  forall (cur : PositionKey) (acc : list PositionKey) (e : Exn),
    (cur = start_key \/ is_Some (parents !! cur)) ->
    reconstruct_loop fuel parents start_key cur acc <> Raise e.
Proof.
  intros Hpar.
  induction fuel as [| fuel IH]; intros cur acc e Hcur;
    cbn [reconstruct_loop]; destruct (key_eqb cur start_key) eqn:Heq;
    try discriminate.
  apply key_eqb_neq in Heq. destruct Hcur as [-> | [p Hp]]; [congruence |].
  rewrite Hp, getitem_Some, rbind_Ok. apply IH. eauto.
Qed.

Lemma chain_never_raises (parents : gmap PositionKey PositionKey) :
  (forall k p, parents !! k = Some p ->
               parent_ok start_key k p
               /\ dict_mem nodes k = true /\ dict_mem nodes p = true) ->
  forall (path : list PositionKey) (first : PositionKey) (yaw : Z)
         (acc : list Action) (e : Exn),
    chain parents (first :: path) ->
    path_to_actions_loop nodes (first :: path) yaw acc <> Raise e.
Proof.
  intros Hpar.
  induction path as [| k path IH]; intros first yaw acc e Hchain;
    [discriminate |].
  destruct Hchain as [Hk Hchain].
  destruct (Hpar k first Hk) as ((u & a & b & Hu & Hab & Hka & Hfb) & Hkin & Hfin).
  assert (Hleg : k = ray first u (a - b)).
  { subst k first. unfold ray. cbn [fst snd]. f_equal; lia. }
  rewrite Hleg in Hkin |- *.
  rewrite (leg_actions nodes Hwf first u (a - b) path yaw acc Hu
             ltac:(lia) Hfin Hkin).
  apply IH. rewrite <- Hleg. exact Hchain.
Qed.

Lemma jps_loop_only_no_path (start_yaw : Z) (fuel : nat) :
  forall (st : Search) (e : Exn),
    jinv st -> jkeys st ->
    jps_loop nodes start_key start_yaw goal_key fuel st = Raise e ->
    e = RuntimeError msg_jps_no_path.
Proof.
  induction fuel as [| fuel IH]; intros st e Hinv Hkeys H; [discriminate |].
  cbn [jps_loop] in H.
  destruct (AStar.heappop entry_ltb (open_heap st)) as [[m rest] |] eqn:Hpop;
    [| congruence].
  apply heappop_In in Hpop as [Hm Hrest].
  assert (Hinv' : forall cl, jinv (mkSearch rest (parents st) (g_score st)
                                            cl (counter st))).
  { intros cl. constructor; cbn.
    - apply (jinv_parents _ _ Hinv).
    - intros x Hx. apply (jinv_heap _ _ Hinv). auto. }
  assert (Hkeys' : forall cl, jkeys (mkSearch rest (parents st) (g_score st)
                                              cl (counter st))).
  { intros cl. constructor; cbn.
    - intros x Hx. apply (jk_heap _ _ _ Hkeys). auto.
    - apply (jk_parents _ _ _ Hkeys). }
  destruct (decide (e_key m ∈ closed st)) as [Hclosed | Hopen].
  - eapply IH; [| | exact H]; auto.
  - destruct (key_eqb (e_key m) goal_key) eqn:Hgoal.
    + exfalso. cbn [parents] in H.
      destruct (_reconstruct_path (parents st) start_key goal_key)
        as [path | e' |] eqn:Hpath.
      * rewrite rbind_Ok in H. unfold _reconstruct_path in Hpath.
        eapply (reconstruct_chain start_key (parents st) _ goal_key
                  [goal_key] path []) in Hpath; [| reflexivity | exact I].
        destruct Hpath as (tail & -> & Hchain & _).
        revert H. apply (chain_never_raises (parents st)); [| exact Hchain].
        intros k p Hk. split; [apply (jinv_parents _ _ Hinv _ _ Hk) |].
        destruct (jk_parents _ _ _ Hkeys k p Hk) as (H1 & H2 & _). auto.
      * revert Hpath. unfold _reconstruct_path.
        apply reconstruct_never_raises.
        -- intros k p Hk. apply (jk_parents _ _ _ Hkeys k p Hk).
        -- apply key_eqb_eq in Hgoal. rewrite <- Hgoal.
           apply (jinv_heap _ _ Hinv m Hm).
      * discriminate.
    + cbn [parents] in H.
      pose proof (jk_heap _ _ _ Hkeys m Hm) as Hcur.
      destruct (_pruned_directions nodes (e_key m) (parents st !! e_key m))
        as [dirs | e' |] eqn:Hdirs.
      * rewrite rbind_Ok in H.
        set (st' := mkSearch rest (parents st) (g_score st)
                             ({[e_key m]} ∪ closed st) (counter st)) in *.
        destruct (for_directions_keys (e_key m) (e_g m) dirs st'
                    (Hkeys' _) Hcur (jinv_heap _ _ Hinv m Hm)) as [Hne Hok].
        destruct (for_directions nodes goal_key (e_key m) (e_g m) st' dirs)
          as [st'' | e' |] eqn:Hfor.
        -- rewrite rbind_Ok in H. eapply IH; [| | exact H].
           ++ eapply for_directions_inv; [| | exact Hfor]; [apply Hinv' |].
              intros d Hd fuel' jk Hjump.
              destruct (parents st !! e_key m) as [p |] eqn:Hp.
              ** eapply parent_directions; eauto.
                 apply (jinv_parents _ _ Hinv). exact Hp.
              ** destruct (jinv_heap _ _ Hinv m Hm) as [Hs | [x Hx]];
                   [| congruence].
                 rewrite Hs in *. eapply start_directions; eauto.
           ++ apply Hok. reflexivity.
        -- exfalso. exact (Hne e' eq_refl).
        -- discriminate.
      * exfalso. unfold _pruned_directions in Hdirs.
        apply dict_mem_get in Hcur as [node Hnode].
        rewrite Hnode, getitem_Some, rbind_Ok in Hdirs.
        destruct (parents st !! e_key m) as [p |] eqn:Hp; [| discriminate].
        destruct (jk_parents _ _ _ Hkeys _ _ Hp) as (_ & Hpin & _).
        apply dict_mem_get in Hpin as [pnode Hpnode].
        rewrite Hpnode, getitem_Some, rbind_Ok in Hdirs.
        repeat match type of Hdirs with
               | context [if ?b then Ok _ else _] => destruct b
               end; discriminate.
      * discriminate.
Qed.

End JPSErrors.

Section JPSShape.
Import JPS JPSInv Inv Stride.

Variable nodes : NodeTable.
Hypothesis Hwf : wf_table nodes.
Variable start_key goal_key : PositionKey.
Hypothesis Hgoal_in : dict_mem nodes goal_key = true.

Abbreviation jinv := (jps_inv start_key).
Abbreviation jkeys := (jps_keys nodes start_key).

Lemma ray_inj (u v : Z * Z) (a b : Z) :
  unit_dir u -> unit_dir v -> 1 <= a -> 0 <= b ->
  ray start_key u a = ray start_key v b -> u = v /\ a = b.
Proof.
  unfold ray, STEP_SIZE.
  intros [-> | [-> | [-> | ->]]] [-> | [-> | [-> | ->]]] Ha Hb [= H1 H2];
    cbn [fst snd] in *; first [ lia | split; [reflexivity | lia] ].
Qed.

Lemma ray_ray (u : Z * Z) (a n : Z) :
  ray (ray start_key u a) u n = ray start_key u (a + n).
Proof. unfold ray, STEP_SIZE. cbn [fst snd]. f_equal; lia. Qed.

Lemma rotation_same (u : Z * Z) :
  unit_dir u -> _rotation_actions (facing u) (facing u) = [].
Proof. intros [-> | [-> | [-> | ->]]]; reflexivity. Qed.

(** The search step keeps the two invariants. *)
Lemma jps_expand_inv (st st'' : Search) (m : Entry) (rest : list Entry)
  (dirs : list (Z * Z)) (cl : gset PositionKey) :
  jinv st -> jkeys st ->
  In m (open_heap st) -> (forall x, In x rest -> In x (open_heap st)) ->
  _pruned_directions nodes (e_key m) (parents st !! e_key m) = Ok dirs ->
  for_directions nodes goal_key (e_key m) (e_g m)
    (mkSearch rest (parents st) (g_score st) cl (counter st)) dirs = Ok st'' ->
  jinv st'' /\ jkeys st''.
Proof.
  intros Hinv Hkeys Hm Hrest Hdirs Hfor. split.
  - eapply for_directions_inv; [| | exact Hfor].
    + constructor; cbn.
      * apply (jinv_parents _ _ Hinv).
      * intros x Hx. apply (jinv_heap _ _ Hinv). auto.
    + intros d Hd fuel' jk Hjump.
      destruct (parents st !! e_key m) as [p |] eqn:Hp.
      * eapply parent_directions; eauto.
        apply (jinv_parents _ _ Hinv). exact Hp.
      * destruct (jinv_heap _ _ Hinv m Hm) as [Hs | [x Hx]]; [| congruence].
        rewrite Hs in *. eapply start_directions; eauto.
  - eapply (for_directions_keys nodes Hwf start_key goal_key Hgoal_in);
      [| | | exact Hfor].
    + constructor; cbn.
      * intros x Hx. apply (jk_heap _ _ _ Hkeys). auto.
      * apply (jk_parents _ _ _ Hkeys).
    + apply (jk_heap _ _ _ Hkeys m Hm).
    + apply (jinv_heap _ _ Hinv m Hm).
Qed.

(** Waypoints chained by parents beyond the first leg stay on its ray. *)
Lemma chain_on_ray (parents : gmap PositionKey PositionKey) (u : Z * Z) :
  (forall k p, parents !! k = Some p ->
               parent_ok start_key k p
               /\ dict_mem nodes k = true /\ dict_mem nodes p = true) ->
  unit_dir u ->
  forall (tail : list PositionKey) (a : Z) (acc plan : list Action),
    1 <= a ->
    chain parents (ray start_key u a :: tail) ->
    path_to_actions_loop nodes (ray start_key u a :: tail) (facing u) acc
    = Ok plan ->
    exists a', a <= a'
      /\ List.last tail (ray start_key u a) = ray start_key u a'
      /\ plan = acc ++ repeat MoveAhead (Z.to_nat (a' - a)).
Proof.
  intros Hpar Hu.
  induction tail as [| k tail IH]; intros a acc plan Ha Hchain Hloop.
  - injection Hloop as <-. exists a. split; [lia |]. split; [reflexivity |].
    rewrite Z.sub_diag. cbn. rewrite app_nil_r. reflexivity.
  - destruct Hchain as [Hk Hchain].
    destruct (Hpar _ _ Hk) as ((v & a2 & b2 & Hv & Hab & Hka & Hpb) & Hkin & Hpin).
    destruct (ray_inj u v a b2 Hu Hv Ha ltac:(lia) Hpb) as [<- <-].
    assert (Hleg : k = ray (ray start_key u a) u (a2 - a))
      by (rewrite ray_ray, Hka; f_equal; lia).
    rewrite Hleg in Hloop, Hkin.
    rewrite (leg_actions nodes Hwf _ u (a2 - a) tail (facing u) acc Hu
               ltac:(lia) Hpin Hkin) in Hloop.
    rewrite <- Hleg, Hka, (rotation_same u Hu) in Hloop. cbn [app] in Hloop.
    rewrite Hka in Hchain.
    destruct (IH a2 _ plan ltac:(lia) Hchain Hloop) as (a' & Ha' & Hlast & ->).
    exists a'. split; [lia |]. rewrite last_cons, Hka.
    split; [exact Hlast |].
    rewrite <- app_assoc. f_equal. unfold py_repeat.
    rewrite <- repeat_app. f_equal. lia.
Qed.

Lemma jps_loop_shape (start_yaw : Z) (fuel : nat) :
  forall (st : Search) (plan : list Action),
    jinv st -> jkeys st ->
    jps_loop nodes start_key start_yaw goal_key fuel st = Ok plan ->
    (goal_key = start_key /\ plan = [])
    \/ exists u a, unit_dir u /\ 1 <= a
         /\ goal_key = ray start_key u a
         /\ plan = _rotation_actions start_yaw (facing u)
                   ++ repeat MoveAhead (Z.to_nat a).
Proof.
  induction fuel as [| fuel IH]; intros st plan Hinv Hkeys H; [discriminate |].
  cbn [jps_loop] in H.
  destruct (AStar.heappop entry_ltb (open_heap st)) as [[m rest] |] eqn:Hpop;
    [| discriminate].
  apply heappop_In in Hpop as [Hm Hrest].
  destruct (decide (e_key m ∈ closed st)) as [Hclosed | Hopen].
  - apply IH in H; [exact H | |].
    + constructor; cbn.
      * apply (jinv_parents _ _ Hinv).
      * intros x Hx. apply (jinv_heap _ _ Hinv). auto.
    + constructor; cbn.
      * intros x Hx. apply (jk_heap _ _ _ Hkeys). auto.
      * apply (jk_parents _ _ _ Hkeys).
  - destruct (key_eqb (e_key m) goal_key) eqn:Hgoal.
    + apply rbind_ok in H as (path & Hpath & H). cbn [parents] in Hpath.
      unfold _reconstruct_path in Hpath.
      eapply (reconstruct_chain start_key (parents st) _ goal_key
                [goal_key] path []) in Hpath; [| reflexivity | exact I].
      destruct Hpath as (tail & -> & Hchain & Hlast).
      cbn [List.last] in Hlast. unfold _path_to_actions in H.
      assert (Hpar : forall k p, parents st !! k = Some p ->
                parent_ok start_key k p
                /\ dict_mem nodes k = true /\ dict_mem nodes p = true).
      { intros k p Hk. split; [apply (jinv_parents _ _ Hinv _ _ Hk) |].
        destruct (jk_parents _ _ _ Hkeys k p Hk) as (H1 & H2 & _). auto. }
      destruct tail as [| k1 tail].
      * left. cbn in Hlast, H. injection H as <-. auto.
      * right. destruct Hchain as [Hk1 Hchain].
        destruct (Hpar _ _ Hk1)
          as ((u & a & b & Hu & Hab & Hka & Hsb) & Hkin & Hsin).
        assert (Hb : b = 0).
        { unfold ray, STEP_SIZE in Hsb. destruct start_key as [sx sz].
          cbn [fst snd] in Hsb. injection Hsb as H1 H2.
          destruct Hu as [-> | [-> | [-> | ->]]]; cbn [fst snd] in *; lia. }
        subst b.
        rewrite Hka in H, Hkin, Hchain.
        rewrite (leg_actions nodes Hwf start_key u a tail start_yaw [] Hu
                   ltac:(lia) Hsin Hkin) in H.
        cbn [app] in H.
        destruct (chain_on_ray (parents st) u Hpar Hu tail a _ plan
                    ltac:(lia) Hchain H) as (a' & Ha' & Hl & ->).
        exists u, a'. split; [exact Hu |]. split; [lia |].
        rewrite last_cons, Hka in Hlast. split; [congruence |].
        rewrite <- app_assoc. f_equal. unfold py_repeat.
        rewrite <- repeat_app. f_equal. lia.
    + apply rbind_ok in H as (dirs & Hdirs & H).
      apply rbind_ok in H as (st'' & Hfor & H). cbn [parents] in Hdirs.
      destruct (jps_expand_inv st st'' m rest dirs _ Hinv Hkeys Hm Hrest
                  Hdirs Hfor) as [Hinv'' Hkeys''].
      apply IH in H; auto.
Qed.

End JPSShape.

Section JPSInitial.
Import JPS JPSInv Inv Stride.

Lemma jps_initial_inv (nodes : NodeTable) (start_key : PositionKey) (h0 : Q) :
  dict_mem nodes start_key = true ->
  let st := {| open_heap := AStar.heappush [] (mkEntry h0 0 0 start_key);
               parents := ∅;
               g_score := {[ start_key := 0%Q ]};
               closed := ∅;
               counter := 1 |} in
  jps_inv start_key st /\ jps_keys nodes start_key st.
Proof.
  intros Hs st. split; constructor; cbn.
  - intros k p Hk. rewrite lookup_empty in Hk. discriminate.
  - intros e [<- | []]. left. reflexivity.
  - intros e [<- | []]. exact Hs.
  - intros k p Hk. rewrite lookup_empty in Hk. discriminate.
Qed.

Lemma heuristic_keys (nodes : NodeTable) (goal_key k : PositionKey) (h : Q) :
  heuristic nodes goal_key k = Ok h ->
  dict_mem nodes k = true /\ dict_mem nodes goal_key = true.
Proof.
  unfold heuristic, dict_mem. intros H.
  destruct (dict_get nodes k); [| discriminate].
  destruct (dict_get nodes goal_key); [auto | discriminate].
Qed.

Lemma jps_actions_shape (positions : list Position)
  (start_key : PositionKey) (start_yaw : Z) (goal_key : PositionKey)
  (plan : list Action) :
  jps_actions (build_node_lookup positions) start_key start_yaw goal_key
  = Ok plan ->
  (goal_key = start_key /\ plan = [])
  \/ exists u a, unit_dir u /\ 1 <= a
       /\ goal_key = ray start_key u a
       /\ plan = _rotation_actions start_yaw (facing u)
                 ++ repeat MoveAhead (Z.to_nat a).
Proof.
  set (nodes := build_node_lookup positions).
  pose proof (build_node_lookup_wf positions) as Hwf. fold nodes in Hwf.
  unfold jps_actions. destruct (key_eqb start_key goal_key) eqn:Heq.
  - intros [= <-]. apply key_eqb_eq in Heq. auto.
  - intros H. apply rbind_ok in H as (h0 & Hh & H).
    destruct (heuristic_keys _ _ _ _ Hh) as [Hs Hg].
    destruct (jps_initial_inv nodes start_key h0 Hs) as [Hinv Hkeys].
    exact (jps_loop_shape nodes Hwf start_key goal_key Hg start_yaw _ _ plan
             Hinv Hkeys H).
Qed.

Lemma jps_actions_outcome (positions : list Position)
  (start_key : PositionKey) (start_yaw : Z) (goal_key : PositionKey) :
  let nodes := build_node_lookup positions in
  dict_mem nodes start_key = true -> dict_mem nodes goal_key = true ->
  (exists plan, jps_actions nodes start_key start_yaw goal_key = Ok plan)
  \/ jps_actions nodes start_key start_yaw goal_key
     = Raise (RuntimeError msg_jps_no_path).
Proof.
  intros nodes Hs Hg.
  pose proof (build_node_lookup_wf positions) as Hwf. fold nodes in Hwf.
  pose proof (jps_actions_answers positions start_key start_yaw goal_key)
    as Hfuel. fold nodes in Hfuel.
  destruct (jps_actions nodes start_key start_yaw goal_key)
    as [plan | e |] eqn:H; [eauto | | congruence].
  right. f_equal. unfold jps_actions in H.
  destruct (key_eqb start_key goal_key); [discriminate |].
  destruct (heuristic_answers nodes goal_key Hg start_key Hs) as [h0 Hh].
  rewrite Hh, rbind_Ok in H.
  destruct (jps_initial_inv nodes start_key h0 Hs) as [Hinv Hkeys].
  exact (jps_loop_only_no_path nodes Hwf start_key goal_key Hg start_yaw _ _ e
           Hinv Hkeys H).
Qed.

End JPSInitial.



(** X14. The plan of [jps_actions].  Whenever it returns a plan for a goal
    other than the start, the goal lies some a >= 1 grid steps from the
    start along one of the four grid directions, and the plan is the turn
    from the start heading to that direction followed by exactly a
    MoveAhead actions; for a goal equal to the start the plan is empty. *)
Theorem jps_plan_is_turn_then_straight_run (positions : list Position)
  (start_key : PositionKey) (start_yaw : Z) (goal_key : PositionKey)
  (plan : list Action) :
  JPS.jps_actions (build_node_lookup positions) start_key start_yaw goal_key
  = Ok plan ->
  (goal_key = start_key /\ plan = [])
  \/ exists u a, JPSInv.unit_dir u /\ 1 <= a
       /\ goal_key = JPSInv.ray start_key u a
       /\ plan = _rotation_actions start_yaw (JPSInv.facing u)
                 ++ repeat MoveAhead (Z.to_nat a).
Proof.
  exact (jps_actions_shape positions start_key start_yaw goal_key plan).
Qed.

Lemma jps_plan_is_turn_then_straight_run_witness :
  ((0, 50) = (0, 0) /\ [RotateLeft; MoveAhead; MoveAhead] = [])
  \/ exists u a, JPSInv.unit_dir u /\ 1 <= a
       /\ (0, 50) = JPSInv.ray (0, 0) u a
       /\ [RotateLeft; MoveAhead; MoveAhead]
          = _rotation_actions 90 (JPSInv.facing u)
            ++ repeat MoveAhead (Z.to_nat a).
Proof.
  apply (jps_plan_is_turn_then_straight_run
           (map (fun c => Samples.cell (fst c) (snd c))
                [(0, 0); (0, 1); (0, 2); (1, 0); (1, 1); (1, 2);
                 (2, 0); (2, 1); (2, 2)])
           (0, 0) 90 (0, 50)).
  vm_compute. reflexivity.
Defined.

(** ** What the planners put in a plan *)

Section PlanContents.
Import Plan Stride.

Lemma rotation_actions_nav (y t : Z) :
  Forall nav_action (_rotation_actions y t).
Proof.
  destruct (rotation_actions_bound y t) as [_ [H | H]]; rewrite H;
    apply List.Forall_forall; intros a Ha; apply repeat_spec in Ha as ->;
    unfold nav_action; auto.
Qed.

Lemma repeat_move_nav (n : nat) : Forall nav_action (repeat MoveAhead n).
Proof.
  apply List.Forall_forall. intros a Ha. apply repeat_spec in Ha as ->.
  unfold nav_action. auto.
Qed.

Lemma path_to_actions_nav (nodes : NodeTable) (path : list PositionKey) :
  forall (yaw : Z) (acc plan : list Action),
    Forall nav_action acc ->
    JPS.path_to_actions_loop nodes path yaw acc = Ok plan ->
    Forall nav_action plan.
Proof.
  induction path as [| prev_key tl IH]; intros yaw acc plan Hacc H.
  - injection H as <-. exact Hacc.
  - cbn [JPS.path_to_actions_loop] in H.
    destruct tl as [| next_key tl]; [injection H as <-; exact Hacc |].
    apply rbind_ok in H as (prev_node & _ & H).
    apply rbind_ok in H as (next_node & _ & H).
    destruct (JPS.abs_gt_eps _ && JPS.abs_gt_eps _); [discriminate |].
    destruct (JPS.abs_gt_eps _);
      apply rbind_ok in H as (target_yaw & _ & H);
      (eapply IH; [| exact H]);
      (apply Forall_app; split; [exact Hacc |]);
      (apply Forall_app; split; [apply rotation_actions_nav |]);
      apply repeat_move_nav.
Qed.

Lemma jps_loop_nav (nodes : NodeTable) (start_key : PositionKey)
  (start_yaw : Z) (goal_key : PositionKey) (fuel : nat) :
  forall (st : JPS.Search) (plan : list Action),
    JPS.jps_loop nodes start_key start_yaw goal_key fuel st = Ok plan ->
    Forall nav_action plan.
Proof.
  induction fuel as [| fuel IH]; intros st plan H; [discriminate |].
  cbn [JPS.jps_loop] in H.
  destruct (AStar.heappop JPS.entry_ltb (JPS.open_heap st)) as [[m rest] |];
    [| discriminate].
  destruct (decide (JPS.e_key m ∈ JPS.closed st)); [eapply IH; exact H |].
  destruct (key_eqb (JPS.e_key m) goal_key).
  - apply rbind_ok in H as (path & _ & H).
    eapply path_to_actions_nav; [| exact H]. constructor.
  - apply rbind_ok in H as (dirs & _ & H).
    apply rbind_ok in H as (st'' & _ & H). eapply IH; exact H.
Qed.

Lemma relax_nav (nodes : NodeTable) (goal_key : PositionKey)
  (st st' : AStar.Search) (cur : AStar.State) (g : Z) (s : AStar.State)
  (a : Action) (hkey : PositionKey) :
  nav_action a -> parents_nav st ->
  AStar.relax nodes goal_key st cur g s a hkey = Ok st' ->
  parents_nav st'.
Proof.
  intros Ha Hst H. unfold AStar.relax in H.
  destruct (AStar.improves st g s); [| injection H as <-; exact Hst].
  apply rbind_ok in H as (h & _ & H). injection H as <-.
  intros s' p a'. cbn. destruct (decide (s = s')) as [<- | Hne].
  - rewrite lookup_insert_eq. intros [= <- <-]. exact Ha.
  - rewrite lookup_insert_ne by exact Hne. apply Hst.
Qed.

Lemma expand_nav (nodes : NodeTable) (adjacency : Adjacency)
  (goal_key : PositionKey) (st st' : AStar.Search) (g : Z)
  (s : AStar.State) :
  parents_nav st ->
  AStar.expand nodes adjacency goal_key st g s = Ok st' ->
  parents_nav st'.
Proof.
  intros Hst H. unfold AStar.expand in H. destruct s as [pos yaw].
  apply rbind_ok in H as (st1 & H1 & H).
  apply rbind_ok in H as (st2 & H2 & H).
  apply rbind_ok in H as (d & _ & H).
  apply rbind_ok in H as (p & _ & H).
  apply rbind_ok in H as (adj & _ & H).
  apply relax_nav in H1; [| unfold nav_action; auto | exact Hst].
  apply relax_nav in H2; [| unfold nav_action; auto | exact H1].
  destruct (key_in _ adj); [| injection H as <-; exact H2].
  apply relax_nav in H; [exact H | unfold nav_action; auto | exact H2].
Qed.

Lemma reconstruct_nav (cf : gmap AStar.State (AStar.State * Action))
  (fuel : nat) :
  (forall s p a, cf !! s = Some (p, a) -> nav_action a) ->
  forall (s : AStar.State) (acc plan : list Action),
    Forall nav_action acc ->
    AStar.reconstruct fuel cf s acc = Ok plan ->
    Forall nav_action plan.
Proof.
  intros Hcf. induction fuel as [| fuel IH]; intros s acc plan Hacc H;
    cbn [AStar.reconstruct] in H;
    destruct (cf !! s) as [[p a] |] eqn:Hs; try discriminate.
  - injection H as <-. apply Forall_rev. exact Hacc.
  - eapply IH; [| exact H]. apply Forall_app. split; [exact Hacc |].
    constructor; [eapply Hcf; exact Hs | constructor].
  - injection H as <-. apply Forall_rev. exact Hacc.
Qed.

Lemma astar_loop_nav (nodes : NodeTable) (adjacency : Adjacency)
  (goal_key : PositionKey) (fuel : nat) :
  forall (st : AStar.Search) (plan : list Action),
    parents_nav st ->
    AStar.astar_loop nodes adjacency goal_key fuel st = Ok plan ->
    Forall nav_action plan.
Proof.
  induction fuel as [| fuel IH]; intros st plan Hst H; [discriminate |].
  cbn [AStar.astar_loop] in H.
  destruct (AStar.heappop AStar.entry_ltb (AStar.open_heap st))
    as [[m rest] |]; [| discriminate].
  destruct (key_eqb (fst (AStar.e_state m)) goal_key).
  - eapply reconstruct_nav; [| | exact H]; [exact Hst | constructor].
  - apply rbind_ok in H as (st'' & Hexp & H).
    eapply IH; [| exact H]. eapply expand_nav; [| exact Hexp]. exact Hst.
Qed.

Lemma planners_nav (nodes : NodeTable) (adjacency : Adjacency)
  (start_key : PositionKey) (start_yaw : Z) (goal_key : PositionKey)
  (plan : list Action) :
  AStar.astar_actions nodes adjacency start_key start_yaw goal_key = Ok plan
  \/ JPS.jps_actions nodes start_key start_yaw goal_key = Ok plan ->
  Forall nav_action plan.
Proof.
  intros [H | H].
  - unfold AStar.astar_actions in H.
    destruct (key_eqb start_key goal_key); [injection H as <-; constructor |].
    apply rbind_ok in H as (h0 & _ & H).
    eapply astar_loop_nav; [| exact H].
    intros s p a. cbn. rewrite lookup_empty. discriminate.
  - unfold JPS.jps_actions in H.
    destruct (key_eqb start_key goal_key); [injection H as <-; constructor |].
    apply rbind_ok in H as (h0 & _ & H).
    eapply jps_loop_nav. exact H.
Qed.

End PlanContents.

(** X15. Whatever the node table and the adjacency hold, a plan returned
    by [astar_actions] or by [jps_actions] is made of MoveAhead,
    RotateLeft and RotateRight only; neither planner ever plans a LookUp
    or a LookDown. *)
Theorem planners_return_motion_primitives (nodes : NodeTable)
  (adjacency : Adjacency) (start_key : PositionKey) (start_yaw : Z)
  (goal_key : PositionKey) (plan : list Action) :
  AStar.astar_actions nodes adjacency start_key start_yaw goal_key = Ok plan
  \/ JPS.jps_actions nodes start_key start_yaw goal_key = Ok plan ->
  Forall Plan.nav_action plan
  /\ count_action LookUp plan = 0%nat
  /\ count_action LookDown plan = 0%nat.
Proof.
  intros H.
  pose proof (planners_nav nodes adjacency start_key start_yaw goal_key
                plan H) as Hnav.
  split; [exact Hnav |].
  assert (Hno : forall a, ~ Plan.nav_action a -> count_action a plan = 0%nat).
  { intros a Ha. unfold count_action. clear H.
    induction Hnav as [| b l Hb _ IH]; [reflexivity |].
    rewrite filter_cons_False; [exact IH |]. intros ->. exact (Ha Hb). }
  split; apply Hno; unfold Plan.nav_action; intros [? | [? | ?]]; discriminate.
Qed.

Lemma planners_return_motion_primitives_witness :
  Forall Plan.nav_action [RotateLeft; MoveAhead; MoveAhead]
  /\ count_action LookUp [RotateLeft; MoveAhead; MoveAhead] = 0%nat
  /\ count_action LookDown [RotateLeft; MoveAhead; MoveAhead] = 0%nat.
Proof.
  apply (planners_return_motion_primitives Samples.open3
           (build_adjacency Samples.open3) (0, 0) 90 (0, 50)).
  right. vm_compute. reflexivity.
Defined.



(** ** Further properties of the executor *)

Section VisibilityFacts.
Import Executor.

Lemma first_visible_spec (objs : list ObjMeta) (target : string) :
  first_visible objs target = true
  <-> exists pre o post,
        objs = pre ++ o :: post
        /\ Forall (fun x => objectId x <> target) pre
        /\ objectId o = target /\ visible o = true.
Proof.
  induction objs as [| x objs IH]; cbn [first_visible].
  - split; [discriminate |]. intros (pre & o & post & H & _).
    destruct pre; discriminate.
  - destruct (String.eqb_spec (objectId x) target) as [Heq | Hne].
    + split.
      * intros Hv. exists [], x, objs. auto.
      * intros (pre & o & post & H & Hpre & Ho & Hv).
        destruct pre as [| y pre].
        -- injection H as -> ->. exact Hv.
        -- injection H as -> ->. apply Forall_cons in Hpre as [Hy _].
           congruence.
    + rewrite IH. split.
      * intros (pre & o & post & -> & Hpre & Ho & Hv).
        exists (x :: pre), o, post. split; [reflexivity |].
        split; [constructor; assumption | auto].
      * intros (pre & o & post & H & Hpre & Ho & Hv).
        destruct pre as [| y pre].
        -- injection H as -> ->. congruence.
        -- injection H as -> ->. apply Forall_cons in Hpre as [_ Hpre].
           exists pre, o, post. auto.
Qed.

End VisibilityFacts.

(** X17. [_is_object_visible] answers for the first object of the
    metadata whose id is the target id: it is True exactly when the
    metadata is present, some object has the target id, and the first
    such object is marked visible; later objects with the same id and
    objects with other ids do not matter. *)
Theorem is_object_visible_first_match (m : option Executor.Metadata)
  (target : string) :
  Executor._is_object_visible m target = true
  <-> exists md pre o post,
        m = Some md
        /\ Executor.objects md = pre ++ o :: post
        /\ Forall (fun x => Executor.objectId x <> target) pre
        /\ Executor.objectId o = target
        /\ Executor.visible o = true.
Proof.
  destruct m as [md |]; cbn [Executor._is_object_visible].
  - rewrite first_visible_spec. split.
    + intros (pre & o & post & H). exists md, pre, o, post. auto.
    + intros (md' & pre & o & post & [= <-] & H). exists pre, o, post. exact H.
  - split; [discriminate |]. intros (md & pre & o & post & H & _).
    discriminate.
Qed.

Section GotoEdgeCases.
Import Executor.

Variable E : Type.
Variable env_get_reachable : E -> Event * E.
Variable env_get_poses : option string -> ActionReturn -> E -> Event * E.
Variable last_event : E -> option Event.
Variable execute_action :
  Action -> bool -> E -> (bool * option Event * string) * E.

Abbreviation goto :=
  (_execute_goto E env_get_reachable env_get_poses last_event execute_action).

(** X18. An empty list of reachable positions is not reported as
    'No reachable positions found'.  When the GetReachablePositions
    metadata is present with an agent entry and an empty position list,
    and the pose query returns a first candidate, the node table is empty
    and [_execute_goto] raises the ValueError of [min] on an empty
    sequence from [nearest_key], after the two queries and before any
    action is sent. *)
Theorem goto_empty_position_list_raises (fuel : nat)
  (target : option string) (smooth_nav : bool) (w : World E)
  (reach_meta : Metadata) (agent_meta : AgentMeta) (pose_meta : Metadata)
  (target_position : Pose) :
  metadata (fst (env_get_reachable (fst w))) = Some reach_meta ->
  agent reach_meta = Some agent_meta ->
  actionReturn reach_meta = RetPositions [] ->
  let env1 := snd (env_get_reachable (fst w)) in
  let env2 := snd (env_get_poses target (RetPositions []) env1) in
  metadata (fst (env_get_poses target (RetPositions []) env1))
  = Some pose_meta ->
  first_pose (actionReturn pose_meta) = Some (Some target_position) ->
  goto fuel target smooth_nav w
  = (Raise (ValueError "min() arg is an empty sequence"),
     (env2, snd w ++ [CallGetReachablePositions;
                      CallGetInteractablePoses target (RetPositions [])])).
Proof.
  intros Hmeta Hagent Hret env1 env2 Hposes Hfirst.
  unfold _execute_goto, bind, step_reachable, step_poses, get_last_event,
    ret, raise, lift.
  subst env2 env1.
  destruct (env_get_reachable (fst w)) as [ev e1]. cbn in *.
  rewrite Hmeta, Hagent. cbn. rewrite Hret.
  destruct (env_get_poses target (RetPositions []) e1) as [pv e2].
  cbn in *. rewrite Hposes, Hfirst. cbn.
  rewrite <- app_assoc. reflexivity.
Qed.

End GotoEdgeCases.

Lemma goto_empty_position_list_raises_witness :
  Samples.sim_goto 3 (Some Samples.mug)
    (Samples.mkSim None
       (Samples.observe 0 false (Executor.RetPositions []))
       (Samples.observe 0 false
          (Executor.RetPoses [Some (Samples.pose_at 0 0 0)])) [])
  = (Raise (ValueError "min() arg is an empty sequence"),
     (Samples.mkSim
        (Some (Samples.observe 0 false
                 (Executor.RetPoses [Some (Samples.pose_at 0 0 0)])))
        (Samples.observe 0 false (Executor.RetPositions []))
        (Samples.observe 0 false
           (Executor.RetPoses [Some (Samples.pose_at 0 0 0)])) [],
      [Executor.CallGetReachablePositions;
       Executor.CallGetInteractablePoses (Some Samples.mug)
         (Executor.RetPositions [])])).
Proof.
  exact (goto_empty_position_list_raises Samples.Sim
           Samples.sim_get_reachable Samples.sim_get_poses Samples.sim_last
           Samples.sim_execute 3 (Some Samples.mug) false
           (Samples.mkSim None
              (Samples.observe 0 false (Executor.RetPositions []))
              (Samples.observe 0 false
                 (Executor.RetPoses [Some (Samples.pose_at 0 0 0)])) [], [])
           (Samples.meta_with 0 false (Executor.RetPositions []))
           (Samples.agent_at 0)
           (Samples.meta_with 0 false
              (Executor.RetPoses [Some (Samples.pose_at 0 0 0)]))
           (Samples.pose_at 0 0 0)
           eq_refl eq_refl eq_refl eq_refl eq_refl).
Defined.

Section GotoOutcome.
Import Executor Protocol.

Variable E : Type.
Variable env_get_reachable : E -> Event * E.
Variable env_get_poses : option string -> ActionReturn -> E -> Event * E.
Variable last_event : E -> option Event.
Variable execute_action :
  Action -> bool -> E -> (bool * option Event * string) * E.

Abbreviation goto :=
  (_execute_goto E env_get_reachable env_get_poses last_event execute_action).
Abbreviation scan :=
  (_adjust_horizon_for_visibility E last_event execute_action).
Abbreviation up_loop := (look_up_loop E execute_action).
Abbreviation down_loop := (look_down_loop E execute_action).

Lemma bind_inv {A B : Type} (m : Exec E A) (k : A -> Exec E B)
  (w : World E) (r : Result B) (w' : World E) :
  bind E m k w = (r, w') ->
  (exists a w1, m w = (Ok a, w1) /\ k a w1 = (r, w'))
  \/ (exists e, m w = (Raise e, w') /\ r = Raise e)
  \/ (m w = (OutOfFuel, w') /\ r = OutOfFuel).
Proof.
  unfold bind. destruct (m w) as [[a | e |] w1]; intros H.
  - left. eauto.
  - injection H as <- <-. right. left. eauto.
  - injection H as <- <-. right. right. eauto.
Qed.

Lemma bind_ok {A B : Type} (m : Exec E A) (k : A -> Exec E B)
  (w : World E) (b : B) (w' : World E) :
  bind E m k w = (Ok b, w') ->
  exists a w1, m w = (Ok a, w1) /\ k a w1 = (Ok b, w').
Proof.
  intros H. apply bind_inv in H as [H | [(e & _ & H) | [_ H]]];
    [exact H | discriminate | discriminate].
Qed.

Hypothesis Hkeep : keeps_last_event last_event execute_action.

Lemma super_execute_last (a : Action) (smooth_nav : bool) (w : World E)
  (r : bool * option Event * string) (w' : World E) :
  super_execute E execute_action a smooth_nav w = (Ok r, w') ->
  last_event (fst w') = snd (fst r).
Proof.
  unfold super_execute. intros H.
  pose proof (Hkeep a smooth_nav (fst w)) as Hk.
  destruct (execute_action a smooth_nav (fst w)) as [r0 e'].
  injection H as <- <-. exact Hk.
Qed.

Lemma up_loop_true (target : string) (smooth_nav : bool) (fuel : nat) :
  forall (h : Q) (w : World E) (b : bool) (w' : World E),
    up_loop fuel target smooth_nav h w = (Ok (inl b), w') ->
    event_visible (last_event (fst w')) target = true.
Proof.
  induction fuel as [| fuel IH]; intros h w b w' H; cbn [look_up_loop] in H;
    destruct (Qltb _ h); try discriminate.
  apply bind_ok in H as ([[ok ev] msg] & w1 & Hstep & H).
  apply super_execute_last in Hstep. cbn [fst snd] in Hstep.
  destruct ok; cbn [negb] in H; [| discriminate].
  destruct (event_visible ev target) eqn:Hvis.
  - injection H as _ <-. rewrite Hstep. exact Hvis.
  - apply bind_ok in H as (md & w2 & _ & H). eapply IH. exact H.
Qed.

Lemma down_loop_true (target : string) (smooth_nav : bool) (fuel : nat) :
  forall (h : Q) (w : World E) (b : bool) (w' : World E),
    down_loop fuel target smooth_nav h w = (Ok b, w') ->
    event_visible (last_event (fst w')) target = true.
Proof.
  induction fuel as [| fuel IH]; intros h w b w' H; cbn [look_down_loop] in H;
    destruct (Qltb h _); try discriminate.
  apply bind_ok in H as ([[ok ev] msg] & w1 & Hstep & H).
  apply super_execute_last in Hstep. cbn [fst snd] in Hstep.
  destruct ok; cbn [negb] in H; [| discriminate].
  destruct (event_visible ev target) eqn:Hvis.
  - injection H as _ <-. rewrite Hstep. exact Hvis.
  - apply bind_ok in H as (md & w2 & _ & H). eapply IH. exact H.
Qed.

Lemma scan_true (target : string) (smooth_nav : bool) (fuel : nat)
  (w w' : World E) :
  scan fuel target smooth_nav w = (Ok true, w') ->
  event_visible (last_event (fst w')) target = true.
Proof.
  unfold _adjust_horizon_for_visibility. intros H.
  apply bind_ok in H as (ev & w1 & Hev & H).
  unfold get_last_event in Hev. injection Hev as <- <-.
  destruct (last_event (fst w)) as [e0 |] eqn:Hlast; [| discriminate].
  destruct (metadata e0) as [md |] eqn:Hmd; [| discriminate].
  destruct (_is_object_visible (Some md) target) eqn:Hvis.
  - injection H as <-. rewrite Hlast. cbn. rewrite Hmd. exact Hvis.
  - apply bind_ok in H as ([b | h] & w2 & Hup & H).
    + injection H as -> <-. eapply up_loop_true. exact Hup.
    + eapply down_loop_true. exact H.
Qed.

Lemma goto_success (fuel : nat) (target : option string)
  (smooth_nav : bool) (w : World E) (ev : option Event) (err : string)
  (w' : World E) :
  goto fuel target smooth_nav w = (Ok (true, ev, err), w') ->
  err = EmptyString
  /\ ev = last_event (fst w')
  /\ forall t e, truthy target = Some t -> ev = Some e ->
                 _is_object_visible (metadata e) t = true.
Proof.
  unfold _execute_goto. intros H.
  apply bind_ok in H as (reachable & w1 & _ & H).
  destruct (metadata reachable) as [reach_meta |].
  2: { apply bind_ok in H as (x & w2 & _ & H). discriminate. }
  apply bind_ok in H as (agent_meta & w2 & _ & H).
  apply bind_ok in H as (event & w3 & _ & H).
  apply bind_ok in H as (pmeta & w4 & _ & H).
  destruct (first_pose (actionReturn pmeta)) as [[target_position |] |].
  2: { apply bind_ok in H as (x & w5 & _ & H). discriminate. }
  2: discriminate.
  apply bind_ok in H as (positions & w5 & _ & H).
  apply bind_ok in H as (start_key & w6 & _ & H).
  apply bind_ok in H as (target_key & w7 & _ & H).
  apply bind_ok in H as (action_names & w8 & _ & H).
  apply bind_ok in H as (ev0 & w9 & _ & H).
  apply bind_ok in H as (r & w10 & _ & H).
  destruct (fst (fst r)) eqn:Hr; cbn [negb] in H.
  2: { injection H as -> _. cbn in Hr. discriminate. }
  apply bind_ok in H as (ev1 & w11 & _ & H).
  apply bind_ok in H as (md1 & w12 & _ & H).
  apply bind_ok in H as (md1' & w13 & _ & H).
  apply bind_ok in H as (agent_meta1 & w14 & _ & H).
  apply bind_ok in H as (desired_yaw & w15 & _ & H).
  apply bind_ok in H as ([early | r2] & w16 & Hturns & H).
  { exfalso. injection H as -> _. clear - Hturns.
    revert r w15 Hturns.
    induction (_turn_actions (agent_rotation_y agent_meta1) desired_yaw)
      as [| a turns IH]; intros r w15 H; cbn [run_turns] in H;
      [discriminate |].
    apply bind_ok in H as (r' & w1 & _ & H).
    destruct (fst (fst r')) eqn:Hr'; cbn [negb] in H.
    - eapply IH. exact H.
    - injection H as -> _. cbn in Hr'. discriminate. }
  apply bind_ok in H as (ev2 & w17 & Hev2 & H).
  unfold get_last_event in Hev2. injection Hev2 as <- <-.
  destruct (last_event (fst w16)) as [e2 |] eqn:Hlast;
    destruct (truthy target) as [t |] eqn:Htarget.
  - destruct (fst (fst r2)); cbn [negb] in H.
    2: { apply bind_ok in H as (x & w18 & _ & H). discriminate. }
    destruct (_is_object_visible (metadata e2) t) eqn:Hvis.
    + injection H as <- <- <-. split; [reflexivity |].
      split; [symmetry; exact Hlast |].
      intros t' e' [= <-] [= <-]. exact Hvis.
    + apply bind_ok in H as (vis & w18 & Hscan & H).
      apply bind_ok in H as (ev3 & w19 & Hev3 & H).
      unfold get_last_event in Hev3. injection Hev3 as <- <-.
      destruct vis.
      * injection H as <- <- <-. split; [reflexivity |].
        split; [reflexivity |].
        intros t' e' [= <-] He'. apply scan_true in Hscan.
        rewrite He' in Hscan. exact Hscan.
      * destruct (last_event (fst w18)); [| discriminate].
        apply bind_ok in H as (x & w20 & _ & H). discriminate.
  - destruct (fst (fst r2)).
    + injection H as <- <- <-. split; [reflexivity |].
      split; [symmetry; exact Hlast |]. intros t e Ht. discriminate.
    + apply bind_ok in H as (x & w18 & _ & H). discriminate.
  - destruct (fst (fst r2)); [| discriminate].
    injection H as <- <- <-. split; [reflexivity |].
    split; [symmetry; exact Hlast |]. intros t' e' _ He'. discriminate.
  - destruct (fst (fst r2)); [| discriminate].
    injection H as <- <- <-. split; [reflexivity |].
    split; [symmetry; exact Hlast |]. intros t' e' Ht. discriminate.
Qed.

End GotoOutcome.

(** X19. A successful GotoLocation ends with the target in view.  In an
    environment whose [last_event] is the event of the last executed
    action, whenever [_execute_goto] returns success, the error message is
    empty and the returned event is the environment's last event; and when
    the request names a target (a non-empty object id) and that event is
    present, the target object is visible in it. *)
Theorem goto_success_shows_target (E : Type)
  (env_get_reachable : E -> Executor.Event * E)
  (env_get_poses :
     option string -> Executor.ActionReturn -> E -> Executor.Event * E)
  (last_event : E -> option Executor.Event)
  (execute_action :
     Action -> bool -> E -> (bool * option Executor.Event * string) * E)
  (fuel : nat) (target : option string) (smooth_nav : bool)
  (w : Executor.World E) (ev : option Executor.Event) (err : string)
  (w' : Executor.World E) :
  Protocol.keeps_last_event last_event execute_action ->
  Executor._execute_goto E env_get_reachable env_get_poses last_event
    execute_action fuel target smooth_nav w
  = (Ok (true, ev, err), w') ->
  err = EmptyString
  /\ ev = last_event (fst w')
  /\ forall t e, Executor.truthy target = Some t -> ev = Some e ->
                 Executor._is_object_visible (Executor.metadata e) t = true.
Proof.
  intros Hkeep H.
  exact (goto_success E env_get_reachable env_get_poses last_event
           execute_action Hkeep fuel target smooth_nav w ev err w' H).
Qed.

Lemma sim_keeps_last_event :
  Protocol.keeps_last_event Samples.sim_last Samples.sim_execute.
Proof.
  intros a smooth_nav env. unfold Samples.sim_execute.
  destruct (Samples.sim_script env); reflexivity.
Qed.

Lemma goto_success_shows_target_witness :
  let seen := Samples.observe (-(30)) true Executor.RetNone in
  let reach := Samples.observe 0 false
                 (Executor.RetPositions [Samples.cell 0 0]) in
  let poses := Samples.observe 0 false
                 (Executor.RetPoses [Some (Samples.pose_at 0 0 0)]) in
  EmptyString = EmptyString
  /\ Some seen
     = Samples.sim_last
         (fst (Samples.mkSim (Some seen) reach poses [],
               [Executor.CallGetReachablePositions;
                Executor.CallGetInteractablePoses (Some Samples.mug)
                  (Executor.RetPositions [Samples.cell 0 0]);
                Executor.CallExecute LookUp]))
  /\ forall t e, Executor.truthy (Some Samples.mug) = Some t ->
                 Some seen = Some e ->
                 Executor._is_object_visible (Executor.metadata e) t = true.
Proof.
  intros seen reach poses.
  apply (goto_success_shows_target Samples.Sim
           Samples.sim_get_reachable Samples.sim_get_poses Samples.sim_last
           Samples.sim_execute 3 (Some Samples.mug) false
           (Samples.mkSim None reach poses [(true, Some seen, EmptyString)],
            [])
           (Some seen) EmptyString
           (Samples.mkSim (Some seen) reach poses [],
            [Executor.CallGetReachablePositions;
             Executor.CallGetInteractablePoses (Some Samples.mug)
               (Executor.RetPositions [Samples.cell 0 0]);
             Executor.CallExecute LookUp])).
  - exact sim_keeps_last_event.
  - vm_compute. reflexivity.
Defined.

Section GotoProtocol.
Import Executor Protocol.

Variable E : Type.
Variable env_get_reachable : E -> Event * E.
Variable env_get_poses : option string -> ActionReturn -> E -> Event * E.
Variable last_event : E -> option Event.
Variable execute_action :
  Action -> bool -> E -> (bool * option Event * string) * E.

Abbreviation goto :=
  (_execute_goto E env_get_reachable env_get_poses last_event execute_action).
Abbreviation scan :=
  (_adjust_horizon_for_visibility E last_event execute_action).
Abbreviation up_loop := (look_up_loop E execute_action).
Abbreviation down_loop := (look_down_loop E execute_action).

Lemma emits_weaken {A : Type} (P Q : list Call -> Prop) (m : Exec E A) :
  (forall l, P l -> Q l) -> emits P m -> emits Q m.
Proof.
  intros HPQ Hm w r w' H. destruct (Hm w r w' H) as (l & Hl & HP). eauto.
Qed.

Lemma emits_bind {A B : Type} (P Q R : list Call -> Prop)
  (m : Exec E A) (k : A -> Exec E B) :
  emits P m -> (forall a, emits Q (k a)) ->
  (forall l, P l -> R l) ->
  (forall l1 l2, P l1 -> Q l2 -> R (l1 ++ l2)) ->
  emits R (bind E m k).
Proof.
  intros Hm Hk HPR HPQR w r w' H.
  apply (bind_inv E) in H as [(a & w1 & H1 & H2) | [(e & H1 & _) | [H1 _]]].
  - destruct (Hm _ _ _ H1) as (l1 & Hl1 & HP).
    destruct (Hk a _ _ _ H2) as (l2 & Hl2 & HQ).
    exists (l1 ++ l2). rewrite Hl2, Hl1, app_assoc. auto.
  - destruct (Hm _ _ _ H1) as (l1 & Hl1 & HP). eauto.
  - destruct (Hm _ _ _ H1) as (l1 & Hl1 & HP). eauto.
Qed.

(** A step that makes no call. *)
Lemma emits_quiet {A B : Type} (R : list Call -> Prop)
  (m : Exec E A) (k : A -> Exec E B) :
  emits (eq []) m -> (forall a, emits R (k a)) -> R [] ->
  emits R (bind E m k).
Proof.
  intros Hm Hk HR.
  apply (emits_bind (eq []) R R m k Hm Hk).
  - intros l <-. exact HR.
  - intros l1 l2 <- H. exact H.
Qed.

Lemma emits_ret {A : Type} (P : list Call -> Prop) (a : A) :
  P [] -> emits P (ret E a).
Proof.
  intros HP w r w' [= <- <-]. exists []. rewrite app_nil_r. auto.
Qed.

Lemma emits_raise {A : Type} (P : list Call -> Prop) (e : Exn) :
  P [] -> emits P (raise E (A:=A) e).
Proof.
  intros HP w r w' [= <- <-]. exists []. rewrite app_nil_r. auto.
Qed.

Lemma emits_lift {A : Type} (x : Result A) : emits (eq []) (lift E x).
Proof.
  intros w r w' [= <- <-]. exists []. rewrite app_nil_r. auto.
Qed.

Lemma emits_last_event : emits (eq []) (get_last_event E last_event).
Proof.
  intros w r w' [= <- <-]. exists []. rewrite app_nil_r. auto.
Qed.

Lemma emits_metadata_of (ev : option Event) :
  emits (eq []) (metadata_of E ev).
Proof. destruct ev; [apply emits_ret | apply emits_raise]; reflexivity. Qed.

Lemma emits_execute (a : Action) (smooth_nav : bool) :
  emits (eq [CallExecute a]) (super_execute E execute_action a smooth_nav).
Proof.
  intros w r w' H. unfold super_execute in H.
  destruct (execute_action a smooth_nav (fst w)). injection H as <- <-.
  eauto.
Qed.

Lemma emits_run_plan (smooth_nav : bool) (actions : list Action) :
  forall acc,
    emits (fun l => exists done rest,
                      actions = done ++ rest /\ l = map CallExecute done)
          (run_plan E execute_action smooth_nav actions acc).
Proof.
  induction actions as [| a actions IH]; intros acc; cbn [run_plan].
  - apply emits_ret. exists [], []. auto.
  - eapply emits_bind; [apply emits_execute | | |].
    + intros r. instantiate (1 := fun l => exists done rest,
                  actions = done ++ rest /\ l = map CallExecute done).
      destruct (negb (fst (fst r))); [| apply IH].
      apply emits_ret. exists [], actions. auto.
    + intros l <-. exists [a], actions. auto.
    + intros l1 l2 <- (done & rest & -> & ->).
      exists (a :: done), rest. auto.
Qed.

Lemma emits_run_turns (smooth_nav : bool) (turns : list Action) :
  forall acc,
    emits (fun l => exists done rest,
                      turns = done ++ rest /\ l = map CallExecute done)
          (run_turns E execute_action smooth_nav turns acc).
Proof.
  induction turns as [| a turns IH]; intros acc; cbn [run_turns].
  - apply emits_ret. exists [], []. auto.
  - eapply emits_bind; [apply emits_execute | | |].
    + intros r. instantiate (1 := fun l => exists done rest,
                  turns = done ++ rest /\ l = map CallExecute done).
      destruct (negb (fst (fst r))); [| apply IH].
      apply emits_ret. exists [], turns. auto.
    + intros l <-. exists [a], turns. auto.
    + intros l1 l2 <- (done & rest & -> & ->).
      exists (a :: done), rest. auto.
Qed.

Lemma emits_scan (fuel : nat) (target : string) (smooth_nav : bool) :
  emits (fun l => exists n m,
                    l = repeat (CallExecute LookUp) n
                        ++ repeat (CallExecute LookDown) m)
        (scan fuel target smooth_nav).
Proof.
  intros w r w' H. unfold _adjust_horizon_for_visibility in H.
  apply (bind_inv E) in H as [(ev & w1 & H1 & H) | [(e & H1 & _) | [H1 _]]];
    [| discriminate H1 | discriminate H1].
  injection H1 as <- <-.
  destruct (last_event (fst w)) as [e0 |];
    [| injection H as <- <-; exists []; rewrite app_nil_r;
       split; [reflexivity | exists 0%nat, 0%nat; reflexivity]].
  destruct (metadata e0) as [md |];
    [| injection H as <- <-; exists []; rewrite app_nil_r;
       split; [reflexivity | exists 0%nat, 0%nat; reflexivity]].
  destruct (_is_object_visible (Some md) target);
    [injection H as <- <-; exists []; rewrite app_nil_r;
     split; [reflexivity | exists 0%nat, 0%nat; reflexivity] |].
  apply (bind_inv E) in H as [(x & w1 & H1 & H) | [(e & H1 & _) | [H1 _]]].
  - destruct (up_loop_calls E execute_action target smooth_nav fuel _ _ _ _ H1)
      as (n & Hn & _).
    destruct x as [b | h].
    + injection H as <- <-. exists (repeat (CallExecute LookUp) n).
      split; [exact Hn |]. exists n, 0%nat. rewrite app_nil_r. reflexivity.
    + destruct (down_loop_calls E execute_action target smooth_nav fuel
                  _ _ _ _ H) as (_ & m & Hm).
      exists (repeat (CallExecute LookUp) n ++ repeat (CallExecute LookDown) m).
      rewrite Hm, Hn, app_assoc. split; [reflexivity | eauto].
  - destruct (up_loop_calls E execute_action target smooth_nav fuel _ _ _ _ H1)
      as (n & Hn & _).
    exists (repeat (CallExecute LookUp) n). split; [exact Hn |].
    exists n, 0%nat. rewrite app_nil_r. reflexivity.
  - destruct (up_loop_calls E execute_action target smooth_nav fuel _ _ _ _ H1)
      as (n & Hn & _).
    exists (repeat (CallExecute LookUp) n). split; [exact Hn |].
    exists n, 0%nat. rewrite app_nil_r. reflexivity.
Qed.

Lemma turn_actions_bound (current_yaw : Q) (desired_yaw : option Q) :
  (length (_turn_actions current_yaw desired_yaw) <= 2)%nat
  /\ Forall (fun a => a = RotateLeft \/ a = RotateRight)
            (_turn_actions current_yaw desired_yaw).
Proof.
  destruct desired_yaw as [d |]; [| cbn; split; [lia | constructor]].
  rewrite turn_actions_unfold.
  destruct (rotation_actions_bound (normalize_yaw current_yaw)
              (normalize_yaw d)) as [Hlen Hrep].
  split; [exact Hlen |].
  destruct Hrep as [H | H]; rewrite H; apply List.Forall_forall;
    intros a Ha; apply repeat_spec in Ha as ->; auto.
Qed.

Lemma plan_route_nav (nodes : NodeTable) (start_key : PositionKey)
  (start_yaw : Z) (target_key : PositionKey) (plan : list Action) :
  plan_route nodes start_key start_yaw target_key = Ok plan ->
  Forall Plan.nav_action plan.
Proof.
  unfold plan_route. intros H.
  apply (planners_nav nodes (build_adjacency nodes) start_key start_yaw
           target_key).
  destruct (JPS.jps_actions nodes start_key start_yaw target_key)
    as [p | [] |] eqn:Hj; try discriminate; auto.
Qed.

Lemma emits_lift_bind {A B : Type} (R : list Call -> Prop)
  (x : Result A) (k : A -> Exec E B) :
  (forall a, x = Ok a -> emits R (k a)) -> R [] ->
  emits R (bind E (lift E x) k).
Proof.
  intros Hk HR w r w' H. unfold bind, lift in H. destruct x as [a | e |].
  - exact (Hk a eq_refl w r w' H).
  - injection H as <- <-. exists []. rewrite app_nil_r. auto.
  - injection H as <- <-. exists []. rewrite app_nil_r. auto.
Qed.

Lemma emits_step_reachable :
  emits (eq [CallGetReachablePositions]) (step_reachable E env_get_reachable).
Proof.
  intros w r w' H. unfold step_reachable in H.
  destruct (env_get_reachable (fst w)). injection H as <- <-. eauto.
Qed.

Lemma emits_step_poses (target : option string) (positions : ActionReturn) :
  emits (eq [CallGetInteractablePoses target positions])
        (step_poses E env_get_poses target positions).
Proof.
  intros w r w' H. unfold step_poses in H.
  destruct (env_get_poses target positions (fst w)). injection H as <- <-.
  eauto.
Qed.

Lemma looks_nil (target : option string) : looks target [].
Proof. exists 0%nat, 0%nat. auto. Qed.

Lemma turns_nil (target : option string) : turns_then_looks target [].
Proof.
  exists [], 0%nat, 0%nat. cbn. split; [reflexivity |].
  split; [lia |]. split; [constructor | auto].
Qed.

Lemma tail_nil (target : option string) : goto_tail target [].
Proof.
  exists [], [], 0%nat, 0%nat. cbn. split; [reflexivity |].
  split; [constructor |]. split; [lia |]. split; [constructor | auto].
Qed.

Lemma emits_report {A : Type} (R : list Call -> Prop)
  (ev : option Event) (k : string -> Exec E A) :
  R [] -> (forall em, emits R (k em)) ->
  emits R
    (match ev with
     | None => k EmptyString
     | Some e =>
       bind E (lift E (match metadata e with
                       | Some m => Ok (default EmptyString (errorMessage m))
                       | None => Raise AttributeError
                       end)) k
     end).
Proof.
  intros HR Hk. destruct ev as [e |]; [| apply Hk].
  apply emits_lift_bind; [intros em _; apply Hk | exact HR].
Qed.

Lemma emits_after_turns (fuel : nat) (target : option string)
  (smooth_nav : bool) (r2 : bool * option Event * string) :
  emits (looks target)
    (bind E (get_last_event E last_event) (fun ev2 =>
       match ev2, truthy target with
       | Some e2, Some target =>
         if negb (fst (fst r2)) then
           bind E (lift E (match metadata e2 with
                           | Some m =>
                             Ok (default EmptyString (errorMessage m))
                           | None => Raise AttributeError
                           end))
             (fun em => ret E (false, ev2, em))
         else if _is_object_visible (metadata e2) target then
           ret E (true, ev2, EmptyString)
         else
           bind E (scan fuel target smooth_nav) (fun vis =>
             bind E (get_last_event E last_event) (fun ev3 =>
               if vis : bool then ret E (true, ev3, EmptyString)
               else
                 match ev3 with
                 | None => ret E (false, ev3, EmptyString)
                 | Some e3 =>
                   bind E (lift E (match metadata e3 with
                                   | Some m =>
                                     Ok (default EmptyString (errorMessage m))
                                   | None => Raise AttributeError
                                   end))
                     (fun em => ret E (false, ev3, em))
                 end))
       | _, _ =>
         if fst (fst r2) then ret E (true, ev2, EmptyString)
         else
           match ev2 with
           | None => ret E (false, ev2, EmptyString)
           | Some e2 =>
             bind E (lift E (match metadata e2 with
                             | Some m =>
                               Ok (default EmptyString (errorMessage m))
                             | None => Raise AttributeError
                             end))
               (fun em => ret E (false, ev2, em))
           end
       end)).
Proof.
  pose proof (looks_nil target) as Hnil.
  apply emits_quiet; [apply emits_last_event | | exact Hnil].
  intros ev2.
  assert (Hfail : forall (ev : option Event) (e : Event),
            emits (looks target)
              (bind E (lift E (match metadata e with
                               | Some m =>
                                 Ok (default EmptyString (errorMessage m))
                               | None => Raise AttributeError
                               end))
                 (fun em => ret E (false, ev, em)))).
  { intros ev e. apply emits_lift_bind; [| exact Hnil].
    intros em _. apply emits_ret. exact Hnil. }
  destruct ev2 as [e2 |]; destruct (truthy target) as [t |] eqn:Ht.
  - destruct (negb (fst (fst r2))); [apply Hfail |].
    destruct (_is_object_visible (metadata e2) t);
      [apply emits_ret; exact Hnil |].
    eapply emits_bind; [apply emits_scan | | |].
    + intros vis. instantiate (1 := eq []).
      apply emits_quiet; [apply emits_last_event | | reflexivity].
      intros ev3. destruct vis; [apply emits_ret; reflexivity |].
      destruct ev3 as [e3 |]; [| apply emits_ret; reflexivity].
      apply emits_lift_bind; [| reflexivity].
      intros em _. apply emits_ret. reflexivity.
    + intros l (n & m & ->). exists n, m. split; [reflexivity |].
      intros Hno. unfold looks in Hnil. congruence.
    + intros l1 l2 (n & m & ->) <-. rewrite app_nil_r.
      exists n, m. split; [reflexivity |]. intros Hno. congruence.
  - destruct (fst (fst r2)); [apply emits_ret; exact Hnil | apply Hfail].
  - destruct (fst (fst r2)); apply emits_ret; exact Hnil.
  - destruct (fst (fst r2)); apply emits_ret; exact Hnil.
Qed.

Lemma goto_emits (fuel : nat) (target : option string) (smooth_nav : bool) :
  emits (fun l => exists l',
           l = CallGetReachablePositions :: l'
           /\ (l' = []
               \/ exists positions t,
                    l' = CallGetInteractablePoses target positions :: t
                    /\ goto_tail target t))
        (goto fuel target smooth_nav).
Proof.
  unfold _execute_goto.
  eapply emits_bind; [apply emits_step_reachable | | |].
  - intros reachable.
    instantiate (1 := fun l' =>
      l' = [] \/ exists positions t,
                   l' = CallGetInteractablePoses target positions :: t
                   /\ goto_tail target t).
    destruct (metadata reachable) as [reach_meta |].
    2: { apply emits_quiet; [apply emits_last_event | | left; reflexivity].
         intros ev. apply emits_ret. left. reflexivity. }
    apply emits_lift_bind; [| left; reflexivity]. intros agent_meta _.
    eapply emits_bind with (Q := goto_tail target);
      [apply emits_step_poses | | |].
    2: { intros l <-. right. exists (actionReturn reach_meta), [].
         split; [reflexivity | apply tail_nil]. }
    2: { intros l1 l2 <- Ht. right. exists (actionReturn reach_meta), l2.
         split; [reflexivity | exact Ht]. }
    intros event. pose proof (tail_nil target) as Hnil.
    apply emits_lift_bind; [| exact Hnil]. intros pmeta _.
    destruct (first_pose (actionReturn pmeta)) as [[target_position |] |].
    2: { apply emits_quiet; [apply emits_last_event | | exact Hnil].
         intros ev. apply emits_ret. exact Hnil. }
    2: { apply emits_raise. exact Hnil. }
    apply emits_lift_bind; [| exact Hnil]. intros positions _.
    apply emits_lift_bind; [| exact Hnil]. intros start_key _.
    apply emits_lift_bind; [| exact Hnil]. intros target_key _.
    apply emits_lift_bind; [| exact Hnil]. intros action_names Hroute.
    apply plan_route_nav in Hroute.
    apply emits_quiet; [apply emits_last_event | | exact Hnil]. intros ev0.
    eapply emits_bind with (Q := turns_then_looks target);
      [apply emits_run_plan | | |].
    2: { intros l (done & rest & -> & ->).
         exists done, [], 0%nat, 0%nat. cbn. rewrite app_nil_r.
         split; [reflexivity |].
         split; [apply Forall_app in Hroute as [H _]; exact H |].
         split; [lia |]. split; [constructor | auto]. }
    2: { intros l1 l2 (done & rest & -> & ->) (turns & n & m & -> & H1 & H2 & H3).
         exists done, turns, n, m. split; [reflexivity |].
         split; [apply Forall_app in Hroute as [H _]; exact H | auto]. }
    intros r. pose proof (turns_nil target) as Htnil.
    destruct (negb (fst (fst r))); [apply emits_ret; exact Htnil |].
    apply emits_quiet; [apply emits_last_event | | exact Htnil]. intros ev1.
    apply emits_quiet; [apply emits_metadata_of | | exact Htnil]. intros md1.
    apply emits_lift_bind; [| exact Htnil]. intros md1' _.
    apply emits_lift_bind; [| exact Htnil]. intros agent_meta1 _.
    apply emits_lift_bind; [| exact Htnil]. intros desired_yaw _.
    destruct (turn_actions_bound (agent_rotation_y agent_meta1) desired_yaw)
      as [Hlen Hrot].
    eapply emits_bind with (Q := looks target);
      [apply emits_run_turns | | |].
    2: { intros l (done & rest & Heq & ->).
         exists done, 0%nat, 0%nat. cbn. rewrite app_nil_r.
         split; [reflexivity |]. rewrite Heq in Hlen, Hrot.
         rewrite length_app in Hlen. apply Forall_app in Hrot as [Hrot _].
         split; [lia |]. split; [exact Hrot | auto]. }
    2: { intros l1 l2 (done & rest & Heq & ->) (n & m & -> & Hno).
         exists done, n, m. split; [reflexivity |]. rewrite Heq in Hlen, Hrot.
         rewrite length_app in Hlen. apply Forall_app in Hrot as [Hrot _].
         split; [lia |]. split; [exact Hrot | exact Hno]. }
    intros [early | r2]; [apply emits_ret; apply looks_nil |].
    apply emits_after_turns.
  - intros l <-. exists []. auto.
  - intros l1 l2 <- H. exists l2. auto.
Qed.

End GotoProtocol.

(** X20. The order of the calls of one GotoLocation.  Whatever the
    environment answers and however the request ends (a returned triple or
    a raised error), the calls [_execute_goto] makes are: the
    GetReachablePositions query; then, if any, the GetInteractablePoses
    query for the target; then motion primitives only (MoveAhead,
    RotateLeft, RotateRight); then at most two alignment rotations; then
    LookUp steps; then LookDown steps.  No query is repeated, no action is
    sent before both queries, and a request without a target id sends no
    LookUp and no LookDown. *)
Theorem goto_call_protocol (E : Type)
  (env_get_reachable : E -> Executor.Event * E)
  (env_get_poses :
     option string -> Executor.ActionReturn -> E -> Executor.Event * E)
  (last_event : E -> option Executor.Event)
  (execute_action :
     Action -> bool -> E -> (bool * option Executor.Event * string) * E)
  (fuel : nat) (target : option string) (smooth_nav : bool)
  (w : Executor.World E) :
  let w' := snd (Executor._execute_goto E env_get_reachable env_get_poses
                   last_event execute_action fuel target smooth_nav w) in
  snd w' = snd w ++ [Executor.CallGetReachablePositions]
  \/ exists positions nav turns n m,
       snd w'
       = snd w
         ++ [Executor.CallGetReachablePositions;
             Executor.CallGetInteractablePoses target positions]
         ++ map Executor.CallExecute nav
         ++ map Executor.CallExecute turns
         ++ repeat (Executor.CallExecute LookUp) n
         ++ repeat (Executor.CallExecute LookDown) m
       /\ Forall Plan.nav_action nav
       /\ (length turns <= 2)%nat
       /\ Forall (fun a => a = RotateLeft \/ a = RotateRight) turns
       /\ (Executor.truthy target = None -> n = 0%nat /\ m = 0%nat).
Proof.
  intros w'.
  destruct (Executor._execute_goto E env_get_reachable env_get_poses
              last_event execute_action fuel target smooth_nav w)
    as [r w1] eqn:H.
  subst w'. cbn [snd].
  destruct (goto_emits E env_get_reachable env_get_poses last_event
              execute_action fuel target smooth_nav w r w1 H)
    as (l & Hl & l' & -> & [-> | (positions & t & -> & Ht)]).
  - left. exact Hl.
  - right. destruct Ht as (nav & turns & n & m & -> & Hrest).
    exists positions, nav, turns, n, m. split; [exact Hl | exact Hrest].
Qed.

(** ** The multi-agent evaluator *)

Section MultiFacts.
Import Multi.

Variable primary_agent_index : Z.
Variable args_smooth_nav : bool.
Variable E : Type.
Variable last_event : E -> option PyEvent.
Variable super_execute_action :
  ActionDict -> bool -> E -> (bool * option PyEvent * string) * E.

Lemma adict_get_set (d : ActionDict) (k k' : string) (v : PyVal) :
  adict_get (adict_set d k v) k'
  = if String.eqb k k' then Some v else adict_get d k'.
Proof.
  induction d as [| [k0 v0] d IH]; cbn [adict_set adict_get].
  - reflexivity.
  - destruct (String.eqb_spec k0 k) as [-> | Hne]; cbn [adict_get].
    + destruct (String.eqb k k'); reflexivity.
    + rewrite IH. destruct (String.eqb_spec k0 k') as [-> | Hne'];
        [| reflexivity].
      destruct (String.eqb_spec k k') as [-> | _]; [congruence | reflexivity].
Qed.

Lemma with_agent_get (action_dict : option ActionDict) (k : string) :
  adict_get (_with_agent primary_agent_index action_dict) k
  = if String.eqb "agentId" k then
      match adict_get (default [] action_dict) "agentId" with
      | None | Some PNone => Some (PInt primary_agent_index)
      | Some v => Some v
      end
    else adict_get (default [] action_dict) k.
Proof.
  unfold _with_agent.
  replace (match action_dict with Some d => d | None => [] end)
    with (default [] action_dict) by (destruct action_dict; reflexivity).
  destruct (adict_get (default [] action_dict) "agentId") as [[| n | s | b] |]
    eqn:Hget; rewrite ?adict_get_set;
    destruct (String.eqb_spec "agentId" k) as [<- | Hne];
    try reflexivity; exact Hget.
Qed.

Lemma with_agent_idempotent (action_dict : option ActionDict) :
  _with_agent primary_agent_index
    (Some (_with_agent primary_agent_index action_dict))
  = _with_agent primary_agent_index action_dict.
Proof.
  unfold _with_agent at 1.
  rewrite (with_agent_get action_dict "agentId"). cbn [String.eqb Ascii.eqb
    Bool.eqb].
  destruct (adict_get (default [] action_dict) "agentId")
    as [[| n | s | b] |]; reflexivity.
Qed.

Lemma py_getitem_spec {A : Type} (l : list A) (i : Z) :
  let n := Z.of_nat (length l) in
  (0 <= i < n ->
   exists a, nth_error l (Z.to_nat i) = Some a /\ py_getitem l i = At a)
  /\ (- n <= i < 0 ->
      exists a, nth_error l (Z.to_nat (n + i)) = Some a
                /\ py_getitem l i = At a)
  /\ (i < - n \/ n <= i -> py_getitem l i = IndexError).
Proof.
  intros n. unfold py_getitem. fold n. split; [| split].
  - intros Hi.
    replace (i <? 0) with false by (symmetry; apply Z.ltb_ge; lia).
    replace ((0 <=? i) && (i <? n)) with true
      by (symmetry; apply andb_true_iff; split;
          [apply Z.leb_le | apply Z.ltb_lt]; lia).
    destruct (nth_error l (Z.to_nat i)) as [a |] eqn:Hn; [eauto |].
    apply nth_error_None in Hn. lia.
  - intros Hi.
    replace (i <? 0) with true by (symmetry; apply Z.ltb_lt; lia).
    replace ((0 <=? i + n) && (i + n <? n)) with true
      by (symmetry; apply andb_true_iff; split;
          [apply Z.leb_le | apply Z.ltb_lt]; lia).
    replace (n + i) with (i + n) by lia.
    destruct (nth_error l (Z.to_nat (i + n))) as [a |] eqn:Hn; [eauto |].
    apply nth_error_None in Hn. lia.
  - intros [Hi | Hi].
    + replace (i <? 0) with true by (symmetry; apply Z.ltb_lt; lia).
      replace (0 <=? i + n) with false by (symmetry; apply Z.leb_gt; lia).
      reflexivity.
    + replace (i <? 0) with false by (symmetry; apply Z.ltb_ge; lia).
      replace (i <? n) with false by (symmetry; apply Z.ltb_ge; lia).
      rewrite andb_false_r. reflexivity.
Qed.

Lemma primary_event_cases (own : Executor.Event) (first : PyEvent)
  (others : list PyEvent) :
  let l := first :: others in
  let n := Z.of_nat (length l) in
  let event := Some (mkPyEvent own (Some l)) in
  (0 <= primary_agent_index < n ->
   exists e, nth_error l (Z.to_nat primary_agent_index) = Some e
             /\ _primary_event primary_agent_index event = At (Some e))
  /\ (n <= primary_agent_index ->
      _primary_event primary_agent_index event = At (Some first))
  /\ (- n <= primary_agent_index < 0 ->
      exists e, nth_error l (Z.to_nat (n + primary_agent_index)) = Some e
                /\ _primary_event primary_agent_index event = At (Some e))
  /\ (primary_agent_index < - n ->
      _primary_event primary_agent_index event = IndexError).
Proof.
  intros l n event.
  destruct (py_getitem_spec l primary_agent_index) as (Hin & Hneg & Hout).
  fold n in Hin, Hneg, Hout.
  assert (Hev : _primary_event primary_agent_index event
                = if primary_agent_index <? n then
                    match py_getitem l primary_agent_index with
                    | At e => At (Some e)
                    | IndexError => IndexError
                    end
                  else At (Some first)) by reflexivity.
  rewrite Hev. clear Hev.
  split; [| split; [| split]].
  - intros Hi. destruct (Hin Hi) as (e & Hn & ->).
    replace (primary_agent_index <? n) with true
      by (symmetry; apply Z.ltb_lt; lia).
    eauto.
  - intros Hi.
    replace (primary_agent_index <? n) with false
      by (symmetry; apply Z.ltb_ge; lia).
    reflexivity.
  - intros Hi. destruct (Hneg Hi) as (e & Hn & ->).
    replace (primary_agent_index <? n) with true
      by (symmetry; apply Z.ltb_lt; lia).
    eauto.
  - intros Hi. rewrite (Hout ltac:(lia)).
    replace (primary_agent_index <? n) with true
      by (symmetry; apply Z.ltb_lt; lia).
    reflexivity.
Qed.

Lemma dispatch_valid (primitive : ActionDict) (smooth_nav : option bool)
  (env : E) (name : PyVal) :
  adict_get primitive "action" = Some name ->
  py_truthy (Some name) = true ->
  let sent :=
    [("action"%string, name); ("agentId"%string, PInt primary_agent_index)]
    ++ match adict_get primitive "objectId" with
       | Some oid => [("object_id"%string, oid)]
       | None => []
       end in
  let '((success, event, error), env') :=
    super_execute_action sent (default args_smooth_nav smooth_nav) env in
  _dispatch_nav_action primary_agent_index args_smooth_nav E last_event
    super_execute_action primitive smooth_nav env
  = (match _primary_event primary_agent_index event with
     | At event' => At (success, event', error)
     | IndexError => IndexError
     end, env').
Proof.
  intros Hname Htruthy sent. subst sent.
  unfold _dispatch_nav_action, execute_action. rewrite Hname, Htruthy.
  destruct (adict_get primitive "objectId") as [oid |];
    cbn [negb default from_option id _with_agent adict_get adict_set
         String.eqb Ascii.eqb Bool.eqb app];
    destruct (super_execute_action _ _ env) as [[[success event] error] env'];
    destruct (_primary_event primary_agent_index event); reflexivity.
Qed.

Lemma dispatch_invalid (primitive : ActionDict) (smooth_nav : option bool)
  (env : E) :
  py_truthy (adict_get primitive "action") = false ->
  _dispatch_nav_action primary_agent_index args_smooth_nav E last_event
    super_execute_action primitive smooth_nav env
  = (match _primary_event primary_agent_index (last_event env) with
     | At event => At (false, event, msg_invalid_primitive)
     | IndexError => IndexError
     end, env).
Proof.
  intros H. unfold _dispatch_nav_action. rewrite H. cbn [negb].
  destruct (_primary_event primary_agent_index (last_event env)); reflexivity.
Qed.

End MultiFacts.

(** X21. [_with_agent] always returns a dictionary with an agentId: the
    caller's own when the dictionary has one that is not None, the primary
    agent index otherwise (no dictionary, no agentId, or agentId None);
    every other key keeps its value; and applying it to its own result
    changes nothing. *)
Theorem with_agent_fills_missing_agent_id (primary_agent_index : Z)
  (action_dict : option Multi.ActionDict) :
  let given := default [] action_dict in
  let result := Multi._with_agent primary_agent_index action_dict in
  Multi.adict_get result "agentId"
  = match Multi.adict_get given "agentId" with
    | None | Some Multi.PNone => Some (Multi.PInt primary_agent_index)
    | Some v => Some v
    end
  /\ Multi.adict_get result "agentId" <> None
  /\ Multi.adict_get result "agentId" <> Some Multi.PNone
  /\ (forall k, k <> "agentId"%string ->
                Multi.adict_get result k = Multi.adict_get given k)
  /\ Multi._with_agent primary_agent_index (Some result) = result.
Proof.
  intros given result.
  pose proof (with_agent_get primary_agent_index action_dict "agentId") as Hid.
  cbn [String.eqb Ascii.eqb Bool.eqb] in Hid. fold given result in Hid.
  split; [exact Hid |].
  split; [rewrite Hid; destruct (Multi.adict_get given "agentId")
            as [[| n | s | b] |]; discriminate |].
  split; [rewrite Hid; destruct (Multi.adict_get given "agentId")
            as [[| n | s | b] |]; discriminate |].
  split.
  - intros k Hk. unfold result.
    rewrite (with_agent_get primary_agent_index action_dict k).
    destruct (String.eqb_spec "agentId" k) as [<- | _]; [congruence |].
    reflexivity.
  - apply with_agent_idempotent.
Qed.

(** X22. [_primary_event] on an event whose [events] attribute is a
    non-empty list of n events: for a primary agent index i with
    0 <= i < n it returns events[i]; for i >= n it falls back to
    events[0]; a negative index passes the bound test and is read from the
    end of the list (events[n + i]) when -n <= i < 0, and raises
    IndexError when i < -n.  None, and an event without such a list, are
    returned unchanged. *)
Theorem primary_event_selection (primary_agent_index : Z)
  (own : Executor.Event) (first : Multi.PyEvent)
  (others : list Multi.PyEvent) :
  let l := first :: others in
  let n := Z.of_nat (length l) in
  let event := Some (Multi.mkPyEvent own (Some l)) in
  (0 <= primary_agent_index < n ->
   exists e, nth_error l (Z.to_nat primary_agent_index) = Some e
             /\ Multi._primary_event primary_agent_index event
                = Multi.At (Some e))
  /\ (n <= primary_agent_index ->
      Multi._primary_event primary_agent_index event
      = Multi.At (Some first))
  /\ (- n <= primary_agent_index < 0 ->
      exists e, nth_error l (Z.to_nat (n + primary_agent_index)) = Some e
                /\ Multi._primary_event primary_agent_index event
                   = Multi.At (Some e))
  /\ (primary_agent_index < - n ->
      Multi._primary_event primary_agent_index event = Multi.IndexError)
  /\ Multi._primary_event primary_agent_index None = Multi.At None
  /\ Multi._primary_event primary_agent_index
       (Some (Multi.mkPyEvent own None))
     = Multi.At (Some (Multi.mkPyEvent own None))
  /\ Multi._primary_event primary_agent_index
       (Some (Multi.mkPyEvent own (Some [])))
     = Multi.At (Some (Multi.mkPyEvent own (Some []))).
Proof.
  intros l n event.
  destruct (primary_event_cases primary_agent_index own first others)
    as (H1 & H2 & H3 & H4).
  repeat split; auto.
Qed.

(** X23. What the multi-agent [_dispatch_nav_action] sends.  For a
    primitive with a non-empty action name, the dictionary handed to the
    inherited [execute_action] holds exactly the action name, agentId set
    to the primary agent index (an agentId carried by the primitive is
    dropped), and object_id when the primitive has objectId, nothing else;
    [_with_agent] leaves it as it is, and the returned event is the
    primary agent's.  For a primitive without an action name nothing is
    sent: the result is (False, primary event of env.last_event,
    'Invalid navigation primitive'). *)
Theorem multi_dispatch_sends_primary_agent (primary_agent_index : Z)
  (args_smooth_nav : bool) (E : Type)
  (last_event : E -> option Multi.PyEvent)
  (super_execute_action :
     Multi.ActionDict -> bool -> E
     -> (bool * option Multi.PyEvent * string) * E)
  (primitive : Multi.ActionDict) (smooth_nav : option bool) (env : E) :
  (forall name,
      Multi.adict_get primitive "action" = Some name ->
      Multi.py_truthy (Some name) = true ->
      let sent :=
        [("action"%string, name);
         ("agentId"%string, Multi.PInt primary_agent_index)]
        ++ match Multi.adict_get primitive "objectId" with
           | Some oid => [("object_id"%string, oid)]
           | None => []
           end in
      let '((success, event, error), env') :=
        super_execute_action sent (default args_smooth_nav smooth_nav) env in
      Multi._dispatch_nav_action primary_agent_index args_smooth_nav E
        last_event super_execute_action primitive smooth_nav env
      = (match Multi._primary_event primary_agent_index event with
         | Multi.At event' => Multi.At (success, event', error)
         | Multi.IndexError => Multi.IndexError
         end, env'))
  /\ (Multi.py_truthy (Multi.adict_get primitive "action") = false ->
      Multi._dispatch_nav_action primary_agent_index args_smooth_nav E
        last_event super_execute_action primitive smooth_nav env
      = (match Multi._primary_event primary_agent_index (last_event env) with
         | Multi.At event => Multi.At (false, event, Multi.msg_invalid_primitive)
         | Multi.IndexError => Multi.IndexError
         end, env)).
Proof.
  split.
  - intros name Hname Htruthy.
    exact (dispatch_valid primary_agent_index args_smooth_nav E last_event
             super_execute_action primitive smooth_nav env name Hname Htruthy).
  - exact (dispatch_invalid primary_agent_index args_smooth_nav E last_event
             super_execute_action primitive smooth_nav env).
Qed.

(** ** A* on a goal that cannot be reached *)

Section ConsistentHeuristic.
Import AStar Inv.
Local Open Scope R_scope.

Lemma sqrt_le_of_square (x y : R) : 0 <= y -> x <= y * y -> sqrt x <= y.
Proof.
  intros Hy Hx. rewrite <- (sqrt_square y Hy). apply sqrt_le_1_alt. exact Hx.
Qed.

Lemma sqrt_triangle (a b c d : R) :
  sqrt ((a + c) * (a + c) + (b + d) * (b + d))
  <= sqrt (a * a + b * b) + sqrt (c * c + d * d).
Proof.
  assert (H1 : 0 <= a * a + b * b) by nra.
  assert (H2 : 0 <= c * c + d * d) by nra.
  pose proof (sqrt_pos (a * a + b * b)) as Hs1.
  pose proof (sqrt_pos (c * c + d * d)) as Hs2.
  pose proof (sqrt_sqrt _ H1) as Hq1. pose proof (sqrt_sqrt _ H2) as Hq2.
  set (s1 := sqrt (a * a + b * b)) in *.
  set (s2 := sqrt (c * c + d * d)) in *.
  clearbody s1 s2.
  apply sqrt_le_of_square; [lra |].
  assert (Hcs : (a * c + b * d) * (a * c + b * d) <= (s1 * s2) * (s1 * s2)).
  { replace ((s1 * s2) * (s1 * s2)) with ((s1 * s1) * (s2 * s2)) by ring.
    rewrite Hq1, Hq2.
    pose proof (Rle_0_sqr (a * d - b * c)) as Hsq. unfold Rsqr in Hsq. nra. }
  assert (Hp : 0 <= s1 * s2) by nra.
  assert (Hdot : a * c + b * d <= s1 * s2).
  { destruct (Rle_dec (a * c + b * d) (s1 * s2)) as [H | H]; [exact H |].
    apply Rnot_le_lt in H. nra. }
  nra.
Qed.

Lemma sqrt_le_abs_sum (c d : R) : sqrt (c * c + d * d) <= Rabs c + Rabs d.
Proof.
  pose proof (Rabs_pos c). pose proof (Rabs_pos d).
  apply sqrt_le_of_square; [lra |].
  assert (Rabs c * Rabs c = c * c)
    by (unfold Rabs; destruct (Rcase_abs c); ring).
  assert (Rabs d * Rabs d = d * d)
    by (unfold Rabs; destruct (Rcase_abs d); ring).
  nra.
Qed.

(** The heuristic is consistent: between two keys [k] grid steps apart it
    differs by at most [k]. *)
Lemma h2_consistent (c p q : PositionKey) (k : Z) :
  (Z.abs (fst p - fst q) + Z.abs (snd p - snd q) <= 25 * k)%Z ->
  sqrt (IZR (h2 c p)) <= sqrt (IZR (h2 c q)) + 25 * IZR k.
Proof.
  intros Hk. unfold h2. rewrite !Z.pow_2_r.
  rewrite !plus_IZR, !mult_IZR, !minus_IZR.
  set (a := IZR (fst q) - IZR (fst c)). set (b := IZR (snd q) - IZR (snd c)).
  set (u := IZR (fst p) - IZR (fst q)). set (v := IZR (snd p) - IZR (snd q)).
  replace (IZR (fst p) - IZR (fst c)) with (a + u) by (unfold a, u; ring).
  replace (IZR (snd p) - IZR (snd c)) with (b + v) by (unfold b, v; ring).
  pose proof (sqrt_triangle a b u v) as Ht.
  pose proof (sqrt_le_abs_sum u v) as Hm.
  apply IZR_le in Hk. rewrite plus_IZR, mult_IZR, !abs_IZR, !minus_IZR in Hk.
  fold u v in Hk. lra.
Qed.

Lemma entry_not_below (e m : Entry) :
  entry_ltb e m = false -> fval_ltb (e_f e) (e_f m) = false.
Proof.
  unfold entry_ltb, fval_eqb. intros H.
  destruct (fval_ltb (e_f e) (e_f m)); [| reflexivity].
  cbn in H. exact H.
Qed.

(** The least item of the open list costs no more than an item [k] steps
    before its pose. *)
Lemma least_cost_general (e m : Entry) (k re rm : Z) :
  e_f e = mkF (e_g e) re -> e_f m = mkF (e_g m) rm ->
  (0 <= re)%Z -> (0 <= rm)%Z ->
  sqrt (IZR re) <= sqrt (IZR rm) + 25 * IZR k ->
  entry_ltb e m = false ->
  (e_g m <= e_g e + k)%Z.
Proof.
  intros He Hm Hre Hrm Hh Hlt. apply entry_not_below in Hlt.
  assert (Hnot : ~ fval_R (e_f e) < fval_R (e_f m)).
  { intros H. apply fval_ltb_spec in H; [congruence | |];
      [rewrite He | rewrite Hm]; assumption. }
  apply Rnot_lt_le in Hnot. rewrite He, Hm in Hnot.
  unfold fval_R in Hnot. cbn [fbase frad] in Hnot.
  apply le_IZR. rewrite plus_IZR. lra.
Qed.

(** Of two items with the same pose, the cheaper one is below. *)
Lemma cheaper_is_below (e m : Entry) (r : Z) :
  e_f e = mkF (e_g e) r -> e_f m = mkF (e_g m) r -> (0 <= r)%Z ->
  (e_g e < e_g m)%Z -> entry_ltb e m = true.
Proof.
  intros He Hm Hr Hlt.
  assert (Hf : fval_ltb (e_f e) (e_f m) = true).
  { apply fval_ltb_spec; [rewrite He; exact Hr | rewrite Hm; exact Hr |].
    rewrite He, Hm. unfold fval_R. cbn [fbase frad].
    apply IZR_lt in Hlt. lra. }
  unfold entry_ltb, fval_eqb. rewrite Hf. reflexivity.
Qed.

End ConsistentHeuristic.

Section AStarTotal.
Import Inv AStar AStarInv Plan.

Variable nodes : NodeTable.
Hypothesis Hwf : wf_table nodes.
Variable goal_key : PositionKey.
Hypothesis Hgoal : dict_mem nodes goal_key = true.
Variable start_state : State.
Hypothesis Hstart : valid_state nodes start_state.

Abbreviation adj := (build_adjacency nodes).
Abbreviation sinv := (search_inv nodes adj goal_key start_state).
Abbreviation cap := (cost_cap nodes).
Abbreviation mu := (measure nodes).

(** Along a plan from a pose with a recorded cost, either an item of the
    open list is met, or the end of the plan has a recorded cost. *)
Lemma frontier_any (st : Search) :
  sinv None st ->
  forall (plan : list Action) (s t : State) (g : Z),
    g_score st !! s = Some g ->
    run nodes adj s plan = Some t ->
    (exists (e : Entry) (plan' : list Action),
        In e (open_heap st)
        /\ run nodes adj (e_state e) plan' = Some t
        /\ e_g e + Z.of_nat (length plan') <= g + Z.of_nat (length plan))
    \/ (exists gt, g_score st !! t = Some gt
                   /\ gt <= g + Z.of_nat (length plan)).
Proof.
  intros Hinv. induction plan as [| a plan IH]; intros s t g Hg Hrun.
  - injection Hrun as <-. right. exists g. split; [exact Hg | cbn; lia].
  - destruct (inv_settled _ _ _ _ _ _ Hinv s g ltac:(discriminate) Hg)
      as [(e & Hin & <- & <-) | (Hng & Hsucc)].
    + left. exists e, (a :: plan).
      split; [exact Hin |]. split; [exact Hrun | lia].
    + cbn [run] in Hrun.
      destruct (exec_action nodes adj s a) as [s' |] eqn:Hex;
        [| discriminate].
      cbn in Hrun. destruct (Hsucc a s' Hex) as (g' & Hg' & Hle).
      destruct (IH s' t g' Hg' Hrun)
        as [(e & plan' & Hin & Hrun' & Hlen) | (gt & Hgt & Hlen)].
      * left. exists e, plan'. split; [exact Hin |].
        split; [exact Hrun' |]. cbn [length]. lia.
      * right. exists gt. split; [exact Hgt |]. cbn [length]. lia.
Qed.

(** The least item of the open list, when its pose still has an item of
    the recorded cost on the list, costs less than the number of poses. *)
Lemma popped_cost_bound (st : Search) (m : Entry) (rest : list Entry)
  (gm : Z) :
  sinv None st ->
  open_heap st ≡ₚ m :: rest ->
  (forall x, In x rest -> entry_ltb x m = false) ->
  g_score st !! e_state m = Some gm ->
  (exists e, In e (open_heap st) /\ e_state e = e_state m /\ e_g e = gm) ->
  e_g m + 2 <= cap.
Proof.
  intros Hinv Hperm Hmin Hgm (e0 & Hin0 & Hs0 & Hg0).
  destruct (inv_cost _ _ _ _ _ _ Hinv _ _ Hgm) as [_ Hgm0].
  destruct (reconstruct_ok nodes goal_key start_state None st Hinv
              (Z.to_nat gm) (e_state m) gm [] Hgm ltac:(lia))
    as (plan & _ & Hrun & _).
  destruct (short_plan nodes Hwf start_state (e_state m) plan Hstart Hrun)
    as (plan1 & Hrun1 & Hshort).
  assert (Hitem : exists e k,
             In e (open_heap st) /\ 0 <= k
             /\ Z.abs (fst (fst (e_state e)) - fst (fst (e_state m)))
                + Z.abs (snd (fst (e_state e)) - snd (fst (e_state m)))
                <= 25 * k
             /\ e_g e + k <= Z.of_nat (length plan1)).
  { destruct (frontier_any st Hinv plan1 start_state (e_state m) 0
                (proj1 (inv_start _ _ _ _ _ _ Hinv)) Hrun1)
      as [(e & plan' & Hin & Hrun' & Hlen) | (gt & Hgt & Hlen)].
    - exists e, (Z.of_nat (length plan')). split; [exact Hin |].
      split; [lia |]. split; [| lia].
      pose proof (run_distance nodes Hwf plan' _ _ Hrun'). lia.
    - exists e0, 0. split; [exact Hin0 |]. split; [lia |].
      rewrite Hs0. split; [lia |].
      rewrite Hgm in Hgt. injection Hgt as <-. lia. }
  destruct Hitem as (e & k & Hin & Hk & Hdist & Hlen).
  assert (Hle : e_g m <= e_g e + k).
  { apply (Permutation_in _ Hperm) in Hin as Hin'.
    destruct Hin' as [<- | Hrest]; [lia |].
    pose proof (proj1 (List.Forall_forall _ _)
                  (inv_heap _ _ _ _ _ _ Hinv)) as Hall.
    destruct (Hall e Hin) as (_ & Hfe & _).
    assert (Hinm : In m (open_heap st))
      by (eapply Permutation_in; [symmetry; exact Hperm | left; reflexivity]).
    destruct (Hall m Hinm) as (_ & Hfm & _).
    eapply (least_cost_general e m k _ _ Hfe Hfm).
    - unfold h2. nia.
    - unfold h2. nia.
    - apply h2_consistent. exact Hdist.
    - apply Hmin. exact Hrest. }
  unfold cost_cap. lia.
Qed.

(** A relaxation that does not improve the recorded cost changes
    nothing. *)
Lemma relax_noop (st : Search) (cur new : State) (t g' : Z) (a : Action)
  (hkey : PositionKey) :
  g_score st !! new = Some g' -> g' <= t ->
  relax nodes goal_key st cur t new a hkey = Ok st.
Proof.
  intros Hnew Hle. unfold relax, improves. rewrite Hnew.
  destruct (Z.ltb_spec t g') as [Hlt | _]; [lia | reflexivity].
Qed.

(** Expanding a pose whose successors all have a cost that is low enough
    changes nothing. *)
Lemma expand_noop (st : Search) (cur : State) (gcur : Z) :
  valid_state nodes cur ->
  (forall a s', exec_action nodes adj cur a = Some s' ->
                exists g', g_score st !! s' = Some g' /\ g' <= gcur + 1) ->
  expand nodes adj goal_key st gcur cur = Ok st.
Proof.
  intros Hv Hsucc. destruct cur as [p h]. destruct Hv as [Hp Hh].
  cbn in Hp, Hh.
  destruct (Hsucc RotateLeft _ eq_refl) as (gl & Hgl & Hlel).
  destruct (Hsucc RotateRight _ eq_refl) as (gr & Hgr & Hler).
  unfold expand.
  rewrite (relax_noop st _ _ _ gl RotateLeft p Hgl Hlel), rbind_Ok.
  rewrite (relax_noop st _ _ _ gr RotateRight p Hgr Hler), rbind_Ok.
  destruct (cardinal_direction_some h Hh) as [d Hd].
  rewrite Hd, getitem_Some, rbind_Ok.
  pose proof Hp as Hp'. apply dict_mem_get in Hp' as [pos Hpos].
  rewrite Hpos, getitem_Some, rbind_Ok, adjacency_get, Hpos.
  cbn [fmap option_fmap option_map]. rewrite getitem_Some, rbind_Ok.
  pose proof (exec_move_unfold nodes p h) as Hmove.
  rewrite Hd, Hpos in Hmove. cbv zeta in Hmove.
  destruct (key_in (make_key (px pos + d.1) (pz pos + d.2))
              (neighbors_of nodes pos)) eqn:Hin; [| reflexivity].
  destruct (Hsucc MoveAhead _ Hmove) as (gm & Hgm & Hlem).
  exact (relax_noop st _ _ _ gm MoveAhead _ Hgm Hlem).
Qed.

(** The search loop ends within its bound on a table of any shape: with
    a plan that ends at the goal, or with the error of the last line. *)
Lemma astar_loop_total (fuel : nat) :
  forall st : Search,
    sinv None st ->
    mu st < Z.of_nat fuel ->
    (exists plan t,
        astar_loop nodes adj goal_key fuel st = Ok plan
        /\ run nodes adj start_state plan = Some t
        /\ fst t = goal_key)
    \/ astar_loop nodes adj goal_key fuel st
       = Raise (RuntimeError msg_astar_no_path).
Proof.
  induction fuel as [| fuel IH]; intros st Hinv Hmu.
  - pose proof (measure_nonneg nodes goal_key start_state None st Hinv). lia.
  - cbn [astar_loop].
    destruct (heappop entry_ltb (open_heap st)) as [[m rest] |] eqn:Hpop;
      [| right; reflexivity].
    assert (Hok : Forall entry_ok (open_heap st)).
    { eapply Forall_impl; [exact (inv_heap _ _ _ _ _ _ Hinv) |].
      apply heap_inv_entry_ok. }
    destruct (heappop_least entry_ok entry_ltb entry_ltb_strict_weak
                _ _ _ Hok Hpop) as [Hperm Hmin].
    assert (Hm : heap_inv nodes goal_key (g_score st) m).
    { apply (proj1 (List.Forall_forall _ _) (inv_heap _ _ _ _ _ _ Hinv)).
      eapply Permutation_in; [symmetry; exact Hperm | left; reflexivity]. }
    destruct Hm as (Hvm & Hfm & gm & Hgm & Hgmle).
    destruct (key_eqb (fst (e_state m)) goal_key) eqn:Hgoalm.
    + (* the goal is popped *)
      left. apply key_eqb_eq in Hgoalm.
      destruct (inv_cost _ _ _ _ _ _ Hinv _ _ Hgm) as [_ Hgm0].
      destruct (reconstruct_ok nodes goal_key start_state None st Hinv
                  (Z.to_nat (e_g m)) (e_state m) gm [] Hgm ltac:(lia))
        as (plan & Hrec & Hrun & _).
      exists plan, (e_state m). cbn [came_from].
      rewrite app_nil_r in Hrec. auto.
    + apply key_eqb_neq in Hgoalm.
      assert (Hlen : length (open_heap st) = S (length rest))
        by (rewrite (Permutation_length Hperm); reflexivity).
      set (stp := mkSearch rest (came_from st) (g_score st) (counter st)).
      assert (Hmup : mu stp = mu st - 1).
      { unfold measure, stp. cbn [g_score open_heap]. lia. }
      assert (Hinvs : sinv (Some (e_state m)) stp).
      { apply (pop_inv nodes goal_key start_state _ st m rest);
          [exact Hinv | exact Hperm |].
        intros s g Hs _. left. congruence. }
      destruct (inv_settled _ _ _ _ _ _ Hinv (e_state m) gm
                  ltac:(discriminate) Hgm) as [Hitem | (_ & Hsucc)].
      * (* an item of the recorded cost is on the list *)
        pose proof (popped_cost_bound st m rest gm Hinv Hperm Hmin Hgm Hitem)
          as Hcap.
        destruct (Z.eq_dec gm (e_g m)) as [Hfresh | Hstale].
        -- destruct (expand_step nodes Hwf goal_key Hgoal start_state
                       (Some (e_state m)) stp (e_state m) gm (e_g m)
                       Hinvs Hgm Hgmle Hcap)
             as (st' & Hexp & Hinv' & _ & Hsucc & Hmu' & _ & Hcur').
           rewrite Hexp, rbind_Ok. apply IH; [| lia].
           apply (settle_expanded nodes goal_key start_state st'
                    (e_state m) gm Hinv' Hcur').
           right. split; [exact Hgoalm |]. intros a s' Hex.
           destruct (Hsucc a s' Hex) as (g' & Hg' & Hle').
           exists g'. split; [exact Hg' | lia].
        -- assert (Hinvp : sinv None stp).
           { apply (pop_inv nodes goal_key start_state _ st m rest);
               [exact Hinv | exact Hperm |].
             intros s g _ Hg.
             destruct (decide (s = e_state m)) as [-> | Hne]; [| auto].
             right. rewrite Hgm in Hg. injection Hg as <-. exact Hstale. }
           destruct (expand_step nodes Hwf goal_key Hgoal start_state
                       None stp (e_state m) gm (e_g m)
                       Hinvp Hgm Hgmle Hcap)
             as (st' & Hexp & Hinv' & _ & _ & Hmu' & _ & _).
           rewrite Hexp, rbind_Ok. apply IH; [exact Hinv' | lia].
      * (* the pose has been expanded at its recorded cost *)
        assert (Hsucc' : forall a s',
                   exec_action nodes adj (e_state m) a = Some s' ->
                   exists g', g_score stp !! s' = Some g'
                              /\ g' <= e_g m + 1).
        { intros a s' Hex. destruct (Hsucc a s' Hex) as (g' & Hg' & Hle').
          exists g'. split; [exact Hg' | lia]. }
        rewrite (expand_noop stp (e_state m) (e_g m) Hvm Hsucc'), rbind_Ok.
        apply IH; [| lia].
        apply (settle_expanded nodes goal_key start_state stp
                 (e_state m) gm Hinvs Hgm).
        right. split; [exact Hgoalm | exact Hsucc].
Qed.

(** A plan only leads to a key connected to the one it starts on. *)
Lemma run_connected (plan : list Action) :
  forall s t : State,
    run nodes adj s plan = Some t -> connected adj (fst s) (fst t).
Proof.
  induction plan as [| a plan IH] using rev_ind; intros s t Hrun.
  - injection Hrun as <-. constructor.
  - rewrite run_app in Hrun.
    destruct (run nodes adj s plan) as [s1 |] eqn:H1; [| discriminate].
    cbn in Hrun. specialize (IH s s1 H1).
    destruct (exec_action nodes adj s1 a) as [s2 |] eqn:Hex;
      [| discriminate].
    cbn in Hrun. injection Hrun as <-.
    destruct s1 as [p h]. destruct a; try discriminate.
    + rewrite exec_move_unfold in Hex.
      destruct (cardinal_direction h) as [d |]; [| discriminate].
      destruct (dict_get nodes p) as [pos |] eqn:Hpos; [| discriminate].
      cbv zeta in Hex.
      destruct (key_in _ (neighbors_of nodes pos)) eqn:Hin; [| discriminate].
      injection Hex as <-. cbn [fst] in *.
      eapply connected_step; [exact IH | | exact Hin].
      rewrite adjacency_get, Hpos. reflexivity.
    + injection Hex as <-. exact IH.
    + injection Hex as <-. exact IH.
Qed.

End AStarTotal.

Lemma astar_actions_outcome (positions : list Position)
  (start_key : PositionKey) (start_yaw : Z) (goal_key : PositionKey) :
  let nodes := build_node_lookup positions in
  let adjacency := build_adjacency nodes in
  cardinal start_yaw ->
  dict_mem nodes start_key = true ->
  dict_mem nodes goal_key = true ->
  (exists plan,
      AStar.astar_actions nodes adjacency start_key start_yaw goal_key
      = Ok plan
      /\ Plan.reaches nodes adjacency (start_key, start_yaw) plan goal_key)
  \/ AStar.astar_actions nodes adjacency start_key start_yaw goal_key
     = Raise (RuntimeError msg_astar_no_path).
Proof.
  intros nodes adjacency Hyaw Hstart Hgoal.
  pose proof (build_node_lookup_wf positions) as Hwf. fold nodes in Hwf.
  unfold AStar.astar_actions.
  destruct (key_eqb start_key goal_key) eqn:Heq.
  { apply key_eqb_eq in Heq. subst goal_key. left. exists [].
    split; [reflexivity | exists start_yaw; reflexivity]. }
  assert (Hv : Inv.valid_state nodes (start_key, start_yaw))
    by (split; assumption).
  rewrite (heuristic_h2 nodes Hwf goal_key Hgoal start_key Hstart), rbind_Ok.
  destruct (astar_loop_total nodes Hwf goal_key Hgoal
              (start_key, start_yaw) Hv (AStar.astar_fuel nodes) _
              (astar_initial_inv nodes goal_key (start_key, start_yaw) Hv))
    as [(plan & t & Hloop & Hrun & Ht) | Hraise].
  - unfold AStarInv.measure, AStar.astar_fuel.
    cbn [AStar.g_score AStar.open_heap AStar.heappush length].
    pose proof (potential_le_cap (AStarInv.cost_cap nodes)
                  (Inv.all_states nodes) {[ (start_key, start_yaw) := 0 ]})
      as Hpot.
    rewrite (all_states_length nodes) in Hpot.
    assert (Hcap : AStarInv.cost_cap nodes
                   = Z.of_nat (4 * length nodes) + 1) by reflexivity.
    rewrite Hcap in *.
    specialize (Hpot ltac:(intros s g Hs;
                           apply lookup_singleton_Some in Hs as [_ <-];
                           lia)).
    set (n := (4 * length nodes)%nat) in *. clearbody n.
    set (P := Inv.potential _ _ _) in *. clearbody P.
    rewrite Nat2Z.inj_add, !Nat2Z.inj_mul, Nat2Z.inj_add. cbn [Z.of_nat].
    nia.
  - left. exists plan. cbn [fst] in Hloop. split; [exact Hloop |].
    destruct t as [tk th]. cbn [fst] in Ht. subst tk. exists th. exact Hrun.
  - right. cbn [fst] in Hraise. exact Hraise.
Qed.

(** X24. On a table built from reachable positions, with its adjacency, a
    cardinal start heading and start and goal in the table,
    [astar_actions] has exactly two outcomes.  When the goal is connected
    to the start in the adjacency it returns a plan that, executed from
    the start pose, ends on the goal; when it is not, the open list runs
    empty and the RuntimeError of the last line is raised.  No KeyError
    is raised, and the search always ends. *)
Theorem astar_actions_plan_or_no_path (positions : list Position)
  (start_key : PositionKey) (start_yaw : Z) (goal_key : PositionKey) :
  let nodes := build_node_lookup positions in
  let adjacency := build_adjacency nodes in
  cardinal start_yaw ->
  dict_mem nodes start_key = true ->
  dict_mem nodes goal_key = true ->
  (Plan.connected adjacency start_key goal_key
   /\ exists plan,
        AStar.astar_actions nodes adjacency start_key start_yaw goal_key
        = Ok plan
        /\ Plan.reaches nodes adjacency (start_key, start_yaw) plan goal_key)
  \/ (~ Plan.connected adjacency start_key goal_key
      /\ AStar.astar_actions nodes adjacency start_key start_yaw goal_key
         = Raise (RuntimeError msg_astar_no_path)).
Proof.
  intros nodes adjacency Hyaw Hstart Hgoal.
  destruct (astar_actions_outcome positions start_key start_yaw goal_key
              Hyaw Hstart Hgoal) as [(plan & Hplan & Hreach) | Hraise].
  - left. split; [| exists plan; split; [exact Hplan | exact Hreach]].
    destruct Hreach as [h Hrun].
    exact (run_connected nodes _ _ _ Hrun).
  - right. split; [| exact Hraise]. intros Hconn.
    destruct (astar_actions_correct positions start_key start_yaw goal_key
                Hyaw Hstart Hgoal Hconn) as (plan & Hplan & _).
    unfold adjacency, nodes in Hraise. cbv zeta in Hplan.
    rewrite Hplan in Hraise. discriminate Hraise.
Qed.

Lemma astar_actions_plan_or_no_path_witness :
  (Plan.connected (build_adjacency Samples.apart) (0, 0) (50, 0)
   /\ exists plan,
        AStar.astar_actions Samples.apart (build_adjacency Samples.apart)
          (0, 0) 0 (50, 0) = Ok plan
        /\ Plan.reaches Samples.apart (build_adjacency Samples.apart)
             ((0, 0), 0) plan (50, 0))
  \/ (~ Plan.connected (build_adjacency Samples.apart) (0, 0) (50, 0)
      /\ AStar.astar_actions Samples.apart (build_adjacency Samples.apart)
           (0, 0) 0 (50, 0)
         = Raise (RuntimeError msg_astar_no_path)).
Proof.
  apply (astar_actions_plan_or_no_path
           (map (fun c => Samples.cell (fst c) (snd c)) [(0, 0); (2, 0)])
           (0, 0) 0 (50, 0)).
  - unfold cardinal. lia.
  - reflexivity.
  - reflexivity.
Defined.

(** ** The planning step of a navigation request *)

Lemma dict_set_not_empty {V : Type} (d : list (PositionKey * V))
  (k : PositionKey) (v : V) : dict_set d k v <> [].
Proof.
  destruct d as [| [k' v'] rest]; cbn; [discriminate |].
  destruct (key_eqb k' k); discriminate.
Qed.

Lemma build_node_lookup_not_empty (positions : list Position) :
  positions <> [] -> build_node_lookup positions <> [].
Proof.
  unfold build_node_lookup. intros Hne.
  destruct (exists_last Hne) as (front & pos & ->).
  rewrite fold_left_app. cbn. apply dict_set_not_empty.
Qed.

Lemma nearest_key_answers (nodes : NodeTable) (position : Position) :
  nodes <> [] ->
  exists k, nearest_key nodes position = Ok k /\ dict_mem nodes k = true.
Proof.
  intros Hne. unfold nearest_key.
  destruct (dict_mem nodes (make_key _ _)) eqn:Hmem.
  - eexists. split; [reflexivity | exact Hmem].
  - destruct (py_min_by_first (fun kv => dist2 (snd kv) position) nodes Hne)
      as (i & [k pos] & Hmin & Hi & _).
    rewrite Hmin. exists k. split; [reflexivity |].
    apply list_elem_of_lookup_2, list_elem_of_In in Hi.
    change k with (fst (k, pos)).
    apply dict_keys_mem. unfold dict_keys. apply in_map. exact Hi.
Qed.

Lemma plan_route_outcome (positions : list Position)
  (start_key : PositionKey) (start_yaw : Z) (target_key : PositionKey) :
  let nodes := build_node_lookup positions in
  cardinal start_yaw ->
  dict_mem nodes start_key = true ->
  dict_mem nodes target_key = true ->
  (exists plan,
      Executor.plan_route nodes start_key start_yaw target_key = Ok plan)
  \/ (Executor.plan_route nodes start_key start_yaw target_key
      = Raise (RuntimeError msg_astar_no_path)
      /\ ~ Plan.connected (build_adjacency nodes) start_key target_key).
Proof.
  intros nodes Hyaw Hs Ht. subst nodes. unfold Executor.plan_route.
  destruct (jps_actions_outcome positions start_key start_yaw target_key
              Hs Ht) as [[plan Hplan] | Hraise].
  - left. exists plan. rewrite Hplan. reflexivity.
  - rewrite Hraise.
    destruct (astar_actions_outcome positions start_key start_yaw target_key
                Hyaw Hs Ht) as [(plan & Hplan & _) | Hno].
    + left. exists plan. exact Hplan.
    + right. split; [exact Hno |]. intros Hconn.
      destruct (astar_actions_correct positions start_key start_yaw
                  target_key Hyaw Hs Ht Hconn) as (plan & Hplan & _).
      cbv zeta in Hplan.
      rewrite Hplan in Hno. discriminate Hno.
Qed.



(** ** How long the visibility scan runs *)

Lemma Qltb_lt (a b : Q) : Qltb a b = true <-> (a < b)%Q.
Proof.
  unfold Qltb. rewrite negb_true_iff. split.
  - intros H. apply Qnot_le_lt. intros Hle.
    apply Qle_bool_iff in Hle. congruence.
  - intros H. destruct (Qle_bool b a) eqn:Hb; [| reflexivity].
    apply Qle_bool_iff in Hb. exfalso. exact (Qlt_not_le _ _ H Hb).
Qed.

Lemma steps_nonneg (n : nat) (delta : Q) :
  (0 < delta)%Q -> (0 <= inject_Z (Z.of_nat n) * delta)%Q.
Proof.
  intros Hd. apply Qmult_le_0_compat; [| apply Qlt_le_weak; exact Hd].
  change 0%Q with (inject_Z 0). rewrite <- Zle_Qle. lia.
Qed.

Lemma steps_succ (n : nat) (delta : Q) :
  (inject_Z (Z.of_nat (S n)) * delta
   == inject_Z (Z.of_nat n) * delta + delta)%Q.
Proof.
  rewrite Nat2Z.inj_succ. unfold Z.succ. rewrite inject_Z_plus. ring.
Qed.

Section ScanBounds.
Import Executor Camera.

Variable E : Type.
Variable last_event : E -> option Event.
Variable execute_action :
  Action -> bool -> E -> (bool * option Event * string) * E.

Abbreviation scan :=
  (_adjust_horizon_for_visibility E last_event execute_action).
Abbreviation up_loop := (look_up_loop E execute_action).
Abbreviation down_loop := (look_down_loop E execute_action).

Variable target : string.
Variable smooth_nav : bool.

Section Tilting.

Variable tilt : E -> Q.
Variable delta : Q.
Hypothesis Hcam : tilts_by E execute_action tilt delta smooth_nav.
Hypothesis Hdelta : (0 < delta)%Q.

Lemma up_loop_bounded (n : nat) :
  forall (fuel : nat) (h : Q) (w : World E),
    (h == tilt (fst w))%Q ->
    (h - inject_Z (Z.of_nat n) * delta <= min_horizon + horizon_eps)%Q ->
    (n <= fuel)%nat ->
    exists r w' (k : nat),
      up_loop fuel target smooth_nav h w = (r, w')
      /\ (k <= n)%nat
      /\ snd w' = snd w ++ repeat (CallExecute LookUp) k
      /\ (r = Ok (inl true)
          \/ (exists msg, r = Raise (RuntimeError msg))
          \/ (exists h', r = Ok (inr h')
                         /\ (h' == tilt (fst w'))%Q
                         /\ (h - inject_Z (Z.of_nat n) * delta <= h')%Q)).
Proof.
  induction n as [| n IH]; intros fuel h w Hh Hn Hfuel.
  - assert (Hcond : Qltb (min_horizon + horizon_eps) h = false).
    { destruct (Qltb (min_horizon + horizon_eps) h) eqn:Hc; [| reflexivity].
      apply Qltb_lt in Hc. change (inject_Z (Z.of_nat 0)) with 0%Q in Hn.
      exfalso. lra. }
    exists (Ok (inr h)), w, 0%nat.
    split; [destruct fuel; cbn; rewrite Hcond; reflexivity |].
    split; [lia |]. split; [cbn; rewrite app_nil_r; reflexivity |].
    right. right. exists h. split; [reflexivity |]. split; [exact Hh |].
    change (inject_Z (Z.of_nat 0)) with 0%Q. lra.
  - destruct (Qltb (min_horizon + horizon_eps) h) eqn:Hcond.
    + destruct fuel as [| fuel]; [lia |].
      cbn [look_up_loop]. rewrite Hcond. unfold bind, super_execute.
      destruct (execute_action LookUp smooth_nav (fst w))
        as [[[ok ev] msg] env'] eqn:Hex.
      destruct ok; cbn.
      * destruct (Hcam LookUp _ _ _ _ (or_introl eq_refl) Hex)
          as (e & -> & Hrep & Hstep).
        destruct (event_visible (Some e) target).
        -- exists (Ok (inl true)), (env', snd w ++ [CallExecute LookUp]),
             1%nat.
           split; [reflexivity |]. split; [lia |].
           split; [reflexivity | auto].
        -- cbn [metadata_of]. unfold ret. 
           pose proof (Hrep h) as Hh1.
           destruct (IH fuel (horizon_of (metadata e) h)
                       (env', snd w ++ [CallExecute LookUp]))
             as (r & w' & k & Hrun & Hk & Hlog & Hres).
           { cbn [fst]. exact Hh1. }
           { rewrite Hh1, Hstep. rewrite steps_succ in Hn.
             rewrite <- Hh. lra. }
           { lia. }
           exists r, w', (S k). split; [exact Hrun |]. split; [lia |].
           split.
           { rewrite Hlog. cbn [snd]. rewrite repeat_snoc_app. reflexivity. }
           destruct Hres as [-> | [Hraise | (h' & -> & Hh' & Hlow)]];
             [auto | auto |].
           right. right. exists h'. split; [reflexivity |].
           split; [exact Hh' |].
           rewrite Hh1, Hstep in Hlow. rewrite steps_succ. rewrite Hh. lra.
      * exists (Raise (RuntimeError msg_lookup_failed)),
          (env', snd w ++ [CallExecute LookUp]), 1%nat.
        split; [reflexivity |]. split; [lia |]. split; [reflexivity |].
        right. left. eauto.
    + exists (Ok (inr h)), w, 0%nat.
      split; [destruct fuel; cbn; rewrite Hcond; reflexivity |].
      split; [lia |]. split; [cbn; rewrite app_nil_r; reflexivity |].
      right. right. exists h. split; [reflexivity |]. split; [exact Hh |].
      pose proof (steps_nonneg (S n) delta Hdelta). lra.
Qed.

Lemma down_loop_bounded (m : nat) :
  forall (fuel : nat) (h : Q) (w : World E),
    (h == tilt (fst w))%Q ->
    (max_horizon - horizon_eps <= h + inject_Z (Z.of_nat m) * delta)%Q ->
    (m <= fuel)%nat ->
    exists r w' (k : nat),
      down_loop fuel target smooth_nav h w = (r, w')
      /\ (k <= m)%nat
      /\ snd w' = snd w ++ repeat (CallExecute LookDown) k
      /\ (r = Ok true \/ exists msg, r = Raise (RuntimeError msg)).
Proof.
  induction m as [| m IH]; intros fuel h w Hh Hm Hfuel.
  - assert (Hcond : Qltb h (max_horizon - horizon_eps) = false).
    { destruct (Qltb h (max_horizon - horizon_eps)) eqn:Hc; [| reflexivity].
      apply Qltb_lt in Hc. change (inject_Z (Z.of_nat 0)) with 0%Q in Hm.
      exfalso. lra. }
    exists (Raise (RuntimeError msg_horizon_exceeded)), w, 0%nat.
    split; [destruct fuel; cbn; rewrite Hcond; reflexivity |].
    split; [lia |]. split; [cbn; rewrite app_nil_r; reflexivity |].
    right. eauto.
  - destruct (Qltb h (max_horizon - horizon_eps)) eqn:Hcond.
    + destruct fuel as [| fuel]; [lia |].
      cbn [look_down_loop]. rewrite Hcond. unfold bind, super_execute.
      destruct (execute_action LookDown smooth_nav (fst w))
        as [[[ok ev] msg] env'] eqn:Hex.
      destruct ok; cbn.
      * destruct (Hcam LookDown _ _ _ _ (or_intror eq_refl) Hex)
          as (e & -> & Hrep & Hstep).
        destruct (event_visible (Some e) target).
        -- exists (Ok true), (env', snd w ++ [CallExecute LookDown]), 1%nat.
           split; [reflexivity |]. split; [lia |].
           split; [reflexivity | auto].
        -- cbn [metadata_of]. unfold ret.
           pose proof (Hrep h) as Hh1.
           destruct (IH fuel (horizon_of (metadata e) h)
                       (env', snd w ++ [CallExecute LookDown]))
             as (r & w' & k & Hrun & Hk & Hlog & Hres).
           { cbn [fst]. exact Hh1. }
           { rewrite Hh1, Hstep. rewrite steps_succ in Hm.
             rewrite <- Hh. lra. }
           { lia. }
           exists r, w', (S k). split; [exact Hrun |]. split; [lia |].
           split; [| exact Hres].
           rewrite Hlog. cbn [snd]. rewrite repeat_snoc_app. reflexivity.
      * exists (Raise (RuntimeError msg_lookdown_failed)),
          (env', snd w ++ [CallExecute LookDown]), 1%nat.
        split; [reflexivity |]. split; [lia |]. split; [reflexivity |].
        right. eauto.
    + exists (Raise (RuntimeError msg_horizon_exceeded)), w, 0%nat.
      split; [destruct fuel; cbn; rewrite Hcond; reflexivity |].
      split; [lia |]. split; [cbn; rewrite app_nil_r; reflexivity |].
      right. eauto.
Qed.

Lemma scan_bounded (n m fuel : nat) (w : World E) (ev : Event)
  (md : Metadata) :
  last_event (fst w) = Some ev ->
  metadata ev = Some md ->
  (horizon_of (Some md) 0 == tilt (fst w))%Q ->
  (tilt (fst w) - inject_Z (Z.of_nat n) * delta
   <= min_horizon + horizon_eps)%Q ->
  (max_horizon - horizon_eps
   <= tilt (fst w) - inject_Z (Z.of_nat n) * delta
      + inject_Z (Z.of_nat m) * delta)%Q ->
  (n <= fuel)%nat -> (m <= fuel)%nat ->
  exists r w' (up down : nat),
    scan fuel target smooth_nav w = (r, w')
    /\ (r = Ok true \/ exists msg, r = Raise (RuntimeError msg))
    /\ snd w' = snd w ++ repeat (CallExecute LookUp) up
                      ++ repeat (CallExecute LookDown) down
    /\ (up <= n)%nat /\ (down <= m)%nat.
Proof.
  intros Hev Hmd Hh Hn Hm Hfn Hfm.
  unfold _adjust_horizon_for_visibility, bind, get_last_event.
  rewrite Hev, Hmd.
  destruct (_is_object_visible (Some md) target).
  { exists (Ok true), w, 0%nat, 0%nat. split; [reflexivity |].
    split; [auto |]. split; [cbn; rewrite app_nil_r; reflexivity | lia]. }
  destruct (up_loop_bounded n fuel (horizon_of (Some md) 0) w Hh
              ltac:(rewrite Hh; exact Hn) Hfn)
    as (r & w1 & k & Hup & Hk & Hlog & Hres).
  rewrite Hup.
  destruct Hres as [-> | [[msg ->] | (h' & -> & Hh' & Hlow)]].
  - exists (Ok true), w1, k, 0%nat. split; [reflexivity |].
    split; [auto |]. split; [cbn; rewrite app_nil_r; exact Hlog | lia].
  - exists (Raise (RuntimeError msg)), w1, k, 0%nat. split; [reflexivity |].
    split; [eauto |]. split; [cbn; rewrite app_nil_r; exact Hlog | lia].
  - destruct (down_loop_bounded m fuel h' w1 Hh'
                ltac:(rewrite Hh in Hlow; lra) Hfm)
      as (r2 & w2 & j & Hdown & Hj & Hlog2 & Hres2).
    exists r2, w2, k, j. split; [exact Hdown |]. split; [exact Hres2 |].
    split; [| lia]. rewrite Hlog2, Hlog, app_assoc. reflexivity.
Qed.

End Tilting.

Section Silent.

Hypothesis Hsilent : silent E execute_action target smooth_nav.

Lemma up_loop_stuck (fuel : nat) :
  forall (h : Q) (w : World E),
    Qltb (min_horizon + horizon_eps) h = true ->
    exists env',
      up_loop fuel target smooth_nav h w
      = (OutOfFuel, (env', snd w ++ repeat (CallExecute LookUp) fuel)).
Proof.
  induction fuel as [| fuel IH]; intros h w Hcond.
  - exists (fst w). cbn. rewrite Hcond, app_nil_r. destruct w; reflexivity.
  - cbn [look_up_loop]. rewrite Hcond. unfold bind, super_execute.
    destruct (Hsilent (fst w)) as (e & msg & env' & Hex & Hvis & Hhor).
    rewrite Hex. cbn. rewrite Hvis. cbn [metadata_of]. unfold ret.
    rewrite Hhor.
    destruct (IH h (env', snd w ++ [CallExecute LookUp]) Hcond)
      as (env'' & Hrun).
    exists env''. rewrite Hrun. cbn [snd]. rewrite repeat_snoc_app.
    reflexivity.
Qed.

Lemma scan_stuck (fuel : nat) (w : World E) (ev : Event) (md : Metadata) :
  last_event (fst w) = Some ev ->
  metadata ev = Some md ->
  _is_object_visible (Some md) target = false ->
  (min_horizon + horizon_eps < horizon_of (Some md) 0)%Q ->
  exists env',
    scan fuel target smooth_nav w
    = (OutOfFuel, (env', snd w ++ repeat (CallExecute LookUp) fuel)).
Proof.
  intros Hev Hmd Hvis Hh.
  unfold _adjust_horizon_for_visibility, bind, get_last_event.
  rewrite Hev, Hmd, Hvis.
  destruct (up_loop_stuck fuel (horizon_of (Some md) 0) w
              (proj2 (Qltb_lt _ _) Hh)) as (env' & Hrun).
  exists env'. rewrite Hrun. reflexivity.
Qed.

End Silent.

End ScanBounds.

(** X26. The visibility scan on a camera that tilts by a fixed angle.  When
    every successful LookUp lowers the reported cameraHorizon by delta > 0
    and every successful LookDown raises it by delta, a scan started at
    tilt h on an observation with metadata ends after at most n LookUp
    calls followed by at most m LookDown calls, for any n and m with
    h - n delta <= -30 + 0.001 and h - n delta + m delta >= 90 - 0.001;
    it ends with True or with a RuntimeError, never with False. *)
Theorem scan_ends_when_camera_tilts (E : Type)
  (last_event : E -> option Executor.Event)
  (execute_action :
     Action -> bool -> E -> (bool * option Executor.Event * string) * E)
  (target : string) (smooth_nav : bool) (tilt : E -> Q) (delta : Q)
  (n m fuel : nat) (w : Executor.World E) (ev : Executor.Event)
  (md : Executor.Metadata) :
  Camera.tilts_by E execute_action tilt delta smooth_nav ->
  (0 < delta)%Q ->
  last_event (fst w) = Some ev ->
  Executor.metadata ev = Some md ->
  (Executor.horizon_of (Some md) 0 == tilt (fst w))%Q ->
  (tilt (fst w) - inject_Z (Z.of_nat n) * delta
   <= Executor.min_horizon + Executor.horizon_eps)%Q ->
  (Executor.max_horizon - Executor.horizon_eps
   <= tilt (fst w) - inject_Z (Z.of_nat n) * delta
      + inject_Z (Z.of_nat m) * delta)%Q ->
  (n <= fuel)%nat -> (m <= fuel)%nat ->
  exists r w' (up down : nat),
    Executor._adjust_horizon_for_visibility E last_event execute_action
      fuel target smooth_nav w = (r, w')
    /\ (r = Ok true \/ exists msg, r = Raise (RuntimeError msg))
    /\ snd w' = snd w ++ repeat (Executor.CallExecute LookUp) up
                      ++ repeat (Executor.CallExecute LookDown) down
    /\ (up <= n)%nat /\ (down <= m)%nat.
Proof.
  intros Hcam Hdelta Hev Hmd Hh Hn Hm Hfn Hfm.
  destruct (scan_bounded E last_event execute_action target smooth_nav
              tilt delta Hcam Hdelta n m fuel w ev md Hev Hmd Hh Hn Hm
              Hfn Hfm) as (r & w' & up & down & Hrun & Hres & Hlog & Hb).
  exists r, w', up, down. auto.
Qed.

Lemma cam_tilts_by (step : Q) (vis : Q -> bool) (smooth_nav : bool) :
  Camera.tilts_by Q (Samples.cam_execute step vis) (fun t => t) step
    smooth_nav.
Proof.
  intros a env ev msg env' Ha Hex. unfold Samples.cam_execute in Hex.
  destruct Ha as [-> | ->]; injection Hex as <- _ <-;
    (eexists; split; [reflexivity |]; split; [intros d; reflexivity |]);
    unfold Qminus; reflexivity.
Qed.

Lemma scan_ends_when_camera_tilts_witness :
  exists r w' (up down : nat),
    Samples.cam_scan 30 (fun _ => false) 4 0 = (r, w')
    /\ (r = Ok true \/ exists msg, r = Raise (RuntimeError msg))
    /\ snd w' = [] ++ repeat (Executor.CallExecute LookUp) up
                   ++ repeat (Executor.CallExecute LookDown) down
    /\ (up <= 1)%nat /\ (down <= 4)%nat.
Proof.
  apply (scan_ends_when_camera_tilts Q
           (fun t => Some (Samples.cam_event (fun _ => false) t))
           (Samples.cam_execute 30 (fun _ => false))
           Samples.mug false (fun t => t) 30 1 4 4 (0%Q, [])
           (Samples.cam_event (fun _ => false) 0)
           (Samples.meta_with 0 false Executor.RetNone)).
  - apply cam_tilts_by.
  - reflexivity.
  - reflexivity.
  - reflexivity.
  - reflexivity.
  - vm_compute. discriminate.
  - vm_compute. discriminate.
  - lia.
  - lia.
Defined.

(** X27. The scan has no step limit of its own.  On a camera whose LookUp
    always succeeds with an observation that carries no cameraHorizon and
    does not show the target, a scan started on an observation with
    metadata, the target not visible and a tilt above -30 + 0.001 never
    leaves its first loop: however long it is run, it has sent only
    LookUp calls, one per iteration, and has not returned or raised. *)
Theorem scan_keeps_looking_up_on_silent_camera (E : Type)
  (last_event : E -> option Executor.Event)
  (execute_action :
     Action -> bool -> E -> (bool * option Executor.Event * string) * E)
  (target : string) (smooth_nav : bool) (fuel : nat)
  (w : Executor.World E) (ev : Executor.Event) (md : Executor.Metadata) :
  Camera.silent E execute_action target smooth_nav ->
  last_event (fst w) = Some ev ->
  Executor.metadata ev = Some md ->
  Executor._is_object_visible (Some md) target = false ->
  (Executor.min_horizon + Executor.horizon_eps
   < Executor.horizon_of (Some md) 0)%Q ->
  exists env',
    Executor._adjust_horizon_for_visibility E last_event execute_action
      fuel target smooth_nav w
    = (OutOfFuel,
       (env', snd w ++ repeat (Executor.CallExecute LookUp) fuel)).
Proof.
  intros Hsilent Hev Hmd Hvis Hh.
  exact (scan_stuck E last_event execute_action target smooth_nav Hsilent
           fuel w ev md Hev Hmd Hvis Hh).
Qed.

Lemma scan_keeps_looking_up_on_silent_camera_witness :
  exists env',
    Executor._adjust_horizon_for_visibility nat
      (fun _ => Some Camera.bare_event) Camera.bare_execute
      7 Samples.mug false (0%nat, [])
    = (OutOfFuel,
       (env', [] ++ repeat (Executor.CallExecute LookUp) 7)).
Proof.
  apply (scan_keeps_looking_up_on_silent_camera nat
           (fun _ => Some Camera.bare_event) Camera.bare_execute
           Samples.mug false 7 (0%nat, []) Camera.bare_event
           (Executor.mkMeta None [] Executor.RetNone None)).
  - intros env. exists Camera.bare_event, EmptyString, (S env).
    repeat split; reflexivity.
  - reflexivity.
  - reflexivity.
  - reflexivity.
  - reflexivity.
Defined.

(** ** What the planners take for granted *)

Section PlannerPreconditions.
Import AStar.

Lemma cardinal_direction_none (h : Z) :
  ~ cardinal h -> cardinal_direction h = None.
Proof.
  intros Hn. unfold cardinal in Hn.
  unfold cardinal_direction, CARDINAL_DIRECTIONS. cbn [List.find fst].
  destruct (Z.eqb_spec 0 h); [lia |].
  destruct (Z.eqb_spec 90 h); [lia |].
  destruct (Z.eqb_spec 180 h); [lia |].
  destruct (Z.eqb_spec 270 h); [lia |].
  reflexivity.
Qed.

Lemma astar_heuristic_missing (nodes : NodeTable) (goal_key k : PositionKey) :
  dict_mem nodes k = false \/ dict_mem nodes goal_key = false ->
  heuristic nodes goal_key k = Raise KeyError.
Proof.
  unfold heuristic, dict_mem. intros H.
  destruct (dict_get nodes k); cbn.
  - destruct (dict_get nodes goal_key); cbn; [| reflexivity].
    destruct H; discriminate.
  - reflexivity.
Qed.

Lemma jps_heuristic_missing (nodes : NodeTable) (goal_key k : PositionKey) :
  dict_mem nodes k = false \/ dict_mem nodes goal_key = false ->
  JPS.heuristic nodes goal_key k = Raise KeyError.
Proof.
  unfold JPS.heuristic, dict_mem. intros H.
  destruct (dict_get nodes k); cbn.
  - destruct (dict_get nodes goal_key); cbn; [| reflexivity].
    destruct H; discriminate.
  - reflexivity.
Qed.

Lemma relax_present (nodes : NodeTable) (goal_key : PositionKey)
  (st : Search) (cur new : State) (t : Z) (a : Action) (hkey : PositionKey) :
  dict_mem nodes hkey = true -> dict_mem nodes goal_key = true ->
  exists st', relax nodes goal_key st cur t new a hkey = Ok st'.
Proof.
  intros Hk Hg. unfold relax.
  destruct (improves st t new); [| eauto].
  unfold heuristic.
  apply dict_mem_get in Hk as [pos ->]. apply dict_mem_get in Hg as [g ->].
  cbn. eauto.
Qed.

Lemma astar_needs_cardinal_heading (nodes : NodeTable)
  (adjacency : Adjacency) (start_key : PositionKey) (start_yaw : Z)
  (goal_key : PositionKey) :
  start_key <> goal_key ->
  dict_mem nodes start_key = true -> dict_mem nodes goal_key = true ->
  ~ cardinal start_yaw ->
  astar_actions nodes adjacency start_key start_yaw goal_key
  = Raise KeyError.
Proof.
  intros Hne Hs Hg Hyaw. unfold astar_actions.
  rewrite (proj2 (key_eqb_neq _ _) Hne).
  pose proof Hs as Hs'. pose proof Hg as Hg'.
  apply dict_mem_get in Hs' as [spos Hspos].
  apply dict_mem_get in Hg' as [gpos Hgpos].
  unfold heuristic at 1. rewrite Hspos, Hgpos. cbn [getitem].
  rewrite !rbind_Ok.
  replace (astar_fuel nodes) with (S (pred (astar_fuel nodes)))
    by (unfold astar_fuel; lia).
  cbn [astar_loop heappush heappop open_heap e_state fst].
  rewrite (proj2 (key_eqb_neq _ _) Hne).
  cbn [expand e_state e_g came_from g_score counter].
  destruct (relax_present nodes goal_key
              {| open_heap := []; came_from := ∅;
                 g_score := {[ (start_key, start_yaw) := 0 ]};
                 counter := 1 |}
              (start_key, start_yaw)
              (start_key, (start_yaw - 90) mod 360) (0 + 1) RotateLeft
              start_key Hs Hg) as [st1 ->].
  rewrite rbind_Ok.
  destruct (relax_present nodes goal_key st1 (start_key, start_yaw)
              (start_key, (start_yaw + 90) mod 360) (0 + 1) RotateRight
              start_key Hs Hg) as [st2 ->].
  rewrite rbind_Ok, (cardinal_direction_none start_yaw Hyaw).
  reflexivity.
Qed.

End PlannerPreconditions.

(** X28. What the planners take for granted.  (a) For a start equal to the
    goal both planners return the empty plan without looking at the table,
    also when the key is not in it.  (b) For a start other than the goal,
    a start or goal key that is missing from the table makes both planners
    raise KeyError before any search, and the planning step of
    [_execute_goto] with them: its fallback catches RuntimeError only.
    (c) With both keys in the table, a start heading that is not one of
    0, 90, 180, 270 makes [astar_actions] raise KeyError in its first
    expansion, whatever the adjacency holds. *)
Theorem planners_rely_on_keys_and_heading (nodes : NodeTable)
  (adjacency : Adjacency) (start_key : PositionKey) (start_yaw : Z)
  (goal_key : PositionKey) :
  (start_key = goal_key ->
   AStar.astar_actions nodes adjacency start_key start_yaw goal_key = Ok []
   /\ JPS.jps_actions nodes start_key start_yaw goal_key = Ok [])
  /\ (start_key <> goal_key ->
      dict_mem nodes start_key = false \/ dict_mem nodes goal_key = false ->
      AStar.astar_actions nodes adjacency start_key start_yaw goal_key
      = Raise KeyError
      /\ JPS.jps_actions nodes start_key start_yaw goal_key = Raise KeyError
      /\ Executor.plan_route nodes start_key start_yaw goal_key
         = Raise KeyError)
  /\ (start_key <> goal_key ->
      dict_mem nodes start_key = true -> dict_mem nodes goal_key = true ->
      ~ cardinal start_yaw ->
      AStar.astar_actions nodes adjacency start_key start_yaw goal_key
      = Raise KeyError).
Proof.
  split; [| split].
  - intros <-. unfold AStar.astar_actions, JPS.jps_actions.
    rewrite key_eqb_refl. auto.
  - intros Hne Hmiss.
    assert (Hj : JPS.jps_actions nodes start_key start_yaw goal_key
                 = Raise KeyError).
    { unfold JPS.jps_actions. rewrite (proj2 (key_eqb_neq _ _) Hne).
      rewrite (jps_heuristic_missing nodes goal_key start_key Hmiss).
      reflexivity. }
    split; [| split; [exact Hj |]].
    + unfold AStar.astar_actions. rewrite (proj2 (key_eqb_neq _ _) Hne).
      rewrite (astar_heuristic_missing nodes goal_key start_key Hmiss).
      reflexivity.
    + unfold Executor.plan_route. rewrite Hj. reflexivity.
  - apply astar_needs_cardinal_heading.
Qed.

(** ** No call after a failed call *)

Section GotoFailures.
Import Executor Replay.

Variable E : Type.
Variable env_get_reachable : E -> Event * E.
Variable env_get_poses : option string -> ActionReturn -> E -> Event * E.
Variable last_event : E -> option Event.
Variable execute_action :
  Action -> bool -> E -> (bool * option Event * string) * E.

Abbreviation goto :=
  (_execute_goto E env_get_reachable env_get_poses last_event execute_action).
Abbreviation scan :=
  (_adjust_horizon_for_visibility E last_event execute_action).
Abbreviation up_loop := (look_up_loop E execute_action).
Abbreviation down_loop := (look_down_loop E execute_action).
Abbreviation rep :=
  (replay E env_get_reachable env_get_poses execute_action).
Abbreviation acting :=
  (acts E env_get_reachable env_get_poses execute_action).

Abbreviation fine := stops_at_failure.

Lemma replay_app (smooth_nav : bool) (l1 l2 : list Call) :
  forall env env1 f1 env2 f2,
    rep smooth_nav env l1 = (env1, f1) ->
    rep smooth_nav env1 l2 = (env2, f2) ->
    rep smooth_nav env (l1 ++ l2) = (env2, f1 ++ f2).
Proof.
  induction l1 as [| c l1 IH]; intros env env1 f1 env2 f2 H1 H2.
  - injection H1 as <- <-. exact H2.
  - cbn [replay app] in *.
    destruct (replay_call E env_get_reachable env_get_poses execute_action
                smooth_nav env c) as [e1 ok].
    destruct (rep smooth_nav e1 l1) as [e2 f] eqn:Hr.
    injection H1 as <- <-. rewrite (IH _ _ _ _ _ Hr H2). reflexivity.
Qed.

Lemma all_ok_app (f1 f2 : list bool) :
  all_ok f1 -> all_ok f2 -> all_ok (f1 ++ f2).
Proof. unfold all_ok. intros H1 H2. apply Forall_app. auto. Qed.

Lemma ends_failed_app (f1 f2 : list bool) :
  all_ok f1 -> ends_failed f2 -> ends_failed (f1 ++ f2).
Proof.
  intros H1 (front & Hfront & ->). exists (f1 ++ front).
  split; [apply all_ok_app; assumption | apply app_assoc].
Qed.

Lemma halts_app {A B : Type} (a : A) (r : Result B) (f1 f2 : list bool) :
  halts_on_failure (Ok a) f1 -> halts_on_failure r f2 ->
  halts_on_failure r (f1 ++ f2).
Proof.
  intros [H1 | (_ & e & He)] H2; [| discriminate He].
  destruct H2 as [H2 | (H2 & He)].
  - left. apply all_ok_app; assumption.
  - right. split; [apply ends_failed_app; assumption | exact He].
Qed.

Lemma acts_bind {A B : Type} (smooth_nav : bool)
  (Q1 : Result A -> list bool -> Prop)
  (Q2 : A -> Result B -> list bool -> Prop)
  (R : Result B -> list bool -> Prop)
  (m : Exec E A) (k : A -> Exec E B) :
  acting smooth_nav Q1 m ->
  (forall a, acting smooth_nav (Q2 a) (k a)) ->
  (forall a f1 r f2, Q1 (Ok a) f1 -> Q2 a r f2 -> R r (f1 ++ f2)) ->
  (forall e f, Q1 (Raise e) f -> R (Raise e) f) ->
  (forall f, Q1 OutOfFuel f -> R OutOfFuel f) ->
  acting smooth_nav R (bind E m k).
Proof.
  intros Hm Hk Hok Hraise Hfuel w r w' H.
  apply (bind_inv E) in H as [(a & w1 & H1 & H2) | [(e & H1 & ->) | [H1 ->]]].
  - destruct (Hm _ _ _ H1) as (l1 & f1 & Hl1 & Hr1 & HQ1).
    destruct (Hk a _ _ _ H2) as (l2 & f2 & Hl2 & Hr2 & HQ2).
    exists (l1 ++ l2), (f1 ++ f2).
    split; [rewrite Hl2, Hl1, app_assoc; reflexivity |].
    split; [exact (replay_app smooth_nav l1 l2 _ _ _ _ _ Hr1 Hr2) |].
    eapply Hok; eassumption.
  - destruct (Hm _ _ _ H1) as (l1 & f1 & Hl1 & Hr1 & HQ1).
    exists l1, f1. auto.
  - destruct (Hm _ _ _ H1) as (l1 & f1 & Hl1 & Hr1 & HQ1).
    exists l1, f1. auto.
Qed.

Lemma acts_halts_bind {A B : Type} (smooth_nav : bool)
  (m : Exec E A) (k : A -> Exec E B) :
  acting smooth_nav halts_on_failure m ->
  (forall a, acting smooth_nav halts_on_failure (k a)) ->
  acting smooth_nav halts_on_failure (bind E m k).
Proof.
  intros Hm Hk.
  apply (acts_bind smooth_nav halts_on_failure
           (fun _ => halts_on_failure) halts_on_failure m k Hm Hk).
  - intros a f1 r f2. apply halts_app.
  - intros e f [H | (H & e' & _)]; [left; exact H | right; eauto].
  - intros f [H | (_ & e' & He)]; [left; exact H | discriminate He].
Qed.

Lemma acts_fine_bind {A : Type} (smooth_nav : bool)
  (m : Exec E A) (k : A -> Exec E (bool * option Event * string)) :
  acting smooth_nav halts_on_failure m ->
  (forall a, acting smooth_nav fine (k a)) ->
  acting smooth_nav fine (bind E m k).
Proof.
  intros Hm Hk.
  apply (acts_bind smooth_nav halts_on_failure (fun _ => fine) fine m k
           Hm Hk).
  - intros a f1 r f2 [H1 | (_ & e & He)] H2; [| discriminate He].
    destruct H2 as [H2 | (H2 & Hr)].
    + left. apply all_ok_app; assumption.
    + right. split; [apply ends_failed_app; assumption | exact Hr].
  - intros e f [H | (H & _)]; [left; exact H |].
    right. split; [exact H | discriminate].
  - intros f [H | (_ & e' & He)]; [left; exact H | discriminate He].
Qed.

Lemma acts_quiet {A : Type} (smooth_nav : bool)
  (Q : Result A -> list bool -> Prop) (m : Exec E A) :
  (forall w, exists r, m w = (r, w) /\ Q r []) ->
  acting smooth_nav Q m.
Proof.
  intros Hm w r w' H. destruct (Hm w) as (r0 & H0 & HQ).
  rewrite H0 in H. injection H as <- <-.
  exists [], []. rewrite app_nil_r. cbn. split; [reflexivity |].
  split; [destruct w; reflexivity | exact HQ].
Qed.

Lemma all_ok_nil : all_ok [].
Proof. constructor. Qed.

Lemma acts_halts_ret {A : Type} (smooth_nav : bool) (a : A) :
  acting smooth_nav halts_on_failure (ret E a).
Proof.
  apply acts_quiet. intros w. eexists. split; [reflexivity |].
  left. apply all_ok_nil.
Qed.

Lemma acts_halts_raise {A : Type} (smooth_nav : bool) (e : Exn) :
  acting smooth_nav halts_on_failure (raise E (A:=A) e).
Proof.
  apply acts_quiet. intros w. eexists. split; [reflexivity |].
  left. apply all_ok_nil.
Qed.

Lemma acts_halts_lift {A : Type} (smooth_nav : bool) (x : Result A) :
  acting smooth_nav halts_on_failure (lift E x).
Proof.
  apply acts_quiet. intros w. eexists. split; [reflexivity |].
  left. apply all_ok_nil.
Qed.

Lemma acts_halts_last_event (smooth_nav : bool) :
  acting smooth_nav halts_on_failure (get_last_event E last_event).
Proof.
  apply acts_quiet. intros w. eexists. split; [reflexivity |].
  left. apply all_ok_nil.
Qed.

Lemma acts_halts_metadata_of (smooth_nav : bool) (ev : option Event) :
  acting smooth_nav halts_on_failure (metadata_of E ev).
Proof.
  destruct ev; [apply acts_halts_ret | apply acts_halts_raise].
Qed.

Lemma acts_halts_step_reachable (smooth_nav : bool) :
  acting smooth_nav halts_on_failure (step_reachable E env_get_reachable).
Proof.
  intros w r w' H. unfold step_reachable in H.
  destruct (env_get_reachable (fst w)) as [ev env'] eqn:Hq.
  injection H as <- <-.
  exists [CallGetReachablePositions], [true]. split; [reflexivity |].
  split; [cbn; rewrite Hq; reflexivity |].
  left. repeat constructor.
Qed.

Lemma acts_halts_step_poses (smooth_nav : bool) (target : option string)
  (positions : ActionReturn) :
  acting smooth_nav halts_on_failure
    (step_poses E env_get_poses target positions).
Proof.
  intros w r w' H. unfold step_poses in H.
  destruct (env_get_poses target positions (fst w)) as [ev env'] eqn:Hq.
  injection H as <- <-.
  exists [CallGetInteractablePoses target positions], [true].
  split; [reflexivity |].
  split; [cbn; rewrite Hq; reflexivity |].
  left. repeat constructor.
Qed.

Lemma halts_after_success {A : Type} (r : Result A) (f : list bool) :
  halts_on_failure r f -> halts_on_failure r (true :: f).
Proof.
  intros [H | ((front & Hfront & ->) & He)].
  - left. constructor; [reflexivity | exact H].
  - right. split; [| exact He]. exists (true :: front).
    split; [constructor; [reflexivity | exact Hfront] | reflexivity].
Qed.

Lemma acts_up_loop (smooth_nav : bool) (target : string) (fuel : nat) :
  forall h : Q,
    acting smooth_nav halts_on_failure (up_loop fuel target smooth_nav h).
Proof.
  induction fuel as [| fuel IH]; intros h; cbn [look_up_loop];
    destruct (Qltb (min_horizon + horizon_eps) h);
    try apply acts_halts_ret; try apply acts_halts_lift.
  intros w r w' H. unfold bind, super_execute in H.
  destruct (execute_action LookUp smooth_nav (fst w))
    as [[[ok ev] msg] env'] eqn:Hex.
  destruct ok; cbn in H.
  - destruct (event_visible ev target).
    + injection H as <- <-. exists [CallExecute LookUp], [true].
      split; [reflexivity |]. split; [cbn; rewrite Hex; reflexivity |].
      left. repeat constructor.
    + destruct ev as [e |]; cbn in H.
      * apply IH in H as (l & f & Hl & Hr & HQ). cbn [fst snd] in Hl, Hr.
        exists (CallExecute LookUp :: l), (true :: f).
        split; [rewrite Hl, <- app_assoc; reflexivity |].
        split; [cbn; rewrite Hex; cbn; rewrite Hr; reflexivity |].
        apply halts_after_success. exact HQ.
      * injection H as <- <-. exists [CallExecute LookUp], [true].
        split; [reflexivity |]. split; [cbn; rewrite Hex; reflexivity |].
        left. repeat constructor.
  - injection H as <- <-. exists [CallExecute LookUp], [false].
    split; [reflexivity |]. split; [cbn; rewrite Hex; reflexivity |].
    right. split; [exists []; split; [constructor | reflexivity] | eauto].
Qed.

Lemma acts_down_loop (smooth_nav : bool) (target : string) (fuel : nat) :
  forall h : Q,
    acting smooth_nav halts_on_failure (down_loop fuel target smooth_nav h).
Proof.
  induction fuel as [| fuel IH]; intros h; cbn [look_down_loop];
    destruct (Qltb h (max_horizon - horizon_eps));
    try apply acts_halts_raise; try apply acts_halts_lift.
  intros w r w' H. unfold bind, super_execute in H.
  destruct (execute_action LookDown smooth_nav (fst w))
    as [[[ok ev] msg] env'] eqn:Hex.
  destruct ok; cbn in H.
  - destruct (event_visible ev target).
    + injection H as <- <-. exists [CallExecute LookDown], [true].
      split; [reflexivity |]. split; [cbn; rewrite Hex; reflexivity |].
      left. repeat constructor.
    + destruct ev as [e |]; cbn in H.
      * apply IH in H as (l & f & Hl & Hr & HQ). cbn [fst snd] in Hl, Hr.
        exists (CallExecute LookDown :: l), (true :: f).
        split; [rewrite Hl, <- app_assoc; reflexivity |].
        split; [cbn; rewrite Hex; cbn; rewrite Hr; reflexivity |].
        apply halts_after_success. exact HQ.
      * injection H as <- <-. exists [CallExecute LookDown], [true].
        split; [reflexivity |]. split; [cbn; rewrite Hex; reflexivity |].
        left. repeat constructor.
  - injection H as <- <-. exists [CallExecute LookDown], [false].
    split; [reflexivity |]. split; [cbn; rewrite Hex; reflexivity |].
    right. split; [exists []; split; [constructor | reflexivity] | eauto].
Qed.

Lemma acts_scan (smooth_nav : bool) (fuel : nat) (target : string) :
  acting smooth_nav halts_on_failure (scan fuel target smooth_nav).
Proof.
  unfold _adjust_horizon_for_visibility.
  apply acts_halts_bind; [apply acts_halts_last_event |].
  intros [ev |]; [| apply acts_halts_ret].
  destruct (metadata ev) as [md |]; [| apply acts_halts_ret].
  destruct (_is_object_visible (Some md) target); [apply acts_halts_ret |].
  apply acts_halts_bind; [apply acts_up_loop |].
  intros [b | h]; [apply acts_halts_ret | apply acts_down_loop].
Qed.

Lemma acts_run_plan (smooth_nav : bool) (actions : list Action) :
  forall acc,
    acting smooth_nav
      (fun r f => exists res,
           r = Ok res
           /\ ((all_ok f /\ (fst (fst res) = true \/ res = acc))
               \/ (ends_failed f /\ fst (fst res) = false)))
      (run_plan E execute_action smooth_nav actions acc).
Proof.
  induction actions as [| a actions IH]; intros acc w r w' H.
  - injection H as <- <-. exists [], []. rewrite app_nil_r.
    split; [reflexivity |]. split; [destruct w; reflexivity |].
    exists acc. split; [reflexivity |]. left. split; [constructor | auto].
  - cbn [run_plan] in H.
    unfold bind, _dispatch_nav_action, super_execute in H.
    destruct (execute_action a smooth_nav (fst w))
      as [[[ok ev] msg] env'] eqn:Hex.
    destruct ok; cbn in H.
    + apply IH in H as (l & f & Hl & Hr & res & -> & HQ).
      cbn [fst snd] in Hl, Hr.
      exists (CallExecute a :: l), (true :: f).
      split; [rewrite Hl, <- app_assoc; reflexivity |].
      split; [cbn; rewrite Hex; cbn; rewrite Hr; reflexivity |].
      exists res. split; [reflexivity |].
      destruct HQ as [[Hall Hres] | [(front & Hfront & ->) Hres]].
      * left. split; [constructor; [reflexivity | exact Hall] |].
        left. destruct Hres as [Hres | ->]; [exact Hres | reflexivity].
      * right. split; [| exact Hres]. exists (true :: front).
        split; [constructor; [reflexivity | exact Hfront] | reflexivity].
    + injection H as <- <-. exists [CallExecute a], [false].
      split; [reflexivity |]. split; [cbn; rewrite Hex; reflexivity |].
      eexists. split; [reflexivity |]. right.
      split; [exists []; split; [constructor | reflexivity] | reflexivity].
Qed.

Lemma acts_run_turns (smooth_nav : bool) (turns : list Action) :
  forall acc,
    acting smooth_nav
      (fun r f => exists t,
           r = Ok t
           /\ match t with
              | inl early => ends_failed f /\ fst (fst early) = false
              | inr r2 => all_ok f
              end)
      (run_turns E execute_action smooth_nav turns acc).
Proof.
  induction turns as [| a turns IH]; intros acc w r w' H.
  - injection H as <- <-. exists [], []. rewrite app_nil_r.
    split; [reflexivity |]. split; [destruct w; reflexivity |].
    exists (inr acc). split; [reflexivity | constructor].
  - cbn [run_turns] in H. unfold bind, super_execute in H.
    destruct (execute_action a smooth_nav (fst w))
      as [[[ok ev] msg] env'] eqn:Hex.
    destruct ok; cbn in H.
    + apply IH in H as (l & f & Hl & Hr & t & -> & HQ).
      cbn [fst snd] in Hl, Hr.
      exists (CallExecute a :: l), (true :: f).
      split; [rewrite Hl, <- app_assoc; reflexivity |].
      split; [cbn; rewrite Hex; cbn; rewrite Hr; reflexivity |].
      exists t. split; [reflexivity |].
      destruct t as [early | r2].
      * destruct HQ as [(front & Hfront & ->) Hres]. split; [| exact Hres].
        exists (true :: front).
        split; [constructor; [reflexivity | exact Hfront] | reflexivity].
      * constructor; [reflexivity | exact HQ].
    + injection H as <- <-. exists [CallExecute a], [false].
      split; [reflexivity |]. split; [cbn; rewrite Hex; reflexivity |].
      eexists. split; [reflexivity |]. cbn.
      split; [exists []; split; [constructor | reflexivity] | reflexivity].
Qed.

Lemma acts_halts_fine (smooth_nav : bool)
  (m : Exec E (bool * option Event * string)) :
  acting smooth_nav halts_on_failure m -> acting smooth_nav fine m.
Proof.
  intros Hm w r w' H. destruct (Hm w r w' H) as (l & f & Hl & Hr & HQ).
  exists l, f. split; [exact Hl |]. split; [exact Hr |].
  destruct HQ as [HQ | (HQ & e & ->)]; [left; exact HQ |].
  right. split; [exact HQ | discriminate].
Qed.

Ltac halts_steps :=
  repeat first
    [ apply acts_halts_ret
    | apply acts_halts_raise
    | apply acts_halts_lift
    | apply acts_halts_last_event
    | apply acts_halts_metadata_of
    | apply acts_scan
    | apply acts_halts_bind; [| intros ?]
    | match goal with
      | |- acts _ _ _ _ _ _ (match ?x with _ => _ end) => destruct x
      end ].

Ltac fine_step :=
  apply acts_fine_bind;
  [ first [ apply acts_halts_last_event | apply acts_halts_lift
          | apply acts_halts_metadata_of | apply acts_halts_step_reachable
          | apply acts_halts_step_poses ]
  | intros ? ].

Lemma goto_acts (fuel : nat) (target : option string) (smooth_nav : bool) :
  acting smooth_nav fine (goto fuel target smooth_nav).
Proof.
  unfold _execute_goto.
  fine_step.
  match goal with
  | |- acts _ _ _ _ _ _ (match ?x with _ => _ end) => destruct x
  end.
  2: { apply acts_halts_fine. halts_steps. }
  fine_step. fine_step. fine_step.
  match goal with
  | |- acts _ _ _ _ _ _ (match ?x with _ => _ end) =>
    destruct x as [[target_position |] |]
  end.
  2: { apply acts_halts_fine. halts_steps. }
  2: { apply acts_halts_fine. halts_steps. }
  fine_step. fine_step. fine_step. fine_step. fine_step.
  eapply acts_bind; [apply acts_run_plan | | | |].
  - intros r.
    instantiate (1 := fun r r' f2 =>
      (fst (fst r) = false /\ f2 = [] /\ r' = Ok r)
      \/ (fst (fst r) = true /\ fine r' f2)).
    cbv beta.
    destruct (fst (fst r)) eqn:Hok; cbn [negb].
    + (* the plan ran to its end *)
      assert (Hgoal : forall mm : Exec E (bool * option Event * string),
                 acting smooth_nav fine mm ->
                 acting smooth_nav
                   (fun r' f2 =>
                      (true = false /\ f2 = [] /\ r' = Ok r)
                      \/ (true = true /\ fine r' f2)) mm).
      { intros mm Hm w r' w' H.
        destruct (Hm w r' w' H) as (l & f & Hl & Hr & HQ).
        exists l, f. auto. }
      apply Hgoal. clear Hgoal.
      fine_step. fine_step. fine_step. fine_step. fine_step.
      eapply acts_bind; [apply acts_run_turns | | | |].
      * intros t.
        instantiate (1 := fun t r' f2 =>
          match t with
          | inl early => f2 = [] /\ r' = Ok early
          | inr _ => halts_on_failure r' f2
          end).
        cbv beta. destruct t as [early | r2].
        -- apply acts_quiet. intros w. eexists. split; [reflexivity |]. auto.
        -- halts_steps.
      * intros t f1 r' f2 (t' & [= <-] & Ht) Hk. destruct t as [early | r2].
        -- destruct Ht as [Hf Hfalse]. destruct Hk as [-> ->].
           rewrite app_nil_r. right. split; [exact Hf |].
           intros ev err [= ->]. cbn in Hfalse. discriminate Hfalse.
        -- destruct Hk as [Hk | (Hk & e & ->)].
           ++ left. apply all_ok_app; assumption.
           ++ right. split; [apply ends_failed_app; assumption |].
              discriminate.
      * intros e f (t & Ht & _). discriminate Ht.
      * intros f (t & Ht & _). discriminate Ht.
    + apply acts_quiet. intros w. eexists. split; [reflexivity |]. auto.
  - intros x f1 r' f2 (res & [= <-] & HQ1) HQ2.
    destruct HQ2 as [(Hfalse & -> & ->) | (Htrue & Hfine)].
    + rewrite app_nil_r.
      destruct HQ1 as [[Hall [Hres | ->]] | [Hf _]].
      * congruence.
      * cbn in Hfalse. discriminate.
      * right. split; [exact Hf |]. intros ev err [= ->].
        cbn in Hfalse. discriminate Hfalse.
    + destruct HQ1 as [[Hall _] | [_ Hres]]; [| congruence].
      destruct Hfine as [H2 | (H2 & Hr)].
      * left. apply all_ok_app; assumption.
      * right. split; [apply ends_failed_app; assumption | exact Hr].
  - intros e f (res & Hres & _). discriminate Hres.
  - intros f (res & Hres & _). discriminate Hres.
Qed.

End GotoFailures.

(** X29. No call follows a failed call.  Made again in order on the
    starting environment, the calls logged by one [_execute_goto] lead to
    the environment the request leaves behind, and either every one of
    them succeeded, or the last one failed, every one before it succeeded
    and the request did not return success: after a failed motion
    primitive, alignment turn, LookUp or LookDown nothing more is sent, and
    a request that returns success has had no failed call.  This holds
    for every environment and however the request ends. *)
Theorem goto_sends_nothing_after_a_failure (E : Type)
  (env_get_reachable : E -> Executor.Event * E)
  (env_get_poses :
     option string -> Executor.ActionReturn -> E -> Executor.Event * E)
  (last_event : E -> option Executor.Event)
  (execute_action :
     Action -> bool -> E -> (bool * option Executor.Event * string) * E)
  (fuel : nat) (target : option string) (smooth_nav : bool)
  (w : Executor.World E) :
  let out := Executor._execute_goto E env_get_reachable env_get_poses
               last_event execute_action fuel target smooth_nav w in
  exists l flags,
    snd (snd out) = snd w ++ l
    /\ Replay.replay E env_get_reachable env_get_poses execute_action
         smooth_nav (fst w) l = (fst (snd out), flags)
    /\ (Forall (eq true) flags
        \/ exists front,
             Forall (eq true) front
             /\ flags = front ++ [false]
             /\ forall ev err, fst out <> Ok (true, ev, err)).
Proof.
  intros out.
  destruct (Executor._execute_goto E env_get_reachable env_get_poses
              last_event execute_action fuel target smooth_nav w)
    as [r w'] eqn:H.
  subst out. cbn [fst snd].
  destruct (goto_acts E env_get_reachable env_get_poses last_event
              execute_action fuel target smooth_nav w r w' H)
    as (l & flags & Hl & Hr & Hfine).
  exists l, flags. split; [exact Hl |]. split; [exact Hr |].
  destruct Hfine as [Hall | ((front & Hfront & ->) & Hno)].
  - left. exact Hall.
  - right. exists front. auto.
Qed.
